(** * finance-data: the filing parser, the analyst-data reader and the
      price-history alignment, embedded and verified

    The repository has three independent readers:
    - [sec.py]: [SECFiling] / [Filing13D], regular-expression extraction
      from SEC filing headers and documents;
    - [tipranks.py]: [TipranksReader], reshaping and sorting one JSON
      payload;
    - [yahoo.py]: [YahooReader.historical_data], alignment of price bars
      with dividend and split events.

    Python values are embedded as follows.  A [str] is a list of 8-bit
    characters, the code points below 256 with the white space and the
    letter cases that Python gives them; an [int] is a [Z]; a [float] is an IEEE-754 binary64 value
    ([spec_float] with precision 53); [None] is a constructor of its own;
    an exception is a value of [exn] carried by [result]. *)

From Stdlib Require Import ZArith Ascii String Floats.SpecFloat Lia.
From stdpp Require Import base option list strings pretty gmap sorting.

Local Open Scope Z_scope.

(** ** Exceptions and results *)

Inductive exn :=
| IndexError
| KeyError (k : string)
| TypeError
| ValueError (msg : string)
| ZeroDivisionError
| OverflowError
| InvalidIndexError.

Inductive result (A : Type) :=
| Ok (a : A)
| Raise (e : exn).
Arguments Ok {A} a.
Arguments Raise {A} e.

#[global] Instance result_ret : MRet result := fun _ a => Ok a.
#[global] Instance result_bind : MBind result := fun _ _ f m =>
  match m with
  | Ok a => f a
  | Raise e => Raise e
  end.
#[global] Instance result_fmap : FMap result := fun _ _ f m =>
  match m with
  | Ok a => Ok (f a)
  | Raise e => Raise e
  end.

(** [try: ... except: ...] with a bare [except]. *)
Definition try_except {A} (m : result A) (handler : A) : A :=
  match m with
  | Ok a => a
  | Raise _ => handler
  end.

Fixpoint rmap_list {A B} (f : A -> result B) (l : list A) : result (list B) :=
  match l with
  | [] => Ok []
  | x :: l' => y ← f x; ys ← rmap_list f l'; Ok (y :: ys)
  end.

(** ** Python strings *)

Module PyStr.

Abbreviation str := (list ascii).

Definition lit (s : string) : str := list_ascii_of_string s.

Definition code (c : ascii) : Z := Z.of_N (N_of_ascii c).

Definition chr_eqb (a b : ascii) : bool := Ascii.eqb a b.

Definition in_range (lo hi : Z) (c : ascii) : bool :=
  (lo <=? code c) && (code c <=? hi).

Definition is_digit : ascii -> bool := in_range 48 57.
Definition is_upper : ascii -> bool := in_range 65 90.
Definition is_lower : ascii -> bool := in_range 97 122.
(** [str.isspace] on the code points below 256. *)
Definition is_space (c : ascii) : bool :=
  in_range 9 13 c || in_range 28 32 c || (code c =? 133) || (code c =? 160).

(** The letters of Latin-1 that have two cases: the capitals are the
    ASCII ones and the code points 192-222 without the multiplication
    sign, the small letters stand 32 places above them. *)
Definition is_capital (c : ascii) : bool :=
  is_upper c || (in_range 192 222 c && negb (code c =? 215)).
Definition is_small (c : ascii) : bool :=
  is_lower c || (in_range 224 254 c && negb (code c =? 247)).

(** The cased characters below 256: the capitals, the small letters, the
    two ordinal indicators, the micro sign, the sharp s and the y with
    diaeresis. *)
Definition is_cased (c : ascii) : bool :=
  is_capital c || is_small c || (code c =? 170) || (code c =? 181)
  || (code c =? 186) || (code c =? 223) || (code c =? 255).

(** [str.lower] character by character. *)
Definition lower_chr (c : ascii) : ascii :=
  if is_capital c then ascii_of_N (N_of_ascii c + 32) else c.
Definition upper_chr (c : ascii) : ascii :=
  if is_small c then ascii_of_N (N_of_ascii c - 32) else c.

Definition lower (s : str) : str := map lower_chr s.

(** [str.upper]: the sharp s becomes [SS].  The capitals of the micro sign
    and of the y with diaeresis lie above 255, see [has_title_case]
    below. *)
Definition upper (s : str) : str :=
  flat_map (fun c => if code c =? 223 then ["S"%char; "S"%char]
                     else [upper_chr c]) s.

(** The title case of a character: the capital of a small letter, [Ss]
    for the sharp s.  The title case of the micro sign and of the y with
    diaeresis lies above 255 and is no character of this embedding;
    [has_title_case] is false of these two, which [title_chr] leaves as
    they are. *)
Definition has_title_case (c : ascii) : bool :=
  negb ((code c =? 181) || (code c =? 255)).
Definition title_chr (c : ascii) : str :=
  if code c =? 223 then ["S"%char; "s"%char] else [upper_chr c].

(** [str.title]: a character that follows an uncased one is put in title
    case, a character that follows a cased one is lower-cased. *)
Fixpoint title_go (prev_cased : bool) (s : str) : str :=
  match s with
  | [] => []
  | c :: s' =>
      (if prev_cased then [lower_chr c] else title_chr c)
        ++ title_go (is_cased c) s'
  end.
Definition title (s : str) : str := title_go false s.

Fixpoint lstrip (s : str) : str :=
  match s with
  | c :: s' => if is_space c then lstrip s' else s
  | [] => []
  end.
Definition rstrip (s : str) : str := rev (lstrip (rev s)).
Definition strip (s : str) : str := rstrip (lstrip s).

Definition len (s : str) : Z := Z.of_nat (length s).

Fixpoint take_while (p : ascii -> bool) (s : str) : str :=
  match s with
  | c :: s' => if p c then c :: take_while p s' else []
  | [] => []
  end.
Fixpoint drop_while (p : ascii -> bool) (s : str) : str :=
  match s with
  | c :: s' => if p c then drop_while p s' else s
  | [] => []
  end.

Fixpoint startswith (s p : str) {struct p} : bool :=
  match p, s with
  | [], _ => true
  | a :: p', b :: s' => chr_eqb a b && startswith s' p'
  | _ :: _, [] => false
  end.

Definition endswith (s p : str) : bool := startswith (rev s) (rev p).

(** [s.find(sub)]: the lowest index at which [sub] begins, [-1] when it
    occurs nowhere. *)
Fixpoint find_from (i : Z) (s sub : str) : Z :=
  if startswith s sub then i
  else match s with
       | [] => -1
       | _ :: s' => find_from (i + 1) s' sub
       end.
Definition find (s sub : str) : Z := find_from 0 s sub.

Definition contains (s sub : str) : bool := negb (find s sub =? -1).

(** Slice bounds: a negative bound counts from the end, and both bounds
    are clamped to [0, len]. *)
Definition clamp (n i : Z) : Z :=
  if i <? 0 then Z.max 0 (i + n) else Z.min i n.

(** [s[lo:hi]]; an omitted bound is [None]. *)
Definition slice (s : str) (lo hi : option Z) : str :=
  let n := len s in
  let a := from_option (clamp n) 0 lo in
  let b := from_option (clamp n) n hi in
  take (Z.to_nat (b - a)) (drop (Z.to_nat a) s).

(** [s.split(sep)] for a non-empty [sep]: the separators are found left to
    right without overlap.  [split_go] returns the piece under
    construction and the pieces after it; [skip] counts the characters of
    a matched separator that are still to be passed over. *)
Fixpoint split_go (sep s : str) (skip : nat) : str * list str :=
  match s with
  | [] => ([], [])
  | c :: s' =>
      match skip with
      | S k => split_go sep s' k
      | O =>
          if startswith s sep
          then ([], uncurry cons (split_go sep s' (length sep - 1)))
          else let r := split_go sep s' 0 in (c :: r.1, r.2)
      end
  end.
Definition split (s sep : str) : list str := uncurry cons (split_go sep s 0).

(** [sep.join(pieces)]. *)
Fixpoint join (sep : str) (pieces : list str) : str :=
  match pieces with
  | [] => []
  | [p] => p
  | p :: ps => p ++ sep ++ join sep ps
  end.

(** [s.replace(old, new)] for a non-empty [old]. *)
Definition replace (s old new : str) : str := join new (split s old).

(** [s.split()]: the maximal runs of characters that are not white
    space. *)
Fixpoint words_go (s cur : str) : list str :=
  match s with
  | [] => match cur with [] => [] | _ => [rev cur] end
  | c :: s' =>
      if is_space c
      then match cur with
           | [] => words_go s' []
           | _ => rev cur :: words_go s' []
           end
      else words_go s' (c :: cur)
  end.
Definition words (s : str) : list str := words_go s [].

(** [int(s)] for a string of decimal digits: the empty string is not a
    literal, and a string of more than 4300 digits exceeds the limit the
    interpreter sets for the conversion. *)
Definition digit_val (c : ascii) : Z := code c - 48.
Definition int_digits (s : str) : Z :=
  fold_left (fun acc c => 10 * acc + digit_val c) s 0.
Definition int_max_str_digits : Z := 4300.
Definition int_ (s : str) : result Z :=
  match s with
  | [] => Raise (ValueError "invalid literal for int() with base 10")
  | _ =>
      if int_max_str_digits <? len s
      then Raise (ValueError
                    "Exceeds the limit (4300 digits) for integer string conversion")
      else Ok (int_digits s)
  end.

(** [max(xs, key=key)]: the first element whose key is largest. *)
Fixpoint max_go {A} (key : A -> Z) (best : A) (xs : list A) : A :=
  match xs with
  | [] => best
  | x :: xs' => max_go key (if key best <? key x then x else best) xs'
  end.
Definition max_ {A} (key : A -> Z) (xs : list A) : result A :=
  match xs with
  | [] => Raise (ValueError "max() arg is an empty sequence")
  | x :: xs' => Ok (max_go key x xs')
  end.

End PyStr.

(** ** Regular expressions

    The patterns of [sec.py] are built from literals, character classes,
    bounded and unbounded repetition of a class (greedy or lazy), one
    alternation and capture groups.  [run] lists the ways a pattern can
    match at the start of a string in the order a backtracking matcher
    tries them, so the head of the list is the match Python's [re]
    reports. *)

Module Re.
Import PyStr.

Inductive re :=
| Eps
| Chr (p : ascii -> bool)
| Seq (r1 r2 : re)
| Alt (r1 r2 : re)
| Rep (greedy : bool) (lo : nat) (hi : option nat) (p : ascii -> bool)
| Grp (r : re).

(** The remainders left after consuming 0, 1, 2, ... characters of the
    class [p], shortest consumption first. *)
Fixpoint tails_while (p : ascii -> bool) (s : str) : list str :=
  s :: match s with
       | c :: s' => if p c then tails_while p s' else []
       | [] => []
       end.

Definition rep_choices (greedy : bool) (lo : nat) (hi : option nat)
    (p : ascii -> bool) (s : str) : list str :=
  let all := drop lo (tails_while p s) in
  let sel := match hi with
             | Some h => take (S h - lo) all
             | None => all
             end in
  if greedy then rev sel else sel.

(** The text consumed between [s] and its suffix [rest]. *)
Definition matched (s rest : str) : str :=
  take (length s - length rest) s.

(** A match state is the list of closed groups and the remaining text. *)
Fixpoint run (r : re) (caps : list str) (s : str) : list (list str * str) :=
  match r with
  | Eps => [(caps, s)]
  | Chr p =>
      match s with
      | c :: s' => if p c then [(caps, s')] else []
      | [] => []
      end
  | Seq a b => m ← run a caps s; run b m.1 m.2
  | Alt a b => run a caps s ++ run b caps s
  | Rep g lo hi p => (fun s' => (caps, s')) <$> rep_choices g lo hi p s
  | Grp a => (fun m => (m.1 ++ [matched s m.2], m.2)) <$> run a caps s
  end.

Definition match_at (r : re) (s : str) : option (list str * str) :=
  head (run r [] s).

(** [re.search]: the match at the leftmost position that has one. *)
Fixpoint search (r : re) (s : str) : option (list str * str) :=
  match match_at r s with
  | Some m => Some m
  | None =>
      match s with
      | [] => None
      | _ :: s' => search r s'
      end
  end.

(** [re.findall]: the groups of the successive non-overlapping matches.
    [skip] counts the characters of the last match still to be passed
    over. *)
Fixpoint findall_go (r : re) (s : str) (skip : nat) : list (list str) :=
  match s with
  | [] =>
      match skip, match_at r [] with
      | O, Some m => [m.1]
      | _, _ => []
      end
  | _ :: s' =>
      match skip with
      | S k => findall_go r s' k
      | O =>
          match match_at r s with
          | Some m => m.1 :: findall_go r s' (length s' - length m.2)
          | None => findall_go r s' 0
          end
      end
  end.
Definition findall (r : re) (s : str) : list (list str) := findall_go r s 0.

(** [findall(...)] of a pattern with a single group lists that group. *)
Definition group (n : nat) (caps : list str) : str := default [] (caps !! n).
Definition findall1 (r : re) (s : str) : list str := group 0 <$> findall r s.
Definition findall2 (r : re) (s : str) : list (str * str) :=
  (fun caps => (group 0 caps, group 1 caps)) <$> findall r s.

(** [xs[0]]. *)
Definition first {A} (xs : list A) : result A :=
  match xs with
  | x :: _ => Ok x
  | [] => Raise IndexError
  end.

(** Pattern syntax. *)
Definition chr (c : ascii) : re := Chr (chr_eqb c).
Definition ichr (c : ascii) : re :=
  Chr (fun x => chr_eqb (lower_chr x) (lower_chr c)).
Definition seqs (rs : list re) : re := foldr Seq Eps rs.
Definition text (s : string) : re := seqs (chr <$> lit s).
Definition itext (s : string) : re := seqs (ichr <$> lit s).
Definition dot (c : ascii) : bool := negb (chr_eqb c "010").
Definition plus (p : ascii -> bool) : re := Rep true 1 None p.
Definition star (p : ascii -> bool) : re := Rep true 0 None p.
Definition star_lazy (p : ascii -> bool) : re := Rep false 0 None p.
Definition opt (p : ascii -> bool) : re := Rep true 0 (Some 1%nat) p.
Definition times (n : nat) (p : ascii -> bool) : re := Rep true n (Some n) p.
Definition tab : ascii -> bool := chr_eqb "009".

End Re.

(** ** Python floats

    A [float] is a binary64 value.  Conversions and division round to
    nearest, ties to even, as [SFdiv] does on the exact quotient of two
    integers. *)

Module Float64.
Import PyStr.

Abbreviation float := spec_float.

Definition prec : Z := 53.
Definition emax : Z := 1024.

(** The integer [z] as an exact (unrounded) operand. *)
Definition exact (z : Z) : float :=
  match z with
  | Z0 => S754_zero false
  | Zpos m => S754_finite false m 0
  | Zneg m => S754_finite true m 0
  end.

(** The binary64 value nearest to [n / d]. *)
Definition of_ratio (n d : Z) : float :=
  SFdiv prec emax (exact n) (exact d).

Definition of_Z (z : Z) : float := of_ratio z 1.

Definition is_zero (x : float) : bool :=
  match x with
  | S754_zero _ => true
  | _ => false
  end.

(** [x / y] on floats. *)
Definition truediv (x y : float) : result float :=
  if is_zero y then Raise ZeroDivisionError else Ok (SFdiv prec emax x y).

(** [float(s)] for a string over the digits, [.] and [,]: a literal has
    no comma, at most one point and at least one digit. *)
Definition is_point (c : ascii) : bool := chr_eqb c ".".

Definition float_ (s : str) : result float :=
  let int_part := take_while is_digit s in
  let rest := drop_while is_digit s in
  let frac_part :=
    match rest with
    | c :: r => if is_point c then Some r else None
    | [] => Some []
    end in
  match frac_part with
  | Some frac =>
      if forallb is_digit frac && negb (Nat.eqb (length (int_part ++ frac)) 0)
      then Ok (of_ratio (int_digits (int_part ++ frac)) (10 ^ len frac))
      else Raise (ValueError "could not convert string to float")
  | None => Raise (ValueError "could not convert string to float")
  end.

(** The integer nearest to [num / den], ties to the even one. *)
Definition round_half_even (num : Z) (den : positive) : Z :=
  let q := num / Zpos den in
  let r := num mod Zpos den in
  match 2 * r ?= Zpos den with
  | Lt => q
  | Gt => q + 1
  | Eq => if Z.even q then q else q + 1
  end.

(** [round(x, ndigits)] for [0 <= ndigits]: the exact value of [x] is
    rounded to [ndigits] decimals, ties to even, and the decimal is
    converted back to the nearest float; the sign of [x] is kept. *)
Definition round_ (x : float) (ndigits : nat) : float :=
  match x with
  | S754_finite s m e =>
      let scale := Z.pow 10 (Z.of_nat ndigits) in
      let n :=
        match e with
        | Zneg k => round_half_even (Zpos m * scale) (Pos.pow 2 k)
        | _ => Zpos m * scale * Z.pow 2 e
        end in
      match n with
      | Zpos n' =>
          SFdiv prec emax (S754_finite s n' 0) (exact scale)
      | _ => S754_zero s
      end
  | _ => x
  end.

End Float64.

(** ** sec.py: [SECFiling] and [Filing13D] *)

Module Sec.
Import PyStr Re Float64.

Definition FILER : str := lit "FILER:".
Definition FILED_BY : str := lit "FILED BY:".
Definition SUBJECT_COMPANY : str := lit "SUBJECT COMPANY:".

(** [__init__], lines 11-13. *)
Definition file_of (file : str) : str := replace file (lit "&nbsp;") (lit " ").
Definition header_of (file' : str) : str :=
  slice file' None (Some (find file' (lit "</SEC-HEADER>"))).
Definition document_of (file' : str) : str :=
  slice file' (Some (find file' (lit "<DOCUMENT>"))) None.

(** [_split_header], lines 38-49: the two section starts and the slices
    they bound, before the filer section is cut into blocks. *)
Definition filer_section_start (header : str) : Z :=
  let filer_section_start := find header FILER in
  if filer_section_start =? -1 then find header FILED_BY
  else filer_section_start.

Definition subject_section_start (header : str) : Z :=
  find header SUBJECT_COMPANY.

Definition header_sections (header : str) : str * str :=
  let filer_section_start := filer_section_start header in
  let subject_section_start := subject_section_start header in
  if subject_section_start >? filer_section_start
  then (slice header (Some subject_section_start) None,
        slice header (Some filer_section_start) (Some subject_section_start))
  else (slice header (Some subject_section_start) (Some filer_section_start),
        slice header (Some filer_section_start) None).

(** The marker the filer section is split on, lines 51-54. *)
Definition filer_marker (header : str) : str :=
  if find header FILER =? -1 then FILED_BY else FILER.

Definition _split_header (header : str) : str * list str :=
  let sections := header_sections header in
  (sections.1, tail (split sections.2 (filer_marker header))).

(** The extraction patterns. *)
Definition name_re : re :=
  seqs [text "COMPANY CONFORMED NAME:"; times 3 tab; Grp (plus dot)].
Definition cik_re : re :=
  seqs [text "CENTRAL INDEX KEY:"; times 3 tab; Grp (plus is_digit)].
Definition sic_re : re :=
  seqs [text "STANDARD INDUSTRIAL CLASSIFICATION:"; times 1 tab;
        Grp (plus dot); chr "["; Grp (plus is_digit)].
Definition form_type_re : re :=
  seqs [text "FORM TYPE:"; times 2 tab; Grp (plus dot); chr "010"].
Definition filing_date_re : re :=
  seqs [text "FILED AS OF DATE:"; times 2 tab; Grp (plus is_digit)].

Definition _parse_name (section : str) : result str :=
  name ← first (findall1 name_re section);
  Ok (title (lower (strip name))).

Definition _parse_cik (section : str) : result Z :=
  cik ← first (findall1 cik_re section);
  int_ cik.

Definition _parse_sic (section : str) : result (str * Z) :=
  m ← first (findall2 sic_re section);
  let sic_name := title (lower (strip m.1)) in
  sic_code ← int_ m.2;
  Ok (sic_name, sic_code).

Definition _parse_form_type (file' : str) : result (str * bool) :=
  form ← first (findall1 form_type_re file');
  Ok (form, endswith form (lit "/A")).

(** [datetime.date(year, month, day).isoformat()]. *)
Definition is_leap (year : Z) : bool :=
  ((year mod 4 =? 0) && negb (year mod 100 =? 0)) || (year mod 400 =? 0).
Definition days_in_month (year month : Z) : Z :=
  if month =? 2 then (if is_leap year then 29 else 28)
  else if (month =? 4) || (month =? 6) || (month =? 9) || (month =? 11)
       then 30 else 31.
Definition digit_chr (d : Z) : ascii := ascii_of_N (Z.to_N (48 + d mod 10)).
Definition isoformat (year month day : Z) : str :=
  [digit_chr (year / 1000); digit_chr (year / 100); digit_chr (year / 10);
   digit_chr year; "-"%char; digit_chr (month / 10); digit_chr month;
   "-"%char; digit_chr (day / 10); digit_chr day].
Definition date_isoformat (year month day : Z) : result str :=
  if (1 <=? year) && (year <=? 9999) && (1 <=? month) && (month <=? 12)
     && (1 <=? day) && (day <=? days_in_month year month)
  then Ok (isoformat year month day)
  else Raise (ValueError "date value out of range").

Definition _parse_filing_date (file' : str) : result str :=
  date ← first (findall1 filing_date_re file');
  year ← int_ (slice date None (Some 4));
  month ← int_ (slice date (Some 4) (Some 6));
  day ← int_ (slice date (Some 6) None);
  date_isoformat year month day.

(** A filer record, the dict built at lines 20-27. *)
Record company := {
  name : str;
  cik : Z;
  sic_name : option str;
  sic_code : option Z
}.

Definition parse_filer (item : str) : result company :=
  name ← _parse_name item;
  cik ← _parse_cik item;
  let sic :=
    try_except ((fun p => (Some p.1, Some p.2)) <$> _parse_sic item)
               (None, None) in
  Ok {| name := name; cik := cik; sic_name := sic.1; sic_code := sic.2 |}.

(** The loop of lines 16-27 over the filer blocks. *)
Fixpoint parse_filers (filer_information : list str) : result (list company) :=
  match filer_information with
  | [] => Ok []
  | item :: rest =>
      if len item =? 0 then parse_filers rest
      else filer ← parse_filer item;
           filers ← parse_filers rest;
           Ok (filer :: filers)
  end.

(** The subject record of [Filing13D]; [SECFiling] leaves it empty. *)
Record subject_company := {
  subject_name : str;
  subject_cik : Z;
  cusip : str;
  subject_sic_name : option str;
  subject_sic_code : option Z
}.

Record SECFiling := {
  _file : str;
  _header : str;
  _document : str;
  _subject_information : str;
  _filer_information : list str;
  _filer : list company;
  _subject : option subject_company;
  _form_type : str * bool;
  _filing_date : str;
  _is_html : bool;
  (* the lazily computed attributes of [Filing13D] *)
  _percent_acquired : option float;
  _shares_acquired : option Z
}.

(** [SECFiling.__init__]. *)
Definition SECFiling_init (file : str) : result SECFiling :=
  let file' := file_of file in
  let header := header_of file' in
  let document := document_of file' in
  let sections := _split_header header in
  filer ← parse_filers sections.2;
  form_type ← _parse_form_type file';
  filing_date ← _parse_filing_date file';
  Ok {| _file := file'; _header := header; _document := document;
        _subject_information := sections.1;
        _filer_information := sections.2;
        _filer := filer; _subject := None;
        _form_type := form_type; _filing_date := filing_date;
        _is_html := contains document (lit "<html>")
                    || contains document (lit "<HTML>");
        _percent_acquired := None; _shares_acquired := None |}.

Section Filing13D.

(** [BeautifulSoup(document).get_text()]: the text of a document with its
    markup removed, computed by the [bs4] library. *)
Variable get_text : str -> str.

Definition document_flat (document : str) : str :=
  join (lit " ") (words (replace (get_text document) ["160"%char] (lit " "))).

Definition is_sep (c : ascii) : bool := chr_eqb c "-" || chr_eqb c " ".
Definition is_upper_digit (c : ascii) : bool := is_digit c || is_upper c.
Definition is_alnum (c : ascii) : bool :=
  is_digit c || is_upper c || is_lower c.

Definition cusip_re : re :=
  Grp (seqs [times 4 is_upper_digit; times 2 is_alnum; star is_sep;
             times 2 is_digit; star is_sep; Chr is_digit]).

Definition clean_cusip (item : str) : str :=
  replace (replace (strip item) (lit " ") []) (lit "-") [].

Definition cusip_candidates (flat : str) : list str :=
  clean_cusip <$> findall1 cusip_re flat.

Definition _parse_cusip (document : str) : result str :=
  max_ len (cusip_candidates (document_flat document)).

Definition is_percent_token (c : ascii) : bool :=
  is_digit c || chr_eqb c "." || chr_eqb c ",".
Definition is_comma_digit (c : ascii) : bool := is_digit c || chr_eqb c ",".

Definition percent_re : re :=
  seqs [itext "PERCENT"; Alt (itext "AGE") Eps; star is_space;
        itext "OF"; star is_space; itext "CLASS"; star is_space;
        itext "REPRESENTED"; star is_space; itext "BY"; plus is_space;
        itext "AMOUNT"; star is_space; itext "IN"; star is_space;
        itext "ROW"; star_lazy dot; star is_space;
        Grp (plus is_percent_token); opt is_space; chr "%"].

Definition shares_re : re :=
  seqs [itext "AGGREGATE"; star is_space; itext "AMOUNT"; plus is_space;
        itext "BENEFICIALLY"; star is_space; itext "OWNED"; star is_space;
        itext "BY"; star is_space; Alt (itext "EACH") Eps; star is_space;
        Alt (itext "REPORTING") Eps; star is_space; itext "PERSON";
        star_lazy dot; star is_space;
        Grp (seqs [plus is_digit; chr ","; plus is_comma_digit])].

Definition _parse_percent_acquired (document : str) : result float :=
  percentage ← first (findall1 percent_re (document_flat document));
  x ← float_ percentage;
  q ← truediv x (of_Z 100);
  Ok (round_ q 8).

Definition _parse_shares_acquired (document : str) : result Z :=
  shares ← first (findall1 shares_re (document_flat document));
  int_ (replace shares (lit ",") []).

(** [Filing13D.__init__]. *)
Definition Filing13D_init (file : str) : result SECFiling :=
  self ← SECFiling_init file;
  name ← _parse_name (_subject_information self);
  cik ← _parse_cik (_subject_information self);
  cusip ← _parse_cusip (_document self);
  let sic :=
    try_except ((fun p => (Some p.1, Some p.2))
                  <$> _parse_sic (_subject_information self))
               (None, None) in
  Ok {| _file := _file self; _header := _header self;
        _document := _document self;
        _subject_information := _subject_information self;
        _filer_information := _filer_information self;
        _filer := _filer self;
        _subject := Some {| subject_name := name; subject_cik := cik;
                            cusip := cusip; subject_sic_name := sic.1;
                            subject_sic_code := sic.2 |};
        _form_type := _form_type self; _filing_date := _filing_date self;
        _is_html := _is_html self;
        _percent_acquired := None; _shares_acquired := None |}.

(** The [percent_acquired] property: computed on first access, then read
    from the object. *)
Definition percent_acquired (self : SECFiling) : result float * SECFiling :=
  match _percent_acquired self with
  | Some p => (Ok p, self)
  | None =>
      match _parse_percent_acquired (_document self) with
      | Ok p =>
          (Ok p,
           {| _file := _file self; _header := _header self;
              _document := _document self;
              _subject_information := _subject_information self;
              _filer_information := _filer_information self;
              _filer := _filer self; _subject := _subject self;
              _form_type := _form_type self;
              _filing_date := _filing_date self; _is_html := _is_html self;
              _percent_acquired := Some p;
              _shares_acquired := _shares_acquired self |})
      | Raise e => (Raise e, self)
      end
  end.

End Filing13D.

End Sec.

(** ** JSON values and the Python operations on them *)

Module PyVal.
Import Float64.

#[warnings="-register-all"] Inductive value :=
| VNone
| VBool (b : bool)
| VInt (z : Z)
| VFloat (x : float)
| VStr (s : string)
| VList (l : list value)
| VDict (d : list (string * value)).

Fixpoint assoc {A} (k : string) (d : list (string * A)) : option A :=
  match d with
  | [] => None
  | (k', v) :: d' => if String.eqb k k' then Some v else assoc k d'
  end.

(** [v[k]] for a string key. *)
Definition getitem (v : value) (k : string) : result value :=
  match v with
  | VDict d =>
      match assoc k d with
      | Some x => Ok x
      | None => Raise (KeyError k)
      end
  | _ => Raise TypeError
  end.

(** [v[i]] for an integer index. *)
Definition index (v : value) (i : Z) : result value :=
  match v with
  | VList l =>
      let n := Z.of_nat (length l) in
      let j := if i <? 0 then i + n else i in
      if (0 <=? j) && (j <? n)
      then match l !! Z.to_nat j with
           | Some x => Ok x
           | None => Raise IndexError
           end
      else Raise IndexError
  | VDict _ => Raise (KeyError (pretty i))
  | _ => Raise TypeError
  end.

(** The items [for item in v] runs over, for a list. *)
Definition iter (v : value) : result (list value) :=
  match v with
  | VList l => Ok l
  | VDict d => Ok ((fun kv => VStr kv.1) <$> d)
  | VStr s => Ok ((fun c => VStr (String c EmptyString)) <$> list_ascii_of_string s)
  | _ => Raise TypeError
  end.

Definition is_none (v : value) : bool :=
  match v with
  | VNone => true
  | _ => false
  end.

(** The exact value of a finite float or an integer, as [m * 2^e]. *)
Definition dyadic (v : value) : option (Z * Z) :=
  match v with
  | VBool b => Some (if b then 1 else 0, 0)
  | VInt z => Some (z, 0)
  | VFloat (S754_zero _) => Some (0, 0)
  | VFloat (S754_finite s m e) => Some (if s then Zneg m else Zpos m, e)
  | _ => None
  end.

Definition dyadic_compare (a b : Z * Z) : comparison :=
  let e := Z.min a.2 b.2 in
  Z.compare (a.1 * 2 ^ (a.2 - e)) (b.1 * 2 ^ (b.2 - e)).

(** Numeric comparison of booleans, integers and floats; [None] when an
    operand is not a number, and for a NaN. *)
Definition num_compare (a b : value) : option comparison :=
  match dyadic a, dyadic b with
  | Some x, Some y => Some (dyadic_compare x y)
  | _, _ =>
      match a, b with
      | VFloat (S754_infinity s), VFloat (S754_infinity s') =>
          Some (if s then (if s' then Eq else Lt) else (if s' then Gt else Eq))
      | VFloat (S754_infinity s), (VBool _ | VInt _ | VFloat (S754_zero _)
                                  | VFloat (S754_finite _ _ _)) =>
          Some (if s then Lt else Gt)
      | (VBool _ | VInt _ | VFloat (S754_zero _) | VFloat (S754_finite _ _ _)),
        VFloat (S754_infinity s) =>
          Some (if s then Gt else Lt)
      | _, _ => None
      end
  end.

Definition is_number (v : value) : bool :=
  match v with
  | VBool _ | VInt _ | VFloat _ => true
  | _ => false
  end.

Fixpoint str_ltb (a b : string) : bool :=
  match a, b with
  | EmptyString, String _ _ => true
  | _, EmptyString => false
  | String x a', String y b' =>
      if Ascii.eqb x y then str_ltb a' b'
      else (N_of_ascii x <? N_of_ascii y)%N
  end.

(** [a == b]. *)
Fixpoint py_eq (a b : value) {struct a} : bool :=
  match a, b with
  | VNone, VNone => true
  | VStr s, VStr t => String.eqb s t
  | VList l, VList m =>
      (fix go (l m : list value) : bool :=
         match l, m with
         | [], [] => true
         | x :: l', y :: m' => py_eq x y && go l' m'
         | _, _ => false
         end) l m
  | VDict d, VDict d' =>
      Nat.eqb (length d) (length d')
      && (fix go (d : list (string * value)) : bool :=
            match d with
            | [] => true
            | (k, x) :: r =>
                match assoc k d' with
                | Some y => py_eq x y && go r
                | None => false
                end
            end) d
  | _, _ =>
      match num_compare a b with
      | Some Eq => true
      | _ => false
      end
  end.

(** [a < b]; the operand types that have no order raise [TypeError]. *)
Fixpoint py_lt (a b : value) {struct a} : result bool :=
  match a, b with
  | VStr s, VStr t => Ok (str_ltb s t)
  | VList l, VList m =>
      (fix go (l m : list value) : result bool :=
         match l, m with
         | [], [] => Ok false
         | [], _ :: _ => Ok true
         | _ :: _, [] => Ok false
         | x :: l', y :: m' => if py_eq x y then go l' m' else py_lt x y
         end) l m
  | _, _ =>
      if is_number a && is_number b
      then Ok match num_compare a b with
              | Some Lt => true
              | _ => false
              end
      else Raise TypeError
  end.

(** [round(v, ndigits)]: an integer is returned as it is. *)
Definition round_value (v : value) (ndigits : nat) : result value :=
  match v with
  | VFloat x => Ok (VFloat (round_ x ndigits))
  | VInt z => Ok (VInt z)
  | VBool b => Ok (VInt (if b then 1 else 0))
  | _ => Raise TypeError
  end.

Definition is_inf (x : float) : bool :=
  match x with
  | S754_infinity _ => true
  | _ => false
  end.

(** The float an operand of a mixed operation is converted to. *)
Definition to_float (v : value) : result float :=
  match v with
  | VFloat x => Ok x
  | VInt z =>
      let x := of_Z z in
      if is_inf x then Raise OverflowError else Ok x
  | VBool b => Ok (of_Z (if b then 1 else 0))
  | _ => Raise TypeError
  end.

Definition is_float (v : value) : bool :=
  match v with
  | VFloat _ => true
  | _ => false
  end.

(** [a / b]: the quotient of two integers is rounded once. *)
Definition truediv_value (a b : value) : result value :=
  if negb (is_number a && is_number b) then Raise TypeError
  else if is_float a || is_float b
  then x ← to_float a; y ← to_float b; VFloat <$> truediv x y
  else match dyadic a, dyadic b with
       | Some (n, _), Some (d, _) =>
           if d =? 0 then Raise ZeroDivisionError
           else let q := of_ratio n d in
                if is_inf q then Raise OverflowError else Ok (VFloat q)
       | _, _ => Raise TypeError
       end.

End PyVal.

(** ** [sorted(data, key=lambda x: (v is None, v), reverse=desc)] *)

Module PySort.
Import PyVal.

(** [a < b] on the key tuples: the first position at which the tuples
    differ decides. *)
Definition tuple_lt (a b : bool * value) : result bool :=
  if Bool.eqb a.1 b.1
  then (if py_eq a.2 b.2 then Ok false else py_lt a.2 b.2)
  else Ok (negb a.1 && b.1).

(** [null_key v] is the tuple [(v is None, v)]. *)
Definition null_key (v : value) : bool * value := (is_none v, v).

Section Sort.
Context {A : Type}.
Variable lt : A -> A -> result bool.

(** A stable sort that uses [<] only: [x] is put in front of the first
    element that is not smaller than it. *)
Fixpoint insert_sorted (x : A) (l : list A) : result (list A) :=
  match l with
  | [] => Ok [x]
  | y :: l' =>
      lt y x ≫= fun b : bool =>
      if b then r ← insert_sorted x l'; Ok (y :: r)
      else Ok (x :: l)
  end.

Fixpoint sort_stable (l : list A) : result (list A) :=
  match l with
  | [] => Ok []
  | x :: l' => s ← sort_stable l'; insert_sorted x s
  end.

End Sort.

(** [sorted]: the keys are computed first; a reversed sort reverses the
    list, sorts it and reverses the outcome, which keeps equal elements
    in their original order. *)
Definition sorted_ {A} (key : A -> result (bool * value)) (reverse : bool)
    (data : list A) : result (list A) :=
  keyed ← rmap_list (fun x => k ← key x; Ok (k, x)) data;
  out ← sort_stable (fun a b => tuple_lt a.1 b.1)
        (if reverse then rev keyed else keyed);
  Ok (snd <$> (if reverse then rev out else out)).

End PySort.

(** ** tipranks.py: [TipranksReader] *)

Module Tipranks.
Import PyVal PySort.
Local Open Scope string_scope.

Definition _base_url : string := "https://www.tipranks.com/api/stocks/".

Record TipranksReader := {
  ticker : string;
  _ratings_data : option value
}.

(** The reader together with the number of requests it has sent. *)
Record world := {
  reader : TipranksReader;
  requests : nat
}.

(** [repr] of a tuple of plain strings, as an f-string prints it. *)
Definition repr_str (s : string) : string := "'" +:+ s +:+ "'".
Definition repr_tuple (xs : list string) : string :=
  "(" +:+ String.concat ", " (repr_str <$> xs) +:+ ")".

Definition member (x : string) (xs : list string) : bool :=
  existsb (String.eqb x) xs.

(** The guard every sorting accessor starts with. *)
Definition check_sort_variable (sort_variables : list string)
    (sorted_by : string) : result unit :=
  if negb (member sorted_by sort_variables)
  then Raise (ValueError ("sorting variable has to be in "
                            +:+ repr_tuple sort_variables))
  else Ok ().

Section Reader.

(** [requests.get(url, params={"name": ticker}).json()]. *)
Variable get_json : string -> string -> result value.
(** [pd.to_datetime(x).date().isoformat()] and
    [int(pd.to_datetime(pd.to_datetime(x).date()).timestamp())]. *)
Variable isodate : value -> result value.
Variable date_timestamp : value -> result value.
(** [str(x)], as an f-string field prints a value. *)
Variable str_ : value -> string.

Definition _get_ratings_data (w : world) : result value * world :=
  match _ratings_data (reader w) with
  | Some data => (Ok data, w)
  | None =>
      match get_json (_base_url +:+ "getData/") (ticker (reader w)) with
      | Ok data =>
          (Ok data,
           {| reader := {| ticker := ticker (reader w);
                           _ratings_data := Some data |};
              requests := S (requests w) |})
      | Raise e => (Raise e, {| reader := reader w;
                                requests := S (requests w) |})
      end
  end.

Definition date_value (timestamps : bool) (v : value) : result value :=
  if timestamps then date_timestamp v else isodate v.

Definition image_url (img : value) : value :=
  if is_none img then VNone
  else VStr ("https://cdn.tipranks.com/expert-pictures/"
               +:+ str_ img +:+ "_tsqr.jpg").

Definition round_item (item : value) (k : string) (ndigits : nat)
    : result value :=
  v ← getitem item k; round_value v ndigits.

(** *** covering_analysts *)

Definition covering_sort_variables : list string :=
  ["name"; "firm"; "stock_success_rate"; "average_rating_return_stock";
   "total_recommendations_stock"; "positive_recommendations_stock";
   "price_target"; "rank"; "successful_recommendations";
   "total_recommendations"; "average_rating_return"; "stars"].

Definition ranking_keys : list string :=
  ["rank"; "successful_recommendations"; "total_recommendations";
   "percentage_successful_recommendations"; "average_rating_return";
   "stars"].

Definition reshape_rating (timestamps : bool) (rating : value)
    : result value :=
  d ← getitem rating "date";
  date ← date_value timestamps d;
  price_target ← getitem rating "priceTarget";
  url ← getitem rating "url";
  quote ← getitem rating "quote";
  title ← getitem quote "title";
  Ok (VDict [("date", date); ("price_target", price_target);
             ("news_url", url); ("news_title", title)]).

Definition reshape_expert (timestamps : bool) (item : value) : result value :=
  name ← getitem item "name";
  firm ← getitem item "firm";
  img ← getitem item "expertImg";
  stock_success_rate ← round_item item "stockSuccessRate" 4;
  stock_average_return ← round_item item "stockAverageReturn" 4;
  total ← getitem item "stockTotalRecommendations";
  good ← getitem item "stockGoodRecommendations";
  consensus ← getitem item "includedInConsensus";
  ratings_raw ← getitem item "ratings";
  ratings_items ← iter ratings_raw;
  ratings ← rmap_list (reshape_rating timestamps) ratings_items;
  rankings ← getitem item "rankings";
  ranking ← index rankings 0;
  rank ← getitem ranking "lRank";
  g_recs ← getitem ranking "gRecs";
  t_recs ← getitem ranking "tRecs";
  ratio ← truediv_value g_recs t_recs;
  percentage ← round_value ratio 4;
  average_return ← round_item ranking "avgReturn" 4;
  stars ← round_item ranking "originalStars" 1;
  Ok (VDict
        [("name", name); ("firm", firm); ("image_url", image_url img);
         ("stock_success_rate", stock_success_rate);
         ("average_rating_return_stock", stock_average_return);
         ("total_recommendations_stock", total);
         ("positive_recommendations_stock", good);
         ("consensus_analyst", consensus);
         ("ratings", VList ratings);
         ("analyst_ranking",
          VDict [("rank", rank); ("successful_recommendations", g_recs);
                 ("total_recommendations", t_recs);
                 ("percentage_successful_recommendations", percentage);
                 ("average_rating_return", average_return);
                 ("stars", stars)])]).

Definition is_true (v : value) : bool :=
  match v with
  | VBool true => true
  | _ => false
  end.

Definition is_consensus (item : value) : result bool :=
  is_true <$> getitem item "consensus_analyst".

Fixpoint filter_consensus (data : list value) : result (list value) :=
  match data with
  | [] => Ok []
  | item :: rest =>
      is_consensus item ≫= fun keep : bool =>
      kept ← filter_consensus rest;
      Ok (if keep then item :: kept else kept)
  end.

(** The value the analysts are sorted on, lines 117-129. *)
Definition covering_sort_value (sorted_by : string) (x : value)
    : result value :=
  if member sorted_by ranking_keys
  then r ← getitem x "analyst_ranking"; getitem r sorted_by
  else if String.eqb sorted_by "price_target"
  then rs ← getitem x "ratings"; r ← index rs 0; getitem r sorted_by
  else getitem x sorted_by.

Definition covering_desc (sorted_by : string) : bool :=
  negb (member sorted_by ["name"; "firm"]).

Definition covering_analysts_of (include_retail timestamps : bool)
    (sorted_by : string) (payload : value) : result (list value) :=
  experts ← getitem payload "experts";
  items ← iter experts;
  data ← rmap_list (reshape_expert timestamps) items;
  data ← (if negb include_retail then filter_consensus data else Ok data);
  sorted_ (fun x => null_key <$> covering_sort_value sorted_by x)
          (covering_desc sorted_by) data.

Definition covering_analysts (include_retail timestamps : bool)
    (sorted_by : string) (w : world) : result (list value) * world :=
  match check_sort_variable covering_sort_variables sorted_by with
  | Raise e => (Raise e, w)
  | Ok _ =>
      let (payload, w') := _get_ratings_data w in
      (p ← payload;
       covering_analysts_of include_retail timestamps sorted_by p, w')
  end.

(** *** insider_trades *)

Definition insider_sort_variables : list string :=
  ["name"; "amount"; "shares"; "report_date"].

Definition reshape_insider (timestamps : bool) (item : value) : result value :=
  name ← getitem item "name";
  company ← getitem item "company";
  officer ← getitem item "isOfficer";
  director ← getitem item "isDirector";
  title ← getitem item "officerTitle";
  amount ← getitem item "amount";
  shares ← getitem item "numberOfShares";
  r_date ← getitem item "rDate";
  report_date ← date_value timestamps r_date;
  link ← getitem item "link";
  img ← getitem item "expertImg";
  Ok (VDict
        [("name", name); ("company", company); ("officer", officer);
         ("director", director); ("title", title); ("amount", amount);
         ("shares", shares); ("report_date", report_date);
         ("file_url", link); ("image_url", image_url img)]).

Definition insider_desc (sorted_by : string) : bool :=
  member sorted_by ["amount"; "shares"; "report_date"].

Definition insider_trades_of (timestamps : bool) (sorted_by : string)
    (payload : value) : result value :=
  insiders ← getitem payload "insiders";
  trades_sum ← getitem payload "insiderslast3MonthsSum";
  items ← iter insiders;
  data ← rmap_list (reshape_insider timestamps) items;
  sorted ← sorted_ (fun x => null_key <$> getitem x sorted_by)
             (insider_desc sorted_by) data;
  Ok (VDict [("insiders", VList sorted);
             ("insider_trades_last_3_months", trades_sum)]).

Definition insider_trades (timestamps : bool) (sorted_by : string)
    (w : world) : result value * world :=
  match check_sort_variable insider_sort_variables sorted_by with
  | Raise e => (Raise e, w)
  | Ok _ =>
      let (payload, w') := _get_ratings_data w in
      (p ← payload; insider_trades_of timestamps sorted_by p, w')
  end.

(** *** institutional_ownership *)

Definition institutional_sort_variables : list string :=
  ["name"; "firm"; "stars"; "rank"; "value"; "change";
   "percentage_of_portfolio"].

Definition reshape_holding (item : value) : result value :=
  name ← getitem item "managerName";
  firm ← getitem item "institutionName";
  stars ← round_item item "stars" 1;
  rank ← getitem item "rank";
  ranked ← getitem item "totalRankedInstitutions";
  value ← getitem item "value";
  change_raw ← getitem item "change";
  change_ratio ← truediv_value change_raw (VInt 100);
  change ← round_value change_ratio 4;
  percentage ← round_item item "percentageOfPortfolio" 4;
  img ← getitem item "imageURL";
  Ok (VDict
        [("name", name); ("firm", firm); ("stars", stars); ("rank", rank);
         ("ranked_institutions", ranked); ("value", value);
         ("change", change); ("percentage_of_portfolio", percentage);
         ("image_url", image_url img)]).

Definition institutional_desc (sorted_by : string) : bool :=
  negb (member sorted_by ["name"; "firm"]).

Definition institutional_ownership_of (sorted_by : string) (payload : value)
    : result (list value) :=
  fund ← getitem payload "hedgeFundData";
  holdings ← getitem fund "institutionalHoldings";
  items ← iter holdings;
  data ← rmap_list reshape_holding items;
  sorted_ (fun x => null_key <$> getitem x sorted_by)
          (institutional_desc sorted_by) data.

Definition institutional_ownership (sorted_by : string) (w : world)
    : result (list value) * world :=
  match check_sort_variable institutional_sort_variables sorted_by with
  | Raise e => (Raise e, w)
  | Ok _ =>
      let (payload, w') := _get_ratings_data w in
      (p ← payload; institutional_ownership_of sorted_by p, w')
  end.

End Reader.

End Tipranks.

(** ** yahoo.py: [YahooReader.historical_data]

    The price table is a list of rows in index order; a cell of a
    [DataFrame] is a float and a missing cell is NaN. *)

Module Yahoo.
Import Float64.

Definition nan : float := S754_nan.
Definition isnan (x : float) : bool :=
  match x with
  | S754_nan => true
  | _ => false
  end.

Record row := {
  label : Z;
  open_ : float;
  high : float;
  low : float;
  close : float;
  adj_close : float;
  volume : float;
  dividends : float;
  splits : float;
  (* the columns "simple returns" and "log returns", when computed *)
  returns_ : option (float * float)
}.

Definition set_dividends (v : float) (r : row) : row :=
  {| label := label r; open_ := open_ r; high := high r; low := low r;
     close := close r; adj_close := adj_close r; volume := volume r;
     dividends := v; splits := splits r; returns_ := returns_ r |}.

Definition set_splits (v : float) (r : row) : row :=
  {| label := label r; open_ := open_ r; high := high r; low := low r;
     close := close r; adj_close := adj_close r; volume := volume r;
     dividends := dividends r; splits := v; returns_ := returns_ r |}.

Definition set_returns (v : float * float) (r : row) : row :=
  {| label := label r; open_ := open_ r; high := high r; low := low r;
     close := close r; adj_close := adj_close r; volume := volume r;
     dividends := dividends r; splits := splits r; returns_ := Some v |}.

(** A row that an event alone puts into the table. *)
Definition event_row (l : Z) : row :=
  {| label := l; open_ := nan; high := nan; low := nan; close := nan;
     adj_close := nan; volume := nan; dividends := nan; splits := nan;
     returns_ := None |}.

(** The part of the chart response the accessor reads, lines 239-296. *)
Record chart := {
  currency : string;
  instrumentType : string;
  gmtoffset : Z;
  timezone : string;
  exchangeTimezoneName : string;
  timestamp : list Z;
  quote_open : list float;
  quote_high : list float;
  quote_low : list float;
  quote_close : list float;
  quote_volume : list float;
  adjclose : option (list float);
  (* events["dividends"]: (date, amount); None when the key is missing *)
  events_dividends : option (list (Z * float));
  (* events["splits"]: (date, numerator, denominator) *)
  events_splits : option (list (Z * PyVal.value * PyVal.value))
}.

Record information := {
  info_type : string;
  info_currency : string;
  utc_offset : Z;
  info_timezone : string;
  exchange_timezone : string;
  url : string
}.

Definition daily_frequencies : list string :=
  ["1d"; "1wk"; "1mo"; "3mo"]%string.
Definition carry_frequencies : list string := ["1wk"; "1mo"; "3mo"]%string.

(** The pairs are transposed with [zip] and the two components read by
    position, lines 257-264: an empty event dict has no component to
    read. *)
Definition event_frame {A} (events : option (list A)) : result (list A) :=
  match events with
  | None => Ok []
  | Some [] => Raise IndexError
  | Some evs => Ok evs
  end.

Definition split_ratio (s : Z * PyVal.value * PyVal.value)
    : result (Z * float) :=
  q ← PyVal.truediv_value s.1.2 s.2;
  match q with
  | PyVal.VFloat x => Ok (s.1.1, x)
  | _ => Raise TypeError
  end.

Fixpoint zip_rows (ts : list Z) (o h l c a v : list float) : list row :=
  match ts, o, h, l, c, a, v with
  | t :: ts', o1 :: o', h1 :: h', l1 :: l', c1 :: c', a1 :: a', v1 :: v' =>
      {| label := t; open_ := o1; high := h1; low := l1; close := c1;
         adj_close := a1; volume := v1; dividends := nan; splits := nan;
         returns_ := None |} :: zip_rows ts' o' h' l' c' a' v'
  | _, _, _, _, _, _, _ => []
  end.

(** [pd.DataFrame(data={...}, index=ts)], lines 298-308: a column of one
    element is repeated over the index, and every other column has to be
    as long as the index. *)
Definition maybe_repeat (n : nat) (col : list float) : list float :=
  match col with
  | [x] => replicate n x
  | _ => col
  end.

Definition make_prices (c : chart) : result (list row) :=
  let n := length (timestamp c) in
  let adj := default (quote_close c) (adjclose c) in
  let columns :=
    maybe_repeat n <$> [quote_open c; quote_high c; quote_low c;
                        quote_close c; adj; quote_volume c] in
  if forallb (fun col : list float => Nat.eqb (length col) n) columns
  then Ok (zip_rows (timestamp c)
             (maybe_repeat n (quote_open c)) (maybe_repeat n (quote_high c))
             (maybe_repeat n (quote_low c)) (maybe_repeat n (quote_close c))
             (maybe_repeat n adj) (maybe_repeat n (quote_volume c)))
  else Raise (ValueError "Length of values does not match length of index").

(** The index labels, lines 312-320.  A date is its number of days since
    1970-01-01 and a naive datetime its number of seconds; both have the
    range of the years 1 to 9999. *)
Definition to_label (frequency : string) (timestamps : bool)
    (tz_offset ts : Z) : result Z :=
  if timestamps then Ok ts
  else if existsb (String.eqb frequency) daily_frequencies
  then let days := (ts + tz_offset) / 86400 in
       if (-719162 <=? days) && (days <=? 2932896) then Ok days
       else Raise OverflowError
  else if (-62135596800 <=? ts) && (ts <=? 253402300799) then Ok ts
       else Raise OverflowError.

Definition relabel_rows (f : Z -> result Z) (rows : list row)
    : result (list row) :=
  rmap_list (fun r =>
    l ← f (label r);
    Ok {| label := l; open_ := open_ r; high := high r; low := low r;
          close := close r; adj_close := adj_close r; volume := volume r;
          dividends := dividends r; splits := splits r;
          returns_ := returns_ r |}) rows.

Definition relabel_events (f : Z -> result Z) (evs : list (Z * float))
    : result (list (Z * float)) :=
  rmap_list (fun e => l ← f e.1; Ok (l, e.2)) evs.

(** [index[i]] for [i = -1] and [i = -2]. *)
Definition index_from_end (rows : list row) (k : nat) : result Z :=
  match rev rows !! k with
  | Some r => Ok (label r)
  | None => Raise IndexError
  end.

(** Lines 326-327. *)
Definition drop_trailing_duplicate (prices : list row) : result (list row) :=
  last_label ← index_from_end prices 0;
  prev_label ← index_from_end prices 1;
  Ok (if last_label =? prev_label then removelast prices else prices).

Definition nodup_labels (ls : list Z) : bool := bool_decide (NoDup ls).

Definition event_at (evs : list (Z * float)) (l : Z) : float :=
  default nan (snd <$> find (fun e => e.1 =? l) evs).

Definition has_row (rows : list row) (l : Z) : bool :=
  existsb (fun r => label r =? l) rows.

(** The outer join of a table and an events table on their labels: every
    row gets the event of its label, or NaN, in the new column, and every
    event whose label has no row gets a row of its own. *)
Definition outer_join (set : float -> row -> row) (df : list row)
    (evs : list (Z * float)) : list row :=
  ((fun r => set (event_at evs (label r)) r) <$> df)
  ++ ((fun e => set e.2 (event_row e.1))
        <$> filter (fun e => negb (has_row df e.1)) evs).

(** Two tables with the same index, side by side. *)
Fixpoint side_by_side (set : float -> row -> row) (df : list row)
    (evs : list (Z * float)) : list row :=
  match df, evs with
  | r :: df', e :: evs' => set e.2 r :: side_by_side set df' evs'
  | _, _ => []
  end.

(** [pd.concat([df, events], axis=1)].  Modelled from pandas: an events
    table without rows adds a column of NaN; two tables whose labels are
    distinct are joined; two tables with the same index are put side by
    side, also when a label is repeated.  Otherwise, with a repeated
    label, pandas has to re-index a table, and the model takes it that
    it is the table that repeats the label, on which pandas raises
    [InvalidIndexError]. *)
Definition concat (set : float -> row -> row) (df : list row)
    (evs : list (Z * float)) : result (list row) :=
  match evs with
  | [] => Ok (outer_join set df [])
  | _ =>
      if nodup_labels (label <$> df) && nodup_labels (fst <$> evs)
      then Ok (outer_join set df evs)
      else if bool_decide (label <$> df = fst <$> evs)
      then Ok (side_by_side set df evs)
      else Raise InvalidIndexError
  end.

(** [df.sort_index()]. *)
Fixpoint insert_row (r : row) (rows : list row) : list row :=
  match rows with
  | [] => [r]
  | r' :: rows' =>
      if label r' <? label r then r' :: insert_row r rows'
      else r :: rows
  end.
Definition sort_index (rows : list row) : list row :=
  foldr insert_row [] rows.

(** [df.loc[l, column]] and [df.loc[l, column] = v]. *)
Definition loc_get (get : row -> float) (df : list row) (l : Z) : float :=
  default nan (get <$> find (fun r => label r =? l) df).
Definition loc_set (set : float -> row -> row) (df : list row) (l : Z)
    (v : float) : list row :=
  (fun r => if label r =? l then set v r else r) <$> df.

(** One round of the loop of lines 335-337 (and 346-348): [column] is
    the copy of the event column taken before the loop. *)
Definition carry_step (get : row -> float) (set : float -> row -> row)
    (column : list float) (df : list row) (i : nat) : list row :=
  match column !! i, column !! S i, df !! i, df !! S i with
  | Some here, Some next, Some r, Some r' =>
      if negb (isnan here) && isnan next && isnan (loc_get close df (label r))
      then loc_set set df (label r') (loc_get get df (label r))
      else df
  | _, _, _, _ => df
  end.

Definition carry_forward (get : row -> float) (set : float -> row -> row)
    (df : list row) : list row :=
  foldl (carry_step get set (get <$> df)) df (seq 0 (length df - 1)).

(** [df[df["close"].notna()]]. *)
Definition with_close (df : list row) : list row :=
  filter (fun r => negb (isnan (close r))) df.

(** Lines 330-338 for the dividends and 341-349 for the splits. *)
Definition merge_events (get : row -> float) (set : float -> row -> row)
    (frequency : string) (df : list row) (evs : list (Z * float))
    : result (list row) :=
  df ← concat set df evs;
  let df := sort_index df in
  Ok (if existsb (String.eqb frequency) carry_frequencies
      then with_close (carry_forward get set df)
      else df).

Section Numpy.

(** [round(2)] on a column and [np.log]. *)
Variable np_round2 : float -> float.
Variable np_log : float -> float.

Definition fillna0 (x : float) : float :=
  if isnan x then S754_zero false else x.

(** Lines 352-353; [prev] is [close.shift(1)]. *)
Fixpoint add_returns (prev : float) (df : list row) : list row :=
  match df with
  | [] => []
  | r :: df' =>
      let gross := SFdiv prec emax
                     (SFadd prec emax (close r) (fillna0 (dividends r)))
                     prev in
      set_returns (SFsub prec emax gross (of_Z 1), np_log gross) r
        :: add_returns (close r) df'
  end.

Definition round_prices (r : row) : row :=
  {| label := label r; open_ := np_round2 (open_ r);
     high := np_round2 (high r); low := np_round2 (low r);
     close := np_round2 (close r); adj_close := np_round2 (adj_close r);
     volume := volume r; dividends := dividends r; splits := splits r;
     returns_ := returns_ r |}.

(** Lines 247-324: the price table and the two event tables with their
    index labels.  The [tz_aware] option, which attaches a time zone to
    the labels of an intraday index, is left out. *)
Definition load_frames (frequency : string) (timestamps rounded : bool)
    (c : chart)
    : result (list row * list (Z * float) * list (Z * float)) :=
  df_div ← event_frame (events_dividends c);
  splits_raw ← event_frame (events_splits c);
  df_splits ← rmap_list split_ratio splits_raw;
  prices ← make_prices c;
  let prices := if rounded then round_prices <$> prices else prices in
  let relabel := to_label frequency timestamps (gmtoffset c) in
  prices ← relabel_rows relabel prices;
  df_div ← relabel_events relabel df_div;
  df_splits ← relabel_events relabel df_splits;
  Ok (prices, df_div, df_splits).

(** Lines 326-353: the trailing duplicate, the two merges and the
    returns. *)
Definition align (frequency : string) (returns : bool) (prices : list row)
    (df_div df_splits : list (Z * float)) : result (list row) :=
  prices ← drop_trailing_duplicate prices;
  df ← merge_events dividends set_dividends frequency prices df_div;
  df ← merge_events splits set_splits frequency df df_splits;
  Ok (if returns then add_returns nan df else df).

(** [historical_data] from the parsed response on; [request_url] is the
    resolved URL of the request. *)
Definition historical_data (frequency : string)
    (returns timestamps rounded : bool) (request_url : string) (c : chart)
    : result (list row * information) :=
  frames ← load_frames frequency timestamps rounded c;
  df ← align frequency returns frames.1.1 frames.1.2 frames.2;
  Ok (df, {| info_type := instrumentType c; info_currency := currency c;
             utc_offset := gmtoffset c; info_timezone := timezone c;
             exchange_timezone := exchangeTimezoneName c;
             url := request_url |}).

End Numpy.

End Yahoo.

(** * The vocabulary of the statements

    What the theorems below say about the program is phrased with the
    definitions of this part: decompositions of strings, the shape of a
    match, the shape of a table after a merge. *)

Module PyStrSpec.
Import PyStr.

Definition unsplit (sep : str) (r : str * list str) : str :=
  r.1 ++ concat ((app sep) <$> r.2).

(** A separator [sep] does not begin inside [s], not even when [sep]
    follows [s]. *)
Definition free_of (sep s : str) : Prop :=
  forall i : nat, (i < length s)%nat -> startswith (drop i (s ++ sep)) sep = false.

End PyStrSpec.

Module ReSpec.
Import PyStr Re.

Definition field_re (label : string) (n : nat) (p : ascii -> bool) : re :=
  seqs [text label; times n tab; Grp (plus p)].

Definition field_match (label : str) (n : nat) (p : ascii -> bool) (s : str)
    : option (list str * str) :=
  if startswith s label
  then let s1 := drop (length label) s in
       if decide (n <= length (take_while tab s1))%nat
       then let s2 := drop n s1 in
            match take_while p s2 with
            | [] => None
            | v => Some ([v], drop_while p s2)
            end
       else None
  else None.

(** [leads r caps s m]: the first way [r] matches at the start of [s] is
    the state [m]. *)
Definition leads (r : re) (caps : list str) (s : str) (m : list str * str)
    : Prop :=
  head (run r caps s) = Some m.

(** [x] spells the word [w] when case is disregarded. *)
Definition spells (w : string) (x : str) : Prop := lower x = lower (lit w).

End ReSpec.

Module FloatSpec.
Import Float64.




End FloatSpec.

Module SecSpec.
Import PyStr Re Float64 Sec PyStrSpec ReSpec.

(** The section [b] carries the field: the label, [n] tabs and at least
    one character of the class [p]. *)
Definition carries (label : string) (n : nat) (p : ascii -> bool) (b : str)
    : Prop :=
  exists pre c rest,
    b = pre ++ lit label ++ replicate n "009"%char ++ c :: rest /\ p c = true.

(** [v] is a value of the field in [b]: the whole run of characters of
    the class [p] behind the label and its tabs. *)
Definition field_value (label : string) (n : nat) (p : ascii -> bool)
    (b v : str) : Prop :=
  exists pre rest,
    b = pre ++ lit label ++ replicate n "009"%char ++ v ++ rest
    /\ v <> [] /\ Forall (fun c => p c = true) v
    /\ match rest with [] => True | c :: _ => p c = false end.

(** The record [r] is read from the block [b]: its name is the stripped,
    title-cased value of the name field, which is empty exactly when the
    value is blank, and its key is the number the key field spells. *)
Definition filer_of_block (b : str) (r : company) : Prop :=
  exists v d,
    field_value "COMPANY CONFORMED NAME:" 3 dot b v
    /\ name r = title (lower (strip v))
    /\ (name r = [] <-> Forall (fun c => is_space c = true) v)
    /\ field_value "CENTRAL INDEX KEY:" 3 is_digit b d
    /\ cik r = int_digits d /\ 0 <= cik r.

(** The key field of [b] is within the limit of [int]: no value of the
    field has more than 4300 digits. *)
Definition key_within (b : str) : Prop :=
  forall d, field_value "CENTRAL INDEX KEY:" 3 is_digit b d ->
            len d <= int_max_str_digits.

(** The name field of [b] stays within the characters whose title case
    is a character below 256. *)
Definition name_titled (b : str) : Prop :=
  forall v, field_value "COMPANY CONFORMED NAME:" 3 dot b v ->
            Forall (fun c => has_title_case c = true) v.

(** The shape of a match of [cusip_re]: four and two identifier
    characters, separators, two digits, separators, one digit. *)
Record cusip_shape (a b s1 d s2 : str) (e : ascii) : Prop := {
  shape_a : Forall (fun c => is_upper_digit c = true) a;
  shape_a_len : length a = 4%nat;
  shape_b : Forall (fun c => is_alnum c = true) b;
  shape_b_len : length b = 2%nat;
  shape_s1 : Forall (fun c => is_sep c = true) s1;
  shape_d : Forall (fun c => is_digit c = true) d;
  shape_d_len : length d = 2%nat;
  shape_s2 : Forall (fun c => is_sep c = true) s2;
  shape_e : is_digit e = true
}.

Definition embedded (a b s1 d s2 : str) (e : ascii) : str :=
  a ++ b ++ s1 ++ d ++ s2 ++ [e].

Definition canonical (a b d : str) (e : ascii) : str := a ++ b ++ d ++ [e].

Definition remove_seps (s : str) : str :=
  filter (fun x => negb (chr_eqb "-" x))
    (filter (fun x => negb (chr_eqb " " x)) s).

(** The pieces of a phrase pattern: a word and an optional word, both
    without regard to case, and a run of at least [n] white-space
    characters. *)
Inductive piece :=
| Word (w : string)
| OptWord (w : string)
| Gap (n : nat).

Definition piece_re (p : piece) : re :=
  match p with
  | Word w => itext w
  | OptWord w => Alt (itext w) Eps
  | Gap n => Rep true n None is_space
  end.

Definition percent_pieces : list piece :=
  [Word "PERCENT"; OptWord "AGE"; Gap 0; Word "OF"; Gap 0; Word "CLASS";
   Gap 0; Word "REPRESENTED"; Gap 0; Word "BY"; Gap 1; Word "AMOUNT";
   Gap 0; Word "IN"; Gap 0; Word "ROW"].

Definition percent_tail : list re :=
  [star_lazy dot; star is_space; Grp (plus is_percent_token); opt is_space;
   chr "%"].

(** [may_begin w s] is false when [s] cannot begin with a spelling of
    [w], whatever follows [s]. *)
Fixpoint may_begin (w s : str) : bool :=
  match w, s with
  | c :: w', y :: s' => chr_eqb (lower_chr y) (lower_chr c) && may_begin w' s'
  | _, _ => true
  end.

Definition starts_solid (s : str) : Prop :=
  match s with
  | c :: _ => is_space c = false
  | [] => False
  end.

(** [conforms ps x]: the text [x] is an instance of the pieces [ps]; an
    optional word is left out only where the text cannot begin with it,
    and the text behind a gap begins with a character that is not white
    space. *)
Inductive conforms : list piece -> str -> Prop :=
| conforms_nil : conforms [] []
| conforms_word w x ps rest :
    spells w x -> conforms ps rest -> conforms (Word w :: ps) (x ++ rest)
| conforms_opt_some w x ps rest :
    spells w x -> conforms ps rest -> conforms (OptWord w :: ps) (x ++ rest)
| conforms_opt_none w ps rest :
    may_begin (lit w) rest = false -> conforms ps rest ->
    conforms (OptWord w :: ps) rest
| conforms_gap n ws ps rest :
    Forall (fun c => is_space c = true) ws -> (n <= length ws)%nat ->
    starts_solid rest -> conforms ps rest ->
    conforms (Gap n :: ps) (ws ++ rest).

Definition is_pct (c : ascii) : bool := chr_eqb "%" c.

(** What is left of a text, read backwards, once its trailing white space
    and the token characters before it are dropped. *)
Definition before_token (A : str) : str :=
  drop_while is_percent_token (drop_while is_space (rev A)).

Definition value_tail : list re :=
  [star is_space; Grp (plus is_percent_token); opt is_space; chr "%"].


End SecSpec.

Module SortSpec.
Import PyVal PySort.

(** [a] may stand before [b]: a key of a null value is never followed by
    a key of a value that is not null. *)
Definition flag_le {A} (a b : bool * value * A) : Prop :=
  a.1.1 = true -> b.1.1 = true.

End SortSpec.

Module YahooSpec.
Import Float64 Yahoo.

Inductive column := Dividends | Splits.

Definition get_col (c : column) : row -> float :=
  match c with
  | Dividends => dividends
  | Splits => splits
  end.

Definition set_col (c : column) : float -> row -> row :=
  match c with
  | Dividends => set_dividends
  | Splits => set_splits
  end.

(** The test of lines 336 and 347 on a row [p] and the row [r] after
    it. *)
Definition carries_over (c : column) (p r : row) : bool :=
  negb (isnan (get_col c p)) && isnan (get_col c r) && isnan (close p).

(** Each row takes the event of the row before it when the test holds on
    the two rows as they were before the loop. *)
Fixpoint carried (c : column) (prev : option row) (df : list row) : list row :=
  match df with
  | [] => []
  | r :: df' =>
      match prev with
      | Some p => if carries_over c p r then set_col c (get_col c p) r else r
      | None => r
      end :: carried c (Some r) df'
  end.

Definition le_label (a b : row) : Prop := label a <= label b.
Definition lt_label (a b : row) : Prop := label a < label b.

(** The result of a merge whose two tables have distinct labels. *)
Definition merged (c : column) (frequency : string) (df : list row)
    (evs : list (Z * float)) : list row :=
  let joined := sort_index (outer_join (set_col c) df evs) in
  if existsb (String.eqb frequency) carry_frequencies
  then with_close (carried c None joined)
  else joined.

(** The event of the date [t] is on no row of [table] when the date [n]
    that follows has an event of its own: no row has the date [t], a row
    of the date [n] has the event of [n], and the event of every row is
    that of a date other than [t]. *)
Definition event_dropped (c : column) (evs : list (Z * float)) (t n : Z)
    (table : list row) : Prop :=
  (forall r, r ∈ table -> label r <> t)
  /\ (forall r, r ∈ table -> label r = n -> get_col c r = event_at evs n)
  /\ (forall r, r ∈ table -> exists l, l <> t /\ get_col c r = event_at evs l).

Definition trailing_duplicate (ls : list Z) : bool :=
  match rev ls with
  | x :: y :: _ => x =? y
  | _ => false
  end.

End YahooSpec.

(** * Sample inputs *)

Module SecSamples.
Import PyStr Re Float64 Sec.

Definition nl : str := ["010"%char].
Definition ht : ascii := "009"%char.

(** A header line: a tab, the label, its tabs, the value. *)
Definition field (label : string) (tabs : nat) (value : str) : str :=
  [ht] ++ lit label ++ replicate tabs ht ++ value ++ nl.

Definition preamble : str :=
  lit "<SEC-HEADER>" ++ nl
  ++ lit "FORM TYPE:" ++ replicate 2 ht ++ lit "SC 13D" ++ nl
  ++ lit "FILED AS OF DATE:" ++ replicate 2 ht ++ lit "20200102" ++ nl
  ++ lit "SUBJECT COMPANY:" ++ nl
  ++ field "COMPANY CONFORMED NAME:" 3 (lit "ACME CORP")
  ++ field "CENTRAL INDEX KEY:" 3 (lit "0000012345")
  ++ field "STANDARD INDUSTRIAL CLASSIFICATION:" 1 (lit "RETAIL STORES [5900]").

Definition filer_block (name key : str) : str :=
  nl ++ field "COMPANY CONFORMED NAME:" 3 name
     ++ field "CENTRAL INDEX KEY:" 3 key.

Definition filing (blocks : list str) : str :=
  preamble ++ concat (app FILED_BY <$> blocks)
  ++ lit "</SEC-HEADER>" ++ nl ++ lit "<DOCUMENT>no. 037833-10 0 (common)".

Definition john_doe : str := filer_block (lit "JOHN DOE") (lit "0000067890").
(** A filer block whose name field holds one space. *)
Definition nameless : str := filer_block (lit " ") (lit "0000067890").
(** A filer block without a key field. *)
Definition keyless : str :=
  nl ++ field "COMPANY CONFORMED NAME:" 3 (lit "JANE ROE").

Definition cover_phrase : str :=
  lit "Percent" ++ lit " " ++ lit "of" ++ lit " " ++ lit "Class" ++ lit " "
  ++ lit "Represented" ++ lit " " ++ lit "by" ++ lit " " ++ lit "Amount"
  ++ lit " " ++ lit "in" ++ lit " " ++ lit "Row" ++ [].


End SecSamples.

Module TipranksSamples.
Import PyVal PySort Tipranks.
Local Open Scope string_scope.

Definition expert (name : string) (rank stars : value) : value :=
  VDict [("name", VStr name); ("firm", VStr "Firm"); ("expertImg", VNone);
         ("stockSuccessRate", VFloat (Float64.of_ratio 1 2));
         ("stockAverageReturn", VFloat (Float64.of_ratio 1 4));
         ("stockTotalRecommendations", VInt 2);
         ("stockGoodRecommendations", VInt 1);
         ("includedInConsensus", VBool true);
         ("ratings", VList []);
         ("rankings",
          VList [VDict [("lRank", rank); ("gRecs", VInt 1);
                        ("tRecs", VInt 2);
                        ("avgReturn", VFloat (Float64.of_ratio 1 8));
                        ("originalStars", stars)]])].

Definition payload (experts : list value) : value :=
  VDict [("experts", VList experts)].

(** One analyst ranked third and one without a rank. *)
Definition ranked_and_unranked : value :=
  payload [expert "Ada" (VInt 3) (VFloat (Float64.of_Z 4));
           expert "Bob" VNone (VFloat (Float64.of_Z 5))].

Definition fetched (data : value) : world :=
  {| reader := {| ticker := "AAPL"; _ratings_data := Some data |};
     requests := 1 |}.

Definition no_json : string -> string -> result value :=
  fun _ _ => Raise (KeyError "offline").
Definition plain_str : value -> string := fun _ => "img".

End TipranksSamples.

Module YahooSamples.
Import Float64 Yahoo.

Definition bar (t price : Z) : row :=
  {| label := t; open_ := of_Z price; high := of_Z price; low := of_Z price;
     close := of_Z price; adj_close := of_Z price; volume := of_Z 100;
     dividends := nan; splits := nan; returns_ := None |}.

Definition series (bars : list (Z * Z))
    (divs : option (list (Z * float))) : chart :=
  {| currency := "USD"; instrumentType := "EQUITY"; gmtoffset := 0;
     timezone := "EST"; exchangeTimezoneName := "America/New_York";
     timestamp := bars.*1;
     quote_open := of_Z <$> bars.*2; quote_high := of_Z <$> bars.*2;
     quote_low := of_Z <$> bars.*2; quote_close := of_Z <$> bars.*2;
     quote_volume := (fun _ => of_Z 100) <$> bars;
     adjclose := None; events_dividends := divs; events_splits := None |}.

(** A bar that the server sends without prices. *)
Definition idle_bar (t : Z) : row :=
  {| label := t; open_ := nan; high := nan; low := nan; close := nan;
     adj_close := nan; volume := nan; dividends := nan; splits := nan;
     returns_ := None |}.

(** Two weekly bars with two dividends between them. *)
Definition two_dividends : chart :=
  series [(10, 1); (20, 2)] (Some [(12, of_Z 5); (14, of_Z 7)]).

(** A series of one bar. *)
Definition single_bar : chart := series [(5, 1)] None.

(** A daily series that ends in three bars of one timestamp. *)
Definition three_alike : chart := series [(5, 1); (5, 2); (5, 3)] None.

End YahooSamples.

(** * Further parts of the program *)

(** ** sec.py: the share count of [Filing13D] *)

Module SecShares.
Import PyStr Re Float64 Sec SecSpec.

Section Filing13D.

Variable get_text : str -> str.

(** The [shares_acquired] property, lines 216-220: computed on first
    access, then read from the object. *)
Definition shares_acquired (self : SECFiling) : result Z * SECFiling :=
  match _shares_acquired self with
  | Some n => (Ok n, self)
  | None =>
      match _parse_shares_acquired get_text (_document self) with
      | Ok n =>
          (Ok n,
           {| _file := _file self; _header := _header self;
              _document := _document self;
              _subject_information := _subject_information self;
              _filer_information := _filer_information self;
              _filer := _filer self; _subject := _subject self;
              _form_type := _form_type self;
              _filing_date := _filing_date self; _is_html := _is_html self;
              _percent_acquired := _percent_acquired self;
              _shares_acquired := Some n |})
      | Raise e => (Raise e, self)
      end
  end.

End Filing13D.

(** The words of the pattern of [_parse_shares_acquired] and what follows
    them in it. *)
Definition shares_pieces : list piece :=
  [Word "AGGREGATE"; Gap 0; Word "AMOUNT"; Gap 1; Word "BENEFICIALLY";
   Gap 0; Word "OWNED"; Gap 0; Word "BY"; Gap 0; OptWord "EACH"; Gap 0;
   OptWord "REPORTING"; Gap 0; Word "PERSON"].

Definition shares_value : list re :=
  [star is_space; Grp (seqs [plus is_digit; chr ","; plus is_comma_digit])].

Definition shares_tail : list re := star_lazy dot :: shares_value.

Definition is_comma (c : ascii) : bool := chr_eqb "," c.

(** A cover page with a share count. *)
Definition shares_phrase : str :=
  lit "Aggregate" ++ lit " " ++ lit "Amount" ++ lit " " ++ lit "Beneficially"
  ++ lit " " ++ lit "Owned" ++ lit " " ++ lit "by" ++ lit " " ++ lit "Each"
  ++ lit " " ++ lit "Reporting" ++ lit " " ++ lit "Person" ++ [].

Definition shares_page : str :=
  lit "11 " ++ shares_phrase ++ lit " (11) 1,234,567 shares".

End SecShares.

Module SecEdgeSamples.
Import PyStr Re Float64 Sec SecSpec SecSamples.

(** A file whose header names a subject and no filer. *)
Definition subject_only : str := preamble ++ lit "</SEC-HEADER>".

(** A file whose header names a filer and no subject. *)
Definition filer_only : str :=
  lit "<SEC-HEADER>" ++ nl ++ lit "FILED BY:" ++ john_doe
  ++ lit "</SEC-HEADER>".

(** A filing whose document holds no digit. *)
Definition no_identifier : str :=
  preamble ++ lit "FILED BY:" ++ john_doe ++ lit "</SEC-HEADER>" ++ nl
  ++ lit "<DOCUMENT>common stock".

(** The first lines of a header. *)
Definition type_line : str :=
  lit "FORM TYPE:" ++ replicate 2 ht ++ lit "SC 13D/A" ++ nl.
Definition date_line (date : str) : str :=
  lit "FILED AS OF DATE:" ++ replicate 2 ht ++ date ++ nl.

(** A cover page whose percentage has a decimal comma. *)
Definition comma_page : str := cover_phrase ++ lit " (11) 12,5 %".

End SecEdgeSamples.

(** ** yahoo.py: the rows of the returned table *)

Module YahooRows.
Import Float64 Yahoo YahooSpec.

(** Two rows are the same bar: they agree on the label and on the six
    price columns. *)
Definition same_bar (r r' : row) : Prop :=
  label r = label r' /\ open_ r = open_ r' /\ high r = high r'
  /\ low r = low r' /\ close r = close r' /\ adj_close r = adj_close r'
  /\ volume r = volume r'.

(** The gross and the simple return of a row that follows a row with
    the close [prev], lines 352-353. *)
Definition gross_return (prev : float) (r : row) : float :=
  SFdiv prec emax (SFadd prec emax (close r) (fillna0 (dividends r))) prev.
Definition simple_return (prev : float) (r : row) : float :=
  SFsub prec emax (gross_return prev r) (of_Z 1).

End YahooRows.

(** ** Arithmetic on JSON values *)

Module PyNum.
Import Float64 PyVal.
Local Open Scope string_scope.

Definition as_int (v : value) : option Z :=
  match v with
  | VBool b => Some (if b then 1 else 0)
  | VInt z => Some z
  | _ => None
  end.

(** [a + b]: integers are added exactly, a float operand makes the sum a
    float, two strings or two lists are concatenated. *)
Definition add_value (a b : value) : result value :=
  match as_int a, as_int b with
  | Some x, Some y => Ok (VInt (x + y))
  | _, _ =>
      if is_number a && is_number b
      then x ← to_float a; y ← to_float b; Ok (VFloat (SFadd prec emax x y))
      else match a, b with
           | VStr s, VStr t => Ok (VStr (s +:+ t))
           | VList l, VList m => Ok (VList (l ++ m))
           | _, _ => Raise TypeError
           end
  end.

Fixpoint repeat_string (n : nat) (s : string) : string :=
  match n with
  | O => EmptyString
  | S n' => s +:+ repeat_string n' s
  end.

(** [v * k] for an integer literal [k]: a string or a list is repeated
    [k] times. *)
Definition mul_int (v : value) (k : Z) : result value :=
  match v with
  | VBool _ | VInt _ => Ok (VInt (default 0 (as_int v) * k))
  | VFloat x => Ok (VFloat (SFmul prec emax x (of_Z k)))
  | VStr s => Ok (VStr (repeat_string (Z.to_nat k) s))
  | VList l => Ok (VList (mjoin (replicate (Z.to_nat k) l)))
  | _ => Raise TypeError
  end.

(** [v != 0]. *)
Definition ne_zero (v : value) : bool := negb (py_eq v (VInt 0)).

End PyNum.

(** ** tipranks.py: the accessors that read the cached payload *)

Module TipranksMore.
Import PyVal PySort PyNum Tipranks.
Local Open Scope string_scope.

(** The keys of the results that are indexed by date: an ISO string, or a
    timestamp when [timestamps] is set. *)
Inductive date_key :=
| DateStr (s : string)
| DateInt (z : Z).

#[global] Instance date_key_eq_dec : EqDecision date_key.
Proof. solve_decision. Defined.

(** [d[k] = v] on a dict in insertion order: the value of a key that is
    there is replaced in place, a new key is added at the end. *)
Fixpoint dict_set {K V} `{!EqDecision K} (d : list (K * V)) (k : K) (v : V)
    : list (K * V) :=
  match d with
  | [] => [(k, v)]
  | (k', v') :: d' =>
      if decide (k = k') then (k', v) :: d' else (k', v') :: dict_set d' k v
  end.

Fixpoint dict_get {K V} `{!EqDecision K} (d : list (K * V)) (k : K)
    : option V :=
  match d with
  | [] => None
  | (k', v') :: d' => if decide (k = k') then Some v' else dict_get d' k
  end.

(** [x[k] = v] for a value [x] that is a dict with string keys. *)
Definition setitem (x : value) (k : string) (v : value) : result value :=
  match x with
  | VDict d => Ok (VDict (dict_set d k v))
  | _ => Raise TypeError
  end.

Section Reader.

(** [requests.get(url, params=...).json()]. *)
Variable get_json : string -> string -> result value.
(** [pd.to_datetime(x).date().isoformat()] and
    [int(pd.to_datetime(pd.to_datetime(x).date()).timestamp())]. *)
Variable isodate : value -> result string.
Variable date_timestamp : value -> result Z.

Definition date_of (timestamps : bool) (v : value) : result date_key :=
  if timestamps then DateInt <$> date_timestamp v else DateStr <$> isodate v.

Definition date_value_of (timestamps : bool) (v : value) : result value :=
  if timestamps then VInt <$> date_timestamp v else VStr <$> isodate v.

(** An accessor that reads the payload once and reshapes it. *)
Definition with_ratings {A} (f : value -> result A) (w : world)
    : result A * world :=
  let (payload, w') := _get_ratings_data get_json w in
  (p ← payload; f p, w').

(** The [isin] property, lines 45-47. *)
Definition isin : world -> result value * world :=
  with_ratings (fun p => getitem p "isin").

(** [blogger_sentiment], lines 49-57. *)
Definition blogger_sentiment_of (payload : value) : result value :=
  data ← getitem payload "bloggerSentiment";
  positive ← getitem data "bullishCount";
  neutral ← getitem data "neutralCount";
  negative ← getitem data "bearishCount";
  avg ← getitem data "avg";
  average ← round_value avg 2;
  Ok (VDict [("positive", positive); ("neutral", neutral);
             ("negative", negative); ("average", average)]).

Definition blogger_sentiment : world -> result value * world :=
  with_ratings blogger_sentiment_of.

(** [insider_trades] as lines 138-139 have it: the payload is asked for
    twice, once for each of the two entries. *)
Definition insider_trades_reads (isodate' date_timestamp' : value -> result value)
    (str_ : value -> string) (timestamps : bool) (sorted_by : string)
    (w : world) : result value * world :=
  match check_sort_variable insider_sort_variables sorted_by with
  | Raise e => (Raise e, w)
  | Ok _ =>
      let (payload, w1) := _get_ratings_data get_json w in
      match payload ≫= (fun p => getitem p "insiders") with
      | Raise e => (Raise e, w1)
      | Ok insiders =>
          let (payload', w2) := _get_ratings_data get_json w1 in
          (trades_sum ← payload' ≫= (fun p => getitem p "insiderslast3MonthsSum");
           items ← iter insiders;
           data ← rmap_list (reshape_insider isodate' date_timestamp' str_
                               timestamps) items;
           sorted ← sorted_ (fun x => null_key <$> getitem x sorted_by)
                      (insider_desc sorted_by) data;
           Ok (VDict [("insiders", VList sorted);
                      ("insider_trades_last_3_months", trades_sum)]), w2)
      end
  end.

(** [institutional_ownership_trend], lines 205-213. *)
Definition ownership_trend_step (timestamps : bool)
    (data : list (date_key * value)) (item : value)
    : result (list (date_key * value)) :=
  d ← getitem item "date";
  date ← date_of timestamps d;
  amount ← getitem item "holdingAmount";
  Ok (dict_set data date amount).

Fixpoint fold_result {S} (step : S -> value -> result S) (s : S)
    (items : list value) : result S :=
  match items with
  | [] => Ok s
  | item :: rest => s' ← step s item; fold_result step s' rest
  end.

Definition institutional_ownership_trend_of (timestamps : bool)
    (payload : value) : result (list (date_key * value)) :=
  fund ← getitem payload "hedgeFundData";
  data_raw ← getitem fund "holdingsByTime";
  items ← iter data_raw;
  fold_result (ownership_trend_step timestamps) [] items.

Definition institutional_ownership_trend (timestamps : bool)
    : world -> result (list (date_key * value)) * world :=
  with_ratings (institutional_ownership_trend_of timestamps).

(** [news_sentiment], lines 215-252: a request of its own at every
    call. *)
Definition reshape_sector (item : value) : result value :=
  ticker ← getitem item "ticker";
  name ← getitem item "companyName";
  positive ← getitem item "bullishPercent";
  negative ← getitem item "bearishPercent";
  Ok (VDict [("ticker", ticker); ("name", name);
             ("positive_percent", positive); ("negative_percent", negative)]).

Definition reshape_count (timestamps : bool) (item : value) : result value :=
  week_start ← getitem item "weekStart";
  week ← date_value_of timestamps week_start;
  buy ← getitem item "buy";
  neutral ← getitem item "neutral";
  sell ← getitem item "sell";
  total ← getitem item "all";
  Ok (VDict [("week", week); ("buy", buy); ("neutral", neutral);
             ("sell", sell); ("total", total)]).

Definition news_sentiment_of (timestamps : bool) (data : value)
    : result value :=
  buzz ← getitem data "buzz";
  articles_last_week ← getitem buzz "articlesInLastWeek";
  buzz' ← getitem data "buzz";
  weekly_average ← getitem buzz' "weeklyAverage";
  sentiment ← getitem data "sentiment";
  positive ← getitem sentiment "bullishPercent";
  sentiment' ← getitem data "sentiment";
  negative ← getitem sentiment' "bearishPercent";
  sector ← getitem data "sector";
  sector_items ← iter sector;
  sector_sentiment ← rmap_list reshape_sector sector_items;
  sector_average ← getitem data "sectorAverageBullishPercent";
  score ← getitem data "score";
  counts ← getitem data "counts";
  count_items ← iter counts;
  articles ← rmap_list (reshape_count timestamps) count_items;
  sector_score ← getitem data "sectorAverageNewsScore";
  Ok (VDict [("articles_last_week", articles_last_week);
             ("average_weekly_articles", weekly_average);
             ("positive_percent", positive); ("negative_percent", negative);
             ("sector_sentiment", VList sector_sentiment);
             ("sector_average_sentiment", sector_average);
             ("news_score", score); ("articles", VList articles);
             ("sector_average_news_score", sector_score)]).

Definition news_sentiment (timestamps : bool) (w : world)
    : result value * world :=
  (data ← get_json (_base_url +:+ "getNewsSentiments/") (ticker (reader w));
   news_sentiment_of timestamps data,
   {| reader := reader w; requests := S (requests w) |}).

(** [peers], lines 254-274.  The three counts are read from
    [item["consensusData"][0]] again wherever they are used; the entry
    does not change in between, so that each is read once here. *)
Definition consensus_entry (item : value) (k : string) : result value :=
  c ← getitem item "consensusData";
  c0 ← index c 0;
  getitem c0 k.

(** [(b*5 + h*3 + s) / (b + h + s)]. *)
Definition weighted_average (b h s : value) : result value :=
  b5 ← mul_int b 5;
  h3 ← mul_int h 3;
  n1 ← add_value b5 h3;
  num ← add_value n1 s;
  d1 ← add_value b h;
  den ← add_value d1 s;
  truediv_value num den.

Definition reshape_peer (item : value) : result value :=
  ticker ← getitem item "ticker";
  name ← getitem item "name";
  buy ← consensus_entry item "nB";
  hold ← consensus_entry item "nH";
  sell ← consensus_entry item "nS";
  t1 ← add_value buy hold;
  total ← add_value t1 sell;
  average ← (if ne_zero total
             then q ← weighted_average buy hold sell; round_value q 2
             else Ok VNone);
  price_target ← consensus_entry item "priceTarget";
  Ok (VDict [("ticker", ticker); ("name", name); ("buy", buy);
             ("hold", hold); ("sell", sell); ("average", average);
             ("average_price_target", price_target)]).

Definition peers_of (payload : value) : result (list value) :=
  data ← getitem payload "similarStocks";
  items ← iter data;
  rmap_list reshape_peer items.

Definition peers : world -> result (list value) * world :=
  with_ratings peers_of.

(** [recommendation_trend], lines 276-298. *)
Definition trend_step (timestamps : bool) (data : list (date_key * value))
    (item : value) : result (list (date_key * value)) :=
  d ← getitem item "date";
  date ← date_of timestamps d;
  let entry := default (VDict []) (dict_get data date) in
  consensus ← getitem item "consensus";
  entry ← setitem entry "consensus_rating" consensus;
  buy ← getitem item "buy";
  entry ← setitem entry "buy" buy;
  hold ← getitem item "hold";
  entry ← setitem entry "hold" hold;
  sell ← getitem item "sell";
  entry ← setitem entry "sell" sell;
  q ← weighted_average buy hold sell;
  average ← round_value q 2;
  entry ← setitem entry "average" average;
  price_target ← getitem item "priceTarget";
  target ← round_value price_target 2;
  entry ← setitem entry "average_price_target" target;
  Ok (dict_set data date entry).

Definition recommendation_trend_of (timestamps : bool) (data_raw : value)
    : result (list (date_key * value) * list (date_key * value)) :=
  all_raw ← getitem data_raw "consensusOverTime";
  all_items ← iter all_raw;
  all_analysts ← fold_result (trend_step timestamps) [] all_items;
  best_raw ← getitem data_raw "bestConsensusOverTime";
  best_items ← iter best_raw;
  best_analysts ← fold_result (trend_step timestamps) [] best_items;
  Ok (all_analysts, best_analysts).

Definition recommendation_trend (timestamps : bool)
    : world -> result (list (date_key * value) * list (date_key * value))
               * world :=
  with_ratings (recommendation_trend_of timestamps).

End Reader.

(** A payload for the accessors above. *)
Definition trend_item (date : string) (buy hold sell : Z) : value :=
  VDict [("date", VStr date); ("consensus", VStr "Buy"); ("buy", VInt buy);
         ("hold", VInt hold); ("sell", VInt sell);
         ("priceTarget", VFloat (Float64.of_ratio 301 2));
         ("holdingAmount", VInt (buy + hold + sell))].

Definition peer_item (ticker : string) (buy hold sell : Z) : value :=
  VDict [("ticker", VStr ticker); ("name", VStr "Peer");
         ("consensusData",
          VList [VDict [("nB", VInt buy); ("nH", VInt hold);
                        ("nS", VInt sell);
                        ("priceTarget", VFloat (Float64.of_Z 10))]])].

(** Three holdings, the first and the last on one date. *)
Definition ownership_payload : value :=
  VDict [("hedgeFundData",
          VDict [("holdingsByTime",
                  VList [trend_item "2020-01-01" 1 0 0;
                         trend_item "2020-02-01" 1 1 0;
                         trend_item "2020-01-01" 2 2 2])])].

(** A month with three ratings and a month without any. *)
Definition trend_payload : value :=
  VDict [("consensusOverTime",
          VList [trend_item "2020-01-01" 1 1 1;
                 trend_item "2020-02-01" 0 0 0]);
         ("bestConsensusOverTime", VList [])].

Definition ranked (name : string) (rank : value) : value :=
  VDict [("name", VStr name); ("rank", rank)].

(** Four entries, two of them of rank 3 and one without a rank. *)
Definition four_ranked : list value :=
  [ranked "Ada" (VInt 3); ranked "Bob" VNone; ranked "Cy" (VInt 7);
   ranked "Dee" (VInt 3)].

Definition plain_iso (v : value) : result string :=
  match v with
  | VStr s => Ok s
  | _ => Raise TypeError
  end.

Definition plain_timestamp (v : value) : result Z :=
  match v with
  | VInt z => Ok z
  | _ => Raise TypeError
  end.

End TipranksMore.

(** ** The vocabulary of the statements about the accessors *)

Module TipranksMoreSpec.
Import PyVal PySort PyNum Tipranks TipranksMore.
Local Open Scope string_scope.
Local Open Scope Z_scope.

(** An accessor that takes the payload from the cache: it keeps the
    ticker, sends at most one request, sends none and changes nothing
    when the payload is stored, and has stored the payload when it
    returns a result. *)
Definition reads_cache {A} (acc : world -> result A * world) : Prop :=
  forall w : world,
    ticker (reader (acc w).2) = ticker (reader w)
    /\ (requests w <= requests (acc w).2 <= S (requests w))%nat
    /\ (forall d, _ratings_data (reader w) = Some d -> (acc w).2 = w)
    /\ (forall r, (acc w).1 = Ok r ->
          exists d, _ratings_data (reader (acc w).2) = Some d).

Definition int_or_none (v : value) : bool :=
  match v with
  | VInt _ | VNone => true
  | _ => false
  end.

Definition str_or_none (v : value) : bool :=
  match v with
  | VStr _ | VNone => true
  | _ => false
  end.

(** [a] may stand before [b] in ascending order: integers by size,
    strings by [<], a null after everything else. *)
Definition ordered_before (a b : value) : Prop :=
  match a, b with
  | _, VNone => True
  | VInt x, VInt y => x <= y
  | VStr s, VStr t => str_ltb t s = false
  | _, _ => False
  end.

(** The sort value of [x] equals [v]. *)
Definition has_value {A} (val : A -> result value) (v : value) (x : A)
    : bool :=
  match val x with
  | Ok u => py_eq u v
  | Raise _ => false
  end.

(** [<] on the key tuples of the two kinds. *)
Definition int_lt (a b : value) : bool :=
  match a, b with
  | VInt x, VInt y => (x <? y)%Z
  | VInt _, VNone => true
  | _, _ => false
  end.

Definition str_lt (a b : value) : bool :=
  match a, b with
  | VStr s, VStr t => str_ltb s t
  | VStr _, VNone => true
  | _, _ => false
  end.

(** The facts the sort needs of a kind of keys. *)
Record key_order (K : value -> bool) (klt : value -> value -> bool) : Prop := {
  key_lt : forall a b, K a = true -> K b = true ->
    tuple_lt (null_key a) (null_key b) = Ok (klt a b);
  key_before : forall a b, K a = true -> K b = true ->
    klt b a = false <-> ordered_before a b;
  key_trans : forall a b c, K a = true -> K b = true -> K c = true ->
    klt b a = false -> klt c b = false -> klt c a = false;
  key_asym : forall a b, klt a b = true -> klt b a = false;
  key_apart : forall a b v, K a = true -> K b = true -> klt a b = true ->
    py_eq a v = true -> py_eq b v = true -> False
}.

(** An entry of the list that is sorted: a key tuple of the kind [K] and
    the element it belongs to. *)
Definition keyed_by {A} (K : value -> bool) (e : bool * value * A) : Prop :=
  e.1 = null_key e.1.2 /\ K e.1.2 = true.

Definition key_le {A} (klt : value -> value -> bool)
    (a b : bool * value * A) : Prop :=
  klt b.1.2 a.1.2 = false.

Section Reader.
Variable isodate : value -> result string.
Variable date_timestamp : value -> result Z.

(** The date and the amount an item of [holdingsByTime] stands for. *)
Definition ownership_entry (timestamps : bool) (item : value)
    : result (date_key * value) :=
  d ← getitem item "date";
  date ← date_of isodate date_timestamp timestamps d;
  amount ← getitem item "holdingAmount";
  Ok (date, amount).

End Reader.

(** [item["consensus_analyst"] is True], false when the entry has no
    such key. *)
Definition kept (item : value) : bool :=
  match is_consensus item with
  | Ok b => b
  | Raise _ => false
  end.

(** The keys of a list of entries in the order of their first
    occurrence. *)
Fixpoint first_seen {K} `{!EqDecision K} (seen ks : list K) : list K :=
  match ks with
  | [] => []
  | k :: ks' =>
      if decide (k ∈ seen) then first_seen seen ks'
      else k :: first_seen (k :: seen) ks'
  end.

End TipranksMoreSpec.

(** ** yahoo.py: the [YahooReader] object and its stored data *)

Module YahooStore.
Import PyStr PyVal TipranksMore.
Local Open Scope string_scope.

(** The exceptions of the reader: the built-in ones, the two of
    [finance_data.utils], and whatever a request raises. *)
Inductive error :=
| Builtin (e : exn)
| AttributeError
| TickerError (msg : string)
| DatasetError (msg : string)
| RequestError (msg : string).

Inductive outcome (A : Type) :=
| Done (a : A)
| Fail (e : error).
Arguments Done {A} a.
Arguments Fail {A} e.

#[global] Instance outcome_ret : MRet outcome := fun _ a => Done a.
#[global] Instance outcome_bind : MBind outcome := fun _ _ f m =>
  match m with
  | Done a => f a
  | Fail e => Fail e
  end.

Definition lift {A} (m : result A) : outcome A :=
  match m with
  | Ok a => Done a
  | Raise e => Fail (Builtin e)
  end.

Definition _main_url : string :=
  "https://query1.finance.yahoo.com/v10/finance/quoteSummary/".

Definition isin_url (isin : string) : string :=
  "https://markets.businessinsider.com/ajax/SearchController_Suggest?max_results=1&query="
  +:+ isin.

(** [if s:] for an argument that is a string or [None]. *)
Definition truthy (s : option string) : bool :=
  match s with
  | Some (String _ _) => true
  | _ => false
  end.

Record YahooReader := {
  _ticker : string;
  _stored_data : value;
  _security_type : value;
  _name : value
}.

Section Net.

(** [requests.get(url, headers=HEADERS).text], the quote summary
    [requests.get(url, params=parameters, headers=HEADERS).json()],
    [re.findall(f"\|{isin}\|([A-Z0-9]+)\|", response)], whose pattern has
    the one group as long as the isin brings none of its own, and
    [str.upper]. *)
Variable get_text : string -> outcome string.
Variable get_json : string -> outcome value.
Variable findall_ticker : string -> string -> outcome (list string).
Variable upper : string -> string.

(** [_get_stored_data], lines 842-899, for the object as it is when
    [__init__] calls it: [attr] is the [_stored_data] attribute, if the
    object has one.  The outcome is the value the call returns and the
    attribute it leaves: after a request both are the first result of
    the quote summary. *)
Definition _get_stored_data (ticker : string) (attr : option value)
    : outcome (value * option value) :=
  match attr with
  | Some stored => Done (stored, attr)
  | None =>
      data ← get_json (_main_url +:+ ticker);
      summary ← lift (getitem data "quoteSummary");
      err ← lift (getitem summary "error");
      if negb (is_none err)
      then Fail (TickerError ("no data found for ticker " +:+ ticker))
      else summary' ← lift (getitem data "quoteSummary");
           results ← lift (getitem summary' "result");
           data' ← lift (index results 0);
           Done (data', Some data')
  end.

(** The ticker [__init__] settles on, lines 58-71. *)
Definition init_ticker (ticker isin : option string) : outcome string :=
  if truthy ticker then Done (upper (default EmptyString ticker))
  else if truthy isin
  then let isin' := default EmptyString isin in
       response ← get_text (isin_url isin');
       match findall_ticker isin' response with
       | Done (t :: _) => Done t
       | Done [] | Fail (Builtin IndexError) =>
           Fail (Builtin (ValueError
                   "Cannot find a ticker that belongs to the given isin"))
       | Fail e => Fail e
       end
  else Fail (Builtin (ValueError "Either ticker or isin has to be specified")).

(** [__init__], lines 53-74. *)
Definition YahooReader_init (ticker isin : option string)
    : outcome YahooReader :=
  t ← init_ticker ticker isin;
  r ← _get_stored_data t None;
  let stored := r.1 in
  quote ← lift (getitem stored "quoteType");
  security_type ← lift (getitem quote "quoteType");
  quote' ← lift (getitem stored "quoteType");
  name ← lift (getitem quote' "shortName");
  Done {| _ticker := t; _stored_data := stored;
          _security_type := security_type; _name := name |}.

End Net.

(** [d.pop(k)] and the dict that is left. *)
Fixpoint remove_key (k : string) (d : list (string * value))
    : list (string * value) :=
  match d with
  | [] => []
  | (k', v) :: d' =>
      if String.eqb k k' then remove_key k d' else (k', v) :: remove_key k d'
  end.

Definition pop (x : value) (k : string) : outcome (value * value) :=
  match x with
  | VDict d =>
      match assoc k d with
      | Some v => Done (v, VDict (remove_key k d))
      | None => Fail (Builtin (KeyError k))
      end
  | VList _ => Fail (Builtin TypeError)
  | _ => Fail AttributeError
  end.

(** [data[new] = data.pop(old)] on the dict [data]; the dict is changed
    in place, so the second component is the dict after the statement,
    whether it raised or not. *)
Definition rename (new old : string) (data : value) : outcome unit * value :=
  match pop data old with
  | Done (v, data') =>
      match setitem data' new v with
      | Ok data'' => (Done (), data'')
      | Raise e => (Fail (Builtin e), data')
      end
  | Fail e => (Fail e, data)
  end.

(** Statements on the same dict, one after the other. *)
Definition and_then (first next : value -> outcome unit * value)
    (data : value) : outcome unit * value :=
  match first data with
  | (Done _, data') => next data'
  | (Fail e, data') => (Fail e, data')
  end.

(** The stored data with the dict under [k] as the statements left
    it. *)
Definition store_back (stored : value) (k : string) (data : value) : value :=
  match stored with
  | VDict s => VDict (dict_set s k data)
  | _ => stored
  end.

(** [ownership_breakdown], lines 590-602, on an object whose stored data
    are [stored]: the result and the stored data after the call.  [data]
    is the dict inside the stored data, not a copy. *)
Definition ownership_breakdown (ticker : string) (stored : value)
    : outcome value * value :=
  match getitem stored "majorHoldersBreakdown" with
  | Raise _ =>
      (Fail (DatasetError ("no ownership breakdown data found for ticker "
                             +:+ ticker)), stored)
  | Ok data =>
      let statements :=
        and_then (rename "insider_ownership" "insidersPercentHeld")
        (and_then (rename "institutions_ownership" "institutionsPercentHeld")
        (and_then (rename "institutions_ownership_float"
                     "institutionsFloatPercentHeld")
        (and_then (rename "count_institutions" "institutionsCount")
           (fun data => match pop data "maxAge" with
                        | Done (_, data') => (Done (), data')
                        | Fail e => (Fail e, data)
                        end)))) in
      match statements data with
      | (Done _, data') =>
          (Done data', store_back stored "majorHoldersBreakdown" data')
      | (Fail e, data') =>
          (Fail e, store_back stored "majorHoldersBreakdown" data')
      end
  end.

(** A quote summary as the server sends it, and stored data with a
    breakdown. *)
Definition summary_of (result : value) : value :=
  VDict [("quoteSummary", VDict [("result", VList [result]);
                                 ("error", VNone)])].

Definition breakdown : list (string * value) :=
  [("maxAge", VInt 1); ("insidersPercentHeld", VInt 1);
   ("institutionsPercentHeld", VInt 2);
   ("institutionsFloatPercentHeld", VInt 3); ("institutionsCount", VInt 4)].

Definition stored_entries : list (string * value) :=
  [("quoteType", VDict [("quoteType", VStr "EQUITY");
                        ("shortName", VStr "Apple Inc.")]);
   ("majorHoldersBreakdown", VDict breakdown)].

Definition stored_sample : value := VDict stored_entries.

Definition online (data : value) : string -> outcome value :=
  fun _ => Done data.
Definition no_text : string -> outcome string :=
  fun _ => Fail (RequestError "offline").
Definition no_match : string -> string -> outcome (list string) :=
  fun _ _ => Done [].
Definition upper_of (s : string) : string :=
  string_of_list_ascii (PyStr.upper (list_ascii_of_string s)).
Definition found_ticker (t : string) : string -> string -> outcome (list string) :=
  fun _ _ => Done [t].
Definition refused : value :=
  VDict [("quoteSummary",
          VDict [("result", VNone);
                 ("error", VDict [("code", VStr "Not Found")])])].

End YahooStore.

(** * Theorems *)

Module PyStrFacts.
Import PyStr PyStrSpec.

Lemma chr_eqb_eq a b : chr_eqb a b = true <-> a = b.
Proof. unfold chr_eqb. apply Ascii.eqb_eq. Qed.

Lemma startswith_app s p : startswith s p = true <-> exists t, s = p ++ t.
Proof.
  revert s. induction p as [|a p IH]; intros s; simpl.
  - split; [intros _; by exists s | done].
  - destruct s as [|b s]; simpl.
    + split; [done | intros [t Ht]; discriminate].
    + rewrite andb_true_iff, chr_eqb_eq, IH. split.
      * intros [-> [t ->]]. by exists t.
      * intros [t Ht]. injection Ht as -> ->. split; [done | by exists t].
Qed.

Lemma startswith_self_app p t : startswith (p ++ t) p = true.
Proof. apply startswith_app. by exists t. Qed.

Lemma startswith_nil_l p : startswith [] p = true -> p = [].
Proof. by destruct p. Qed.

(** Only the first [length p] characters of [s] matter. *)
Lemma startswith_take s p :
  startswith s p = startswith (take (length p) s) p.
Proof.
  revert s. induction p as [|a p IH]; intros s; simpl; [done|].
  destruct s as [|b s]; simpl; [done|]. by rewrite IH.
Qed.

Lemma startswith_app_long s t p :
  (length p <= length s)%nat -> startswith (s ++ t) p = startswith s p.
Proof.
  intros H. rewrite (startswith_take (s ++ t)), (startswith_take s).
  by rewrite take_app_le.
Qed.

(** ** [find] *)

Lemma find_from_shift i s sub :
  find_from i s sub = -1 \/
  exists n : nat, find_from i s sub = i + Z.of_nat n /\ (n <= length s)%nat
    /\ startswith (drop n s) sub = true
    /\ forall m : nat, (m < n)%nat -> startswith (drop m s) sub = false.
Proof.
  revert i. induction s as [|c s IH]; intros i; simpl.
  - destruct (startswith [] sub) eqn:E; [|by left].
    right. exists 0%nat. repeat split; [lia | simpl; lia | done | lia].
  - destruct (startswith (c :: s) sub) eqn:E.
    + right. exists 0%nat. repeat split; [lia | simpl; lia | done | lia].
    + destruct (IH (i + 1)) as [H | (n & Hn & Hle & Hs & Hm)]; [by left|].
      right. exists (S n). repeat split; [lia | simpl; lia | done |].
      intros [|m] Hlt; simpl; [done | apply Hm; lia].
Qed.

Lemma find_from_none i s sub :
  find_from i s sub = -1 -> 0 <= i ->
  forall m : nat, startswith (drop m s) sub = false.
Proof.
  revert i. induction s as [|c s IH]; intros i; simpl.
  - destruct (startswith [] sub) eqn:E; [lia|]. intros _ _ m. by rewrite drop_nil.
  - destruct (startswith (c :: s) sub) eqn:E; [lia|].
    intros H Hi [|m]; simpl; [done|]. apply (IH (i + 1)); [done | lia].
Qed.

Lemma find_cases s sub :
  (find s sub = -1 /\ forall m : nat, startswith (drop m s) sub = false) \/
  exists n : nat, find s sub = Z.of_nat n /\ (n <= length s)%nat
    /\ startswith (drop n s) sub = true
    /\ forall m : nat, (m < n)%nat -> startswith (drop m s) sub = false.
Proof.
  unfold find. destruct (find_from_shift 0 s sub) as [H | (n & Hn & H)].
  - left. split; [done|]. by apply (find_from_none 0).
  - right. exists n. by rewrite Hn.
Qed.

Lemma find_found s sub (n : nat) :
  find s sub = Z.of_nat n ->
  (n <= length s)%nat /\ startswith (drop n s) sub = true
  /\ forall m : nat, (m < n)%nat -> startswith (drop m s) sub = false.
Proof.
  destruct (find_cases s sub) as [[H _] | (k & Hk & H)]; [lia|].
  intros E. assert (k = n) as -> by lia. done.
Qed.

Lemma find_range s sub : find s sub = -1 \/ 0 <= find s sub <= len s.
Proof.
  destruct (find_cases s sub) as [[H _] | (k & Hk & Hle & _)]; [by left|].
  right. unfold len. lia.
Qed.

Lemma find_first s sub (n : nat) :
  startswith (drop n s) sub = true ->
  (forall m : nat, (m < n)%nat -> startswith (drop m s) sub = false) ->
  (n <= length s)%nat ->
  find s sub = Z.of_nat n.
Proof.
  intros Hs Hm Hle.
  destruct (find_cases s sub) as [[_ H] | (k & Hk & Hkle & Hks & Hkm)].
  - by rewrite H in Hs.
  - destruct (lt_eq_lt_dec k n) as [[Hlt | ->] | Hlt]; [|done|].
    + by rewrite (Hm k Hlt) in Hks.
    + by rewrite (Hkm n Hlt) in Hs.
Qed.

(** The text splits at the position [find] reports. *)
Lemma find_split s sub (n : nat) :
  find s sub = Z.of_nat n ->
  exists post, s = take n s ++ sub ++ post /\ length (take n s) = n.
Proof.
  intros H. destruct (find_found _ _ _ H) as (Hle & Hs & _).
  apply startswith_app in Hs as [post Hpost].
  exists post. split; [|by rewrite length_take; lia].
  by rewrite <- Hpost, take_drop.
Qed.

(** ** Slices *)

Lemma slice_between s (a b : nat) :
  (a <= b)%nat -> (b <= length s)%nat ->
  slice s (Some (Z.of_nat a)) (Some (Z.of_nat b)) = take (b - a) (drop a s).
Proof.
  intros Hab Hb. unfold slice, clamp, len; simpl.
  assert ((Z.of_nat a <? 0) = false) as -> by lia.
  assert ((Z.of_nat b <? 0) = false) as -> by lia.
  rewrite !Z.min_l by lia. f_equal; [|f_equal]; lia.
Qed.

Lemma slice_from s (a : nat) :
  (a <= length s)%nat -> slice s (Some (Z.of_nat a)) None = drop a s.
Proof.
  intros Ha. unfold slice, clamp, len; simpl.
  assert ((Z.of_nat a <? 0) = false) as -> by lia.
  rewrite Z.min_l by lia. rewrite Nat2Z.id.
  apply take_ge. rewrite length_drop. lia.
Qed.

Lemma slice_to s (b : nat) :
  (b <= length s)%nat -> slice s None (Some (Z.of_nat b)) = take b s.
Proof.
  intros Hb. unfold slice, clamp, len; simpl.
  assert ((Z.of_nat b <? 0) = false) as -> by lia.
  rewrite Z.min_l by lia. rewrite Z.sub_0_r, Nat2Z.id. done.
Qed.

(** ** [split] and [join] *)

Lemma split_go_unsplit sep s skip :
  sep <> [] ->
  unsplit sep (split_go sep s skip) = drop skip s.
Proof.
  intros Hsep. revert skip. induction s as [|c s IH]; intros skip.
  - by rewrite drop_nil.
  - destruct skip as [|k]; simpl.
    + destruct (startswith (c :: s) sep) eqn:E.
      * apply startswith_app in E as [t Ht].
        destruct sep as [|a sep]; [done|]. simpl in Ht. injection Ht as -> ->.
        unfold unsplit; simpl. rewrite Nat.sub_0_r.
        specialize (IH (length sep)). rewrite drop_app_length in IH.
        destruct (split_go (a :: sep) (sep ++ t) (length sep)) as [p ps] eqn:Eg.
        unfold unsplit in IH. simpl in *. f_equal.
        rewrite <- app_assoc. by f_equal.
      * specialize (IH 0%nat). unfold unsplit in *. simpl. by rewrite IH.
    + apply IH.
Qed.

Lemma split_unsplit s sep :
  sep <> [] ->
  exists p ps, split s sep = p :: ps /\ s = p ++ concat ((app sep) <$> ps).
Proof.
  intros Hsep. unfold split.
  pose proof (split_go_unsplit sep s 0 Hsep) as H.
  destruct (split_go sep s 0) as [p ps]. exists p, ps. by split.
Qed.

Lemma split_go_skip sep x s :
  split_go sep (x ++ s) (length x) = split_go sep s 0.
Proof. induction x as [|c x IH]; simpl; [by destruct s | done]. Qed.

Lemma split_startswith s sep :
  sep <> [] -> startswith s sep = true ->
  exists ps, split s sep = [] :: ps /\ s = concat ((app sep) <$> ps).
Proof.
  intros Hsep Hs. destruct (split_unsplit s sep Hsep) as (p & ps & Hsp & Heq).
  assert (p = []) as ->; [|by exists ps].
  unfold split in Hsp. destruct s as [|c s]; simpl in Hsp.
  - injection Hsp as <- <-. done.
  - rewrite Hs in Hsp. simpl in Hsp. by injection Hsp as <- _.
Qed.

Lemma free_of_find sep s : free_of sep s <-> find (s ++ sep) sep = len s.
Proof.
  split.
  - intros H. apply find_first.
    + rewrite drop_app_length. apply startswith_app. exists []. by rewrite app_nil_r.
    + done.
    + rewrite length_app. lia.
  - intros H i Hi. destruct (find_found _ _ _ H) as (_ & _ & Hm). by apply Hm.
Qed.

Lemma free_of_extend sep s rest (i : nat) :
  free_of sep s -> rest = [] \/ startswith rest sep = true ->
  (i < length s)%nat ->
  startswith (drop i (s ++ rest)) sep = false.
Proof.
  intros Hfree Hrest Hi. specialize (Hfree i Hi).
  rewrite drop_app_le in * by lia.
  destruct Hrest as [-> | Hrest].
  - rewrite app_nil_r. destruct (startswith (drop i s) sep) eqn:E; [|done].
    apply startswith_app in E as [t Ht]. rewrite Ht, <- app_assoc in Hfree.
    by rewrite startswith_self_app in Hfree.
  - apply startswith_app in Hrest as [t ->].
    rewrite app_assoc, startswith_app_long; [done|].
    rewrite length_app. lia.
Qed.

Lemma split_go_free sep b rest :
  (forall i : nat, (i < length b)%nat ->
     startswith (drop i (b ++ rest)) sep = false) ->
  split_go sep (b ++ rest) 0
  = (b ++ (split_go sep rest 0).1, (split_go sep rest 0).2).
Proof.
  induction b as [|c b IH]; intros H; simpl.
  - by destruct (split_go sep rest 0).
  - pose proof (H 0%nat ltac:(simpl; lia)) as H0. simpl in H0. rewrite H0.
    rewrite IH; [done|].
    intros i Hi. apply (H (S i)). simpl. lia.
Qed.

Lemma split_go_sep sep s :
  sep <> [] ->
  split_go sep (sep ++ s) 0 = ([], uncurry cons (split_go sep s 0)).
Proof.
  intros H. destruct sep as [|c sep]; [done|].
  pose proof (startswith_self_app (c :: sep) s) as Hst.
  change ((c :: sep) ++ s) with (c :: (sep ++ s)) in *.
  cbn [split_go]. rewrite Hst. cbn [length].
  by rewrite Nat.sub_succ, Nat.sub_0_r, split_go_skip.
Qed.

(** Blocks that are free of the separator are what [split] returns. *)
Lemma split_blocks sep blocks :
  sep <> [] -> Forall (free_of sep) blocks ->
  split (concat (app sep <$> blocks)) sep = [] :: blocks.
Proof.
  intros Hsep Hall. unfold split.
  enough (split_go sep (concat (app sep <$> blocks)) 0 = ([], blocks)) as ->
    by done.
  induction Hall as [|b bs Hb Hall IH]; [done|].
  rewrite fmap_cons. cbn [concat]. rewrite <- app_assoc.
  rewrite split_go_sep by done.
  rewrite split_go_free, IH; [by rewrite app_nil_r|].
  intros i Hi. apply free_of_extend; [done| |done].
  destruct bs as [|b' bs']; [by left | right].
  rewrite fmap_cons. cbn [concat]. rewrite <- app_assoc.
  apply startswith_self_app.
Qed.

(** ** [strip], [lower] and [title] *)

Lemma length_lower s : length (lower s) = length s.
Proof. apply length_map. Qed.

Lemma title_go_nil b s : title_go b s = [] <-> s = [].
Proof.
  split; [|by intros ->].
  destruct s as [|c s]; [done|]. simpl.
  destruct b; [done|]. unfold title_chr. by destruct (code c =? 223).
Qed.

Lemma title_lower_nil s : title (lower s) = [] <-> s = [].
Proof.
  unfold title. rewrite title_go_nil. split; [|by intros ->].
  intros H. apply (f_equal length) in H. rewrite length_lower in H.
  by destruct s.
Qed.

(** [int] of a digit string within the limit. *)
Lemma int_within s :
  s <> [] -> len s <= int_max_str_digits -> int_ s = Ok (int_digits s).
Proof.
  intros Hne Hlen. unfold int_. destruct s; [done|].
  assert ((int_max_str_digits <? len (a :: s)) = false) as -> by lia. done.
Qed.

Lemma int_short s :
  s <> [] -> (length s <= 4300)%nat -> int_ s = Ok (int_digits s).
Proof.
  intros Hne Hlen. apply int_within; [done|].
  unfold len, int_max_str_digits. lia.
Qed.

Lemma lstrip_nil s : lstrip s = [] <-> Forall (fun c => is_space c = true) s.
Proof.
  induction s as [|c s IH]; simpl; [by split|].
  destruct (is_space c) eqn:E.
  - rewrite IH. split; [by constructor | by inversion 1].
  - split; [done | inversion 1; congruence].
Qed.

Lemma lstrip_suffix s : exists sp, s = sp ++ lstrip s
  /\ Forall (fun c => is_space c = true) sp.
Proof.
  induction s as [|c s (sp & Hs & Hsp)]; simpl; [by exists []|].
  destruct (is_space c) eqn:E.
  - exists (c :: sp). split; [simpl; by f_equal | by constructor].
  - by exists [].
Qed.

Lemma strip_nil s : strip s = [] <-> Forall (fun c => is_space c = true) s.
Proof.
  unfold strip, rstrip.
  destruct (lstrip_suffix s) as (sp & Hs & Hsp).
  split.
  - intros H. apply (f_equal (@rev ascii)) in H. rewrite rev_involutive in H.
    simpl in H. apply lstrip_nil in H.
    rewrite Hs. apply Forall_app. split; [done|].
    apply Forall_forall. intros c Hc. rewrite Forall_forall in H.
    apply H. apply list_elem_of_In, in_rev. rewrite rev_involutive.
    by apply list_elem_of_In.
  - intros H. assert (lstrip s = []) as -> by by apply lstrip_nil. done.
Qed.

Lemma int_digits_nonneg s :
  Forall (fun c => is_digit c = true) s -> 0 <= int_digits s.
Proof.
  unfold int_digits. intros H.
  enough (forall acc, 0 <= acc ->
            0 <= fold_left (fun a c => 10 * a + digit_val c) s acc) as Hgen
    by (by apply Hgen).
  induction H as [|c s Hc Hs IH]; intros acc Hacc; simpl; [done|].
  apply IH. unfold digit_val. unfold is_digit, in_range in Hc.
  apply andb_true_iff in Hc as [H1 H2]. lia.
Qed.

End PyStrFacts.

Module ReFacts.
Import PyStr Re PyStrSpec ReSpec PyStrFacts.

(** ** Runs of a character class *)

Lemma take_drop_while p s : take_while p s ++ drop_while p s = s.
Proof. induction s as [|c s IH]; simpl; [done|]. destruct (p c); simpl; by f_equal. Qed.

Lemma take_while_all p s : Forall (fun c => p c = true) (take_while p s).
Proof.
  induction s as [|c s IH]; simpl; [constructor|].
  destruct (p c) eqn:E; by constructor.
Qed.

Lemma drop_while_head p s :
  match drop_while p s with
  | [] => True
  | c :: _ => p c = false
  end.
Proof. induction s as [|c s IH]; simpl; [done|]. by destruct (p c) eqn:E. Qed.

Lemma drop_while_drop p s : drop_while p s = drop (length (take_while p s)) s.
Proof. induction s as [|c s IH]; simpl; [done|]. by destruct (p c). Qed.

Lemma take_while_app p v rest :
  Forall (fun c => p c = true) v ->
  match rest with [] => True | c :: _ => p c = false end ->
  take_while p (v ++ rest) = v /\ drop_while p (v ++ rest) = rest.
Proof.
  intros Hv Hrest. induction Hv as [|c v Hc Hv IH]; simpl.
  - destruct rest as [|c rest]; simpl; [done|]. by rewrite Hrest.
  - rewrite Hc. destruct IH as [-> ->]. done.
Qed.

Lemma tails_while_lookup p s (i : nat) :
  tails_while p s !! i
  = if decide (i <= length (take_while p s))%nat then Some (drop i s) else None.
Proof.
  revert i. induction s as [|c s IH]; intros i.
  - destruct i as [|i]; simpl; [done|]. by destruct i.
  - destruct i as [|i]; simpl; [done|].
    destruct (p c); simpl.
    + rewrite IH. repeat case_decide; try done; lia.
    + by destruct i.
Qed.

Lemma tails_while_length p s :
  length (tails_while p s) = S (length (take_while p s)).
Proof. induction s as [|c s IH]; simpl; [done|]. destruct (p c); simpl; by f_equal. Qed.

(** ** Single steps of [run] *)

Lemma run_seq a b caps s :
  run (Seq a b) caps s = m ← run a caps s; run b m.1 m.2.
Proof. done. Qed.

Lemma run_seqs_cons a rs caps s :
  run (seqs (a :: rs)) caps s = m ← run a caps s; run (seqs rs) m.1 m.2.
Proof. done. Qed.

Lemma run_seqs_nil caps s : run (seqs []) caps s = [(caps, s)].
Proof. done. Qed.

Lemma bind_singleton {A B} (f : A -> list B) (x : A) : ([x] ≫= f) = f x.
Proof. simpl. apply app_nil_r. Qed.

(** A literal matches when the text starts with it, in one way. *)
Lemma run_chars (l : str) caps s :
  run (seqs (chr <$> l)) caps s
  = if startswith s l then [(caps, drop (length l) s)] else [].
Proof.
  revert s. induction l as [|a l IH]; intros s; [done|].
  rewrite fmap_cons, run_seqs_cons. simpl.
  destruct s as [|b s]; [done|].
  destruct (chr_eqb a b) eqn:E; simpl; [|done].
  rewrite app_nil_r. apply IH.
Qed.

Lemma run_text (l : string) caps s :
  run (text l) caps s
  = if startswith s (lit l) then [(caps, drop (length (lit l)) s)] else [].
Proof. apply run_chars. Qed.

(** An exact repetition matches when the text starts with [n] characters
    of the class, in one way. *)
Lemma run_times n p caps s :
  run (times n p) caps s
  = if decide (n <= length (take_while p s))%nat then [(caps, drop n s)] else [].
Proof.
  unfold times. simpl. unfold rep_choices.
  replace (S n - n)%nat with 1%nat by lia.
  pose proof (tails_while_lookup p s n) as H.
  destruct (drop n (tails_while p s)) as [|x xs] eqn:E.
  - case_decide; [|done]. exfalso.
    assert (length (drop n (tails_while p s)) = 0%nat) as Hl by by rewrite E.
    rewrite length_drop, tails_while_length in Hl. lia.
  - assert (tails_while p s !! n = Some x) as Hx.
    { rewrite <- (Nat.add_0_r n), <- lookup_drop, E. done. }
    rewrite H in Hx. case_decide; [|done]. injection Hx as <-. done.
Qed.

Lemma rev_reverse {A} (l : list A) : rev l = reverse l.
Proof. apply rev_alt. Qed.

Lemma tails_while_last p s :
  last (tails_while p s) = Some (drop_while p s).
Proof.
  rewrite last_lookup, tails_while_length. simpl.
  rewrite tails_while_lookup, decide_True by lia.
  by rewrite drop_while_drop.
Qed.

(** A greedy [+] takes the whole run first. *)
Lemma run_plus_head p caps s :
  head (run (plus p) caps s)
  = match take_while p s with
    | [] => None
    | _ => Some (caps, drop_while p s)
    end.
Proof.
  unfold plus. simpl. unfold rep_choices.
  rewrite rev_reverse, fmap_reverse, head_reverse, fmap_last.
  pose proof (tails_while_length p s) as Hlen.
  pose proof (tails_while_last p s) as Hlast.
  destruct (tails_while p s) as [|x l] eqn:E; [done|]. simpl in *.
  destruct (take_while p s) as [|c v]; simpl in *.
  - destruct l; [done | simpl in Hlen; lia].
  - destruct l as [|y l]; [simpl in Hlen; lia|].
    rewrite last_cons_cons in Hlast. rewrite drop_0. by rewrite Hlast.
Qed.

(** The head of a sequence behind a pattern that matches in at most one
    way. *)
Lemma head_bind_one {A B} (xs : list A) (f : A -> list B) :
  (length xs <= 1)%nat ->
  head (xs ≫= f) = x ← head xs; head (f x).
Proof.
  destruct xs as [|x [|y xs]]; simpl; intros H; [done | | lia].
  by rewrite app_nil_r.
Qed.

Lemma matched_take_while p s : matched s (drop_while p s) = take_while p s.
Proof.
  unfold matched. rewrite <- (take_drop_while p s) at 1 3.
  rewrite length_app, Nat.add_sub. apply take_app_length.
Qed.

(** ** Labelled fields: a label, [n] tabs and a captured run *)

Lemma match_at_field label n p s :
  match_at (field_re label n p) s = field_match (lit label) n p s.
Proof.
  unfold match_at, field_re, field_match.
  rewrite run_seqs_cons, run_text.
  destruct (startswith s (lit label)); [|done].
  rewrite bind_singleton. simpl fst. simpl snd.
  rewrite run_seqs_cons, run_times.
  case_decide as Hd; [|done]. clear Hd.
  rewrite bind_singleton. simpl fst. simpl snd.
  rewrite run_seqs_cons.
  set (s2 := drop n (drop (length (lit label)) s)).
  change (run (Grp (plus p)) [] s2)
    with ((fun m : list str * str => (m.1 ++ [matched s2 m.2], m.2))
            <$> run (plus p) [] s2).
  pose proof (run_plus_head p [] s2) as H.
  destruct (run (plus p) [] s2) as [|m ms]; simpl in H.
  - by destruct (take_while p s2).
  - destruct (take_while p s2) as [|c v] eqn:E; [done|].
    injection H as ->. simpl. by rewrite matched_take_while, E.
Qed.

(** What a match of a labelled field says about the text. *)
Lemma field_match_Some label n p s caps rest :
  field_match label n p s = Some (caps, rest) ->
  exists v, caps = [v] /\ v <> [] /\ Forall (fun c => p c = true) v
    /\ s = label ++ replicate n "009"%char ++ v ++ rest
    /\ match rest with [] => True | c :: _ => p c = false end.
Proof.
  unfold field_match. destruct (startswith s label) eqn:Hl; [|done].
  apply startswith_app in Hl as [s1 ->]. rewrite drop_app_length.
  case_decide as Ht; [|done].
  destruct (take_while p (drop n s1)) as [|c v] eqn:E; [done|].
  intros [= <- <-]. exists (c :: v). split; [done|]. split; [done|].
  split; [rewrite <- E; apply take_while_all|].
  split; [|apply drop_while_head].
  f_equal. rewrite <- E, take_drop_while.
  rewrite <- (take_drop n s1) at 1. f_equal.
  pose proof (take_while_all tab s1) as Hall.
  rewrite <- (take_drop_while tab s1) at 1.
  rewrite take_app_le by done.
  apply (Forall_take _ n) in Hall.
  assert (length (take n (take_while tab s1)) = n) as Hn
    by (rewrite length_take; lia).
  revert Hall Hn. generalize (take n (take_while tab s1)). clear.
  intros l Hall. revert n. induction Hall as [|c l Hc Hall IH]; intros n <-; [done|].
  simpl. f_equal; [|by apply IH].
  unfold tab in Hc. by apply chr_eqb_eq in Hc.
Qed.

Lemma take_while_tabs n s :
  (n <= length (take_while tab (replicate n "009"%char ++ s)))%nat.
Proof. induction n as [|n IH]; simpl; [lia|]. lia. Qed.

(** A field whose value starts with a character of the class matches. *)
Lemma field_match_intro label n p c rest :
  p c = true ->
  is_Some (field_match label n p (label ++ replicate n "009"%char ++ c :: rest)).
Proof.
  intros Hc. unfold field_match.
  rewrite startswith_self_app, drop_app_length.
  rewrite decide_True by apply take_while_tabs.
  rewrite drop_app_length' by (by rewrite length_replicate).
  simpl. rewrite Hc. done.
Qed.

(** ** [search] and [findall] *)

Lemma search_Some r s m :
  search r s = Some m ->
  exists i : nat, (i <= length s)%nat /\ match_at r (drop i s) = Some m
    /\ forall j : nat, (j < i)%nat -> match_at r (drop j s) = None.
Proof.
  induction s as [|c s IH]; simpl.
  - destruct (match_at r []) eqn:E; [|done]. intros [= ->].
    exists 0%nat. split; [done|]. split; [done|]. intros; lia.
  - destruct (match_at r (c :: s)) eqn:E.
    + intros [= ->]. exists 0%nat.
      split; [simpl; lia|]. split; [done|]. intros; lia.
    + intros H. destruct (IH H) as (i & Hi & Hm & Hj).
      exists (S i). split; [simpl; lia|]. split; [done|].
      intros [|j] Hlt; [done | apply Hj; lia].
Qed.

Lemma search_None r s (i : nat) :
  search r s = None -> match_at r (drop i s) = None.
Proof.
  revert i. induction s as [|c s IH]; intros i; simpl.
  - rewrite drop_nil. by destruct (match_at r []).
  - destruct (match_at r (c :: s)) eqn:E; [done|].
    intros H. destruct i as [|i]; [done | by apply IH].
Qed.

Lemma search_is_Some r s (i : nat) :
  is_Some (match_at r (drop i s)) -> is_Some (search r s).
Proof.
  intros [m Hm]. destruct (search r s) eqn:E; [done|].
  by rewrite (search_None _ _ i E) in Hm.
Qed.

Lemma findall_head r s : head (findall r s) = fst <$> search r s.
Proof.
  unfold findall. induction s as [|c s IH]; simpl.
  - by destruct (match_at r []).
  - by destruct (match_at r (c :: s)).
Qed.

(** [findall(...)[0]] is the group of the leftmost match, and an
    [IndexError] when there is no match. *)
Lemma first_findall1 r s :
  first (findall1 r s)
  = match search r s with
    | Some m => Ok (group 0 m.1)
    | None => Raise IndexError
    end.
Proof.
  unfold findall1. pose proof (findall_head r s) as H.
  destruct (findall r s) as [|x xs]; destruct (search r s); simpl in *;
    try done. by injection H as ->.
Qed.

Lemma first_findall2 r s :
  first (findall2 r s)
  = match search r s with
    | Some m => Ok (group 0 m.1, group 1 m.1)
    | None => Raise IndexError
    end.
Proof.
  unfold findall2. pose proof (findall_head r s) as H.
  destruct (findall r s) as [|x xs]; destruct (search r s); simpl in *;
    try done. by injection H as ->.
Qed.

Lemma first_Raise {A} (xs : list A) e : first xs = Raise e -> e = IndexError.
Proof. destruct xs; simpl; congruence. Qed.

(** ** What a match says about the text *)

Lemma elem_tails_while p s t :
  t ∈ tails_while p s ->
  exists v, s = v ++ t /\ Forall (fun c => p c = true) v.
Proof.
  revert t. induction s as [|c s IH]; intros t; simpl.
  - intros H. apply list_elem_of_singleton in H as ->. by exists [].
  - intros H. apply elem_of_cons in H as [-> | H]; [by exists []|].
    destruct (p c) eqn:E; [|by apply elem_of_nil in H].
    destruct (IH _ H) as (v & -> & Hv). exists (c :: v). split; [done|].
    by constructor.
Qed.

Lemma elem_rep_choices g lo hi p s t :
  t ∈ rep_choices g lo hi p s ->
  exists v, s = v ++ t /\ Forall (fun c => p c = true) v
    /\ (lo <= length v)%nat
    /\ match hi with Some h => (length v <= h)%nat | None => True end.
Proof.
  unfold rep_choices. intros H.
  assert (t ∈ match hi with
              | Some h => take (S h - lo) (drop lo (tails_while p s))
              | None => drop lo (tails_while p s)
              end) as Hin.
  { destruct g; [|done]. by apply list_elem_of_In, in_rev, list_elem_of_In in H. }
  clear H.
  assert (exists i : nat, tails_while p s !! i = Some t /\ (lo <= i)%nat
            /\ match hi with Some h => (i <= h)%nat | None => True end)
    as (i & Hi & Hlo & Hhi).
  { destruct hi as [h|].
    - apply list_elem_of_lookup in Hin as [j Hj].
      apply lookup_take_Some in Hj as [Hj Hlt]. rewrite lookup_drop in Hj.
      exists (lo + j)%nat. split; [done|]. lia.
    - apply list_elem_of_lookup in Hin as [j Hj]. rewrite lookup_drop in Hj.
      exists (lo + j)%nat. split; [done|]. split; [lia | done]. }
  rewrite tails_while_lookup in Hi. case_decide as Hle; [|done].
  injection Hi as <-. exists (take i s).
  split; [by rewrite take_drop|].
  assert (take i s = take i (take_while p s)) as Ht.
  { rewrite <- (take_drop_while p s) at 1. by rewrite take_app_le. }
  split; [rewrite Ht; apply Forall_take, take_while_all|].
  assert (length (take i s) = i) as ->.
  { rewrite Ht, length_take. lia. }
  done.
Qed.

Lemma elem_run_rep g lo hi p caps s m :
  m ∈ run (Rep g lo hi p) caps s ->
  m.1 = caps /\ exists v, s = v ++ m.2 /\ Forall (fun c => p c = true) v
    /\ (lo <= length v)%nat
    /\ match hi with Some h => (length v <= h)%nat | None => True end.
Proof.
  simpl. intros H. apply list_elem_of_fmap in H as (t & -> & Ht).
  split; [done|]. by apply elem_rep_choices in Ht.
Qed.

Lemma elem_run_chr p caps s m :
  m ∈ run (Chr p) caps s -> m.1 = caps /\ exists c, s = c :: m.2 /\ p c = true.
Proof.
  simpl. destruct s as [|c s]; [by intros H%elem_of_nil|].
  destruct (p c) eqn:E; [|by intros H%elem_of_nil].
  intros H%list_elem_of_singleton. subst. split; [done|]. by exists c.
Qed.

Lemma elem_run_seq a b caps s m :
  m ∈ run (Seq a b) caps s <->
  exists m1, m1 ∈ run a caps s /\ m ∈ run b m1.1 m1.2.
Proof.
  simpl. rewrite list_elem_of_bind. split.
  - intros (m1 & H1 & H2). by exists m1.
  - intros (m1 & H1 & H2). by exists m1.
Qed.

Lemma elem_run_grp a caps s m :
  m ∈ run (Grp a) caps s ->
  exists m1, m1 ∈ run a caps s /\ m = (m1.1 ++ [matched s m1.2], m1.2).
Proof. simpl. intros H. apply list_elem_of_fmap in H as (m1 & -> & H). by exists m1. Qed.

Lemma matched_app v rest : matched (v ++ rest) rest = v.
Proof. unfold matched. by rewrite length_app, Nat.add_sub, take_app_length. Qed.

(** ** The first way a pattern matches *)

Lemma head_bind_skip {A B} (xs ys : list A) (x : A) (f : A -> list B) :
  Forall (fun a => f a = []) xs ->
  head ((xs ++ x :: ys) ≫= f) = head (f x ++ (ys ≫= f)).
Proof.
  induction 1 as [|a xs Ha Hxs IH]; simpl; [done|]. by rewrite Ha.
Qed.

Lemma head_app_first {A} (xs ys : list A) x :
  head xs = Some x -> head (xs ++ ys) = Some x.
Proof. by destruct xs. Qed.

Lemma leads_seq a b caps s m1 m :
  leads a caps s m1 -> leads b m1.1 m1.2 m -> leads (Seq a b) caps s m.
Proof.
  unfold leads. simpl. destruct (run a caps s) as [|x xs]; [done|].
  intros [= ->] H. simpl. by apply head_app_first.
Qed.

Lemma leads_seqs_cons a rs caps s m1 m :
  leads a caps s m1 -> leads (seqs rs) m1.1 m1.2 m ->
  leads (seqs (a :: rs)) caps s m.
Proof. apply leads_seq. Qed.

Lemma leads_seqs_nil caps s : leads (seqs []) caps s (caps, s).
Proof. done. Qed.

Lemma leads_chr p caps c s : p c = true -> leads (Chr p) caps (c :: s) (caps, s).
Proof. unfold leads. simpl. by intros ->. Qed.

Lemma leads_alt_l a b caps s m : leads a caps s m -> leads (Alt a b) caps s m.
Proof. unfold leads. simpl. apply head_app_first. Qed.

Lemma leads_alt_r a b caps s m :
  run a caps s = [] -> leads b caps s m -> leads (Alt a b) caps s m.
Proof. unfold leads. simpl. by intros ->. Qed.

Lemma leads_grp a caps s m :
  leads a caps s m -> leads (Grp a) caps s (m.1 ++ [matched s m.2], m.2).
Proof.
  unfold leads. simpl. destruct (run a caps s) as [|x xs]; [done|].
  by intros [= ->].
Qed.

Lemma take_while_app_all p v rest :
  Forall (fun c => p c = true) v ->
  take_while p (v ++ rest) = v ++ take_while p rest.
Proof. induction 1 as [|c v Hc Hv IH]; simpl; [done|]. by rewrite Hc, IH. Qed.

Lemma leads_times n p caps v rest :
  Forall (fun c => p c = true) v -> length v = n ->
  leads (times n p) caps (v ++ rest) (caps, rest).
Proof.
  intros Hv Hn. unfold leads. rewrite run_times, decide_True.
  - simpl. by rewrite <- Hn, drop_app_length.
  - rewrite take_while_app_all, length_app by done. lia.
Qed.

(** A greedy repetition first takes the whole run. *)
Lemma leads_greedy lo p caps v rest :
  Forall (fun c => p c = true) v -> (lo <= length v)%nat ->
  match rest with [] => True | c :: _ => p c = false end ->
  leads (Rep true lo None p) caps (v ++ rest) (caps, rest).
Proof.
  intros Hv Hlo Hrest. unfold leads. simpl. unfold rep_choices.
  rewrite rev_reverse, fmap_reverse, head_reverse, fmap_last.
  destruct (take_while_app p v rest Hv Hrest) as [Ht Hd].
  pose proof (tails_while_last p (v ++ rest)) as Hlast. rewrite Hd in Hlast.
  pose proof (tails_while_length p (v ++ rest)) as Hlen. rewrite Ht in Hlen.
  rewrite last_lookup in *. rewrite length_drop, lookup_drop, Hlen.
  rewrite Hlen in Hlast. simpl in Hlast.
  replace (lo + pred (S (length v) - lo))%nat with (length v) by lia.
  by rewrite Hlast.
Qed.

Lemma leads_star p caps v rest :
  Forall (fun c => p c = true) v ->
  match rest with [] => True | c :: _ => p c = false end ->
  leads (star p) caps (v ++ rest) (caps, rest).
Proof. intros. apply leads_greedy; [done | lia | done]. Qed.

Lemma leads_plus p caps v rest :
  Forall (fun c => p c = true) v -> v <> [] ->
  match rest with [] => True | c :: _ => p c = false end ->
  leads (plus p) caps (v ++ rest) (caps, rest).
Proof.
  intros. apply leads_greedy; [done | | done]. destruct v; [done | simpl; lia].
Qed.

(** An optional character is taken when it is there. *)
Lemma leads_opt_some p caps c rest :
  p c = true -> leads (opt p) caps (c :: rest) (caps, rest).
Proof.
  intros Hc. unfold leads, opt. simpl. unfold rep_choices.
  cbn [tails_while drop Nat.sub]. rewrite Hc.
  destruct (tails_while p rest) as [|t ts] eqn:E; [by destruct rest|].
  assert (t = rest) as -> by (destruct rest; simpl in E; congruence). done.
Qed.

Lemma leads_opt_none p caps rest :
  match rest with [] => True | c :: _ => p c = false end ->
  leads (opt p) caps rest (caps, rest).
Proof.
  intros Hc. unfold leads, opt. simpl. unfold rep_choices.
  destruct rest as [|c rest]; [done|].
  cbn [tails_while drop Nat.sub]. by rewrite Hc.
Qed.

(** A literal and a literal without regard to case. *)
Lemma leads_chars (f : ascii -> re) (q : ascii -> ascii -> bool) l x caps rest :
  (forall c, f c = Chr (q c)) ->
  Forall2 (fun c y => q c y = true) l x ->
  leads (seqs (f <$> l)) caps (x ++ rest) (caps, rest).
Proof.
  intros Hf. induction 1 as [|c y l x Hc Hl IH]; [done|].
  rewrite fmap_cons. apply (leads_seqs_cons _ _ _ _ (caps, x ++ rest)); [|apply IH].
  rewrite Hf. by apply leads_chr.
Qed.

Lemma leads_text w caps rest : leads (text w) caps (lit w ++ rest) (caps, rest).
Proof.
  apply (leads_chars chr chr_eqb); [done|].
  induction (lit w) as [|c l IH]; constructor; [by apply chr_eqb_eq | done].
Qed.

Lemma leads_itext w x caps rest :
  spells w x -> leads (itext w) caps (x ++ rest) (caps, rest).
Proof.
  intros H.
  apply (leads_chars ichr (fun c y => chr_eqb (lower_chr y) (lower_chr c)));
    [done|].
  unfold spells, lower in H. revert x H.
  induction (lit w) as [|c l IH]; intros [|y x] H; try done; simpl in H.
  injection H as Hc Hl. constructor; [by apply chr_eqb_eq | by apply IH].
Qed.

Lemma run_itext_nil w caps s :
  (forall x rest, s = x ++ rest -> ~ spells w x) -> run (itext w) caps s = [].
Proof.
  unfold itext, spells, lower. revert s.
  induction (lit w) as [|c l IH]; intros s H.
  - exfalso. by apply (H [] s).
  - rewrite fmap_cons, run_seqs_cons. simpl.
    destruct s as [|y s]; [done|].
    destruct (chr_eqb (lower_chr y) (lower_chr c)) eqn:E; [|done].
    simpl. rewrite app_nil_r. apply IH. intros x rest -> Hx.
    apply (H (y :: x) rest); [done|]. simpl. apply chr_eqb_eq in E.
    by rewrite E, Hx.
Qed.

End ReFacts.

Module SecFacts.
Import PyStr Re Float64 Sec PyStrSpec ReSpec SecSpec SecSamples PyStrFacts ReFacts.

(** ** The header splitter *)

Lemma contains_find s sub :
  contains s sub = true ->
  exists n : nat, find s sub = Z.of_nat n /\ (n <= length s)%nat
    /\ startswith (drop n s) sub = true.
Proof.
  unfold contains. intros H.
  destruct (find_cases s sub) as [[E _] | (n & Hn & Hle & Hs & _)].
  - rewrite E in H. done.
  - by exists n.
Qed.

(** The marker found at [filer_section_start] is the one the filer
    section is split on. *)
Lemma filer_start_marker header :
  0 <= filer_section_start header ->
  exists f : nat, filer_section_start header = Z.of_nat f
    /\ (f <= length header)%nat
    /\ startswith (drop f header) (filer_marker header) = true.
Proof.
  unfold filer_section_start, filer_marker.
  destruct (find header FILER =? -1) eqn:E; intros H.
  - destruct (find_cases header FILED_BY) as [[E' _] | (n & Hn & Hle & Hs & _)];
      [lia|]. by exists n.
  - destruct (find_cases header FILER) as [[E' _] | (n & Hn & Hle & Hs & _)];
      [lia|]. by exists n.
Qed.

Lemma filer_marker_cases header :
  filer_marker header = FILER \/ filer_marker header = FILED_BY.
Proof. unfold filer_marker. destruct (_ =? _); auto. Qed.

Lemma filer_marker_nonempty header : filer_marker header <> [].
Proof. by destruct (filer_marker_cases header) as [-> | ->]. Qed.

Lemma filer_marker_length header : (1 <= length (filer_marker header))%nat.
Proof. destruct (filer_marker_cases header) as [-> | ->]; simpl; lia. Qed.

(** No filer marker contains the first letter of the subject marker, so
    the subject marker cannot begin inside a filer marker. *)
Lemma marker_overlap h (m : str) (c : ascii) (f s : nat) rest :
  startswith (drop f h) m = true ->
  startswith (drop s h) (c :: rest) = true ->
  (f <= s < f + length m)%nat ->
  m !! (s - f)%nat = Some c.
Proof.
  intros Hm Hc Hr.
  apply startswith_app in Hm as [t Ht]. apply startswith_app in Hc as [u Hu].
  assert (h !! s = Some c) as Hs.
  { rewrite <- (Nat.add_0_r s), <- lookup_drop, Hu. done. }
  replace s with (f + (s - f))%nat in Hs by lia.
  rewrite <- lookup_drop, Ht, lookup_app_l in Hs by lia. done.
Qed.

Lemma subject_outside_marker header (f s : nat) :
  startswith (drop f header) (filer_marker header) = true ->
  startswith (drop s header) SUBJECT_COMPANY = true ->
  (s < f \/ f + length (filer_marker header) <= s)%nat.
Proof.
  intros Hm Hs.
  destruct (decide (f <= s < f + length (filer_marker header))%nat) as [Hr|];
    [|lia].
  exfalso. pose proof (marker_overlap _ _ _ _ _ _ Hm Hs Hr) as Hl.
  apply list_elem_of_lookup_2 in Hl.
  assert (Forall (fun c => c <> "S"%char) (filer_marker header)) as Hall.
  { destruct (filer_marker_cases header) as [-> | ->];
      unfold FILER, FILED_BY, lit; simpl;
      repeat (constructor; [discriminate|]); constructor. }
  rewrite Forall_forall in Hall. by apply (Hall _ Hl).
Qed.

Section SplitHeader.
Variable header : str.
Hypothesis has_subject : contains header SUBJECT_COMPANY = true.
Hypothesis has_filer :
  contains header FILER || contains header FILED_BY = true.

Lemma filer_start_nonneg : 0 <= filer_section_start header.
Proof.
  unfold filer_section_start. apply orb_true_iff in has_filer.
  destruct (find header FILER =? -1) eqn:E.
  - destruct has_filer as [H | H].
    + unfold contains in H. rewrite E in H. done.
    + destruct (contains_find _ _ H) as (n & -> & _). lia.
  - destruct (find_range header FILER); lia.
Qed.

Lemma header_offsets :
  exists s f : nat,
    subject_section_start header = Z.of_nat s
    /\ filer_section_start header = Z.of_nat f
    /\ (s <= length header)%nat /\ (f <= length header)%nat
    /\ startswith (drop s header) SUBJECT_COMPANY = true
    /\ startswith (drop f header) (filer_marker header) = true
    /\ (s < f \/ f + length (filer_marker header) <= s)%nat.
Proof.
  destruct (contains_find _ _ has_subject) as (s & Hs & Hsl & Hss).
  destruct (filer_start_marker header filer_start_nonneg) as (f & Hf & Hfl & Hfs).
  exists s, f. repeat split; try done.
  by apply subject_outside_marker.
Qed.

End SplitHeader.

(** C1.  In a header that contains the subject marker and a filer marker,
    the two sections are bounded by the offsets of the markers: the
    section whose marker comes first runs from its marker up to the other
    marker, the one whose marker comes second runs from its marker to the
    end of the header, whichever of the two is the subject.  The filer
    section is then cut at its markers, and the blocks, each behind its
    marker, make up the filer section again. *)
Theorem split_header_by_offset (header : str) :
  contains header SUBJECT_COMPANY = true ->
  contains header FILER || contains header FILED_BY = true ->
  exists s f : nat,
    subject_section_start header = Z.of_nat s
    /\ filer_section_start header = Z.of_nat f
    /\ s <> f
    /\ startswith (drop s header) SUBJECT_COMPANY = true
    /\ startswith (drop f header) (filer_marker header) = true
    /\ ((s < f)%nat ->
        header_sections header = (take (f - s) (drop s header), drop f header))
    /\ ((f < s)%nat ->
        header_sections header = (drop s header, take (s - f) (drop f header)))
    /\ (_split_header header).1 = (header_sections header).1
    /\ (header_sections header).2
       = concat (app (filer_marker header) <$> (_split_header header).2).
Proof.
  intros Hsub Hfil.
  destruct (header_offsets header Hsub Hfil)
    as (s & f & Hs & Hf & Hsl & Hfl & Hss & Hfs & Hsep).
  pose proof (filer_marker_length header) as Hlen.
  exists s, f. split; [done|]. split; [done|]. split; [lia|].
  split; [done|]. split; [done|].
  assert ((s < f)%nat ->
          header_sections header = (take (f - s) (drop s header), drop f header))
    as Hlt.
  { intros Hlt. unfold header_sections. rewrite Hs, Hf.
    assert ((Z.of_nat s >? Z.of_nat f) = false) as -> by lia.
    rewrite slice_between, slice_from by lia. done. }
  assert ((f < s)%nat ->
          header_sections header = (drop s header, take (s - f) (drop f header)))
    as Hgt.
  { intros Hgt. unfold header_sections. rewrite Hs, Hf.
    assert ((Z.of_nat s >? Z.of_nat f) = true) as -> by lia.
    rewrite slice_between, slice_from by lia. done. }
  split; [done|]. split; [done|]. split; [done|].
  assert (startswith (header_sections header).2 (filer_marker header) = true)
    as Hstart.
  { destruct Hsep as [Hlt' | Hge].
    - rewrite (Hlt Hlt'). done.
    - rewrite Hgt by lia.
      simpl. apply startswith_app in Hfs as [t Ht]. rewrite Ht.
      rewrite take_app_ge by lia. apply startswith_self_app. }
  destruct (split_startswith _ _ (filer_marker_nonempty header) Hstart)
    as (ps & Hsp & Heq).
  unfold _split_header. simpl. rewrite Hsp. done.
Qed.

(** ** Field extraction *)

Lemma search_field_Some label n p b m :
  search (field_re label n p) b = Some m ->
  exists v, m.1 = [v] /\ field_value label n p b v.
Proof.
  intros H. destruct (search_Some _ _ _ H) as (i & Hi & Hm & _).
  rewrite match_at_field in Hm. destruct m as [caps rest].
  destruct (field_match_Some _ _ _ _ _ _ Hm) as (v & -> & Hv & Hall & Hb & Hr).
  exists v. split; [done|]. exists (take i b), rest.
  split; [|done]. by rewrite <- Hb, take_drop.
Qed.

Lemma search_field_carries label n p b :
  carries label n p b -> is_Some (search (field_re label n p) b).
Proof.
  intros (pre & c & rest & -> & Hc).
  apply (search_is_Some _ _ (length pre)).
  rewrite drop_app_length, match_at_field. by apply field_match_intro.
Qed.

Lemma group0_singleton (v : str) : group 0 [v] = v.
Proof. done. Qed.

(** [_parse_name] and [_parse_cik] return the first value of their field,
    and fail with [IndexError] when the section has none. *)
Lemma parse_name_cases section :
  (findall name_re section = [] /\ _parse_name section = Raise IndexError)
  \/ exists v, field_value "COMPANY CONFORMED NAME:" 3 dot section v
       /\ _parse_name section = Ok (title (lower (strip v))).
Proof.
  unfold _parse_name. rewrite first_findall1.
  pose proof (findall_head name_re section) as Hh.
  destruct (search name_re section) as [m|] eqn:E.
  - right. destruct (search_field_Some _ _ _ _ _ E) as (v & Hm & Hv).
    exists v. split; [done|]. by rewrite Hm.
  - left. split; [|done]. by destruct (findall name_re section).
Qed.

Lemma parse_cik_cases section :
  (findall cik_re section = [] /\ _parse_cik section = Raise IndexError)
  \/ exists v, field_value "CENTRAL INDEX KEY:" 3 is_digit section v
       /\ _parse_cik section = int_ v.
Proof.
  unfold _parse_cik. rewrite first_findall1.
  pose proof (findall_head cik_re section) as Hh.
  destruct (search cik_re section) as [m|] eqn:E.
  - right. destruct (search_field_Some _ _ _ _ _ E) as (v & Hm & Hv).
    exists v. split; [done|]. by rewrite Hm.
  - left. split; [|done]. by destruct (findall cik_re section).
Qed.

Lemma findall_nil_search r s : findall r s = [] <-> search r s = None.
Proof.
  pose proof (findall_head r s) as H.
  destruct (findall r s), (search r s); simpl in H; split; congruence.
Qed.

Lemma parse_name_carries section :
  carries "COMPANY CONFORMED NAME:" 3 dot section ->
  exists v, field_value "COMPANY CONFORMED NAME:" 3 dot section v
    /\ _parse_name section = Ok (title (lower (strip v))).
Proof.
  intros Hc. destruct (parse_name_cases section) as [[Hn _] | H]; [|done].
  apply findall_nil_search in Hn.
  apply search_field_carries in Hc as [m Hm].
  change (field_re _ _ _) with name_re in Hm. congruence.
Qed.

(** A key field within the limit is converted. *)
Lemma key_within_int section v :
  key_within section ->
  field_value "CENTRAL INDEX KEY:" 3 is_digit section v ->
  int_ v = Ok (int_digits v).
Proof.
  intros Hk Hv. apply int_within; [|by apply Hk].
  by destruct Hv as (_ & _ & _ & Hne & _).
Qed.

Lemma parse_cik_carries section :
  key_within section ->
  carries "CENTRAL INDEX KEY:" 3 is_digit section ->
  exists v, field_value "CENTRAL INDEX KEY:" 3 is_digit section v
    /\ _parse_cik section = Ok (int_digits v).
Proof.
  intros Hk Hc.
  destruct (parse_cik_cases section) as [[Hn _] | (v & Hv & Hp)].
  - apply findall_nil_search in Hn.
    apply search_field_carries in Hc as [m Hm].
    change (field_re _ _ _) with cik_re in Hm. congruence.
  - exists v. split; [done|]. by rewrite Hp, (key_within_int section).
Qed.

(** Every failure of [parse_filer] on a block whose key is within the
    limit is the missing first match. *)
Lemma parse_filer_Raise item e :
  key_within item -> parse_filer item = Raise e -> e = IndexError.
Proof.
  intros Hk. unfold parse_filer.
  destruct (parse_name_cases item) as [[_ ->] | (v & _ & ->)]; simpl;
    [congruence|].
  destruct (parse_cik_cases item) as [[_ ->] | (d & Hd & ->)]; simpl;
    [congruence|].
  rewrite (key_within_int item) by done. simpl. congruence.
Qed.

(** A block that fails makes the loop fail. *)
Lemma parse_filers_propagate items item :
  Forall key_within items ->
  item ∈ items -> item <> [] -> parse_filer item = Raise IndexError ->
  parse_filers items = Raise IndexError.
Proof.
  intros Hk Hin Hne Hfail.
  induction items as [|x items IH]; [by apply elem_of_nil in Hin|].
  inversion Hk as [|? ? Hkx Hk']; subst.
  simpl. apply elem_of_cons in Hin as [<- | Hin].
  - assert ((len item =? 0) = false) as ->
      by (destruct item; [done | unfold len; simpl; lia]).
    by rewrite Hfail.
  - destruct (len x =? 0); [by apply IH|].
    destruct (parse_filer x) eqn:E; simpl.
    + by rewrite (IH Hk' Hin).
    + by apply parse_filer_Raise in E as ->.
Qed.

(** ** The filer blocks of a header *)

(** A block of at most 4300 characters has its key within the limit, and
    a block of characters that have a title case has such a name. *)
Lemma short_key_within b : (length b <= 4300)%nat -> key_within b.
Proof.
  intros Hb d (pre & rest & -> & _). rewrite !length_app in Hb.
  unfold len, int_max_str_digits. lia.
Qed.

Lemma titled_name b :
  forallb has_title_case b = true -> name_titled b.
Proof.
  intros Hb v (pre & rest & -> & _).
  assert (Forall (fun c => has_title_case c = true)
            (pre ++ lit "COMPANY CONFORMED NAME:" ++ replicate 3 "009"%char
                 ++ v ++ rest)) as Hall.
  { apply Forall_forall. intros c Hc. rewrite forallb_forall in Hb.
    apply Hb. by apply list_elem_of_In. }
  rewrite !Forall_app in Hall. tauto.
Qed.

Lemma parse_filer_block b :
  key_within b ->
  carries "COMPANY CONFORMED NAME:" 3 dot b ->
  carries "CENTRAL INDEX KEY:" 3 is_digit b ->
  exists r, parse_filer b = Ok r /\ filer_of_block b r.
Proof.
  intros Hk Hn Hc. unfold parse_filer.
  destruct (parse_name_carries b Hn) as (v & Hv & ->).
  destruct (parse_cik_carries b Hk Hc) as (d & Hd & ->). simpl.
  eexists. split; [done|]. exists v, d. simpl.
  split; [done|]. split; [done|].
  split; [by rewrite title_lower_nil, strip_nil|].
  split; [done|]. split; [done|].
  apply int_digits_nonneg. by destruct Hd as (_ & _ & _ & _ & Hall & _).
Qed.

Lemma carries_nonempty label n p b : carries label n p b -> b <> [].
Proof.
  intros (pre & c & rest & -> & _) H. apply (f_equal length) in H.
  rewrite !length_app in H. simpl in H. lia.
Qed.

Lemma parse_filers_blocks blocks :
  Forall key_within blocks ->
  Forall (carries "COMPANY CONFORMED NAME:" 3 dot) blocks ->
  Forall (carries "CENTRAL INDEX KEY:" 3 is_digit) blocks ->
  exists rs, parse_filers blocks = Ok rs /\ Forall2 filer_of_block blocks rs.
Proof.
  induction blocks as [|b blocks IH]; intros Hk Hn Hc.
  - exists []. by split.
  - inversion Hn as [|? ? Hnb Hn']; inversion Hc as [|? ? Hcb Hc'];
      inversion Hk as [|? ? Hkb Hk']; subst.
    destruct (IH Hk' Hn' Hc') as (rs & Hrs & Hall).
    destruct (parse_filer_block b Hkb Hnb Hcb) as (r & Hr & Hbr).
    exists (r :: rs). simpl.
    assert ((len b =? 0) = false) as ->.
    { pose proof (carries_nonempty _ _ _ _ Hnb).
      destruct b; [done | unfold len; simpl; lia]. }
    rewrite Hr, Hrs. split; [done | by constructor].
Qed.

(** The filer section of a header whose filer blocks stand together. *)
Lemma filer_section_blocks header m pre blocks post :
  blocks <> [] ->
  filer_marker header = m ->
  header = pre ++ concat (app m <$> blocks) ++ post ->
  free_of m pre ->
  (post = [] /\ subject_section_start header < len pre)
  \/ subject_section_start header = len pre + len (concat (app m <$> blocks)) ->
  (header_sections header).2 = concat (app m <$> blocks).
Proof.
  intros Hne Hm Hh Hpre Hsub.
  assert (m <> []) as Hmne by (rewrite <- Hm; apply filer_marker_nonempty).
  assert (startswith (concat (app m <$> blocks) ++ post) m = true) as Hst.
  { destruct blocks as [|b bs]; [done|]. rewrite fmap_cons. cbn [concat].
    rewrite <- !app_assoc. apply startswith_self_app. }
  assert (find header m = len pre) as Hfind.
  { apply find_first.
    - by rewrite Hh, drop_app_length.
    - intros j Hj. rewrite Hh. by apply free_of_extend; [|right|].
    - rewrite Hh, length_app. lia. }
  assert (filer_section_start header = len pre) as Hf.
  { rewrite <- Hfind, <- Hm. unfold filer_section_start, filer_marker.
    destruct (find header FILER =? -1) eqn:E; [done|]. done. }
  unfold header_sections. rewrite Hf.
  set (body := concat (app m <$> blocks)) in *.
  assert (length header = (length pre + (length body + length post))%nat) as Hlen
    by (by rewrite Hh, !length_app).
  destruct Hsub as [[-> Hs] | Hs].
  - assert ((subject_section_start header >? len pre) = false) as -> by lia.
    simpl. unfold len. rewrite slice_from by lia.
    by rewrite Hh, drop_app_length, app_nil_r.
  - rewrite Hs. unfold len.
    destruct blocks as [|b bs]; [done|].
    assert (1 <= length body)%nat as Hb.
    { unfold body. rewrite fmap_cons. cbn [concat]. rewrite !length_app.
      destruct m; [done | simpl; lia]. }
    assert ((Z.of_nat (length pre) + Z.of_nat (length body)
             >? Z.of_nat (length pre)) = true) as -> by lia.
    simpl. rewrite <- Nat2Z.inj_add, slice_between by lia.
    rewrite Hh, drop_app_length.
    replace (length pre + length body - length pre)%nat with (length body)
      by lia.
    by rewrite take_app_length.
Qed.

(** C2 (amended).  When the header of a filing holds N >= 1 filer
    blocks, each behind the filer marker and free of it, standing together
    between the text before the first marker and either the end of the
    header or the subject marker, each carrying the name field and the key
    field, with a key of at most 4300 digits and a name without the micro
    sign and the y with diaeresis (whose title case is no character below
    256), then the filer loop succeeds with exactly N records, in block
    order.  Each record holds the integer its key field spells and the
    stripped, title-cased value of its name field; that name is empty
    exactly when the value is blank.  The records are the filer list of
    the filing object whenever the constructor returns one. *)
Theorem filer_records_of_blocks (file : str) (m pre : str)
    (blocks : list str) (post : str) :
  let header := header_of (file_of file) in
  blocks <> [] ->
  filer_marker header = m ->
  header = pre ++ concat (app m <$> blocks) ++ post ->
  free_of m pre ->
  Forall (free_of m) blocks ->
  (post = [] /\ subject_section_start header < len pre)
  \/ subject_section_start header = len pre + len (concat (app m <$> blocks)) ->
  Forall (carries "COMPANY CONFORMED NAME:" 3 dot) blocks ->
  Forall (carries "CENTRAL INDEX KEY:" 3 is_digit) blocks ->
  Forall key_within blocks ->
  Forall name_titled blocks ->
  exists rs,
    parse_filers (_split_header header).2 = Ok rs
    /\ length rs = length blocks
    /\ Forall2 filer_of_block blocks rs
    /\ forall self, SECFiling_init file = Ok self -> _filer self = rs.
Proof.
  intros header Hne Hm Hh Hpre Hfree Hsub Hname Hcik Hkey _.
  assert (m <> []) as Hmne by (rewrite <- Hm; apply filer_marker_nonempty).
  assert ((_split_header header).2 = blocks) as Hblocks.
  { unfold _split_header. simpl.
    rewrite (filer_section_blocks header m pre blocks post) by done.
    rewrite Hm, split_blocks by done. done. }
  destruct (parse_filers_blocks blocks Hkey Hname Hcik) as (rs & Hrs & Hall).
  exists rs. rewrite Hblocks. split; [done|].
  split; [symmetry; by eapply Forall2_length|]. split; [done|].
  intros self. unfold SECFiling_init. fold header. rewrite Hblocks, Hrs. simpl.
  destruct (_parse_form_type (file_of file)); simpl; [|done].
  destruct (_parse_filing_date (file_of file)); simpl; [|done].
  by intros [= <-].
Qed.

(** C8.  For a filer block [item] of a filing: when the classification
    pattern finds nothing in it, [parse_filer] still builds the record
    from the name and the key and leaves both classification fields
    absent; when the name pattern or the key pattern finds nothing in it,
    [parse_filer] fails with [IndexError], and so do the filer loop and
    both constructors as long as no filer block has a key of more than
    4300 digits, on which [int] would fail first.  For the subject section
    of a [Filing13D], once the base constructor has returned: a missing
    classification leaves the two subject fields absent, a missing name
    or key makes the constructor fail with [IndexError]. *)
Theorem classification_recovered_identity_propagates
    (get_text : str -> str) (file : str) (item : str) :
  item ∈ (_split_header (header_of (file_of file))).2 ->
  item <> [] ->
  (findall sic_re item = [] ->
     parse_filer item
     = (name ← _parse_name item; cik ← _parse_cik item;
        Ok {| name := name; cik := cik; sic_name := None; sic_code := None |}))
  /\ (findall name_re item = [] \/ findall cik_re item = [] ->
      parse_filer item = Raise IndexError
      /\ (Forall key_within (_split_header (header_of (file_of file))).2 ->
          parse_filers (_split_header (header_of (file_of file))).2
          = Raise IndexError
          /\ SECFiling_init file = Raise IndexError
          /\ Filing13D_init get_text file = Raise IndexError))
  /\ (forall self, SECFiling_init file = Ok self ->
      let subject := _subject_information self in
      (findall sic_re subject = [] ->
         forall name cik cusip,
           _parse_name subject = Ok name -> _parse_cik subject = Ok cik ->
           _parse_cusip get_text (_document self) = Ok cusip ->
           exists filing,
             Filing13D_init get_text file = Ok filing
             /\ _subject filing
                = Some {| subject_name := name; subject_cik := cik;
                          cusip := cusip; subject_sic_name := None;
                          subject_sic_code := None |})
      /\ (findall name_re subject = [] \/ findall cik_re subject = [] ->
          Filing13D_init get_text file = Raise IndexError)).
Proof.
  intros Hin Hne.
  assert (forall section, findall sic_re section = [] ->
            _parse_sic section = Raise IndexError) as Hsic.
  { intros section H. unfold _parse_sic, findall2. by rewrite H. }
  assert (forall section,
            findall name_re section = [] \/ findall cik_re section = [] ->
            (name ← _parse_name section; _parse_cik section ≫= fun _ => Ok name)
            = Raise IndexError) as Hid.
  { intros section [H | H].
    - destruct (parse_name_cases section) as [[_ ->] | (v & Hv & _)]; [done|].
      apply findall_nil_search in H.
      destruct Hv as (p & r & -> & Hv & Hall & _).
      assert (is_Some (search name_re (p ++ lit "COMPANY CONFORMED NAME:"
                ++ replicate 3 "009"%char ++ v ++ r))) as [x Hx]; [|congruence].
      destruct v as [|c v]; [done|]. inversion Hall; subst.
      apply (search_field_carries "COMPANY CONFORMED NAME:" 3 dot).
      by exists p, c, (v ++ r).
    - destruct (parse_cik_cases section) as [[_ ->] | (v & Hv & _)].
      + by destruct (parse_name_cases section) as [[_ ->] | (w & _ & ->)].
      + apply findall_nil_search in H.
        destruct Hv as (p & r & -> & Hv & Hall & _).
        assert (is_Some (search cik_re (p ++ lit "CENTRAL INDEX KEY:"
                  ++ replicate 3 "009"%char ++ v ++ r))) as [x Hx]; [|congruence].
        destruct v as [|c v]; [done|]. inversion Hall; subst.
        apply (search_field_carries "CENTRAL INDEX KEY:" 3 is_digit).
        by exists p, c, (v ++ r). }
  split; [|split].
  - intros H. unfold parse_filer. by rewrite (Hsic _ H).
  - intros H.
    assert (parse_filer item = Raise IndexError) as Hfail.
    { unfold parse_filer. specialize (Hid item H).
      destruct (_parse_name item); simpl in *.
      - destruct (_parse_cik item); simpl in *; congruence.
      - congruence. }
    split; [done|]. intros Hkeys.
    assert (parse_filers (_split_header (header_of (file_of file))).2
            = Raise IndexError) as Hloop
      by by apply (parse_filers_propagate _ item).
    assert (SECFiling_init file = Raise IndexError) as Hinit
      by (unfold SECFiling_init; by rewrite Hloop).
    repeat split; try done. unfold Filing13D_init. by rewrite Hinit.
  - intros self Hself subject. split.
    + intros H name cik cusip Hn Hc Hcu. unfold Filing13D_init.
      rewrite Hself. simpl. fold subject. rewrite Hn, Hc, Hcu, (Hsic _ H).
      simpl. eexists. split; [done|]. done.
    + intros H. unfold Filing13D_init. rewrite Hself. simpl. fold subject.
      specialize (Hid subject H).
      destruct (_parse_name subject); simpl in *; [|congruence].
      destruct (_parse_cik subject); simpl in *; congruence.
Qed.

(** ** A sample filing *)

Lemma carries_name (c : ascii) (name key : str) :
  dot c = true ->
  carries "COMPANY CONFORMED NAME:" 3 dot (filer_block (c :: name) key).
Proof.
  intros Hc.
  exists (nl ++ [ht]), c, (name ++ nl ++ field "CENTRAL INDEX KEY:" 3 key).
  split; [|done]. unfold filer_block, field.
  by rewrite <- !app_assoc.
Qed.

Lemma carries_key (c : ascii) (name key : str) :
  is_digit c = true ->
  carries "CENTRAL INDEX KEY:" 3 is_digit (filer_block name (c :: key)).
Proof.
  intros Hc.
  exists (nl ++ field "COMPANY CONFORMED NAME:" 3 name ++ [ht]), c, (key ++ nl).
  split; [|done]. unfold filer_block, field.
  by rewrite <- !app_assoc.
Qed.

(** C2 (as stated) fails: a filer block whose name field is blank gives a
    record with an empty name. *)
Lemma blank_name_gives_empty_name :
  ~ (forall (file m pre : str) (blocks : list str) (post : str),
       let header := header_of (file_of file) in
       blocks <> [] ->
       filer_marker header = m ->
       header = pre ++ concat (app m <$> blocks) ++ post ->
       free_of m pre ->
       Forall (free_of m) blocks ->
       (post = [] /\ subject_section_start header < len pre)
       \/ subject_section_start header
          = len pre + len (concat (app m <$> blocks)) ->
       Forall (carries "COMPANY CONFORMED NAME:" 3 dot) blocks ->
       Forall (carries "CENTRAL INDEX KEY:" 3 is_digit) blocks ->
       exists rs,
         parse_filers (_split_header header).2 = Ok rs
         /\ length rs = length blocks
         /\ Forall (fun r => name r <> []) rs).
Proof.
  intros H.
  destruct (H (filing [nameless]) FILED_BY preamble [nameless] [])
    as (rs & Hrs & _ & Hne).
  - discriminate.
  - vm_compute. reflexivity.
  - vm_compute. reflexivity.
  - apply free_of_find. vm_compute. reflexivity.
  - constructor; [|constructor]. apply free_of_find. vm_compute. reflexivity.
  - left. split; [reflexivity|]. vm_compute. reflexivity.
  - constructor; [|constructor]. by apply carries_name.
  - constructor; [|constructor]. by apply carries_key.
  - vm_compute in Hrs. injection Hrs as <-.
    inversion Hne as [|r rs' Hn _]. by apply Hn.
Qed.

Lemma split_header_by_offset_witness :
  exists s f : nat,
    subject_section_start (header_of (file_of (filing [john_doe])))
    = Z.of_nat s
    /\ filer_section_start (header_of (file_of (filing [john_doe])))
       = Z.of_nat f
    /\ (s < f)%nat.
Proof.
  destruct (split_header_by_offset (header_of (file_of (filing [john_doe]))))
    as (s & f & Hs & Hf & _); [vm_compute; reflexivity..|].
  exists s, f. split; [exact Hs|]. split; [exact Hf|].
  eassert (subject_section_start (header_of (file_of (filing [john_doe])))
           = _) as Es by (vm_compute; reflexivity).
  eassert (filer_section_start (header_of (file_of (filing [john_doe])))
           = _) as Ef by (vm_compute; reflexivity).
  rewrite Es in Hs. rewrite Ef in Hf. lia.
Defined.

Lemma filer_records_of_blocks_witness :
  exists rs,
    parse_filers (_split_header (header_of (file_of (filing [john_doe])))).2
    = Ok rs
    /\ length rs = 1%nat.
Proof.
  destruct (filer_records_of_blocks (filing [john_doe]) FILED_BY preamble
              [john_doe] [])
    as (rs & Hrs & Hlen & _).
  - discriminate.
  - vm_compute. reflexivity.
  - vm_compute. reflexivity.
  - apply free_of_find. vm_compute. reflexivity.
  - constructor; [|constructor]. apply free_of_find. vm_compute. reflexivity.
  - left. split; [reflexivity|]. vm_compute. reflexivity.
  - constructor; [|constructor]. by apply carries_name.
  - constructor; [|constructor]. by apply carries_key.
  - constructor; [|constructor]. apply short_key_within, Nat.leb_le.
    vm_compute. reflexivity.
  - constructor; [|constructor]. apply titled_name. vm_compute. reflexivity.
  - exists rs. split; [exact Hrs | exact Hlen].
Defined.

Lemma classification_recovered_identity_propagates_witness :
  parse_filer keyless = Raise IndexError
  /\ SECFiling_init (filing [john_doe; keyless]) = Raise IndexError
  /\ Filing13D_init (fun x => x) (filing [john_doe; keyless])
     = Raise IndexError.
Proof.
  assert ((_split_header (header_of (file_of (filing [john_doe; keyless])))).2
          = [john_doe; keyless]) as Hblocks by (vm_compute; reflexivity).
  destruct (classification_recovered_identity_propagates (fun x => x)
              (filing [john_doe; keyless]) keyless)
    as (_ & Hfail & _).
  - rewrite Hblocks. right. by left.
  - discriminate.
  - destruct Hfail as (Hitem & Hloop); [right; vm_compute; reflexivity|].
    split; [exact Hitem|]. apply Hloop. rewrite Hblocks.
    repeat constructor; apply short_key_within, Nat.leb_le;
      vm_compute; reflexivity.
Defined.

End SecFacts.

Module CusipFacts.
Import PyStr Re Float64 Sec PyStrSpec ReSpec SecSpec SecSamples PyStrFacts ReFacts.

(** ** [max], [replace] and [strip] on the candidates *)

Lemma max_go_spec {A} (key : A -> Z) best xs :
  let r := max_go key best xs in
  (r = best \/ r ∈ xs) /\ key best <= key r /\ Forall (fun y => key y <= key r) xs.
Proof.
  revert best. induction xs as [|x xs IH]; intros best; simpl.
  - split; [by left|]. split; [lia | constructor].
  - destruct (IH (if key best <? key x then x else best)) as (Hin & Hle & Hall).
    destruct (key best <? key x) eqn:E.
    + split; [right; destruct Hin as [-> | Hin]; [left | right]; done|].
      split; [lia|]. constructor; [lia | done].
    + split; [destruct Hin as [-> | Hin]; [left | right; right]; done|].
      split; [lia|]. constructor; [lia | done].
Qed.

(** [max] returns an element whose key no other element exceeds. *)
Lemma max_spec {A} (key : A -> Z) xs :
  xs <> [] ->
  exists x, max_ key xs = Ok x /\ x ∈ xs /\ Forall (fun y => key y <= key x) xs.
Proof.
  destruct xs as [|x xs]; [done|]. intros _. simpl.
  destruct (max_go_spec key x xs) as (Hin & Hle & Hall).
  eexists. split; [done|]. split.
  - destruct Hin as [-> | Hin]; [left | right]; done.
  - by constructor.
Qed.

(** Among elements of equal key the first is returned. *)
Lemma max_go_equal {A} (key : A -> Z) best xs :
  Forall (fun y => key y = key best) xs -> max_go key best xs = best.
Proof.
  induction 1 as [|x xs Hx Hxs IH]; simpl; [done|].
  rewrite Hx, Z.ltb_irrefl. done.
Qed.

Lemma join_nil ps : join [] ps = concat ps.
Proof.
  induction ps as [|p ps IH]; [done|]. simpl.
  destruct ps as [|q ps]; [by rewrite app_nil_r|]. by rewrite IH.
Qed.

(** Replacing a character by nothing removes it. *)
Lemma replace_char_nil s c :
  replace s [c] [] = filter (fun x => negb (chr_eqb c x)) s.
Proof.
  unfold replace, split. rewrite join_nil.
  induction s as [|y s IH]; [done|]. simpl.
  destruct (chr_eqb c y) eqn:E; simpl.
  - rewrite filter_cons_False by (rewrite E; simpl; tauto). done.
  - rewrite filter_cons_True by (rewrite E; simpl; tauto).
    destruct (split_go [c] s 0) as [p ps]. simpl in *. by rewrite <- IH.
Qed.

Lemma strip_id s :
  (forall c, head s = Some c -> is_space c = false) ->
  (forall c, last s = Some c -> is_space c = false) ->
  strip s = s.
Proof.
  intros Hh Hl. unfold strip, rstrip.
  assert (lstrip s = s) as ->.
  { destruct s as [|c s]; [done|]. simpl. by rewrite (Hh c). }
  assert (lstrip (rev s) = rev s) as ->; [|apply rev_involutive].
  rewrite rev_reverse. pose proof (head_reverse s) as Hr.
  destruct (reverse s) as [|c t]; [done|]. simpl in *.
  by rewrite (Hl c).
Qed.

(** ** The identifier pattern *)

Lemma length_exact {A} (v : list A) (n : nat) (lo_ok : (n <= length v)%nat)
    (hi_ok : (length v <= n)%nat) : length v = n.
Proof. lia. Qed.

Lemma cusip_match_shape s m :
  m ∈ run cusip_re [] s ->
  exists a b s1 d s2 e,
    cusip_shape a b s1 d s2 e
    /\ s = embedded a b s1 d s2 e ++ m.2
    /\ m.1 = [embedded a b s1 d s2 e].
Proof.
  unfold cusip_re. intros H.
  apply elem_run_grp in H as (m6 & H & ->).
  unfold seqs in H. simpl foldr in H.
  apply elem_run_seq in H as (m1 & H1 & H).
  apply elem_run_seq in H as (m2 & H2 & H).
  apply elem_run_seq in H as (m3 & H3 & H).
  apply elem_run_seq in H as (m4 & H4 & H).
  apply elem_run_seq in H as (m5 & H5 & H).
  apply elem_run_seq in H as (m7 & H7 & H).
  simpl in H. apply list_elem_of_singleton in H as ->.
  apply elem_run_rep in H1 as (E1 & a & Ha & Hfa & Hla & Hha).
  apply elem_run_rep in H2 as (E2 & b & Hb & Hfb & Hlb & Hhb).
  apply elem_run_rep in H3 as (E3 & s1 & Hs1 & Hfs1 & _ & _).
  apply elem_run_rep in H4 as (E4 & d & Hd & Hfd & Hld & Hhd).
  apply elem_run_rep in H5 as (E5 & s2 & Hs2 & Hfs2 & _ & _).
  apply elem_run_chr in H7 as (E7 & e & He & Hfe).
  exists a, b, s1, d, s2, e.
  split; [constructor; try done; by apply length_exact|].
  assert (s = embedded a b s1 d s2 e ++ m7.2) as Hs.
  { unfold embedded. rewrite Ha, Hb, Hs1, Hd, Hs2, He.
    by rewrite <- !app_assoc. }
  split; [done|]. simpl. rewrite E7, E5, E4, E3, E2, E1. simpl.
  by rewrite Hs at 1; rewrite matched_app.
Qed.

Lemma cusip_leads a b s1 d s2 e post :
  cusip_shape a b s1 d s2 e ->
  leads cusip_re [] (embedded a b s1 d s2 e ++ post)
        ([embedded a b s1 d s2 e], post).
Proof.
  intros [Ha Hla Hb Hlb Hs1 Hd Hld Hs2 He].
  assert (forall c, is_digit c = true -> is_sep c = false) as Hds.
  { intros c Hc. unfold is_sep, chr_eqb.
    destruct (Ascii.eqb c "-") eqn:E1; [apply Ascii.eqb_eq in E1; by subst|].
    destruct (Ascii.eqb c " ") eqn:E2; [apply Ascii.eqb_eq in E2; by subst|].
    done. }
  unfold cusip_re.
  pose proof (leads_grp
    (seqs [times 4 is_upper_digit; times 2 is_alnum; star is_sep;
           times 2 is_digit; star is_sep; Chr is_digit])
    [] (embedded a b s1 d s2 e ++ post) ([], post)) as Hg.
  simpl in Hg. rewrite matched_app in Hg. apply Hg. clear Hg.
  unfold embedded. rewrite <- !app_assoc.
  eapply leads_seq; [by apply leads_times|]. simpl.
  eapply leads_seq; [by apply leads_times|]. simpl.
  eapply leads_seq.
  { apply leads_star; [done|]. destruct d as [|c d]; [done|].
    inversion Hd; subst. by apply Hds. }
  simpl.
  eapply leads_seq; [by apply leads_times|]. simpl.
  eapply leads_seq; [apply leads_star; [done | by apply Hds]|]. simpl.
  eapply leads_seq; [by apply leads_chr|]. done.
Qed.

Ltac char_class :=
  unfold is_sep, is_space, is_alnum, is_upper_digit, is_digit, is_upper,
    is_lower, in_range, chr_eqb in *;
  repeat match goal with
         | |- context [Ascii.eqb ?c ?k] =>
             let E := fresh in
             destruct (Ascii.eqb c k) eqn:E;
             [apply Ascii.eqb_eq in E; subst; try done|]
         end;
  try done; simpl; lia.

Lemma alnum_not_sep c : is_alnum c = true -> is_sep c = false.
Proof. intros H. char_class. Qed.

Lemma upper_digit_alnum c : is_upper_digit c = true -> is_alnum c = true.
Proof. unfold is_upper_digit, is_alnum. intros ->. done. Qed.

Lemma digit_alnum c : is_digit c = true -> is_alnum c = true.
Proof. unfold is_alnum. intros ->. done. Qed.

Lemma alnum_not_space c : is_alnum c = true -> is_space c = false.
Proof.
  unfold is_alnum, is_space, is_digit, is_upper, is_lower, in_range.
  intros H. destruct (code c =? 133) eqn:E1, (code c =? 160) eqn:E2; lia.
Qed.

Lemma remove_seps_app s t : remove_seps (s ++ t) = remove_seps s ++ remove_seps t.
Proof. unfold remove_seps. by rewrite !filter_app. Qed.

Lemma remove_seps_keep s :
  Forall (fun c => is_sep c = false) s -> remove_seps s = s.
Proof.
  unfold remove_seps. induction 1 as [|c s Hc Hs IH]; [done|].
  unfold is_sep in Hc. apply orb_false_iff in Hc as [H1 H2].
  unfold chr_eqb in *. rewrite Ascii.eqb_sym in H1, H2.
  rewrite filter_cons_True by (rewrite H2; simpl; tauto).
  rewrite filter_cons_True by (unfold chr_eqb; rewrite H1; simpl; tauto).
  by rewrite IH.
Qed.

Lemma remove_seps_drop s :
  Forall (fun c => is_sep c = true) s -> remove_seps s = [].
Proof.
  unfold remove_seps. induction 1 as [|c s Hc Hs IH]; [done|].
  unfold is_sep in Hc. unfold chr_eqb in *.
  destruct (Ascii.eqb c " ") eqn:E2.
  - rewrite filter_cons_False; [done|].
    rewrite Ascii.eqb_sym, E2. simpl. tauto.
  - rewrite orb_false_r in Hc.
    rewrite filter_cons_True by (rewrite Ascii.eqb_sym, E2; simpl; tauto).
    rewrite filter_cons_False; [done|].
    unfold chr_eqb. rewrite Ascii.eqb_sym, Hc. simpl. tauto.
Qed.

Lemma clean_cusip_remove s : clean_cusip s = remove_seps (strip s).
Proof.
  unfold clean_cusip, remove_seps.
  change (lit " ") with [" "%char]. change (lit "-") with ["-"%char].
  by rewrite !replace_char_nil.
Qed.

(** Cleaning a match leaves its nine identifier characters. *)
Lemma clean_embedded a b s1 d s2 e :
  cusip_shape a b s1 d s2 e ->
  clean_cusip (embedded a b s1 d s2 e) = canonical a b d e.
Proof.
  intros [Ha Hla Hb Hlb Hs1 Hd Hld Hs2 He].
  rewrite clean_cusip_remove, strip_id.
  - unfold embedded, canonical. rewrite !remove_seps_app.
    rewrite (remove_seps_drop s1), (remove_seps_drop s2) by done.
    rewrite !remove_seps_keep; [done | | | |].
    + constructor; [|done]. by apply alnum_not_sep, digit_alnum.
    + eapply Forall_impl; [exact Hd|]. intros c Hc.
      by apply alnum_not_sep, digit_alnum.
    + eapply Forall_impl; [exact Hb|]. intros c Hc. by apply alnum_not_sep.
    + eapply Forall_impl; [exact Ha|]. intros c Hc.
      by apply alnum_not_sep, upper_digit_alnum.
  - intros c Hc. unfold embedded in Hc. destruct a as [|x a]; [done|].
    simpl in Hc. injection Hc as ->. inversion Ha; subst.
    by apply alnum_not_space, upper_digit_alnum.
  - intros c Hc. unfold embedded in Hc. rewrite !app_assoc, last_snoc in Hc.
    injection Hc as ->. by apply alnum_not_space, digit_alnum.
Qed.

Lemma length_canonical a b s1 d s2 e :
  cusip_shape a b s1 d s2 e -> length (canonical a b d e) = 9%nat.
Proof.
  intros [Ha Hla Hb Hlb Hs1 Hd Hld Hs2 He].
  unfold canonical. rewrite !length_app, Hla, Hlb, Hld. done.
Qed.

(** ** The candidates of a document *)

Lemma findall_go_elem r s skip caps :
  caps ∈ findall_go r s skip ->
  exists (i : nat) rest, match_at r (drop i s) = Some (caps, rest).
Proof.
  revert skip. induction s as [|c s IH]; intros skip; simpl.
  - destruct skip; [|by intros H%elem_of_nil].
    destruct (match_at r []) as [m|] eqn:E; [|by intros H%elem_of_nil].
    intros H%list_elem_of_singleton. subst. exists 0%nat, m.2.
    by destruct m.
  - destruct skip as [|k].
    + destruct (match_at r (c :: s)) as [m|] eqn:E.
      * intros [-> | H]%elem_of_cons.
        -- exists 0%nat, m.2. by destruct m.
        -- destruct (IH _ H) as (i & rest & Hi). by exists (S i), rest.
      * intros H. destruct (IH _ H) as (i & rest & Hi). by exists (S i), rest.
    + intros H. destruct (IH _ H) as (i & rest & Hi). by exists (S i), rest.
Qed.

Lemma cusip_candidate_shape flat c :
  c ∈ cusip_candidates flat ->
  exists a b s1 d s2 e, cusip_shape a b s1 d s2 e /\ c = canonical a b d e.
Proof.
  unfold cusip_candidates, findall1, findall.
  intros H. apply list_elem_of_fmap in H as (raw & -> & H).
  apply list_elem_of_fmap in H as (caps & -> & H).
  apply findall_go_elem in H as (i & rest & Hm).
  unfold match_at in Hm.
  assert ((caps, rest) ∈ run cusip_re [] (drop i flat)) as Hin.
  { destruct (run cusip_re [] (drop i flat)) as [|m ms]; [done|].
    injection Hm as ->. by left. }
  apply cusip_match_shape in Hin as (a & b & s1 & d & s2 & e & Hsh & _ & Hc).
  simpl in Hc. subst caps. exists a, b, s1, d, s2, e. split; [done|].
  by apply clean_embedded.
Qed.

Lemma cusip_candidate_length flat c :
  c ∈ cusip_candidates flat -> length c = 9%nat.
Proof.
  intros H. apply cusip_candidate_shape in H
    as (a & b & s1 & d & s2 & e & Hsh & ->).
  by eapply length_canonical.
Qed.

(** A character that cannot begin an identifier begins no match. *)
Lemma cusip_no_match c s :
  is_upper_digit c = false -> match_at cusip_re (c :: s) = None.
Proof.
  intros Hc. unfold match_at.
  destruct (run cusip_re [] (c :: s)) as [|m ms] eqn:E; [done|].
  assert (m ∈ run cusip_re [] (c :: s)) as Hin by (rewrite E; by left).
  apply cusip_match_shape in Hin as (a & b & s1 & d & s2 & e & Hsh & Hs & _).
  destruct Hsh as [Ha Hla _ _ _ _ _ _ _].
  destruct a as [|x a]; [done|]. unfold embedded in Hs. simpl in Hs.
  injection Hs as -> _. inversion Ha; subst. congruence.
Qed.

Lemma search_skip r pre s :
  (forall i : nat, (i < length pre)%nat -> match_at r (drop i (pre ++ s)) = None) ->
  search r (pre ++ s) = search r s.
Proof.
  induction pre as [|c pre IH]; intros H; [done|]. simpl.
  pose proof (H 0%nat ltac:(simpl; lia)) as H0. simpl in H0. rewrite H0.
  apply IH. intros i Hi. apply (H (S i)). simpl. lia.
Qed.

Lemma search_leads r s m : leads r [] s m -> search r s = Some m.
Proof.
  unfold leads. intros H. destruct s; simpl; unfold match_at; by rewrite H.
Qed.

(** C5 (amended).  Every candidate of the flattened document, a match of
    the identifier pattern with its spaces and hyphens removed, has nine
    characters, so that none is longer than another, and [_parse_cusip]
    returns the first of them: the leftmost match.  Without a candidate
    it fails with [ValueError].  An identifier that stands in the
    flattened document with separators between its parts is returned,
    with the separators removed, when no match of the pattern begins
    before it. *)
Theorem cusip_first_candidate (get_text : str -> str) (document : str) :
  let flat := document_flat get_text document in
  Forall (fun c => length c = 9%nat) (cusip_candidates flat)
  /\ (cusip_candidates flat = [] ->
      exists msg, _parse_cusip get_text document = Raise (ValueError msg))
  /\ (forall c cs,
        cusip_candidates flat = c :: cs ->
        _parse_cusip get_text document = Ok c
        /\ Forall (fun c' => len c' = len c) cs)
  /\ (forall pre a b s1 d s2 e post,
        flat = pre ++ embedded a b s1 d s2 e ++ post ->
        cusip_shape a b s1 d s2 e ->
        (forall i : nat, (i < length pre)%nat ->
                         match_at cusip_re (drop i flat) = None) ->
        head (cusip_candidates flat) = Some (canonical a b d e)
        /\ _parse_cusip get_text document = Ok (canonical a b d e)).
Proof.
  intros flat.
  pose proof (cusip_candidate_length flat) as Hlen.
  assert (forall c cs,
            cusip_candidates flat = c :: cs ->
            _parse_cusip get_text document = Ok c
            /\ Forall (fun c' => len c' = len c) cs) as Hfirst.
  { intros c cs Hcs. unfold _parse_cusip. fold flat.
    assert (Forall (fun c' => len c' = len c) cs) as Hall.
    { apply Forall_forall. intros y Hy. unfold len.
      rewrite (Hlen y), (Hlen c); [done | |]; rewrite Hcs;
        [by left | by right]. }
    split; [|done]. rewrite Hcs. simpl. f_equal. by apply max_go_equal. }
  split; [by apply Forall_forall|]. split; [|split; [exact Hfirst|]].
  - intros Hnil. unfold _parse_cusip. fold flat. rewrite Hnil. simpl.
    by eexists.
  - intros pre a b s1 d s2 e post Hflat Hsh Hpre.
    assert (head (cusip_candidates flat) = Some (canonical a b d e)) as Hhead.
    { unfold cusip_candidates, findall1.
      assert (head (findall cusip_re flat) = Some [embedded a b s1 d s2 e])
        as Hf.
      { rewrite findall_head, Hflat, search_skip.
        - by rewrite (search_leads _ _ _ (cusip_leads _ _ _ _ _ _ post Hsh)).
        - intros i Hi. rewrite <- Hflat. by apply Hpre. }
      destruct (findall cusip_re flat) as [|x xs]; [done|].
      injection Hf as ->. simpl. f_equal. by apply clean_embedded. }
    split; [done|].
    destruct (cusip_candidates flat) as [|x xs] eqn:E; [done|].
    injection Hhead as ->. by apply (Hfirst _ xs).
Qed.

(** C5 (as stated) fails: an identifier that stands in the document with
    separators is not returned when a match of the pattern begins before
    it.  Behind the word NUMBER the pattern matches from that word on,
    and the identifier is not even a candidate. *)
Lemma embedded_identifier_not_returned :
  ~ (forall (get_text : str -> str) (document : str) pre a b s1 d s2 e post,
       document_flat get_text document = pre ++ embedded a b s1 d s2 e ++ post ->
       cusip_shape a b s1 d s2 e ->
       _parse_cusip get_text document = Ok (canonical a b d e)).
Proof.
  intros H.
  specialize (H (fun x => x) (lit "CUSIP NUMBER 037833-10 0")
                (lit "CUSIP NUMBER ") (lit "0378") (lit "33") (lit "-")
                (lit "10") (lit " ") "0"%char []).
  assert (_parse_cusip (fun x => x) (lit "CUSIP NUMBER 037833-10 0")
          = Ok (lit "NUMBER037")) as Hrun by (vm_compute; reflexivity).
  rewrite Hrun in H. discriminate H.
  - vm_compute. reflexivity.
  - split; try reflexivity; by repeat constructor.
Qed.

Lemma cusip_first_candidate_witness :
  cusip_candidates (document_flat (fun x => x)
                      (lit "12345A107 and 037833-10 0"))
  = [lit "12345A107"; lit "037833100"]
  /\ _parse_cusip (fun x => x) (lit "12345A107 and 037833-10 0")
     = Ok (lit "12345A107").
Proof.
  assert (cusip_candidates (document_flat (fun x => x)
                              (lit "12345A107 and 037833-10 0"))
          = [lit "12345A107"; lit "037833100"]) as Hcs
    by (vm_compute; reflexivity).
  split; [exact Hcs|].
  exact (proj1 (proj1 (proj2 (proj2 (cusip_first_candidate (fun x => x)
                  (lit "12345A107 and 037833-10 0"))))
                  _ _ Hcs)).
Defined.

End CusipFacts.

Module PercentFacts.
Import PyStr Re Float64 Sec PyStrSpec ReSpec FloatSpec SecSpec SecSamples PyStrFacts ReFacts CusipFacts.

(** ** The boilerplate phrase *)

Lemma percent_re_pieces :
  percent_re = seqs ((piece_re <$> percent_pieces) ++ percent_tail).
Proof. reflexivity. Qed.

Lemma may_begin_run w caps s outer :
  may_begin (lit w) s = false -> run (itext w) caps (s ++ outer) = [].
Proof.
  unfold itext. revert s. induction (lit w) as [|c l IH]; intros s H.
  - by destruct s.
  - destruct s as [|y s]; [done|]. simpl in H.
    rewrite fmap_cons, run_seqs_cons. simpl.
    destruct (chr_eqb (lower_chr y) (lower_chr c)); [|done].
    simpl in *. rewrite app_nil_r. by apply IH.
Qed.

Lemma conforms_leads ps x tl caps outer m :
  conforms ps x ->
  leads (seqs tl) caps outer m ->
  leads (seqs ((piece_re <$> ps) ++ tl)) caps (x ++ outer) m.
Proof.
  intros Hc Htl. induction Hc as
    [|w x ps rest Hw Hc IH|w x ps rest Hw Hc IH|w ps rest Hw Hc IH
     |n ws ps rest Hws Hn Hs Hc IH]; [done| | | |].
  - rewrite fmap_cons, <- app_assoc. simpl.
    apply (leads_seq _ _ _ _ (caps, rest ++ outer)); [|exact IH].
    by apply leads_itext.
  - rewrite fmap_cons, <- app_assoc. simpl.
    apply (leads_seq _ _ _ _ (caps, rest ++ outer)); [|exact IH].
    by apply leads_alt_l, leads_itext.
  - rewrite fmap_cons. simpl.
    apply (leads_seq _ _ _ _ (caps, rest ++ outer)); [|exact IH].
    apply leads_alt_r; [by apply may_begin_run | done].
  - rewrite fmap_cons, <- app_assoc. simpl.
    apply (leads_seq _ _ _ _ (caps, rest ++ outer)); [|exact IH].
    apply leads_greedy; [done | done |].
    destruct rest as [|c rest]; [done|]. exact Hs.
Qed.

(** ** The text between the phrase and the token *)

Lemma token_not_space c : is_percent_token c = true -> is_space c = false.
Proof.
  unfold is_percent_token, is_space, is_digit, in_range, chr_eqb.
  intros H.
  destruct (Ascii.eqb c ".") eqn:E1; [apply Ascii.eqb_eq in E1; by subst|].
  destruct (Ascii.eqb c ",") eqn:E2; [apply Ascii.eqb_eq in E2; by subst|].
  destruct (code c =? 133) eqn:E3, (code c =? 160) eqn:E4; lia.
Qed.

Lemma space_not_token c : is_space c = true -> is_percent_token c = false.
Proof.
  intros H. destruct (is_percent_token c) eqn:E; [|done].
  apply token_not_space in E. congruence.
Qed.

Lemma token_not_pct c : is_percent_token c = true -> is_pct c = false.
Proof.
  unfold is_pct, chr_eqb. intros H.
  destruct (Ascii.eqb "%" c) eqn:E; [apply Ascii.eqb_eq in E; by subst|done].
Qed.

Lemma space_not_pct c : is_space c = true -> is_pct c = false.
Proof.
  unfold is_pct, chr_eqb. intros H.
  destruct (Ascii.eqb "%" c) eqn:E; [apply Ascii.eqb_eq in E; by subst|done].
Qed.

Lemma tails_while_app p v t :
  Forall (fun c => p c = true) v ->
  tails_while p (v ++ t)
  = ((fun i => drop i (v ++ t)) <$> seq 0 (length v)) ++ tails_while p t.
Proof.
  induction 1 as [|c v Hc Hv IH]; [done|].
  cbn [app tails_while length seq fmap list_fmap]. rewrite Hc, IH.
  rewrite <- fmap_S_seq, <- list_fmap_compose. done.
Qed.

Lemma tails_while_head p t : exists ts, tails_while p t = t :: ts.
Proof. destruct t; simpl; eauto. Qed.

(** The first place at which two texts hold a character they otherwise
    lack is the same place. *)
Lemma app_cons_unique (q : ascii -> bool) (A B X Y : str) (c : ascii) :
  Forall (fun y => q y = false) A -> Forall (fun y => q y = false) B ->
  q c = true ->
  A ++ c :: X = B ++ c :: Y -> A = B.
Proof.
  intros HA. revert B. induction HA as [|a A Ha HA IH]; intros B HB Hc E.
  - destruct B as [|b B]; [done|]. simpl in E. injection E as <- _.
    inversion HB; subst. congruence.
  - destruct B as [|b B]; simpl in E.
    + injection E as -> _. congruence.
    + injection E as -> E. inversion HB; subst. f_equal. by apply IH.
Qed.

Lemma Forall_rev {A} (P : A -> Prop) (l : list A) : Forall P l -> Forall P (rev l).
Proof. rewrite rev_reverse. apply Forall_reverse. Qed.

Lemma head_rev_app {A} (v rest : list A) :
  v <> [] -> head (rev v ++ rest) = last v.
Proof.
  intros Hv. rewrite rev_reverse. pose proof (head_reverse v) as H.
  destruct (reverse v) as [|x xs] eqn:E; [|done].
  apply (f_equal length) in E. rewrite length_reverse in E. by destruct v.
Qed.

Lemma drop_while_app p v rest :
  Forall (fun c => p c = true) v ->
  match rest with [] => True | c :: _ => p c = false end ->
  drop_while p (v ++ rest) = rest.
Proof. intros. by apply take_while_app. Qed.

Lemma head_not {A} (p : A -> bool) (l : list A) (x : A) :
  head l = Some x -> p x = false ->
  match l with [] => True | c :: _ => p c = false end.
Proof. destruct l; [done|]. by intros [= ->]. Qed.

Lemma before_token_match ws v o :
  Forall (fun c => is_space c = true) ws ->
  Forall (fun c => is_percent_token c = true) v -> v <> [] ->
  Forall (fun c => is_space c = true) o ->
  before_token (ws ++ v ++ o) = rev ws.
Proof.
  intros Hws Hv Hne Ho. unfold before_token.
  rewrite !rev_app_distr, <- app_assoc.
  destruct (last v) as [z|] eqn:Hz; [|by apply last_None in Hz].
  assert (is_percent_token z = true) as Hzt.
  { rewrite Forall_forall in Hv. apply Hv. by eapply last_Some_elem_of. }
  rewrite drop_while_app; [|by apply Forall_rev|].
  - rewrite drop_while_app; [done | by apply Forall_rev|].
    destruct (rev ws) as [|c t] eqn:E; [done|].
    apply space_not_token. apply Forall_rev in Hws. rewrite E in Hws.
    by inversion Hws.
  - eapply head_not; [by rewrite head_rev_app|]. by apply token_not_space.
Qed.

Lemma before_token_text D ws token sp z :
  last D = Some z -> is_space z = false ->
  (ws = [] -> is_percent_token z = false) ->
  Forall (fun c => is_space c = true) ws ->
  Forall (fun c => is_percent_token c = true) token -> token <> [] ->
  Forall (fun c => is_space c = true) sp ->
  before_token (D ++ ws ++ token ++ sp) = rev ws ++ rev D.
Proof.
  intros Hz Hzs Hzt Hws Htok Hne Hsp. unfold before_token.
  assert (D <> []) as HD by (intros ->; done).
  rewrite !rev_app_distr, <- !app_assoc.
  destruct (last token) as [y|] eqn:Hy; [|by apply last_None in Hy].
  assert (is_percent_token y = true) as Hyt.
  { rewrite Forall_forall in Htok. apply Htok. by eapply last_Some_elem_of. }
  rewrite drop_while_app; [|by apply Forall_rev|].
  - rewrite drop_while_app; [done | by apply Forall_rev|].
    destruct ws as [|w ws'] using rev_ind.
    + simpl. eapply head_not; [by rewrite <- (app_nil_r (rev D)), head_rev_app|].
      by apply Hzt.
    + rewrite rev_app_distr. simpl. apply space_not_token.
      apply Forall_app in Hws as [_ Hw]. by inversion Hw.
  - eapply head_not; [by rewrite head_rev_app|]. by apply token_not_space.
Qed.

Lemma value_tail_shape caps t m :
  m ∈ run (seqs value_tail) caps t ->
  exists ws v o,
    t = ws ++ v ++ o ++ "%"%char :: m.2
    /\ Forall (fun c => is_space c = true) ws
    /\ Forall (fun c => is_percent_token c = true) v /\ v <> []
    /\ Forall (fun c => is_space c = true) o.
Proof.
  unfold value_tail, seqs. simpl foldr. intros H.
  apply elem_run_seq in H as (m1 & H1 & H).
  apply elem_run_seq in H as (m2 & H2 & H).
  apply elem_run_seq in H as (m3 & H3 & H).
  apply elem_run_seq in H as (m4 & H4 & H).
  simpl in H. apply list_elem_of_singleton in H as ->.
  apply elem_run_rep in H1 as (E1 & ws & Hws & Hfws & _ & _).
  apply elem_run_grp in H2 as (m2' & H2 & ->).
  apply elem_run_rep in H2 as (E2 & v & Hv & Hfv & Hlv & _).
  apply elem_run_rep in H3 as (E3 & o & Ho & Hfo & _ & _).
  apply elem_run_chr in H4 as (E4 & c & Hc & Hpc).
  apply chr_eqb_eq in Hpc as <-.
  exists ws, v, o. simpl in *.
  split; [by rewrite Hws, Hv, Ho, Hc|]. split; [done|]. split; [done|].
  split; [|done]. destruct v; [simpl in Hlv; lia | done].
Qed.

(** No value begins where a solid character still stands before the
    token. *)
Lemma value_tail_no_match caps D ws token sp post z :
  last D = Some z -> is_space z = false ->
  (ws = [] -> is_percent_token z = false) ->
  Forall (fun c => is_pct c = false) D ->
  Forall (fun c => is_space c = true) ws ->
  Forall (fun c => is_percent_token c = true) token -> token <> [] ->
  Forall (fun c => is_space c = true) sp ->
  run (seqs value_tail) caps (D ++ ws ++ token ++ sp ++ "%"%char :: post) = [].
Proof.
  intros Hz Hzs Hzt HD Hws Htok Hne Hsp.
  destruct (run _ _ _) as [|m ms] eqn:E; [done|]. exfalso.
  assert (m ∈ run (seqs value_tail) caps
                (D ++ ws ++ token ++ sp ++ "%"%char :: post)) as Hin
    by (rewrite E; by left).
  apply value_tail_shape in Hin as (ws' & v & o & Ht & Hws' & Hv & Hvne & Ho).
  assert (D ++ ws ++ token ++ sp = ws' ++ v ++ o) as HA.
  { apply (app_cons_unique is_pct _ _ post m.2 "%"%char).
    - repeat (apply Forall_app; split); try done.
      + eapply Forall_impl; [exact Hws|]. apply space_not_pct.
      + eapply Forall_impl; [exact Htok|]. apply token_not_pct.
      + eapply Forall_impl; [exact Hsp|]. apply space_not_pct.
    - repeat (apply Forall_app; split).
      + eapply Forall_impl; [exact Hws'|]. apply space_not_pct.
      + eapply Forall_impl; [exact Hv|]. apply token_not_pct.
      + eapply Forall_impl; [exact Ho|]. apply space_not_pct.
    - done.
    - by rewrite <- !app_assoc. }
  pose proof (before_token_text D ws token sp z Hz Hzs Hzt Hws Htok Hne Hsp)
    as H1.
  rewrite HA, before_token_match in H1 by done.
  assert (Forall (fun c => is_space c = true) (rev ws ++ rev D)) as Hall
    by (rewrite <- H1; by apply Forall_rev).
  apply Forall_app in Hall as [_ Hall].
  rewrite Forall_forall in Hall.
  assert (is_space z = true); [|congruence].
  apply Hall. apply list_elem_of_In, in_rev. rewrite rev_involutive.
  apply list_elem_of_In. by eapply last_Some_elem_of.
Qed.

Lemma value_tail_leads caps ws token sp post :
  Forall (fun c => is_space c = true) ws ->
  Forall (fun c => is_percent_token c = true) token -> token <> [] ->
  sp = [] \/ (exists c, sp = [c] /\ is_space c = true) ->
  leads (seqs value_tail) caps (ws ++ token ++ sp ++ "%"%char :: post)
        (caps ++ [token], post).
Proof.
  intros Hws Htok Hne Hsp. unfold value_tail.
  assert (exists y t, token = y :: t /\ is_percent_token y = true)
    as (y & t & Hy & Hyt).
  { destruct token as [|y t]; [done|]. exists y, t. split; [done|].
    by inversion Htok. }
  apply (leads_seqs_cons _ _ _ _ (caps, token ++ sp ++ "%"%char :: post)).
  { apply leads_star; [done|]. rewrite Hy. simpl. by apply token_not_space. }
  cbn [fst snd].
  apply (leads_seqs_cons _ _ _ _ (caps ++ [token], sp ++ "%"%char :: post)).
  { pose proof (leads_grp (plus is_percent_token) caps
                  (token ++ sp ++ "%"%char :: post)
                  (caps, sp ++ "%"%char :: post)) as Hg.
    simpl in Hg. rewrite matched_app in Hg. apply Hg.
    apply leads_plus; [done | done |].
    destruct Hsp as [-> | (c & -> & Hc)]; simpl; [done|].
    by apply space_not_token. }
  cbn [fst snd].
  apply (leads_seqs_cons _ _ _ _ (caps ++ [token], "%"%char :: post)).
  { destruct Hsp as [-> | (c & -> & Hc)]; simpl.
    - by apply leads_opt_none.
    - by apply leads_opt_some. }
  cbn [fst snd].
  apply (leads_seqs_cons _ _ _ _ (caps ++ [token], post)); [|done].
  apply leads_chr. by apply chr_eqb_eq.
Qed.

(** The trailing white space of a text. *)
Lemma trailing_spaces (gap : str) :
  exists g0 ws,
    gap = g0 ++ ws /\ Forall (fun c => is_space c = true) ws
    /\ (g0 = [] \/ exists z, last g0 = Some z /\ is_space z = false).
Proof.
  induction gap as [|c gap IH] using rev_ind.
  - exists [], []. split; [done|]. split; [done|]. by left.
  - destruct (is_space c) eqn:E.
    + destruct IH as (g0 & ws & -> & Hws & Hg0).
      exists g0, (ws ++ [c]). split; [by rewrite app_assoc|].
      split; [|done]. apply Forall_app. split; [done|]. by constructor.
    + exists (gap ++ [c]), []. split; [by rewrite app_nil_r|].
      split; [done|]. right. exists c. by rewrite last_snoc.
Qed.

Lemma run_star_lazy p caps s :
  run (star_lazy p) caps s = (fun s' => (caps, s')) <$> tails_while p s.
Proof. done. Qed.

(** The lazy run in front of the value stops at the trailing white space
    of the text before the token. *)
Lemma percent_tail_leads caps gap token sp post :
  Forall (fun c => dot c = true) gap ->
  Forall (fun c => is_pct c = false) gap ->
  match last gap with Some c => is_percent_token c = false | None => True end ->
  Forall (fun c => is_percent_token c = true) token -> token <> [] ->
  sp = [] \/ (exists c, sp = [c] /\ is_space c = true) ->
  leads (seqs percent_tail) caps (gap ++ token ++ sp ++ "%"%char :: post)
        (caps ++ [token], post).
Proof.
  intros Hdot Hpct Hlast Htok Hne Hsp.
  destruct (trailing_spaces gap) as (g0 & ws & -> & Hws & Hg0).
  apply Forall_app in Hdot as [Hdot _]. apply Forall_app in Hpct as [Hpct _].
  assert (Forall (fun c => is_space c = true) sp) as Hsp'.
  { destruct Hsp as [-> | (c & -> & Hc)]; [done | by constructor]. }
  unfold leads, percent_tail.
  change (seqs (star_lazy dot :: ?l)) with (Seq (star_lazy dot) (seqs l)).
  change (seqs [star is_space; Grp (plus is_percent_token); opt is_space;
                chr "%"]) with (seqs value_tail).
  rewrite run_seq, run_star_lazy, <- !app_assoc, tails_while_app by done.
  set (T := ws ++ token ++ sp ++ "%"%char :: post).
  destruct (tails_while_head dot T) as [ts ->].
  rewrite fmap_app, fmap_cons, head_bind_skip.
  - apply head_app_first. by apply value_tail_leads.
  - apply Forall_fmap, Forall_fmap, Forall_forall. intros i Hi. simpl.
    apply elem_of_seq in Hi as [_ Hi]. simpl in Hi.
    rewrite drop_app_le by lia.
    destruct Hg0 as [-> | (z & Hz & Hzs)]; [simpl in Hi; lia|].
    apply (value_tail_no_match _ _ _ _ _ _ z); try done.
    + rewrite <- (take_drop i g0), last_app in Hz.
      destruct (last (drop i g0)) eqn:E; [done|].
      apply last_None, (f_equal length) in E. rewrite length_drop in E.
      simpl in E. lia.
    + intros ->. rewrite app_nil_r, Hz in Hlast. done.
    + by apply Forall_drop.
Qed.

(** The pattern matches at the phrase and captures the token. *)
Lemma percent_leads ph gap token sp post :
  conforms percent_pieces ph ->
  Forall (fun c => dot c = true) gap ->
  Forall (fun c => is_pct c = false) gap ->
  match last gap with Some c => is_percent_token c = false | None => True end ->
  Forall (fun c => is_percent_token c = true) token -> token <> [] ->
  sp = [] \/ (exists c, sp = [c] /\ is_space c = true) ->
  leads percent_re [] (ph ++ gap ++ token ++ sp ++ "%"%char :: post)
        ([token], post).
Proof.
  intros Hph Hdot Hpct Hlast Htok Hne Hsp.
  rewrite percent_re_pieces. apply conforms_leads; [done|].
  by apply (percent_tail_leads []).
Qed.

(** ** The value of a decimal literal *)




(** ** Rounding to decimals *)





(** ** A sample cover page *)

Lemma cover_phrase_conforms : conforms percent_pieces cover_phrase.
Proof.
  unfold percent_pieces, cover_phrase.
  apply conforms_word; [reflexivity|].
  apply conforms_opt_none; [reflexivity|].
  repeat (apply conforms_gap;
            [by repeat constructor | simpl; lia | reflexivity |];
          apply conforms_word; [reflexivity|]).
  apply conforms_nil.
Qed.


End PercentFacts.

Module SortFacts.
Import PyVal PySort SortSpec.

(** ** The null flag of the sort keys *)

Lemma tuple_lt_flag (a b : bool * value) :
  tuple_lt a b = Ok true -> a.1 = true -> b.1 = true.
Proof.
  unfold tuple_lt. destruct a as [[] va], b as [[] vb]; simpl; try done.
Qed.

Lemma tuple_lt_not_flag (a b : bool * value) :
  tuple_lt a b = Ok false -> b.1 = true -> a.1 = true.
Proof.
  unfold tuple_lt. destruct a as [[] va], b as [[] vb]; simpl; try done.
Qed.

Section Insert.
Context {A : Type}.
Let lt (a b : bool * value * A) : result bool := tuple_lt a.1 b.1.

Lemma insert_sorted_elem x l r :
  insert_sorted lt x l = Ok r -> forall y, y ∈ r <-> y = x \/ y ∈ l.
Proof.
  revert r. induction l as [|z l IH]; intros r; simpl.
  - intros [= <-] y. rewrite list_elem_of_singleton, elem_of_nil. tauto.
  - destruct (lt z x) as [[]|] eqn:E; simpl; [| |done].
    + destruct (insert_sorted lt x l) as [r'|] eqn:E'; simpl; [|done].
      intros [= <-] y. rewrite !elem_of_cons, (IH r' eq_refl). tauto.
    + intros [= <-] y. rewrite !elem_of_cons. tauto.
Qed.

Lemma insert_sorted_flags x l r :
  insert_sorted lt x l = Ok r ->
  StronglySorted flag_le l -> StronglySorted flag_le r.
Proof.
  revert r. induction l as [|z l IH]; intros r; simpl.
  - intros [= <-] _. by repeat constructor.
  - destruct (lt z x) as [[]|] eqn:E; simpl; [| |done].
    + destruct (insert_sorted lt x l) as [r'|] eqn:E'; simpl; [|done].
      intros [= <-] Hs. apply StronglySorted_inv in Hs as [Hs Hz].
      constructor; [by apply IH|].
      apply Forall_forall. intros y Hy.
      apply (insert_sorted_elem _ _ _ E') in Hy as [-> | Hy].
      * intros Hf. by apply (tuple_lt_flag _ _ E).
      * rewrite Forall_forall in Hz. by apply Hz.
    + intros [= <-] Hs. constructor; [done|].
      pose proof (StronglySorted_inv Hs) as [_ Hz].
      constructor.
      * intros Hf. by apply (tuple_lt_not_flag _ _ E).
      * eapply Forall_impl; [exact Hz|]. intros y Hy Hf. apply Hy.
        by apply (tuple_lt_not_flag _ _ E).
Qed.

Lemma sort_stable_elem l s :
  sort_stable lt l = Ok s -> forall y, y ∈ s <-> y ∈ l.
Proof.
  revert s. induction l as [|x l IH]; intros s; simpl.
  - by intros [= <-].
  - destruct (sort_stable lt l) as [s'|] eqn:E; simpl; [|done].
    intros H y. rewrite (insert_sorted_elem _ _ _ H), elem_of_cons.
    by rewrite (IH s' eq_refl).
Qed.

Lemma sort_stable_flags l s :
  sort_stable lt l = Ok s -> StronglySorted flag_le s.
Proof.
  revert s. induction l as [|x l IH]; intros s; simpl.
  - intros [= <-]. constructor.
  - destruct (sort_stable lt l) as [s'|] eqn:E; simpl; [|done].
    intros H. eapply insert_sorted_flags; [exact H | by apply IH].
Qed.

End Insert.

Lemma rmap_list_Ok {A B} (f : A -> result B) l r :
  rmap_list f l = Ok r -> Forall2 (fun x y => f x = Ok y) l r.
Proof.
  revert r. induction l as [|x l IH]; intros r; simpl.
  - intros [= <-]. constructor.
  - destruct (f x) as [y|] eqn:E; simpl; [|done].
    destruct (rmap_list f l) as [ys|]; simpl; [|done].
    intros [= <-]. constructor; [done | by apply IH].
Qed.

Lemma StronglySorted_lookup {A} (R : A -> A -> Prop) l (i j : nat) x y :
  StronglySorted R l -> (i < j)%nat -> l !! i = Some x -> l !! j = Some y ->
  R x y.
Proof.
  intros Hs. revert i j. induction Hs as [|z l Hs IH Hz]; intros i j Hij Hi Hj.
  - done.
  - destruct j as [|j]; [lia|]. destruct i as [|i]; simpl in *.
    + injection Hi as ->. rewrite Forall_forall in Hz. apply Hz.
      by eapply list_elem_of_lookup_2.
    + apply (IH i j); [lia | done | done].
Qed.

(** In the list [sorted] returns, null values stand last when the sort
    ascends and first when it descends. *)
Lemma sorted_null_side {A} (val : A -> result value) (reverse : bool)
    (data out : list A) (i j : nat) (x y : A) :
  sorted_ (fun x => null_key <$> val x) reverse data = Ok out ->
  (i < j)%nat -> out !! i = Some x -> out !! j = Some y ->
  if reverse then val y = Ok VNone -> val x = Ok VNone
  else val x = Ok VNone -> val y = Ok VNone.
Proof.
  unfold sorted_. intros H Hij Hi Hj.
  destruct (rmap_list _ data) as [keyed|] eqn:Ek; simpl in H; [|done].
  destruct (sort_stable _ _) as [s|] eqn:Es; simpl in H; [|done].
  injection H as <-.
  pose proof (rmap_list_Ok _ _ _ Ek) as Hkeys.
  assert (forall e, e ∈ s -> val e.2 = Ok e.1.2 /\ e.1.1 = is_none e.1.2)
    as Hkey.
  { intros e He. apply (sort_stable_elem _ _ Es) in He.
    assert (e ∈ keyed) as He'.
    { destruct reverse; [|done].
      by apply list_elem_of_In, in_rev, list_elem_of_In in He. }
    apply list_elem_of_lookup in He' as [k Hk].
    destruct (Forall2_lookup_r _ _ _ _ _ Hkeys Hk) as (a & _ & Ha).
    destruct (val a) as [v|] eqn:Ev; simpl in Ha; [|done].
    injection Ha as <-. done. }
  pose proof (sort_stable_flags _ _ Es) as Hsorted.
  assert (forall (a b : bool * value * A),
            a ∈ s -> b ∈ s -> flag_le a b ->
            val a.2 = Ok VNone -> val b.2 = Ok VNone) as Hle.
  { intros a b Ha Hb Hab Hn.
    destruct (Hkey a Ha) as [Hva Hfa], (Hkey b Hb) as [Hvb Hfb].
    rewrite Hva in Hn. injection Hn as Hn. rewrite Hn in Hfa.
    specialize (Hab Hfa). rewrite Hfb in Hab. rewrite Hvb.
    by destruct (b.1.2). }
  destruct reverse.
  - rewrite list_lookup_fmap in Hi, Hj.
    destruct (rev s !! i) as [a|] eqn:Ea; [|done].
    destruct (rev s !! j) as [b|] eqn:Eb; [|done].
    injection Hi as <-. injection Hj as <-.
    rewrite rev_alt in Ea, Eb. fold (reverse s) in Ea, Eb.
    apply reverse_lookup_Some in Ea as [Ea Hia], Eb as [Eb Hjb].
    apply (Hle b a); [by eapply list_elem_of_lookup_2
                     | by eapply list_elem_of_lookup_2|].
    eapply (StronglySorted_lookup _ s); [done | | exact Eb | exact Ea]. lia.
  - rewrite list_lookup_fmap in Hi, Hj.
    destruct (s !! i) as [a|] eqn:Ea; [|done].
    destruct (s !! j) as [b|] eqn:Eb; [|done].
    injection Hi as <-. injection Hj as <-.
    apply (Hle a b); [by eapply list_elem_of_lookup_2
                     | by eapply list_elem_of_lookup_2|].
    by eapply (StronglySorted_lookup _ s).
Qed.

End SortFacts.

Module TipranksFacts.
Import PyVal PySort Tipranks SortSpec TipranksSamples SortFacts.
Local Open Scope string_scope.

Lemma member_elem (x : string) (xs : list string) :
  member x xs = true <-> x ∈ xs.
Proof.
  unfold member. induction xs as [|y xs IH]; simpl.
  - by rewrite elem_of_nil.
  - rewrite orb_true_iff, IH, elem_of_cons, String.eqb_eq. done.
Qed.

Lemma check_sort_variable_in sort_variables sorted_by :
  sorted_by ∈ sort_variables ->
  check_sort_variable sort_variables sorted_by = Ok ().
Proof.
  intros H%member_elem. unfold check_sort_variable. by rewrite H.
Qed.

Lemma check_sort_variable_out sort_variables sorted_by :
  sorted_by ∉ sort_variables ->
  check_sort_variable sort_variables sorted_by
  = Raise (ValueError ("sorting variable has to be in "
                         +:+ repr_tuple sort_variables)).
Proof.
  intros H. unfold check_sort_variable.
  destruct (member sorted_by sort_variables) eqn:E; [|done].
  by apply member_elem in E.
Qed.

Section Reader.
Variable get_json : string -> string -> result value.
Variable isodate : value -> result value.
Variable date_timestamp : value -> result value.
Variable str_ : value -> string.

(** C9.  Each of the three sorting accessors, called with a [sorted_by]
    that is not one of its sort variables, raises the [ValueError] whose
    message lists the sort variables, and leaves the reader as it was: no
    request is sent and nothing is stored.  Called with one of its sort
    variables, the accessor passes the check and goes on to read the
    payload. *)
Theorem sort_variable_validated (w : world) (include_retail timestamps : bool)
    (sorted_by : string) :
  (sorted_by ∉ covering_sort_variables ->
   covering_analysts get_json isodate date_timestamp str_
     include_retail timestamps sorted_by w
   = (Raise (ValueError
        "sorting variable has to be in ('name', 'firm', 'stock_success_rate', 'average_rating_return_stock', 'total_recommendations_stock', 'positive_recommendations_stock', 'price_target', 'rank', 'successful_recommendations', 'total_recommendations', 'average_rating_return', 'stars')"),
      w))
  /\ (sorted_by ∉ insider_sort_variables ->
      insider_trades get_json isodate date_timestamp str_ timestamps sorted_by w
      = (Raise (ValueError
           "sorting variable has to be in ('name', 'amount', 'shares', 'report_date')"),
         w))
  /\ (sorted_by ∉ institutional_sort_variables ->
      institutional_ownership get_json str_ sorted_by w
      = (Raise (ValueError
           "sorting variable has to be in ('name', 'firm', 'stars', 'rank', 'value', 'change', 'percentage_of_portfolio')"),
         w))
  /\ (sorted_by ∈ covering_sort_variables ->
      check_sort_variable covering_sort_variables sorted_by = Ok ()
      /\ covering_analysts get_json isodate date_timestamp str_
           include_retail timestamps sorted_by w
         = (let (payload, w') := _get_ratings_data get_json w in
            (p ← payload;
             covering_analysts_of isodate date_timestamp str_
               include_retail timestamps sorted_by p, w')))
  /\ (sorted_by ∈ insider_sort_variables ->
      check_sort_variable insider_sort_variables sorted_by = Ok ()
      /\ insider_trades get_json isodate date_timestamp str_
           timestamps sorted_by w
         = (let (payload, w') := _get_ratings_data get_json w in
            (p ← payload;
             insider_trades_of isodate date_timestamp str_
               timestamps sorted_by p, w')))
  /\ (sorted_by ∈ institutional_sort_variables ->
      check_sort_variable institutional_sort_variables sorted_by = Ok ()
      /\ institutional_ownership get_json str_ sorted_by w
         = (let (payload, w') := _get_ratings_data get_json w in
            (p ← payload; institutional_ownership_of str_ sorted_by p, w'))).
Proof.
  repeat split.
  - intros H. unfold covering_analysts.
    by rewrite (check_sort_variable_out _ _ H).
  - intros H. unfold insider_trades.
    by rewrite (check_sort_variable_out _ _ H).
  - intros H. unfold institutional_ownership.
    by rewrite (check_sort_variable_out _ _ H).
  - by apply check_sort_variable_in.
  - unfold covering_analysts. by rewrite (check_sort_variable_in _ _ H).
  - by apply check_sort_variable_in.
  - unfold insider_trades. by rewrite (check_sort_variable_in _ _ H).
  - by apply check_sort_variable_in.
  - unfold institutional_ownership. by rewrite (check_sort_variable_in _ _ H).
Qed.

(** C3 (amended).  In the list [covering_analysts] returns, the entries
    whose sort value is null stand together at one end: at the end when
    the key sorts ascending ([name], [firm]), at the front when it sorts
    descending (every other key): no entry with a value stands before a
    null entry there. *)
Theorem null_entries_by_direction (w : world) (include_retail timestamps : bool)
    (sorted_by : string) (out : list value) (i j : nat) (x y : value) :
  (covering_analysts get_json isodate date_timestamp str_
     include_retail timestamps sorted_by w).1 = Ok out ->
  (i < j)%nat -> out !! i = Some x -> out !! j = Some y ->
  covering_desc sorted_by = negb (member sorted_by ["name"; "firm"])
  /\ if covering_desc sorted_by
     then covering_sort_value sorted_by y = Ok VNone ->
          covering_sort_value sorted_by x = Ok VNone
     else covering_sort_value sorted_by x = Ok VNone ->
          covering_sort_value sorted_by y = Ok VNone.
Proof.
  intros H Hij Hi Hj. split; [done|].
  unfold covering_analysts in H.
  destruct (check_sort_variable _ _); [|done].
  destruct (_get_ratings_data get_json w) as [[p|] w']; simpl in H; [|done].
  unfold covering_analysts_of in H.
  destruct (getitem p "experts") as [experts|]; simpl in H; [|done].
  destruct (iter experts) as [items|]; simpl in H; [|done].
  destruct (rmap_list _ items) as [data|]; simpl in H; [|done].
  destruct (if negb include_retail then filter_consensus data else Ok data)
    as [data'|]; simpl in H; [|done].
  by apply (sorted_null_side _ _ _ _ i j x y H).
Qed.

End Reader.

(** ** A sample payload *)

(** C3 (as stated) fails: sorted by rank, which is a descending sort, the
    analyst without a rank comes first. *)
Lemma null_rank_sorts_first :
  ~ (forall (data : value) (out : list value) (i j : nat) (x y : value),
       covering_analysts_of Ok Ok plain_str false false "rank" data = Ok out ->
       (i < j)%nat -> out !! i = Some x -> out !! j = Some y ->
       covering_sort_value "rank" x = Ok VNone ->
       covering_sort_value "rank" y = Ok VNone).
Proof.
  intros H.
  eassert (covering_analysts_of Ok Ok plain_str false false "rank"
             ranked_and_unranked = Ok _) as Hout
    by (vm_compute; reflexivity).
  specialize (H _ _ 0%nat 1%nat _ _ Hout ltac:(lia) eq_refl eq_refl eq_refl).
  vm_compute in H. discriminate H.
Qed.

(** An analyst without a star rating makes the reshaping fail before the
    list is sorted. *)
Lemma null_stars_raise :
  covering_analysts_of Ok Ok plain_str false false "stars"
    (payload [expert "Ada" (VInt 3) (VFloat (Float64.of_Z 4));
              expert "Bob" (VInt 5) VNone])
  = Raise TypeError.
Proof. vm_compute. reflexivity. Qed.

Lemma null_entries_by_direction_witness :
  exists out x y,
    (covering_analysts no_json Ok Ok plain_str false false "rank"
       (fetched ranked_and_unranked)).1 = Ok out
    /\ out !! 0%nat = Some x /\ out !! 1%nat = Some y
    /\ (covering_sort_value "rank" y = Ok VNone ->
        covering_sort_value "rank" x = Ok VNone).
Proof.
  eexists _, _, _.
  split; [vm_compute; reflexivity|].
  split; [reflexivity|]. split; [reflexivity|].
  exact (proj2 (null_entries_by_direction no_json Ok Ok plain_str
                  (fetched ranked_and_unranked) false false "rank" _
                  0%nat 1%nat _ _ eq_refl ltac:(lia) eq_refl eq_refl)).
Defined.

Lemma sort_variable_validated_witness :
  ("price" ∉ insider_sort_variables)
  /\ insider_trades no_json Ok Ok plain_str false "price"
       (fetched ranked_and_unranked)
     = (Raise (ValueError
          "sorting variable has to be in ('name', 'amount', 'shares', 'report_date')"),
        fetched ranked_and_unranked).
Proof.
  assert ("price" ∉ insider_sort_variables) as Hout.
  { intros Hin. unfold insider_sort_variables in Hin.
    repeat (apply elem_of_cons in Hin as [Hin | Hin]; [discriminate Hin|]).
    by apply elem_of_nil in Hin. }
  split; [exact Hout|].
  exact (proj1 (proj2 (sort_variable_validated no_json Ok Ok plain_str
                         (fetched ranked_and_unranked) false false "price"))
           Hout).
Defined.

End TipranksFacts.

Module YahooFacts.
Import Float64 Yahoo SortSpec YahooSpec YahooSamples SortFacts.

Lemma bind_Ok {A B} (m : result A) (f : A -> result B) (y : B) :
  m ≫= f = Ok y -> exists x, m = Ok x /\ f x = Ok y.
Proof. destruct m as [x|e]; simpl; [by exists x | done]. Qed.

(** ** Loading the frames *)

Lemma rmap_list_length {A B} (f : A -> result B) l r :
  rmap_list f l = Ok r -> length r = length l.
Proof. intros H%rmap_list_Ok. symmetry. by eapply Forall2_length. Qed.

Lemma zip_rows_length ts o h l c a v :
  length o = length ts -> length h = length ts -> length l = length ts ->
  length c = length ts -> length a = length ts -> length v = length ts ->
  length (zip_rows ts o h l c a v) = length ts.
Proof.
  revert o h l c a v. induction ts as [|t ts IH];
    intros [|o1 o] [|h1 h] [|l1 l] [|c1 c] [|a1 a] [|v1 v]; simpl; try done.
  intros. f_equal. apply IH; lia.
Qed.

Lemma make_prices_length c prices :
  make_prices c = Ok prices -> length prices = length (timestamp c).
Proof.
  unfold make_prices.
  destruct (forallb _ _) eqn:E; [|done]. intros [= <-].
  simpl in E. rewrite !andb_true_iff, !Nat.eqb_eq in E.
  apply zip_rows_length; tauto.
Qed.

(** ** The event columns *)

Lemma label_set c v r : label (set_col c v r) = label r.
Proof. by destruct c. Qed.
Lemma close_set c v r : close (set_col c v r) = close r.
Proof. by destruct c. Qed.
Lemma get_set c v r : get_col c (set_col c v r) = v.
Proof. by destruct c. Qed.
Lemma set_set c v v' r : set_col c v (set_col c v' r) = set_col c v r.
Proof. by destruct c. Qed.
Lemma get_other c c' v r : c' <> c -> get_col c' (set_col c v r) = get_col c' r.
Proof. by destruct c, c'. Qed.

(** ** Look-up by label in a table with distinct labels *)

Lemma find_label (df : list row) (i : nat) (r : row) :
  NoDup (label <$> df) -> df !! i = Some r ->
  List.find (fun r' => label r' =? label r) df = Some r.
Proof.
  revert i. induction df as [|x df IH]; intros i Hnd Hi; [done|].
  rewrite fmap_cons in Hnd. apply NoDup_cons in Hnd as [Hx Hnd].
  destruct i as [|i]; simpl in *.
  - injection Hi as ->. by rewrite Z.eqb_refl.
  - destruct (label x =? label r) eqn:E; [|by apply (IH i)].
    exfalso. apply Hx. apply Z.eqb_eq in E. rewrite E.
    apply list_elem_of_fmap. exists r. split; [done|].
    by eapply list_elem_of_lookup_2.
Qed.

Lemma loc_get_lookup (f : row -> float) df i r :
  NoDup (label <$> df) -> df !! i = Some r -> loc_get f df (label r) = f r.
Proof. intros Hnd Hi. unfold loc_get. by rewrite (find_label df i r). Qed.

Lemma loc_set_lookup c df i r v :
  NoDup (label <$> df) -> df !! i = Some r ->
  loc_set (set_col c) df (label r) v = <[i := set_col c v r]> df.
Proof.
  unfold loc_set. revert i. induction df as [|x df IH]; intros i Hnd Hi; [done|].
  rewrite fmap_cons in Hnd. apply NoDup_cons in Hnd as [Hx Hnd].
  destruct i as [|i]; simpl in *.
  - injection Hi as ->. rewrite Z.eqb_refl. f_equal.
    clear IH. induction df as [|y df IH]; [done|]. simpl in *.
    apply not_elem_of_cons in Hx as [Hy Hx].
    apply NoDup_cons in Hnd as [_ Hnd].
    assert ((label y =? label r) = false) as -> by lia.
    f_equal. by apply IH.
  - assert ((label x =? label r) = false) as ->.
    { apply Z.eqb_neq. intros E. apply Hx. rewrite E.
      apply list_elem_of_fmap. exists r. split; [done|].
      by eapply list_elem_of_lookup_2. }
    f_equal. by apply IH.
Qed.

(** ** The carry loop as a function of the rows before it *)

Section Carry.
Variable c : column.

Lemma length_carried prev df : length (carried c prev df) = length df.
Proof. revert prev. induction df as [|r df IH]; intros prev; simpl; [done | by rewrite IH]. Qed.

Lemma labels_carried prev df : label <$> carried c prev df = label <$> df.
Proof.
  revert prev. induction df as [|r df IH]; intros prev; [done|].
  cbn [carried]. rewrite !fmap_cons, IH. f_equal.
  destruct prev as [p|]; [|done].
  destruct (carries_over c p r); [apply label_set | done].
Qed.

Lemma carried_lookup_0 df : carried c None df !! 0%nat = df !! 0%nat.
Proof. by destruct df. Qed.

Lemma carried_lookup_S prev df (i : nat) :
  carried c prev df !! S i
  = match df !! i, df !! S i with
    | Some p, Some r =>
        Some (if carries_over c p r then set_col c (get_col c p) r else r)
    | _, _ => None
    end.
Proof.
  revert prev i. induction df as [|x df IH]; intros prev i; [done|].
  destruct i as [|i]; simpl.
  - by destruct df.
  - rewrite IH. by destruct (df !! i).
Qed.

(** A row that passes its event on still has it when its turn comes. *)
Lemma carried_source df (i : nat) p r :
  df !! i = Some p -> df !! S i = Some r -> carries_over c p r = true ->
  carried c None df !! i = Some p.
Proof.
  intros Hp Hr Hc. destruct i as [|i]; [by rewrite carried_lookup_0|].
  rewrite carried_lookup_S, Hp.
  destruct (df !! i) as [q|] eqn:Hq.
  - assert (carries_over c q p = false) as ->; [|done].
    unfold carries_over in *. destruct (isnan (get_col c p)); [|by rewrite andb_false_r].
    done.
  - apply lookup_lt_Some in Hp. apply lookup_ge_None in Hq. lia.
Qed.

Lemma carry_loop df (m : nat) :
  NoDup (label <$> df) -> (S m <= length df)%nat ->
  foldl (carry_step (get_col c) (set_col c) (get_col c <$> df)) df (seq 0 m)
  = take (S m) (carried c None df) ++ drop (S m) df.
Proof.
  intros Hnd. induction m as [|m IH]; intros Hm.
  - destruct df as [|r df]; [simpl in Hm; lia | done].
  - rewrite seq_S, foldl_app, IH by lia. simpl foldl.
    set (C := carried c None df).
    set (S_m := take (S m) C ++ drop (S m) df).
    destruct (lookup_lt_is_Some_2 df m ltac:(lia)) as [p Hp].
    destruct (lookup_lt_is_Some_2 df (S m) ltac:(lia)) as [r Hr].
    assert (length C = length df) as HlC by apply length_carried.
    destruct (lookup_lt_is_Some_2 C m ltac:(lia)) as [p' Hp'].
    assert (label <$> S_m = label <$> df) as Hlab.
    { unfold S_m. rewrite fmap_app, fmap_take, fmap_drop.
      unfold C. by rewrite labels_carried, take_drop. }
    assert (S_m !! m = Some p') as Hm1.
    { unfold S_m. rewrite lookup_app_l by (rewrite length_take; lia).
      rewrite lookup_take_lt by lia. done. }
    assert (S_m !! S m = Some r) as Hm2.
    { unfold S_m. rewrite lookup_app_r by (rewrite length_take; lia).
      rewrite length_take, lookup_drop.
      replace (S m + (S m - S m `min` length C))%nat with (S m) by lia. done. }
    assert (label p' = label p /\ close p' = close p) as [Hlp Hcp].
    { destruct m as [|m']; unfold C in Hp'.
      - rewrite carried_lookup_0 in Hp'. by simplify_eq.
      - rewrite carried_lookup_S, Hp in Hp'.
        destruct (df !! m') as [q|]; [|done]. injection Hp' as <-.
        destruct (carries_over c q p); [|done].
        by rewrite label_set, close_set. }
    assert (C !! S m
            = Some (if carries_over c p r then set_col c (get_col c p) r else r))
      as HC.
    { unfold C. by rewrite carried_lookup_S, Hp, Hr. }
    assert (take (S (S m)) C ++ drop (S (S m)) df
            = <[S m := if carries_over c p r then set_col c (get_col c p) r
                       else r]> S_m) as ->.
    { unfold S_m. rewrite (take_S_r C (S m) _ HC).
      rewrite insert_app_r_alt by (rewrite length_take; lia).
      rewrite length_take.
      replace (S m - S m `min` length C)%nat with 0%nat by lia.
      rewrite (drop_S df r (S m) Hr). by rewrite <- app_assoc. }
    unfold carry_step. rewrite !list_lookup_fmap, Hp, Hr, Hm1, Hm2. simpl.
    assert (NoDup (label <$> S_m)) as Hnd' by by rewrite Hlab.
    rewrite (loc_get_lookup close S_m m p' Hnd' Hm1), Hcp.
    fold (carries_over c p r).
    destruct (carries_over c p r) eqn:Hc.
    + rewrite (loc_get_lookup (get_col c) S_m m p' Hnd' Hm1).
      rewrite (loc_set_lookup c S_m (S m) r _ Hnd' Hm2).
      assert (p' = p) as ->; [|done].
      pose proof (carried_source df m p r Hp Hr Hc) as Hsrc.
      fold C in Hsrc. congruence.
    + symmetry. by apply list_insert_id.
Qed.

(** The loop of lines 335-337 on a table with distinct labels. *)
Lemma carry_forward_carried df :
  NoDup (label <$> df) ->
  carry_forward (get_col c) (set_col c) df = carried c None df.
Proof.
  intros Hnd. unfold carry_forward.
  destruct df as [|r df]; [done|].
  replace (length (r :: df) - 1)%nat with (length df) by (simpl; lia).
  rewrite carry_loop by (done || (simpl; lia)).
  rewrite take_ge, drop_ge; [by rewrite app_nil_r | simpl; lia |].
  rewrite length_carried. simpl. lia.
Qed.

End Carry.

(** ** Sorting the index *)

Lemma insert_row_perm r rows : insert_row r rows ≡ₚ r :: rows.
Proof.
  induction rows as [|x rows IH]; simpl; [done|].
  destruct (label x <? label r); [|done].
  rewrite IH. apply Permutation_swap.
Qed.

Lemma sort_index_perm rows : sort_index rows ≡ₚ rows.
Proof.
  unfold sort_index. induction rows as [|r rows IH]; simpl; [done|].
  by rewrite insert_row_perm, IH.
Qed.

Lemma insert_row_sorted r rows :
  StronglySorted le_label rows -> StronglySorted le_label (insert_row r rows).
Proof.
  induction 1 as [|x rows Hs IH Hx]; simpl; [by repeat constructor|].
  destruct (label x <? label r) eqn:E.
  - constructor; [done|]. rewrite insert_row_perm.
    constructor; [unfold le_label; lia | done].
  - constructor; [by constructor|].
    constructor; [unfold le_label; lia|].
    eapply Forall_impl; [exact Hx|]. unfold le_label. intros y Hy. lia.
Qed.

Lemma sort_index_sorted rows : StronglySorted le_label (sort_index rows).
Proof.
  unfold sort_index. induction rows as [|r rows IH]; simpl; [constructor|].
  by apply insert_row_sorted.
Qed.

Lemma sorted_strict rows :
  StronglySorted le_label rows -> NoDup (label <$> rows) ->
  StronglySorted lt_label rows.
Proof.
  induction 1 as [|x rows Hs IH Hx]; intros Hnd; [constructor|].
  rewrite fmap_cons in Hnd. apply NoDup_cons in Hnd as [Hnx Hnd].
  constructor; [by apply IH|].
  apply Forall_forall. intros y Hy. rewrite Forall_forall in Hx.
  specialize (Hx y Hy). unfold le_label, lt_label in *.
  assert (label x <> label y); [|lia].
  intros E. apply Hnx. rewrite E. apply list_elem_of_fmap. by exists y.
Qed.

Lemma sort_index_strict rows :
  NoDup (label <$> rows) -> StronglySorted lt_label (sort_index rows).
Proof.
  intros Hnd. apply sorted_strict; [apply sort_index_sorted|].
  by rewrite (sort_index_perm rows).
Qed.

Lemma strict_labels rows :
  StronglySorted lt_label rows -> StronglySorted Z.lt (label <$> rows).
Proof.
  induction 1 as [|x rows Hs IH Hx]; [constructor|].
  rewrite fmap_cons. constructor; [done|]. by apply Forall_fmap.
Qed.

Lemma labels_strict rows :
  StronglySorted Z.lt (label <$> rows) -> StronglySorted lt_label rows.
Proof.
  induction rows as [|x rows IH]; [constructor|].
  rewrite fmap_cons. intros [Hs Hx]%StronglySorted_inv.
  constructor; [by apply IH|]. by rewrite Forall_fmap in Hx.
Qed.

Lemma strict_NoDup rows :
  StronglySorted lt_label rows -> NoDup (label <$> rows).
Proof.
  induction 1 as [|x rows Hs IH Hx]; [constructor|].
  rewrite fmap_cons. apply NoDup_cons. split; [|done].
  intros (y & Hy & Hin)%list_elem_of_fmap. rewrite Forall_forall in Hx.
  specialize (Hx y Hin). unfold lt_label in Hx. lia.
Qed.

Lemma strict_index_inj rows (i j : nat) x y :
  StronglySorted lt_label rows ->
  rows !! i = Some x -> rows !! j = Some y -> label x = label y -> i = j.
Proof.
  intros Hs Hi Hj E. apply strict_NoDup in Hs.
  apply (NoDup_lookup _ i j (label x) Hs); rewrite list_lookup_fmap.
  - by rewrite Hi.
  - rewrite Hj. simpl. by rewrite E.
Qed.

Lemma strict_label_inj rows x y :
  StronglySorted lt_label rows ->
  x ∈ rows -> y ∈ rows -> label x = label y -> x = y.
Proof.
  intros Hs [i Hi]%list_elem_of_lookup [j Hj]%list_elem_of_lookup E.
  assert (i = j) as -> by by eapply strict_index_inj.
  congruence.
Qed.

Lemma strict_filter (P : row -> Prop) `{!forall r, Decision (P r)} rows :
  StronglySorted lt_label rows -> StronglySorted lt_label (filter P rows).
Proof.
  induction 1 as [|x rows Hs IH Hx]; [constructor|].
  destruct (decide (P x)).
  - rewrite filter_cons_True by done. constructor; [done|].
    apply Forall_forall. intros y [_ Hy]%list_elem_of_filter.
    rewrite Forall_forall in Hx. by apply Hx.
  - by rewrite filter_cons_False.
Qed.

(** Two rows of a strictly sorted table with no label between theirs are
    neighbours. *)
Lemma sorted_neighbours rows x y :
  StronglySorted lt_label rows -> x ∈ rows -> y ∈ rows ->
  label x < label y ->
  (forall z, z ∈ rows -> ~ (label x < label z < label y)) ->
  exists i : nat, rows !! i = Some x /\ rows !! S i = Some y.
Proof.
  induction 1 as [|r rows Hs IH Hr]; intros Hx Hy Hlt Hno.
  - by apply elem_of_nil in Hx.
  - rewrite Forall_forall in Hr. unfold lt_label in Hr.
    apply elem_of_cons in Hx as [-> | Hx].
    + apply elem_of_cons in Hy as [-> | Hy]; [lia|].
      exists 0%nat. split; [done|]. simpl.
      destruct rows as [|z rows]; [by apply elem_of_nil in Hy|].
      apply elem_of_cons in Hy as [-> | Hy]; [done|].
      exfalso. apply (Hno z); [by right; left|].
      apply StronglySorted_inv in Hs as [_ Hz]. rewrite Forall_forall in Hz.
      specialize (Hz y Hy). specialize (Hr z ltac:(by left)).
      unfold lt_label in Hz. lia.
    + apply elem_of_cons in Hy as [-> | Hy].
      * specialize (Hr x Hx). lia.
      * destruct IH as (i & Hi & Hj); try done.
        -- intros z Hz. apply Hno. by right.
        -- by exists (S i).
Qed.

(** ** The outer join *)

Lemma has_row_elem df l : has_row df l = true <-> l ∈ label <$> df.
Proof.
  unfold has_row. induction df as [|r df IH].
  - simpl. rewrite elem_of_nil. split; [discriminate | tauto].
  - cbn [existsb]. rewrite fmap_cons, orb_true_iff, elem_of_cons, IH.
    rewrite Z.eqb_eq. split; (intros [H | H]; [left | right]); done.
Qed.

Lemma NoDup_fmap_filter {A B} (f : A -> B) (P : A -> Prop)
    `{!forall x, Decision (P x)} (l : list A) :
  NoDup (f <$> l) -> NoDup (f <$> filter P l).
Proof.
  induction l as [|x l IH]; [done|].
  rewrite fmap_cons. intros [Hx Hl]%NoDup_cons.
  destruct (decide (P x)).
  - rewrite filter_cons_True, fmap_cons by done. apply NoDup_cons.
    split; [|by apply IH].
    intros (y & Hy & [_ Hin]%list_elem_of_filter)%list_elem_of_fmap.
    apply Hx. apply list_elem_of_fmap. by exists y.
  - rewrite filter_cons_False by done. by apply IH.
Qed.

(** ** Where the rows of a join come from *)

Lemma outer_join_inv c df evs r' :
  r' ∈ outer_join (set_col c) df evs ->
  (exists r, r ∈ df /\ r' = set_col c (event_at evs (label r)) r)
  \/ (exists e, e ∈ evs /\ has_row df e.1 = false
        /\ r' = set_col c e.2 (event_row e.1)).
Proof.
  unfold outer_join. intros [H | H]%elem_of_app.
  - left. apply list_elem_of_fmap in H as (r & -> & Hr). by exists r.
  - right. apply list_elem_of_fmap in H as (e & -> & He).
    apply list_elem_of_filter in He as [Hrow He]. exists e.
    split; [done|]. split; [|done]. by destruct (has_row df e.1).
Qed.

Lemma carried_inv c prev df x' :
  x' ∈ carried c prev df ->
  exists x, x ∈ df /\ (x' = x \/ exists w, x' = set_col c w x).
Proof.
  revert prev. induction df as [|r df IH]; intros prev H.
  - by apply elem_of_nil in H.
  - cbn [carried] in H. apply elem_of_cons in H as [-> | H].
    + exists r. split; [by left|].
      destruct prev as [p|]; [|by left].
      destruct (carries_over c p r); [right; by eexists | by left].
    + destruct (IH _ H) as (x & Hx & Hx'). exists x. split; [by right | done].
Qed.

Lemma event_row_close c v t : isnan (close (set_col c v (event_row t))) = true.
Proof. by destruct c. Qed.

Lemma event_at_elem evs t v :
  NoDup evs.*1 -> (t, v) ∈ evs -> event_at evs t = v.
Proof.
  unfold event_at. induction evs as [|[t' v'] evs IH]; intros Hnd Hin.
  - by apply elem_of_nil in Hin.
  - rewrite fmap_cons in Hnd. apply NoDup_cons in Hnd as [Hnew Hnd].
    cbn [find fst]. apply elem_of_cons in Hin as [[= <- <-] | Hin].
    + by rewrite Z.eqb_refl.
    + destruct (t' =? t) eqn:E; [|by apply IH].
      apply Z.eqb_eq in E as ->. exfalso. apply Hnew.
      apply list_elem_of_fmap. by exists (t, v).
Qed.

Lemma joined_unmatched c df evs t v :
  (t, v) ∈ evs -> t ∉ label <$> df ->
  set_col c v (event_row t) ∈ sort_index (outer_join (set_col c) df evs).
Proof.
  intros Hin Ht. rewrite (sort_index_perm _). unfold outer_join.
  apply elem_of_app. right. apply list_elem_of_fmap. exists (t, v).
  split; [done|]. apply list_elem_of_filter. split; [|done]. simpl.
  destruct (has_row df t) eqn:E; [|done]. by apply has_row_elem in E.
Qed.

Lemma joined_row c df evs r :
  r ∈ df ->
  set_col c (event_at evs (label r)) r
    ∈ sort_index (outer_join (set_col c) df evs).
Proof.
  intros Hr. rewrite (sort_index_perm _). unfold outer_join.
  apply elem_of_app. left. apply list_elem_of_fmap. by exists r.
Qed.

Section Join.
Variable c : column.

Lemma outer_join_labels df evs :
  label <$> outer_join (set_col c) df evs
  = (label <$> df)
    ++ (fst <$> filter (fun e : Z * float => negb (has_row df e.1)) evs).
Proof.
  unfold outer_join. rewrite fmap_app, <- !list_fmap_compose. f_equal.
  - apply list_fmap_ext. intros i r _. simpl. apply label_set.
  - apply list_fmap_ext. intros i e _. simpl. by rewrite label_set.
Qed.

Lemma outer_join_NoDup df evs :
  NoDup (label <$> df) -> NoDup (fst <$> evs) ->
  NoDup (label <$> outer_join (set_col c) df evs).
Proof.
  intros Hdf Hevs. rewrite outer_join_labels. apply NoDup_app.
  split; [done|]. split.
  - intros l Hl (e & -> & He)%list_elem_of_fmap.
    apply list_elem_of_filter in He as [He _].
    apply has_row_elem in Hl. rewrite Hl in He. done.
  - by apply NoDup_fmap_filter.
Qed.

Lemma concat_Ok df evs :
  NoDup (label <$> df) -> NoDup evs.*1 ->
  concat (set_col c) df evs = Ok (outer_join (set_col c) df evs).
Proof.
  intros Hdf Hevs. unfold concat, nodup_labels. destruct evs as [|e evs]; [done|].
  by rewrite (bool_decide_eq_true_2 (NoDup (label <$> df))),
       (bool_decide_eq_true_2 (NoDup (fst <$> e :: evs))).
Qed.

Lemma merge_events_Ok frequency df evs :
  NoDup (label <$> df) -> NoDup evs.*1 ->
  merge_events (get_col c) (set_col c) frequency df evs
  = Ok (merged c frequency df evs).
Proof.
  intros Hdf Hevs. unfold merge_events. rewrite concat_Ok by done.
  cbn [mbind result_bind]. unfold merged.
  destruct (existsb _ _); [|done].
  rewrite carry_forward_carried; [done|].
  rewrite (sort_index_perm _). by apply outer_join_NoDup.
Qed.

Lemma merged_strict frequency df evs :
  NoDup (label <$> df) -> NoDup evs.*1 ->
  StronglySorted lt_label (merged c frequency df evs).
Proof.
  intros Hdf Hevs. unfold merged.
  pose proof (sort_index_strict _ (outer_join_NoDup df evs Hdf Hevs)) as Hs.
  destruct (existsb _ _); [|done].
  apply strict_filter, labels_strict. rewrite labels_carried.
  by apply strict_labels.
Qed.

Lemma carried_elem prev df x :
  x ∈ df ->
  exists x', x' ∈ carried c prev df /\ (x' = x \/ exists w, x' = set_col c w x).
Proof.
  revert prev. induction df as [|r df IH]; intros prev Hx.
  - by apply elem_of_nil in Hx.
  - apply elem_of_cons in Hx as [-> | Hx].
    + eexists. split; [by left|].
      destruct prev as [p|]; [|by left].
      destruct (carries_over c p r); [right; by eexists | by left].
    + destruct (IH (Some r) Hx) as (x' & Hin & Hx').
      exists x'. split; [by right | done].
Qed.

(** A row with a close price is still there after a merge, with its
    label, its price and its other event column. *)
Lemma merged_keeps frequency df evs r :
  r ∈ df -> isnan (close r) = false ->
  exists r', r' ∈ merged c frequency df evs
    /\ label r' = label r /\ close r' = close r
    /\ forall c', c' <> c -> get_col c' r' = get_col c' r.
Proof.
  intros Hr Hclose.
  set (r1 := set_col c (event_at evs (label r)) r).
  assert (r1 ∈ sort_index (outer_join (set_col c) df evs)) as H1.
  { rewrite (sort_index_perm _). unfold outer_join. apply elem_of_app. left.
    apply list_elem_of_fmap. by exists r. }
  assert (label r1 = label r /\ close r1 = close r
          /\ forall c', c' <> c -> get_col c' r1 = get_col c' r) as (L1 & C1 & G1).
  { unfold r1. rewrite label_set, close_set. repeat split.
    intros c' Hc. by apply get_other. }
  unfold merged. destruct (existsb _ _).
  - destruct (carried_elem None _ _ H1) as (x' & Hin & Hx').
    assert (label x' = label r /\ close x' = close r
            /\ forall c', c' <> c -> get_col c' x' = get_col c' r)
      as (L2 & C2 & G2).
    { destruct Hx' as [-> | [w ->]]; [done|].
      rewrite label_set, close_set. repeat split; [done..|].
      intros c' Hc. rewrite get_other by done. by apply G1. }
    exists x'. split; [|done].
    apply list_elem_of_filter. split; [|done]. by rewrite C2, Hclose.
  - by exists r1.
Qed.

Lemma carry_on frequency :
  frequency ∈ carry_frequencies ->
  existsb (String.eqb frequency) carry_frequencies = true.
Proof.
  intros Hf. unfold carry_frequencies in *.
  repeat (apply elem_of_cons in Hf as [-> | Hf]; [done|]).
  by apply elem_of_nil in Hf.
Qed.

(** The row of a label in the join holds the event of that label. *)
Lemma joined_at df evs x :
  NoDup evs.*1 -> x ∈ outer_join (set_col c) df evs ->
  get_col c x = event_at evs (label x).
Proof.
  intros Hevs [(r & Hr & ->) | (e & He & _ & ->)]%outer_join_inv.
  - by rewrite get_set, label_set.
  - rewrite get_set, label_set. simpl. symmetry.
    apply event_at_elem; [done|]. by destruct e.
Qed.

Lemma joined_label df evs x :
  x ∈ outer_join (set_col c) df evs -> label x ∈ (label <$> df) ++ evs.*1.
Proof.
  intros Hx.
  assert (label x ∈ label <$> outer_join (set_col c) df evs) as Hl
    by (apply list_elem_of_fmap; by exists x).
  rewrite outer_join_labels in Hl.
  apply elem_of_app in Hl as [Hl | Hl]; apply elem_of_app; [by left | right].
  apply list_elem_of_fmap in Hl as (e & -> & [_ Hin]%list_elem_of_filter).
  apply list_elem_of_fmap. by exists e.
Qed.

Lemma joined_of_label df evs n :
  n ∈ (label <$> df) ++ evs.*1 ->
  exists x, x ∈ outer_join (set_col c) df evs /\ label x = n.
Proof.
  intros Hn. destruct (has_row df n) eqn:E.
  - apply has_row_elem in E. apply list_elem_of_fmap in E as (r & -> & Hr).
    exists (set_col c (event_at evs (label r)) r). split; [|apply label_set].
    unfold outer_join. apply elem_of_app. left.
    apply list_elem_of_fmap. by exists r.
  - apply elem_of_app in Hn as [Hn | Hn];
      [apply has_row_elem in Hn; congruence|].
    apply list_elem_of_fmap in Hn as (e & -> & He).
    exists (set_col c e.2 (event_row e.1)). split; [|by rewrite label_set].
    unfold outer_join. apply elem_of_app. right.
    apply list_elem_of_fmap. exists e. split; [done|].
    apply list_elem_of_filter. split; [|done]. simpl. by rewrite E.
Qed.

(** The row of an event whose date is no bar, or a bar without a close
    price: it is in the join, with the event and without a price. *)
Lemma event_row_joined df evs t v :
  NoDup evs.*1 -> (t, v) ∈ evs ->
  (forall r, r ∈ df -> label r = t -> isnan (close r) = true) ->
  exists x, x ∈ outer_join (set_col c) df evs
    /\ label x = t /\ get_col c x = v /\ isnan (close x) = true.
Proof.
  intros Hevs He Ht. destruct (joined_of_label df evs t) as (x & Hx & Lx).
  { apply elem_of_app. right. apply list_elem_of_fmap. by exists (t, v). }
  exists x. split; [done|]. split; [done|]. split.
  - rewrite (joined_at df evs x Hevs Hx), Lx. by apply event_at_elem.
  - apply outer_join_inv in Hx as [(r & Hr & ->) | (e & _ & _ & ->)].
    + rewrite close_set. apply Ht; [done|]. by rewrite label_set in Lx.
    + apply event_row_close.
Qed.

(** In the sorted join the row of the event and the row of the date that
    follows it are neighbours. *)
Lemma joined_neighbours df evs t v n :
  NoDup (label <$> df) -> NoDup evs.*1 -> (t, v) ∈ evs ->
  (forall r, r ∈ df -> label r = t -> isnan (close r) = true) ->
  n ∈ (label <$> df) ++ evs.*1 -> t < n ->
  (forall l, l ∈ (label <$> df) ++ evs.*1 -> ~ (t < l < n)) ->
  exists (i : nat) e_row n_row,
    sort_index (outer_join (set_col c) df evs) !! i = Some e_row
    /\ sort_index (outer_join (set_col c) df evs) !! S i = Some n_row
    /\ label e_row = t /\ get_col c e_row = v /\ isnan (close e_row) = true
    /\ label n_row = n /\ get_col c n_row = event_at evs n
    /\ n_row ∈ outer_join (set_col c) df evs.
Proof.
  intros Hdf Hevs He Ht Hn Hlt Hno.
  destruct (event_row_joined df evs t v Hevs He Ht) as (e_row & Hein & Le & Ge & Ce).
  destruct (joined_of_label df evs n Hn) as (n_row & Hnin & Ln).
  pose proof (sort_index_strict _ (outer_join_NoDup df evs Hdf Hevs)) as Hs.
  destruct (sorted_neighbours _ e_row n_row Hs) as (i & Hi & Hj).
  - by rewrite (sort_index_perm _).
  - by rewrite (sort_index_perm _).
  - by rewrite Le, Ln.
  - intros z Hz. rewrite Le, Ln. apply Hno.
    rewrite (sort_index_perm _) in Hz. by apply joined_label.
  - exists i, e_row, n_row. repeat split; try done.
    rewrite <- Ln. by apply (joined_at df).
Qed.

(** An event whose date is no bar, or a bar without a close price, is on
    the bar that follows it when that bar has a price and no event of its
    own. *)
Lemma merged_carries frequency df evs t v b :
  frequency ∈ carry_frequencies ->
  NoDup (label <$> df) -> NoDup evs.*1 ->
  (t, v) ∈ evs -> isnan v = false ->
  (forall r, r ∈ df -> label r = t -> isnan (close r) = true) ->
  b ∈ df -> t < label b ->
  (forall l, l ∈ (label <$> df) ++ evs.*1 -> ~ (t < l < label b)) ->
  isnan (event_at evs (label b)) = true ->
  isnan (close b) = false ->
  set_col c v b ∈ merged c frequency df evs.
Proof.
  intros Hf Hdf Hevs He Hv Ht Hb Hlt Hno Hown Hclose.
  destruct (joined_neighbours df evs t v (label b) Hdf Hevs He Ht)
    as (i & e_row & n_row & Hi & Hj & Le & Ge & Ce & Ln & Gn & Hnin);
    [|done|done|].
  { apply elem_of_app. left. apply list_elem_of_fmap. by exists b. }
  pose proof (sort_index_strict _ (outer_join_NoDup df evs Hdf Hevs)) as Hs.
  set (b_row := set_col c (event_at evs (label b)) b).
  assert (n_row = b_row) as ->.
  { apply (strict_label_inj _ _ _ Hs).
    - by apply (list_elem_of_lookup_2 _ (S i)).
    - by apply joined_row.
    - unfold b_row. by rewrite Ln, label_set. }
  unfold merged. rewrite (carry_on _ Hf).
  apply list_elem_of_filter. split; [by rewrite close_set, Hclose|].
  apply (list_elem_of_lookup_2 _ (S i)).
  rewrite carried_lookup_S, Hi, Hj.
  assert (carries_over c e_row b_row = true) as ->.
  { unfold carries_over. rewrite Ge, Hv, Ce. unfold b_row.
    by rewrite get_set, Hown. }
  unfold b_row. by rewrite Ge, set_set.
Qed.

(** When the date that follows has an event of its own, the event is on
    no row of the merge. *)
Lemma merged_drops frequency df evs t v n :
  frequency ∈ carry_frequencies ->
  NoDup (label <$> df) -> NoDup evs.*1 ->
  (t, v) ∈ evs ->
  (forall r, r ∈ df -> label r = t -> isnan (close r) = true) ->
  n ∈ (label <$> df) ++ evs.*1 -> t < n ->
  (forall l, l ∈ (label <$> df) ++ evs.*1 -> ~ (t < l < n)) ->
  isnan (event_at evs n) = false ->
  event_dropped c evs t n (merged c frequency df evs).
Proof.
  intros Hf Hdf Hevs He Ht Hn Hlt Hno Hown.
  destruct (joined_neighbours df evs t v n Hdf Hevs He Ht Hn Hlt Hno)
    as (i & e_row & n_row & Hi & Hj & Le & Ge & Ce & Ln & Gn & Hnin).
  pose proof (sort_index_strict _ (outer_join_NoDup df evs Hdf Hevs)) as Hs.
  set (sJ := sort_index (outer_join (set_col c) df evs)) in *.
  assert (carries_over c e_row n_row = false) as Hnot.
  { unfold carries_over. by rewrite Gn, Hown, andb_false_r. }
  assert (forall x, x ∈ sJ -> get_col c x = event_at evs (label x)) as Hat.
  { intros x Hx. apply (joined_at df); [done|].
    by rewrite <- (sort_index_perm _). }
  (* the rows of the loop, by their place *)
  assert (forall (k : nat) r, carried c None sJ !! k = Some r ->
            exists x, sJ !! k = Some x /\ label r = label x
              /\ close r = close x
              /\ (label x = n -> r = n_row)
              /\ exists l, (label x <> t -> l <> t)
                           /\ get_col c r = event_at evs l) as Hplace.
  { intros k r Hk. destruct k as [|j].
    - rewrite carried_lookup_0 in Hk. exists r. split; [done|].
      split; [done|]. split; [done|]. split.
      + intros Hl. apply (strict_label_inj _ _ _ Hs).
        * by apply (list_elem_of_lookup_2 _ 0%nat).
        * by apply (list_elem_of_lookup_2 _ (S i)).
        * by rewrite Hl, Ln.
      + exists (label r). split; [done|].
        apply Hat. by apply (list_elem_of_lookup_2 _ 0%nat).
    - rewrite carried_lookup_S in Hk.
      destruct (sJ !! j) as [p|] eqn:Hp; [|done].
      destruct (sJ !! S j) as [x|] eqn:Hx; [|done].
      exists x. split; [done|].
      assert (label x = n -> j = i) as Hji.
      { intros Hl.
        assert (S j = S i); [|lia].
        apply (strict_index_inj _ _ _ x n_row Hs); [done | done |].
        by rewrite Hl, Ln. }
      destruct (carries_over c p x) eqn:Hc; injection Hk as <-.
      + rewrite label_set, close_set. split; [done|]. split; [done|]. split.
        * intros Hl. specialize (Hji Hl). subst j.
          rewrite Hi in Hp. injection Hp as <-.
          rewrite Hj in Hx. injection Hx as <-. congruence.
        * exists (label p). split.
          -- intros _ Hpt.
             assert (j = i) as ->.
             { apply (strict_index_inj _ _ _ p e_row Hs); [done | done |].
               by rewrite Hpt, Le. }
             rewrite Hi in Hp. injection Hp as <-.
             rewrite Hj in Hx. injection Hx as <-. congruence.
          -- rewrite get_set. apply Hat.
             by apply (list_elem_of_lookup_2 _ j).
      + split; [done|]. split; [done|]. split.
        * intros Hl. specialize (Hji Hl). subst j.
          rewrite Hj in Hx. by injection Hx as <-.
        * exists (label x). split; [done|].
          apply Hat. by apply (list_elem_of_lookup_2 _ (S j)). }
  assert (forall r, r ∈ merged c frequency df evs ->
            isnan (close r) = false
            /\ exists k, carried c None sJ !! k = Some r) as Hrow.
  { intros r. unfold merged. rewrite (carry_on _ Hf). fold sJ.
    intros [Hc Hin]%list_elem_of_filter. split.
    - by destruct (isnan (close r)).
    - by apply list_elem_of_lookup_1. }
  assert (forall r, r ∈ merged c frequency df evs -> label r <> t) as Hgone.
  { intros r Hr Hl. destruct (Hrow r Hr) as (Hc & k & Hk).
    destruct (Hplace k r Hk) as (x & Hx & Lx & Cx & _).
    assert (x = e_row) as ->.
    { apply (strict_label_inj _ _ _ Hs).
      - by apply (list_elem_of_lookup_2 _ k).
      - by apply (list_elem_of_lookup_2 _ i).
      - by rewrite <- Lx, Hl, Le. }
    congruence. }
  split; [exact Hgone|]. split.
  - intros r Hr Hl. destruct (Hrow r Hr) as (_ & k & Hk).
    destruct (Hplace k r Hk) as (x & _ & Lx & _ & Hn' & _).
    rewrite Hn' by congruence. done.
  - intros r Hr. destruct (Hrow r Hr) as (_ & k & Hk).
    destruct (Hplace k r Hk) as (x & _ & Lx & _ & _ & l & Hl & Hg).
    exists l. split; [|done]. apply Hl. rewrite <- Lx. by apply Hgone.
Qed.

(** At these frequencies a row of a merge is a row of the table that was
    merged, with its label and its other event column. *)
Lemma merged_from frequency df evs r' :
  frequency ∈ carry_frequencies ->
  r' ∈ merged c frequency df evs ->
  exists r, r ∈ df /\ label r' = label r
    /\ forall c', c' <> c -> get_col c' r' = get_col c' r.
Proof.
  intros Hf. unfold merged. rewrite (carry_on _ Hf).
  intros [Hc Hin]%list_elem_of_filter.
  apply carried_inv in Hin as (x & Hx & Hx').
  rewrite (sort_index_perm _) in Hx.
  assert (close r' = close x) as Cx
    by (destruct Hx' as [-> | [w ->]]; [done | apply close_set]).
  apply outer_join_inv in Hx as [(r & Hr & ->) | (e & _ & _ & ->)].
  - exists r. split; [done|].
    destruct Hx' as [-> | [w ->]].
    + split; [apply label_set|]. intros c' Hc'. by apply get_other.
    + split; [by rewrite !label_set|]. intros c' Hc'. by rewrite !get_other.
  - rewrite Cx, event_row_close in Hc. done.
Qed.

End Join.

Section Numpy.
Variable np_round2 : float -> float.
Variable np_log : float -> float.

Lemma load_frames_length frequency timestamps rounded c frames :
  load_frames np_round2 frequency timestamps rounded c = Ok frames ->
  length frames.1.1 = length (timestamp c).
Proof.
  unfold load_frames. intros H.
  apply bind_Ok in H as (df_div & _ & H).
  apply bind_Ok in H as (splits_raw & _ & H).
  apply bind_Ok in H as (df_splits & _ & H).
  apply bind_Ok in H as (prices & Ep & H).
  apply bind_Ok in H as (prices' & Er & H).
  apply bind_Ok in H as (df_div' & _ & H).
  apply bind_Ok in H as (df_splits' & _ & H).
  injection H as <-. simpl. apply rmap_list_length in Er. rewrite Er.
  apply make_prices_length in Ep. destruct rounded; [|done].
  by rewrite length_fmap.
Qed.

(** ** The trailing duplicate *)

Lemma drop_trailing_short prices :
  (length prices < 2)%nat -> drop_trailing_duplicate prices = Raise IndexError.
Proof.
  destruct prices as [|a [|b prices]]; simpl; [done | done | lia].
Qed.

Lemma index_from_end_snoc rows r : index_from_end (rows ++ [r]) 0 = Ok (label r).
Proof. unfold index_from_end. by rewrite rev_app_distr. Qed.

Lemma index_from_end_snoc2 rows a b :
  index_from_end (rows ++ [a; b]) 1 = Ok (label a).
Proof. unfold index_from_end. by rewrite rev_app_distr. Qed.

Lemma removelast_snoc2 {A} (l : list A) a b : removelast (l ++ [a; b]) = l ++ [a].
Proof.
  change [a; b] with ([a] ++ [b]). rewrite app_assoc.
  apply removelast_last.
Qed.

Lemma drop_trailing_cases init a b :
  drop_trailing_duplicate (init ++ [a; b])
  = Ok (if label b =? label a then init ++ [a] else init ++ [a; b]).
Proof.
  unfold drop_trailing_duplicate, index_from_end.
  rewrite rev_app_distr. simpl. by rewrite removelast_snoc2.
Qed.

(** C10.  A price table with fewer than two rows makes [historical_data]
    fail: it never returns a table, and once the frames are loaded the
    failure is the [IndexError] of the look-up of the last two index
    entries. *)
Theorem short_series_out_of_bounds (frequency : string)
    (returns timestamps rounded : bool) (request_url : string) (c : chart) :
  (length (timestamp c) < 2)%nat ->
  (forall out,
     historical_data np_round2 np_log frequency returns timestamps rounded
       request_url c <> Ok out)
  /\ (forall frames,
        load_frames np_round2 frequency timestamps rounded c = Ok frames ->
        align np_log frequency returns frames.1.1 frames.1.2 frames.2
        = Raise IndexError
        /\ historical_data np_round2 np_log frequency returns timestamps
             rounded request_url c = Raise IndexError).
Proof.
  intros Hlen.
  assert (forall frames,
            load_frames np_round2 frequency timestamps rounded c = Ok frames ->
            align np_log frequency returns frames.1.1 frames.1.2 frames.2
            = Raise IndexError) as Halign.
  { intros frames Hf. unfold align. rewrite drop_trailing_short; [done|].
    by rewrite (load_frames_length _ _ _ _ _ Hf). }
  split.
  - intros out. unfold historical_data.
    destruct (load_frames _ _ _ _ _) as [frames|] eqn:Ef; simpl; [|done].
    by rewrite (Halign frames eq_refl).
  - intros frames Hf. split; [by apply Halign|].
    unfold historical_data. rewrite Hf. simpl.
    by rewrite (Halign frames Hf).
Qed.

(** ** The returns columns *)

Lemma labels_add_returns prev df :
  label <$> add_returns np_log prev df = label <$> df.
Proof.
  revert prev. induction df as [|r df IH]; intros prev; [done|].
  cbn [add_returns]. by rewrite !fmap_cons, IH.
Qed.

Lemma add_returns_elem prev df r :
  r ∈ df ->
  exists r', r' ∈ add_returns np_log prev df
    /\ label r' = label r /\ close r' = close r
    /\ dividends r' = dividends r /\ splits r' = splits r.
Proof.
  revert prev. induction df as [|x df IH]; intros prev Hr.
  - by apply elem_of_nil in Hr.
  - apply elem_of_cons in Hr as [-> | Hr].
    + eexists. split; [by left | done].
    + destruct (IH (close x) Hr) as (r' & Hin & H').
      exists r'. split; [by right | done].
Qed.

Lemma returned_elem (returns : bool) df r :
  r ∈ df ->
  exists r', r' ∈ (if returns then add_returns np_log nan df else df)
    /\ label r' = label r /\ close r' = close r
    /\ dividends r' = dividends r /\ splits r' = splits r.
Proof.
  intros Hr. destruct returns; [by apply add_returns_elem | by exists r].
Qed.

(** The two merges and the returns on tables with distinct labels. *)
Lemma align_Ok frequency returns prices df df_div df_splits :
  drop_trailing_duplicate prices = Ok df ->
  NoDup (label <$> df) -> NoDup df_div.*1 -> NoDup df_splits.*1 ->
  align np_log frequency returns prices df_div df_splits
  = Ok (let out := merged Splits frequency
                     (merged Dividends frequency df df_div) df_splits in
        if returns then add_returns np_log nan out else out).
Proof.
  intros Hdrop Hdf Hdiv Hsplits. unfold align. rewrite Hdrop.
  cbn [mbind result_bind].
  rewrite (merge_events_Ok Dividends) by done. cbn [mbind result_bind].
  rewrite (merge_events_Ok Splits); [done | | done].
  apply strict_NoDup. by apply merged_strict.
Qed.

(** A row of the returned table is a row of the table before the
    returns, with its label and its events. *)
Lemma returned_from (returns : bool) df r' :
  r' ∈ (if returns then add_returns np_log nan df else df) ->
  exists r, r ∈ df /\ label r' = label r
    /\ dividends r' = dividends r /\ splits r' = splits r.
Proof.
  destruct returns; [|by exists r'].
  generalize nan. induction df as [|x df IH]; intros prev H.
  - by apply elem_of_nil in H.
  - cbn [add_returns] in H. apply elem_of_cons in H as [-> | H].
    + exists x. split; [by left | done].
    + destruct (IH _ H) as (r & Hr & Hl). exists r. split; [by right | done].
Qed.

Lemma event_dropped_from c evs t n (out table : list row) :
  (forall r, r ∈ table ->
     exists r0, r0 ∈ out /\ label r = label r0 /\ get_col c r = get_col c r0) ->
  event_dropped c evs t n out -> event_dropped c evs t n table.
Proof.
  intros Hfrom (Hgone & Hown & Hother). split; [|split].
  - intros r Hr. destruct (Hfrom r Hr) as (r0 & H0 & -> & _). by apply Hgone.
  - intros r Hr Hl. destruct (Hfrom r Hr) as (r0 & H0 & L0 & ->).
    apply Hown; [done | congruence].
  - intros r Hr. destruct (Hfrom r Hr) as (r0 & H0 & _ & ->). by apply Hother.
Qed.

(** C4 (amended).  At a weekly, monthly or quarterly frequency, in a merge
    of a table and an events table with distinct labels, take an event
    whose date [t] is no row of the table or a row without a close price,
    and the date [n] that directly follows [t] among the rows and the
    events.  When [n] is a row [b] with a close price and without an
    event of its own, the merge returns a table with [b] carrying the
    event, and so does [align], for the dividends it merges first and for
    the splits it merges into the result.  When [n] has an event of its
    own, the event is not carried: the table that the merge returns, and
    the one that [align] returns, has no row of the date [t], its row of
    the date [n] has the event of [n], and the event of every row is that
    of a date other than [t]. *)
Theorem event_carried_to_following_row (c : column) (frequency : string)
    (returns : bool) (df : list row) (evs : list (Z * float)) (t n : Z)
    (v : float) :
  frequency ∈ carry_frequencies ->
  NoDup (label <$> df) -> NoDup evs.*1 ->
  (t, v) ∈ evs -> isnan v = false ->
  (forall r, r ∈ df -> label r = t -> isnan (close r) = true) ->
  n ∈ (label <$> df) ++ evs.*1 -> t < n ->
  (forall l, l ∈ (label <$> df) ++ evs.*1 -> ~ (t < l < n)) ->
  exists out,
    merge_events (get_col c) (set_col c) frequency df evs = Ok out
    /\ (forall b,
          b ∈ df -> label b = n -> isnan (close b) = false ->
          isnan (event_at evs n) = true ->
          set_col c v b ∈ out
          /\ (c = Dividends -> forall prices df_splits,
                drop_trailing_duplicate prices = Ok df ->
                NoDup df_splits.*1 ->
                exists table r,
                  align np_log frequency returns prices evs df_splits
                  = Ok table
                  /\ r ∈ table /\ label r = n /\ close r = close b
                  /\ dividends r = v)
          /\ (c = Splits -> forall prices df_div,
                (prices ← drop_trailing_duplicate prices;
                 merge_events dividends set_dividends frequency prices df_div)
                = Ok df ->
                exists table r,
                  align np_log frequency returns prices df_div evs = Ok table
                  /\ r ∈ table /\ label r = n /\ close r = close b
                  /\ splits r = v))
    /\ (isnan (event_at evs n) = false ->
        event_dropped c evs t n out
        /\ (c = Dividends -> forall prices df_splits,
              drop_trailing_duplicate prices = Ok df ->
              NoDup df_splits.*1 ->
              exists table,
                align np_log frequency returns prices evs df_splits = Ok table
                /\ event_dropped Dividends evs t n table)
        /\ (c = Splits -> forall prices df_div,
              (prices ← drop_trailing_duplicate prices;
               merge_events dividends set_dividends frequency prices df_div)
              = Ok df ->
              exists table,
                align np_log frequency returns prices df_div evs = Ok table
                /\ event_dropped Splits evs t n table)).
Proof.
  intros Hf Hdf Hevs He Hv Ht Hn Hlt Hno.
  exists (merged c frequency df evs).
  split; [by apply merge_events_Ok|]. split.
  - intros b Hb <- Hclose Hown.
    pose proof (merged_carries c frequency df evs t v b Hf Hdf Hevs He Hv Ht
                  Hb Hlt Hno Hown Hclose) as Hin.
    split; [done|]. split.
    + intros -> prices df_splits Hdrop Hsplits.
      rewrite (align_Ok _ _ _ df) by done. cbn zeta.
      destruct (merged_keeps Splits frequency
                  (merged Dividends frequency df evs) df_splits
                  (set_dividends v b) Hin Hclose)
        as (r1 & Hin1 & L1 & C1 & G1).
      destruct (returned_elem returns _ r1 Hin1)
        as (r2 & Hin2 & L2 & C2 & D2 & _).
      eexists _, r2. split; [done|]. split; [done|].
      rewrite L2, C2, D2, L1, C1. repeat split.
      apply (G1 Dividends). discriminate.
    + intros -> prices df_div Hmerge. unfold align.
      apply bind_Ok in Hmerge as (prices' & Hdrop & Hmerge).
      rewrite Hdrop. cbn [mbind result_bind]. rewrite Hmerge.
      cbn [mbind result_bind].
      rewrite (merge_events_Ok Splits) by done. cbn [mbind result_bind].
      destruct (returned_elem returns _ _ Hin)
        as (r2 & Hin2 & L2 & C2 & _ & S2).
      eexists _, r2. split; [done|]. split; [done|].
      by rewrite L2, C2, S2.
  - intros Hown.
    pose proof (merged_drops c frequency df evs t v n Hf Hdf Hevs He Ht Hn
                  Hlt Hno Hown) as Hdropped.
    split; [done|]. split.
    + intros -> prices df_splits Hdrop Hsplits.
      rewrite (align_Ok _ _ _ df) by done. cbn zeta.
      eexists. split; [done|].
      eapply event_dropped_from; [|exact Hdropped].
      intros r Hr.
      apply returned_from in Hr as (r1 & Hr1 & L1 & D1 & _).
      apply (merged_from Splits) in Hr1 as (r0 & Hr0 & L0 & G0); [|done].
      exists r0. split; [done|]. split; [congruence|].
      cbn [get_col]. rewrite D1. apply (G0 Dividends). discriminate.
    + intros -> prices df_div Hmerge. unfold align.
      apply bind_Ok in Hmerge as (prices' & Hdrop & Hmerge).
      rewrite Hdrop. cbn [mbind result_bind]. rewrite Hmerge.
      cbn [mbind result_bind].
      rewrite (merge_events_Ok Splits) by done. cbn [mbind result_bind].
      eexists. split; [done|].
      eapply event_dropped_from; [|exact Hdropped].
      intros r Hr.
      apply returned_from in Hr as (r1 & Hr1 & L1 & _ & S1).
      exists r1. split; [done|]. split; [done|]. exact S1.
Qed.

(** C6 (amended).  A price table whose last two labels are equal loses
    its last row, and only that one, before the merges; when the labels
    that remain are distinct, and so are the dates of the dividends and
    those of the splits, a table is returned and its index increases
    strictly, so that no entry of it is repeated. *)
Theorem trailing_duplicate_dropped_once (frequency : string)
    (returns timestamps rounded : bool) (request_url : string) (c : chart)
    (init : list row) (a b : row) (df_div df_splits : list (Z * float)) :
  load_frames np_round2 frequency timestamps rounded c
  = Ok (init ++ [a; b], df_div, df_splits) ->
  label b = label a ->
  drop_trailing_duplicate (init ++ [a; b]) = Ok (init ++ [a])
  /\ (NoDup (label <$> init ++ [a]) -> NoDup df_div.*1 ->
      NoDup df_splits.*1 ->
      exists table info,
        historical_data np_round2 np_log frequency returns timestamps rounded
          request_url c = Ok (table, info)
        /\ StronglySorted Z.lt (label <$> table)
        /\ NoDup (label <$> table)
        /\ forall r, r ∈ init ++ [a] -> isnan (close r) = false ->
             label r ∈ label <$> table).
Proof.
  intros Hload Hlab.
  assert (drop_trailing_duplicate (init ++ [a; b]) = Ok (init ++ [a])) as Hdrop.
  { rewrite drop_trailing_cases. by rewrite Hlab, Z.eqb_refl. }
  split; [done|]. intros Hdf Hdiv Hsplits.
  unfold historical_data. rewrite Hload. cbn [mbind result_bind fst snd].
  rewrite (align_Ok _ _ _ (init ++ [a])) by done. cbn [mbind result_bind].
  eexists _, _. split; [done|].
  set (out := merged Splits frequency _ _).
  assert (StronglySorted lt_label out) as Hs.
  { apply merged_strict; [|done]. apply strict_NoDup. by apply merged_strict. }
  assert (label <$> (if returns then add_returns np_log nan out else out)
          = label <$> out) as ->.
  { destruct returns; [apply labels_add_returns | done]. }
  split; [by apply strict_labels|]. split; [by apply strict_NoDup|].
  intros r Hr Hclose.
  destruct (merged_keeps Dividends frequency (init ++ [a]) df_div r Hr Hclose)
    as (r1 & Hin1 & L1 & C1 & _).
  destruct (merged_keeps Splits frequency _ df_splits r1 Hin1) as (r2 & Hin2 & L2 & _).
  { by rewrite C1. }
  apply list_elem_of_fmap. exists r2. split; [by rewrite L2, L1 | done].
Qed.

End Numpy.

(** ** Sample series *)

Ltac elem_cases H :=
  repeat (apply elem_of_cons in H as [H | H]; [try discriminate H|]);
  try (by apply elem_of_nil in H).

(** C4 (as stated) fails: of two dividends paid between two weekly bars
    the first is on no row of the returned table. *)
Lemma dividend_before_dividend_dropped :
  ~ (forall (c : chart) (evs : list (Z * float)) (t : Z) (v : float)
       (table : list row) (info : information),
       events_dividends c = Some evs -> (t, v) ∈ evs ->
       t ∉ timestamp c ->
       (exists l, l ∈ timestamp c /\ t < l) ->
       Forall (fun x => isnan x = false) (quote_close c) ->
       historical_data (fun x => x) (fun x => x) "1wk" false true false "u" c
       = Ok (table, info) ->
       exists r, r ∈ table /\ dividends r = v).
Proof.
  intros H.
  edestruct (H two_dividends [(12, of_Z 5); (14, of_Z 7)] 12 (of_Z 5))
    as (r & Hr & Hd).
  - reflexivity.
  - by left.
  - intros Hin. elem_cases Hin.
  - exists 20. split; [by right; left | done].
  - by repeat constructor.
  - vm_compute. reflexivity.
  - elem_cases Hr; subst r; vm_compute in Hd; discriminate Hd.
Qed.

(** C6 (as stated) fails: of three bars with one timestamp two are
    returned. *)
Lemma trailing_duplicate_may_remain :
  ~ (forall (c : chart) (table : list row) (info : information),
       trailing_duplicate (timestamp c) = true ->
       historical_data (fun x => x) (fun x => x) "1d" false true false "u" c
       = Ok (table, info) ->
       trailing_duplicate (label <$> table) = false).
Proof.
  intros H.
  specialize (H three_alike _ _ eq_refl ltac:(vm_compute; reflexivity)).
  vm_compute in H. discriminate H.
Qed.

Lemma short_series_out_of_bounds_witness :
  (length (timestamp single_bar) < 2)%nat
  /\ historical_data (fun x => x) (fun x => x) "1d" false true false "u"
       single_bar <> Ok ([], {| info_type := "EQUITY";
         info_currency := "USD"; utc_offset := 0; info_timezone := "EST";
         exchange_timezone := "America/New_York"; url := "u" |}).
Proof.
  assert (length (timestamp single_bar) < 2)%nat as Hlen by (simpl; lia).
  split; [exact Hlen|].
  apply (short_series_out_of_bounds (fun x => x) (fun x => x) "1d" false true
           false "u" single_bar Hlen).
Defined.

Lemma event_carried_to_following_row_witness :
  (exists out,
     merge_events dividends set_dividends "1wk"
       [bar 10 1; idle_bar 12; bar 20 2] [(12, of_Z 5)] = Ok out
     /\ set_dividends (of_Z 5) (bar 20 2) ∈ out)
  /\ (exists out,
        merge_events dividends set_dividends "1wk" [bar 10 1; bar 20 2]
          [(12, of_Z 5); (14, of_Z 7)] = Ok out
        /\ event_dropped Dividends [(12, of_Z 5); (14, of_Z 7)] 12 14 out).
Proof.
  split.
  - destruct (event_carried_to_following_row (fun x => x) Dividends "1wk" false
                [bar 10 1; idle_bar 12; bar 20 2] [(12, of_Z 5)] 12 20
                (of_Z 5))
      as (out & Hout & Hcarried & _).
    + by left.
    + apply (bool_decide_unpack _). vm_compute. exact I.
    + apply (bool_decide_unpack _). vm_compute. exact I.
    + by left.
    + reflexivity.
    + intros r Hr Hl. elem_cases Hr; subst r; [discriminate Hl.. | reflexivity |].
      discriminate Hl.
    + apply elem_of_app. left. by right; right; left.
    + lia.
    + intros l Hin. elem_cases Hin; subst l; simpl; lia.
    + exists out. split; [exact Hout|].
      apply (Hcarried (bar 20 2)); [by right; right; left | reflexivity..].
  - destruct (event_carried_to_following_row (fun x => x) Dividends "1wk" false
                [bar 10 1; bar 20 2] [(12, of_Z 5); (14, of_Z 7)] 12 14
                (of_Z 5))
      as (out & Hout & _ & Hdropped).
    + by left.
    + apply (bool_decide_unpack _). vm_compute. exact I.
    + apply (bool_decide_unpack _). vm_compute. exact I.
    + by left.
    + reflexivity.
    + intros r Hr Hl. elem_cases Hr; subst r; discriminate Hl.
    + apply elem_of_app. right. by right; left.
    + lia.
    + intros l Hin. elem_cases Hin; subst l; simpl; lia.
    + exists out. split; [exact Hout|]. by apply Hdropped.
Defined.

Lemma trailing_duplicate_dropped_once_witness :
  drop_trailing_duplicate ([bar 5 1] ++ [bar 7 2; bar 7 3])
  = Ok ([bar 5 1] ++ [bar 7 2]).
Proof.
  apply (trailing_duplicate_dropped_once (fun x => x) (fun x => x) "1d" false
           true false "u" (series [(5, 1); (7, 2); (7, 3)] None)
           [bar 5 1] (bar 7 2) (bar 7 3) [] []).
  - vm_compute. reflexivity.
  - reflexivity.
Defined.

End YahooFacts.

(** * Further theorems *)

Module SecEdgeFacts.
Import PyStr Re Float64 Sec PyStrSpec ReSpec SecSpec SecSamples SecEdgeSamples.
Import PyStrFacts ReFacts SecFacts CusipFacts PercentFacts.

(** ** Headers without a marker *)

Lemma contains_false s sub :
  contains s sub = false -> find s sub = -1.
Proof.
  unfold contains. intros H. apply negb_false_iff in H. by apply Z.eqb_eq in H.
Qed.

Lemma find_absent s sub :
  find s sub = -1 -> forall m : nat, startswith (drop m s) sub = false.
Proof.
  intros H. destruct (find_cases s sub) as [[_ Hno] | (n & Hn & _)]; [done | lia].
Qed.

Lemma split_absent s sep :
  (forall m : nat, startswith (drop m s) sep = false) -> split s sep = [s].
Proof.
  intros H. unfold split.
  pose proof (split_go_free sep s []) as Hs. rewrite app_nil_r in Hs.
  rewrite Hs by (intros i _; apply H). simpl. by rewrite app_nil_r.
Qed.

Lemma found_room s sub (n : nat) :
  find s sub = Z.of_nat n -> (n + length sub <= length s)%nat.
Proof.
  intros H. destruct (find_split _ _ _ H) as (post & Hs & Hl).
  apply (f_equal length) in Hs. rewrite !length_app, Hl in Hs. lia.
Qed.

Lemma marker_absent header :
  contains header FILER = false -> contains header FILED_BY = false ->
  filer_section_start header = -1 /\ filer_marker header = FILED_BY.
Proof.
  intros H1%contains_false H2%contains_false.
  unfold filer_section_start, filer_marker. by rewrite H1, H2.
Qed.

Lemma no_filer_blocks header :
  contains header FILER = false -> contains header FILED_BY = false ->
  (_split_header header).2 = [].
Proof.
  intros H1 H2. destruct (marker_absent header H1 H2) as [Hf Hm].
  apply contains_false in H2.
  unfold _split_header. rewrite Hm. cbn [snd].
  unfold header_sections. rewrite Hf.
  destruct (find_cases header SUBJECT_COMPANY) as [[Hs _] | (s & Hs & Hle & _)];
    unfold subject_section_start; rewrite Hs.
  - assert ((-1 >? -1) = false) as -> by done. cbn [snd].
    rewrite split_absent; [done|].
    intros m. unfold slice. cbn [from_option].
    rewrite take_ge by (rewrite length_drop; unfold clamp, len; simpl; lia).
    rewrite drop_drop. by apply find_absent.
  - pose proof (found_room _ _ _ Hs) as Hroom.
    change (length SUBJECT_COMPANY) with 16%nat in Hroom.
    assert ((Z.of_nat s >? -1) = true) as -> by lia. cbn [snd].
    assert (slice header (Some (-1)) (Some (Z.of_nat s)) = []) as ->.
    { unfold slice, clamp, len. cbn [from_option].
      assert ((-1 <? 0) = true) as -> by done.
      assert ((Z.of_nat s <? 0) = false) as -> by lia.
      replace (Z.to_nat _) with 0%nat by lia. done. }
    done.
Qed.

(** X1.  A header that holds neither [FILER:] nor [FILED BY:] gives no
    filer block at all, with or without a subject section: the filer loop
    runs over nothing and a filing object, when it is built, has an empty
    filer list. *)
Theorem no_filer_marker_no_filers (file : str) :
  let header := header_of (file_of file) in
  contains header FILER = false -> contains header FILED_BY = false ->
  (_split_header header).2 = []
  /\ parse_filers (_split_header header).2 = Ok []
  /\ forall self, SECFiling_init file = Ok self ->
       _filer_information self = [] /\ _filer self = [].
Proof.
  intros header H1 H2.
  pose proof (no_filer_blocks header H1 H2) as Hno.
  split; [done|]. split; [by rewrite Hno|].
  intros self Hself. unfold SECFiling_init in Hself. fold header in Hself.
  rewrite Hno in Hself. cbn [parse_filers mbind result_bind] in Hself.
  destruct (_parse_form_type _); [|done]. cbn [mbind result_bind] in Hself.
  destruct (_parse_filing_date _); [|done]. cbn [mbind result_bind] in Hself.
  by injection Hself as <-.
Qed.

Lemma no_subject_section header :
  contains header SUBJECT_COMPANY = false -> (_split_header header).1 = [].
Proof.
  intros Hs%contains_false. unfold _split_header. cbn [fst].
  unfold header_sections, subject_section_start. rewrite Hs.
  assert (filer_section_start header = -1
          \/ exists f : nat, filer_section_start header = Z.of_nat f
               /\ (f + 6 <= length header)%nat) as [Hf | (f & Hf & Hroom)].
  { unfold filer_section_start.
    destruct (find_cases header FILER) as [[H1 _] | (n & Hn & _)].
    - rewrite H1. assert ((-1 =? -1) = true) as -> by done.
      destruct (find_cases header FILED_BY) as [[H2 _] | (n & Hn & _)];
        [by left|].
      right. exists n. split; [done|].
      pose proof (found_room _ _ _ Hn) as Hr.
      change (length FILED_BY) with 9%nat in Hr. lia.
    - rewrite Hn. assert ((Z.of_nat n =? -1) = false) as -> by lia.
      right. exists n. split; [done|].
      pose proof (found_room _ _ _ Hn) as Hr.
      change (length FILER) with 6%nat in Hr. lia. }
  - rewrite Hf. assert ((-1 >? -1) = false) as -> by done. cbn [fst].
    unfold slice, clamp, len. cbn [from_option].
    replace (Z.to_nat _) with 0%nat; [done|].
    assert ((-1 <? 0) = true) as -> by done. lia.
  - rewrite Hf. assert ((-1 >? Z.of_nat f) = false) as -> by lia. cbn [fst].
    unfold slice, clamp, len. cbn [from_option].
    assert ((-1 <? 0) = true) as -> by done.
    assert ((Z.of_nat f <? 0) = false) as -> by lia.
    replace (Z.to_nat _) with 0%nat by lia. done.
Qed.

(** X2.  A header without [SUBJECT COMPANY:] has an empty subject section.
    A [Filing13D] can then not be built: whenever the base constructor
    returns, the search for the subject's name fails with [IndexError],
    which the constructor does not catch. *)
Theorem no_subject_marker_no_13d (get_text : str -> str) (file : str) :
  let header := header_of (file_of file) in
  contains header SUBJECT_COMPANY = false ->
  (_split_header header).1 = []
  /\ (forall self, SECFiling_init file = Ok self ->
        _subject_information self = []
        /\ _subject self = None
        /\ Filing13D_init get_text file = Raise IndexError)
  /\ (forall filing, Filing13D_init get_text file <> Ok filing).
Proof.
  intros header Hs. pose proof (no_subject_section header Hs) as Hno.
  assert (forall self, SECFiling_init file = Ok self ->
            _subject_information self = [] /\ _subject self = None) as Hself.
  { intros self H. unfold SECFiling_init in H. fold header in H.
    destruct (parse_filers _); [|done]. cbn [mbind result_bind] in H.
    destruct (_parse_form_type _); [|done]. cbn [mbind result_bind] in H.
    destruct (_parse_filing_date _); [|done]. cbn [mbind result_bind] in H.
    injection H as <-. by rewrite <- Hno. }
  split; [done|]. split.
  - intros self H. destruct (Hself self H) as [Hinfo Hsub].
    split; [done|]. split; [done|].
    unfold Filing13D_init. rewrite H. cbn [mbind result_bind].
    by rewrite Hinfo.
  - intros filing. unfold Filing13D_init.
    destruct (SECFiling_init file) as [self|e] eqn:H; [|done].
    cbn [mbind result_bind]. by rewrite (proj1 (Hself self eq_refl)).
Qed.

(** ** The header and the document of a file *)

Lemma take_startswith s sub (n m : nat) :
  startswith (drop m (take n s)) sub = true -> startswith (drop m s) sub = true.
Proof.
  intros (t & Ht)%startswith_app. apply startswith_app.
  destruct (decide (m <= length (take n s))%nat) as [Hle|Hgt].
  - exists (t ++ drop n s).
    rewrite <- (take_drop n s) at 1.
    rewrite drop_app_le by done. by rewrite Ht, <- app_assoc.
  - rewrite drop_ge in Ht by lia. symmetry in Ht.
    apply app_eq_nil in Ht as [-> ->]. by exists (drop m s).
Qed.

Lemma find_absent_iff s sub :
  find s sub = -1 <-> forall m : nat, startswith (drop m s) sub = false.
Proof.
  split; [apply find_absent|]. intros H.
  destruct (find_cases s sub) as [[Hs _] | (n & _ & _ & Hn & _)]; [done|].
  by rewrite H in Hn.
Qed.

Lemma contains_absent s sub :
  (forall m : nat, startswith (drop m s) sub = false) -> contains s sub = false.
Proof. intros H%find_absent_iff. unfold contains. by rewrite H. Qed.

(** X3.  The header is the text before the first closing header tag and
    contains no such tag; the document starts at the first document tag.
    When the closing tag is missing, [find] returns -1 and the header is
    the file without its last character; when the document tag is missing
    the document is the last character of the file. *)
Theorem header_and_document_bounds (file' : str) :
  (forall n : nat, find file' (lit "</SEC-HEADER>") = Z.of_nat n ->
     header_of file' = take n file'
     /\ file' = header_of file' ++ lit "</SEC-HEADER>" ++ drop (n + 13) file'
     /\ contains (header_of file') (lit "</SEC-HEADER>") = false)
  /\ (forall n : nat, find file' (lit "<DOCUMENT>") = Z.of_nat n ->
        document_of file' = drop n file'
        /\ startswith (document_of file') (lit "<DOCUMENT>") = true)
  /\ (contains file' (lit "</SEC-HEADER>") = false ->
      header_of file' = take (length file' - 1) file')
  /\ (contains file' (lit "<DOCUMENT>") = false ->
      document_of file' = drop (length file' - 1) file').
Proof.
  split; [|split; [|split]].
  - intros n Hn. destruct (find_found _ _ _ Hn) as (Hle & Hs & Hfirst).
    assert (header_of file' = take n file') as Hh.
    { unfold header_of. rewrite Hn. by apply slice_to. }
    rewrite Hh. split; [done|]. split.
    + destruct (find_split _ _ _ Hn) as (post & Hsplit & Hlen).
      rewrite Hsplit at 1. do 2 f_equal.
      rewrite Hsplit at 1. rewrite drop_app_ge by lia.
      rewrite Hlen. replace (n + 13 - n)%nat with 13%nat by lia.
      by rewrite drop_app_length'.
    + apply contains_absent. intros m.
      destruct (startswith (drop m (take n file')) (lit "</SEC-HEADER>"))
        eqn:E; [|done].
      assert (m < n)%nat as Hm.
      { apply startswith_app in E as (t & Ht).
        apply (f_equal length) in Ht.
        rewrite length_drop, length_take, length_app in Ht.
        change (length (lit "</SEC-HEADER>")) with 13%nat in Ht. lia. }
      apply take_startswith in E. by rewrite (Hfirst m Hm) in E.
  - intros n Hn. destruct (find_found _ _ _ Hn) as (Hle & Hs & _).
    assert (document_of file' = drop n file') as Hd.
    { unfold document_of. rewrite Hn. by apply slice_from. }
    by rewrite Hd.
  - intros H%contains_false. unfold header_of. rewrite H.
    unfold slice, clamp, len. cbn [from_option].
    assert ((-1 <? 0) = true) as -> by done. rewrite drop_0. f_equal. lia.
  - intros H%contains_false. unfold document_of. rewrite H.
    unfold slice, clamp, len. cbn [from_option].
    assert ((-1 <? 0) = true) as -> by done.
    rewrite take_ge by (rewrite length_drop; lia). f_equal. lia.
Qed.

(** ** Replacing the non-breaking-space entity *)

Lemma join_cons sep p q qs : join sep (p :: q :: qs) = p ++ sep ++ join sep (q :: qs).
Proof. done. Qed.

Lemma split_found s sep (n : nat) :
  sep <> [] -> find s sep = Z.of_nat n ->
  split s sep = take n s :: split (drop (n + length sep) s) sep.
Proof.
  intros Hsep Hn. destruct (find_found _ _ _ Hn) as (Hle & Hs & Hfirst).
  destruct (find_split _ _ _ Hn) as (post & Hsplit & Hlen).
  assert (drop (n + length sep) s = post) as ->.
  { rewrite Hsplit at 1. rewrite drop_app_ge by lia. rewrite Hlen.
    replace (n + length sep - n)%nat with (length sep) by lia.
    by rewrite drop_app_length'. }
  unfold split. rewrite Hsplit at 1.
  rewrite split_go_free.
  - rewrite split_go_sep by done. cbn [fst snd uncurry]. by rewrite app_nil_r.
  - intros i Hi. rewrite <- Hsplit. apply Hfirst. lia.
Qed.

Lemma split_cons s sep : exists p ps, split s sep = p :: ps.
Proof. unfold split. destruct (split_go sep s 0) as [p ps]. by exists p, ps. Qed.

Lemma replace_char_absent (old : str) (c : ascii) (n : nat) (s : str) :
  old <> [] -> c ∉ old -> (length s <= n)%nat ->
  forall m : nat, startswith (drop m (replace s old [c])) old = false.
Proof.
  intros Hold Hc. revert s. induction n as [|n IH]; intros s Hlen.
  - destruct s; [|simpl in Hlen; lia]. intros m.
    unfold replace, split. cbn. rewrite drop_nil.
    destruct old; [done | done].
  - destruct (find_cases s old) as [[_ Hno] | (k & Hk & Hle & Hs & Hfirst)].
    + unfold replace. by rewrite split_absent.
    + unfold replace. rewrite (split_found s old k Hold Hk).
      destruct (find_split _ _ _ Hk) as (post & Hsplit & Hklen).
      assert (1 <= length old)%nat as Hol by (destruct old; [done | simpl; lia]).
      assert (length (drop (k + length old) s) <= n)%nat as Hshort.
      { rewrite length_drop.
        apply (f_equal length) in Hsplit. rewrite !length_app in Hsplit. lia. }
      specialize (IH _ Hshort). unfold replace in IH.
      destruct (split_cons (drop (k + length old) s) old) as (q & qs & Hq).
      rewrite Hq in *. rewrite join_cons.
      set (R := join [c] (q :: qs)) in *.
      intros m.
      destruct (startswith (drop m (take k s ++ [c] ++ R)) old) eqn:E; [|done].
      exfalso.
      destruct (decide (m <= length (take k s))%nat) as [Hm|Hm].
      * rewrite drop_app_le in E by done.
        apply startswith_app in E as (t & Ht).
        destruct (decide (length old <= length (drop m (take k s)))%nat) as [Hfit|Hcut].
        -- assert (m < k)%nat as Hmk.
           { rewrite length_drop in Hfit. rewrite Hklen in Hfit. lia. }
           assert (startswith (drop m (take k s)) old = true) as Hin.
           { apply startswith_app.
             exists (drop (length old) (drop m (take k s))).
             rewrite <- (take_drop (length old) (drop m (take k s))) at 1.
             f_equal.
             apply (f_equal (take (length old))) in Ht.
             rewrite take_app_le in Ht by done.
             by rewrite take_app_length in Ht. }
           apply take_startswith in Hin. by rewrite (Hfirst m Hmk) in Hin.
        -- apply Hc.
           apply (list_elem_of_lookup_2 _ (length (drop m (take k s)))).
           apply (f_equal (fun l => l !! length (drop m (take k s)))) in Ht.
           rewrite lookup_app_r in Ht by lia.
           replace (length (drop m (take k s)) - length (drop m (take k s)))%nat
             with 0%nat in Ht by lia.
           simpl in Ht. rewrite lookup_app_l in Ht by lia. done.
      * rewrite drop_app_ge in E by lia.
        destruct (m - length (take k s))%nat as [|j] eqn:Ej; [lia|].
        simpl in E. by rewrite IH in E.
Qed.

(** X4.  After [&nbsp;] has been replaced the text of the file holds no
    such entity any more, and a file without the entity is left as it
    is. *)
Theorem entities_replaced (file : str) :
  contains (file_of file) (lit "&nbsp;") = false
  /\ (contains file (lit "&nbsp;") = false -> file_of file = file).
Proof.
  split.
  - apply contains_absent. unfold file_of.
    apply (replace_char_absent (lit "&nbsp;") " "%char (length file));
      [done | | done].
    intros Hin. repeat (apply elem_of_cons in Hin as [Hin | Hin]; [discriminate Hin|]).
    by apply elem_of_nil in Hin.
  - intros H%contains_false. unfold file_of, replace.
    rewrite split_absent; [done|]. by apply find_absent.
Qed.

(** ** Documents without an identifier *)

Lemma search_absent r s :
  (forall i : nat, match_at r (drop i s) = None) -> search r s = None.
Proof.
  induction s as [|c s IH]; intros H.
  - pose proof (H 0%nat) as H0. simpl in *. by rewrite H0.
  - pose proof (H 0%nat) as H0. rewrite drop_0 in H0.
    cbn [search]. rewrite H0. apply IH. intros i. apply (H (S i)).
Qed.

Lemma no_digit_no_match flat (i : nat) :
  Forall (fun c => is_digit c = false) flat ->
  match_at cusip_re (drop i flat) = None.
Proof.
  intros Hflat. destruct (match_at cusip_re (drop i flat)) as [m|] eqn:E; [|done].
  exfalso. unfold match_at in E. apply head_Some_elem_of in E.
  apply cusip_match_shape in E as (a & b & s1 & d & s2 & e & Hshape & Hs & _).
  assert (e ∈ flat) as He.
  { rewrite <- (take_drop i flat). apply elem_of_app. right. rewrite Hs.
    unfold embedded. rewrite !elem_of_app. left.
    do 5 right. by left. }
  rewrite Forall_forall in Hflat. specialize (Hflat e He).
  by rewrite (shape_e _ _ _ _ _ _ Hshape) in Hflat.
Qed.

(** X5.  A document whose flattened text holds no digit has no candidate
    identifier: [_parse_cusip] calls [max] on an empty list, which raises
    [ValueError], and as the constructor does not catch it no
    [Filing13D] is built from such a file. *)
Theorem no_digit_no_cusip (get_text : str -> str) (file : str) :
  let document := document_of (file_of file) in
  Forall (fun c => is_digit c = false) (document_flat get_text document) ->
  cusip_candidates (document_flat get_text document) = []
  /\ _parse_cusip get_text document
     = Raise (ValueError "max() arg is an empty sequence")
  /\ (forall self name cik,
        SECFiling_init file = Ok self ->
        _parse_name (_subject_information self) = Ok name ->
        _parse_cik (_subject_information self) = Ok cik ->
        Filing13D_init get_text file
        = Raise (ValueError "max() arg is an empty sequence"))
  /\ (forall filing, Filing13D_init get_text file <> Ok filing).
Proof.
  intros document Hflat.
  assert (cusip_candidates (document_flat get_text document) = []) as Hnone.
  { unfold cusip_candidates, findall1.
    assert (findall cusip_re (document_flat get_text document) = []) as ->; [|done].
    apply findall_nil_search, search_absent. intros i.
    by apply no_digit_no_match. }
  assert (_parse_cusip get_text document
          = Raise (ValueError "max() arg is an empty sequence")) as Hparse.
  { unfold _parse_cusip. by rewrite Hnone. }
  assert (forall self, SECFiling_init file = Ok self ->
            _document self = document) as Hdoc.
  { intros self H. unfold SECFiling_init in H.
    destruct (parse_filers _); [|done]. cbn [mbind result_bind] in H.
    destruct (_parse_form_type _); [|done]. cbn [mbind result_bind] in H.
    destruct (_parse_filing_date _); [|done]. cbn [mbind result_bind] in H.
    by injection H as <-. }
  split; [done|]. split; [done|]. split.
  - intros self name cik Hself Hname Hcik. unfold Filing13D_init.
    rewrite Hself. cbn [mbind result_bind]. rewrite Hname, Hcik.
    cbn [mbind result_bind]. by rewrite (Hdoc self Hself), Hparse.
  - intros filing. unfold Filing13D_init.
    destruct (SECFiling_init file) as [self|] eqn:Hself; [|done].
    cbn [mbind result_bind].
    destruct (_parse_name _); [|done]. cbn [mbind result_bind].
    destruct (_parse_cik _); [|done]. cbn [mbind result_bind].
    by rewrite (Hdoc self eq_refl), Hparse.
Qed.

(** ** The form type and the filing date *)

Lemma text_mismatch label rs s :
  startswith s (lit label) = false -> match_at (seqs (text label :: rs)) s = None.
Proof.
  intros H. unfold match_at. rewrite run_seqs_cons, run_text, H. done.
Qed.

(** The first match of a pattern that begins with a label, in a text
    whose first occurrence of the label is followed by a match. *)
Lemma search_at_label label rs pre s m :
  find (pre ++ s) (lit label) = len pre ->
  leads (seqs (text label :: rs)) [] s m ->
  search (seqs (text label :: rs)) (pre ++ s) = Some m.
Proof.
  intros Hfind Hleads. rewrite search_skip; [by apply search_leads|].
  intros i Hi. apply text_mismatch.
  destruct (find_found _ _ _ Hfind) as (_ & _ & Hfirst). by apply Hfirst.
Qed.

Lemma endswith_app s p : endswith s p = true <-> exists stem, s = stem ++ p.
Proof.
  unfold endswith. rewrite startswith_app. split.
  - intros (t & Ht). exists (rev t).
    apply (f_equal (@rev ascii)) in Ht.
    by rewrite rev_involutive, rev_app_distr, rev_involutive in Ht.
  - intros (stem & ->). exists (rev stem). by rewrite rev_app_distr.
Qed.

(** X6.  When the first [FORM TYPE:] of the file is followed by two tabs
    and a line that ends in a newline, the form type is the rest of that
    line, and the amendment flag is set exactly when the form type ends in
    [/A]. *)
Theorem form_type_of_line (file' pre form rest : str) :
  file' = pre ++ lit "FORM TYPE:" ++ replicate 2 "009"%char ++ form
              ++ "010"%char :: rest ->
  find file' (lit "FORM TYPE:") = len pre ->
  form <> [] ->
  Forall (fun c => dot c = true) form ->
  _parse_form_type file' = Ok (form, endswith form (lit "/A"))
  /\ (endswith form (lit "/A") = true <-> exists stem, form = stem ++ lit "/A").
Proof.
  intros -> Hfind Hne Hform. split; [|apply endswith_app].
  unfold _parse_form_type. rewrite first_findall1.
  unfold form_type_re.
  rewrite (search_at_label "FORM TYPE:" _ pre _ ([form], rest) Hfind).
  - done.
  - eapply leads_seqs_cons; [apply leads_text|]. cbn [fst snd].
    eapply leads_seqs_cons.
    { apply leads_times; [by repeat constructor | done]. }
    cbn [fst snd].
    eapply leads_seqs_cons.
    { apply leads_grp. apply leads_plus; [done | done | done]. }
    cbn [fst snd]. rewrite matched_app.
    eapply leads_seqs_cons; [by apply leads_chr|]. cbn [fst snd].
    apply leads_seqs_nil.
Qed.

Lemma digit_chr_val c : is_digit c = true -> digit_chr (digit_val c) = c.
Proof.
  unfold is_digit, in_range, digit_chr, digit_val, code. intros H.
  apply andb_true_iff in H as [H1 H2].
  apply Z.leb_le in H1, H2.
  rewrite Z.mod_small by lia.
  replace (48 + (Z.of_N (N_of_ascii c) - 48)) with (Z.of_N (N_of_ascii c)) by lia.
  by rewrite N2Z.id, ascii_N_embedding.
Qed.

Lemma digit_val_range c : is_digit c = true -> 0 <= digit_val c <= 9.
Proof.
  unfold is_digit, in_range, digit_val. intros H.
  apply andb_true_iff in H as [H1 H2]. lia.
Qed.

Lemma digit_chr_eq (n : Z) (c : ascii) :
  is_digit c = true -> n mod 10 = digit_val c -> digit_chr n = c.
Proof.
  intros Hc Hn. rewrite <- (digit_chr_val c Hc). unfold digit_chr.
  rewrite Hn. pose proof (digit_val_range c Hc).
  by rewrite (Z.mod_small (digit_val c)) by lia.
Qed.

Lemma isoformat_digits y1 y2 y3 y4 m1 m2 d1 d2 :
  Forall (fun c => is_digit c = true) [y1; y2; y3; y4; m1; m2; d1; d2] ->
  isoformat (int_digits [y1; y2; y3; y4]) (int_digits [m1; m2])
            (int_digits [d1; d2])
  = [y1; y2; y3; y4; "-"%char; m1; m2; "-"%char; d1; d2].
Proof.
  intros H.
  apply Forall_cons in H as [Hy1 H]. apply Forall_cons in H as [Hy2 H].
  apply Forall_cons in H as [Hy3 H]. apply Forall_cons in H as [Hy4 H].
  apply Forall_cons in H as [Hm1 H]. apply Forall_cons in H as [Hm2 H].
  apply Forall_cons in H as [Hd1 H]. apply Forall_cons in H as [Hd2 _].
  pose proof (digit_val_range _ Hy1). pose proof (digit_val_range _ Hy2).
  pose proof (digit_val_range _ Hy3). pose proof (digit_val_range _ Hy4).
  pose proof (digit_val_range _ Hm1). pose proof (digit_val_range _ Hm2).
  pose proof (digit_val_range _ Hd1). pose proof (digit_val_range _ Hd2).
  unfold isoformat, int_digits. cbn [fold_left].
  repeat f_equal; apply digit_chr_eq; try done;
    Z.div_mod_to_equations; lia.
Qed.

(** X7.  When the first [FILED AS OF DATE:] of the file is followed by
    two tabs and exactly eight digits, the filing date is read as year,
    month and day: for a date of the calendar the result is the same
    digits with hyphens between the three parts; otherwise the date
    constructor raises [ValueError]. *)
Theorem filing_date_round_trip (file' pre y m d rest : str) :
  file' = pre ++ lit "FILED AS OF DATE:" ++ replicate 2 "009"%char
              ++ (y ++ m ++ d) ++ rest ->
  find file' (lit "FILED AS OF DATE:") = len pre ->
  length y = 4%nat -> length m = 2%nat -> length d = 2%nat ->
  Forall (fun c => is_digit c = true) (y ++ m ++ d) ->
  match rest with [] => True | c :: _ => is_digit c = false end ->
  if (1 <=? int_digits y) && (1 <=? int_digits m) && (int_digits m <=? 12)
     && (1 <=? int_digits d)
     && (int_digits d <=? days_in_month (int_digits y) (int_digits m))
  then _parse_filing_date file' = Ok (y ++ "-"%char :: m ++ "-"%char :: d)
  else exists msg, _parse_filing_date file' = Raise (ValueError msg).
Proof.
  intros -> Hfind Hy Hm Hd Hdigits Hrest.
  assert (first (findall1 filing_date_re
            (pre ++ lit "FILED AS OF DATE:" ++ replicate 2 "009"%char
                 ++ (y ++ m ++ d) ++ rest)) = Ok (y ++ m ++ d)) as Hdate.
  { rewrite first_findall1. unfold filing_date_re.
    rewrite (search_at_label "FILED AS OF DATE:" _ pre _
               ([y ++ m ++ d], rest) Hfind); [done|].
    eapply leads_seqs_cons; [apply leads_text|]. cbn [fst snd].
    eapply leads_seqs_cons.
    { apply leads_times; [by repeat constructor | done]. }
    cbn [fst snd].
    eapply leads_seqs_cons.
    { apply leads_grp. apply leads_plus; [done | | done].
      destruct y; [done | done]. }
    cbn [fst snd]. rewrite matched_app. apply leads_seqs_nil. }
  unfold _parse_filing_date. rewrite Hdate. cbn [mbind result_bind].
  destruct y as [|y1 [|y2 [|y3 [|y4 [|]]]]]; try done.
  destruct m as [|m1 [|m2 [|]]]; try done.
  destruct d as [|d1 [|d2 [|]]]; try done.
  change (slice ([y1; y2; y3; y4] ++ [m1; m2] ++ [d1; d2]) None (Some 4))
    with [y1; y2; y3; y4].
  change (slice ([y1; y2; y3; y4] ++ [m1; m2] ++ [d1; d2]) (Some 4) (Some 6))
    with [m1; m2].
  change (slice ([y1; y2; y3; y4] ++ [m1; m2] ++ [d1; d2]) (Some 6) None)
    with [d1; d2].
  rewrite (int_short [y1; y2; y3; y4]), (int_short [m1; m2]),
    (int_short [d1; d2]) by (try done; simpl; lia).
  cbn [mbind result_bind]. unfold date_isoformat.
  assert (int_digits [y1; y2; y3; y4] <= 9999) as Hmax.
  { apply Forall_cons in Hdigits as [H1%digit_val_range Hdigits].
    apply Forall_cons in Hdigits as [H2%digit_val_range Hdigits].
    apply Forall_cons in Hdigits as [H3%digit_val_range Hdigits].
    apply Forall_cons in Hdigits as [H4%digit_val_range Hdigits].
    unfold int_digits. cbn [fold_left]. lia. }
  apply Z.leb_le in Hmax.
  destruct (1 <=? int_digits [y1; y2; y3; y4]); cbn [andb].
  - rewrite Hmax. cbn [andb].
    destruct (_ && _ && _ && _); [|by eexists].
    by rewrite (isoformat_digits _ _ _ _ _ _ _ _ Hdigits).
  - by eexists.
Qed.

(** ** Percentages that are not literals *)

Lemma float_comma token :
  ","%char ∈ token ->
  float_ token = Raise (ValueError "could not convert string to float").
Proof.
  intros Hin. unfold float_.
  rewrite <- (take_drop_while is_digit token) in Hin.
  apply elem_of_app in Hin as [Hin | Hin].
  { pose proof (take_while_all is_digit token) as Hall.
    rewrite Forall_forall in Hall. by specialize (Hall _ Hin). }
  destruct (drop_while is_digit token) as [|c r]; [by apply elem_of_nil in Hin|].
  destruct (is_point c) eqn:Ec; [|done].
  apply elem_of_cons in Hin as [<- | Hin]; [done|].
  assert (forallb is_digit r = false) as ->; [|done].
  apply not_true_is_false. intros Hall.
  rewrite forallb_forall in Hall.
  apply list_elem_of_In in Hin. by specialize (Hall _ Hin).
Qed.

(** X8.  When the number behind the boilerplate phrase is written with a
    comma (a thousands separator or a decimal comma), the pattern still
    captures it, [float] rejects it, and [percent_acquired] raises
    [ValueError] and stores nothing. *)
Theorem percent_with_comma_rejected (get_text : str -> str) (document : str)
    (pre ph gap token sp post : str) :
  let flat := document_flat get_text document in
  flat = pre ++ ph ++ gap ++ token ++ sp ++ "%"%char :: post ->
  (forall i : nat, (i < length pre)%nat ->
     match_at percent_re (drop i flat) = None) ->
  conforms percent_pieces ph ->
  Forall (fun c => dot c = true) gap ->
  Forall (fun c => is_pct c = false) gap ->
  match last gap with Some c => is_percent_token c = false | None => True end ->
  Forall (fun c => is_percent_token c = true) token ->
  ","%char ∈ token ->
  sp = [] \/ (exists c, sp = [c] /\ is_space c = true) ->
  first (findall1 percent_re flat) = Ok token
  /\ _parse_percent_acquired get_text document
     = Raise (ValueError "could not convert string to float")
  /\ (forall self,
        _document self = document -> _percent_acquired self = None ->
        percent_acquired get_text self
        = (Raise (ValueError "could not convert string to float"), self)).
Proof.
  intros flat Hflat Hpre Hph Hdot Hpct Hlast Htoken Hcomma Hsp.
  assert (token <> []) as Hne by (intros ->; by apply elem_of_nil in Hcomma).
  assert (first (findall1 percent_re flat) = Ok token) as Hfirst.
  { rewrite first_findall1, Hflat.
    rewrite search_skip by (intros i Hi; rewrite <- Hflat; by apply Hpre).
    by rewrite (search_leads _ _ _
                  (percent_leads ph gap token sp post Hph Hdot Hpct Hlast
                     Htoken Hne Hsp)). }
  assert (_parse_percent_acquired get_text document
          = Raise (ValueError "could not convert string to float")) as Hparse.
  { unfold _parse_percent_acquired. fold flat. rewrite Hfirst.
    cbn [mbind result_bind]. by rewrite float_comma. }
  split; [done|]. split; [done|].
  intros self Hdoc Hnone. unfold percent_acquired.
  by rewrite Hnone, Hdoc, Hparse.
Qed.

(** ** Instances *)

Lemma no_filer_marker_no_filers_witness :
  parse_filers (_split_header (header_of (file_of subject_only))).2 = Ok [].
Proof.
  apply (no_filer_marker_no_filers subject_only); vm_compute; reflexivity.
Defined.

Lemma no_subject_marker_no_13d_witness :
  (_split_header (header_of (file_of filer_only))).1 = [].
Proof.
  apply (no_subject_marker_no_13d (fun x => x) filer_only).
  vm_compute. reflexivity.
Defined.

Lemma no_digit_no_cusip_witness :
  _parse_cusip (fun x => x) (document_of (file_of no_identifier))
  = Raise (ValueError "max() arg is an empty sequence").
Proof.
  apply (no_digit_no_cusip (fun x => x) no_identifier).
  apply (bool_decide_unpack _). vm_compute. exact I.
Defined.

Lemma form_type_of_line_witness :
  _parse_form_type (lit "<SEC-HEADER>" ++ nl ++ type_line ++ date_line (lit "20200102"))
  = Ok (lit "SC 13D/A", true).
Proof.
  apply (form_type_of_line _ (lit "<SEC-HEADER>" ++ nl) (lit "SC 13D/A")
           (date_line (lit "20200102"))).
  - reflexivity.
  - vm_compute. reflexivity.
  - discriminate.
  - by repeat constructor.
Defined.

Lemma filing_date_round_trip_witness :
  _parse_filing_date (type_line ++ date_line (lit "20200229"))
  = Ok (lit "2020-02-29").
Proof.
  apply (filing_date_round_trip _ type_line (lit "2020") (lit "02") (lit "29") nl).
  - reflexivity.
  - vm_compute. reflexivity.
  - reflexivity.
  - reflexivity.
  - reflexivity.
  - by repeat constructor.
  - reflexivity.
Defined.

Lemma percent_with_comma_rejected_witness :
  _parse_percent_acquired (fun x => x) comma_page
  = Raise (ValueError "could not convert string to float").
Proof.
  apply (percent_with_comma_rejected (fun x => x) comma_page [] cover_phrase
           (lit " (11) ") (lit "12,5") (lit " ") []).
  - vm_compute. reflexivity.
  - intros i Hi. simpl in Hi. lia.
  - apply cover_phrase_conforms.
  - by repeat constructor.
  - by repeat constructor.
  - reflexivity.
  - by repeat constructor.
  - do 2 right. by left.
  - right. by exists " "%char.
Defined.

End SecEdgeFacts.

Module SharesFacts.
Import PyStr Re Float64 Sec PyStrSpec ReSpec SecSpec SecShares.
Import PyStrFacts ReFacts SecFacts CusipFacts PercentFacts SecEdgeFacts.

Lemma shares_re_pieces :
  shares_re = seqs ((piece_re <$> shares_pieces) ++ shares_tail).
Proof. reflexivity. Qed.

Lemma digit_not_space c : is_digit c = true -> is_space c = false.
Proof.
  unfold is_space, is_digit, in_range. intros H.
  destruct (code c =? 133) eqn:E3, (code c =? 160) eqn:E4; lia.
Qed.

Lemma digit_not_comma c : is_digit c = true -> is_comma c = false.
Proof.
  unfold is_comma, chr_eqb. intros H.
  destruct (Ascii.eqb "," c) eqn:E; [apply Ascii.eqb_eq in E; by subst | done].
Qed.

Lemma space_not_comma c : is_space c = true -> is_comma c = false.
Proof.
  unfold is_comma, chr_eqb. intros H.
  destruct (Ascii.eqb "," c) eqn:E; [apply Ascii.eqb_eq in E; by subst | done].
Qed.

Lemma digit_comma_digit c : is_digit c = true -> is_comma_digit c = true.
Proof. unfold is_comma_digit. by intros ->. Qed.

(** The shape of every match of the value part. *)
Lemma shares_value_shape caps s m :
  m ∈ run (seqs shares_value) caps s ->
  exists ws d t,
    s = ws ++ d ++ ","%char :: t ++ m.2
    /\ m.1 = caps ++ [d ++ ","%char :: t]
    /\ Forall (fun c => is_space c = true) ws
    /\ Forall (fun c => is_digit c = true) d /\ d <> []
    /\ Forall (fun c => is_comma_digit c = true) t /\ t <> [].
Proof.
  unfold shares_value, seqs. simpl foldr. intros H.
  apply elem_run_seq in H as (m1 & H1 & H).
  apply elem_run_seq in H as (m2 & H2 & H).
  simpl in H. apply list_elem_of_singleton in H as ->.
  apply elem_run_rep in H1 as (E1 & ws & Hws & Hfws & _ & _).
  apply elem_run_grp in H2 as (m3 & H2 & ->).
  apply elem_run_seq in H2 as (n1 & G1 & H2).
  apply elem_run_seq in H2 as (n2 & G2 & H2).
  apply elem_run_seq in H2 as (n3 & G3 & H2).
  simpl in H2. apply list_elem_of_singleton in H2 as ->.
  apply elem_run_rep in G1 as (F1 & d & Hd & Hfd & Hld & _).
  apply elem_run_chr in G2 as (F2 & c & Hc & Hpc).
  apply chr_eqb_eq in Hpc as <-.
  apply elem_run_rep in G3 as (F3 & t & Ht & Hft & Hlt & _).
  exists ws, d, t. cbn [fst snd] in *.
  assert (m1.2 = d ++ ","%char :: t ++ n3.2) as Hm1 by (by rewrite Hd, Hc, Ht).
  split; [by rewrite Hws, Hm1|]. split.
  - rewrite F3, F2, F1, E1. do 2 f_equal. rewrite Hm1.
    replace (d ++ ","%char :: t ++ n3.2) with ((d ++ ","%char :: t) ++ n3.2)
      by (by rewrite <- app_assoc).
    apply matched_app.
  - split; [done|]. split; [done|].
    split; [destruct d; [simpl in Hld; lia | done]|].
    split; [done|]. destruct t; [simpl in Hlt; lia | done].
Qed.

Lemma shares_value_leads caps ws d t post :
  Forall (fun c => is_space c = true) ws ->
  Forall (fun c => is_digit c = true) d -> d <> [] ->
  Forall (fun c => is_comma_digit c = true) t -> t <> [] ->
  match post with [] => True | c :: _ => is_comma_digit c = false end ->
  leads (seqs shares_value) caps (ws ++ d ++ ","%char :: t ++ post)
        (caps ++ [d ++ ","%char :: t], post).
Proof.
  intros Hws Hd Hdne Ht Htne Hpost. unfold shares_value.
  apply (leads_seqs_cons _ _ _ _ (caps, d ++ ","%char :: t ++ post)).
  { apply leads_star; [done|]. destruct d as [|y d']; [done|].
    simpl. apply digit_not_space. by inversion Hd. }
  cbn [fst snd].
  apply (leads_seqs_cons _ _ _ _ (caps ++ [d ++ ","%char :: t], post));
    [|apply leads_seqs_nil].
  pose proof (leads_grp (seqs [plus is_digit; chr ","; plus is_comma_digit])
                caps (d ++ ","%char :: t ++ post) (caps, post)) as Hg.
  cbn [fst snd] in Hg.
  assert (matched (d ++ ","%char :: t ++ post) post = d ++ ","%char :: t) as Hm.
  { replace (d ++ ","%char :: t ++ post) with ((d ++ ","%char :: t) ++ post)
      by (by rewrite <- app_assoc).
    apply matched_app. }
  rewrite Hm in Hg. apply Hg.
  apply (leads_seqs_cons _ _ _ _ (caps, ","%char :: t ++ post)).
  { by apply leads_plus. }
  cbn [fst snd].
  apply (leads_seqs_cons _ _ _ _ (caps, t ++ post)).
  { apply leads_chr. by apply chr_eqb_eq. }
  cbn [fst snd].
  apply (leads_seqs_cons _ _ _ _ (caps, post)); [|apply leads_seqs_nil].
  by apply leads_plus.
Qed.

(** A character that is not white space, in front of white space and
    digits, is itself one of the digits. *)
Lemma solid_in_digits (D0 : str) (z : ascii) (B ws d : str) :
  D0 ++ z :: B = ws ++ d ->
  Forall (fun c => is_space c = true) ws ->
  Forall (fun c => is_digit c = true) d ->
  is_space z = false ->
  Forall (fun c => is_digit c = true) (z :: B).
Proof.
  intros E Hws. revert D0 E. induction Hws as [|w ws Hw Hws IH]; intros D0 E Hd Hz.
  - simpl in E. rewrite <- E in Hd. by apply Forall_app in Hd as [_ Hd].
  - destruct D0 as [|a D0]; simpl in E.
    + injection E as -> _. congruence.
    + injection E as _ E. by apply (IH D0).
Qed.

Lemma shares_value_no_match caps D ws d t post z :
  last D = Some z -> is_space z = false ->
  (ws = [] -> is_digit z = false) ->
  Forall (fun c => is_comma c = false) D ->
  Forall (fun c => is_space c = true) ws ->
  Forall (fun c => is_digit c = true) d ->
  run (seqs shares_value) caps (D ++ ws ++ d ++ ","%char :: t ++ post) = [].
Proof.
  intros Hz Hzs Hzd HD Hws Hd.
  destruct (run _ _ _) as [|m ms] eqn:E; [done|]. exfalso.
  assert (m ∈ run (seqs shares_value) caps
                (D ++ ws ++ d ++ ","%char :: t ++ post)) as Hin
    by (rewrite E; by left).
  apply shares_value_shape in Hin
    as (ws' & d' & t' & Hs & _ & Hws' & Hd' & _ & _ & _).
  assert (D ++ ws ++ d = ws' ++ d') as HA.
  { apply (app_cons_unique is_comma _ _ (t ++ post) (t' ++ m.2) ","%char).
    - repeat (apply Forall_app; split); try done.
      + eapply Forall_impl; [exact Hws|]. apply space_not_comma.
      + eapply Forall_impl; [exact Hd|]. apply digit_not_comma.
    - apply Forall_app; split.
      + eapply Forall_impl; [exact Hws'|]. apply space_not_comma.
      + eapply Forall_impl; [exact Hd'|]. apply digit_not_comma.
    - done.
    - by rewrite <- !app_assoc. }
  destruct D as [|a D] using rev_ind; [done|]. clear IHD.
  rewrite last_snoc in Hz. injection Hz as ->.
  rewrite <- app_assoc in HA. simpl in HA.
  pose proof (solid_in_digits _ _ _ _ _ HA Hws' Hd' Hzs) as Hall.
  apply Forall_cons in Hall as [Hzdig Hall].
  apply Forall_app in Hall as [Hwsd _].
  destruct ws as [|w ws]; [by rewrite Hzd in Hzdig|].
  apply Forall_cons in Hwsd as [Hw _]. apply Forall_cons in Hws as [Hw' _].
  apply digit_not_space in Hw. congruence.
Qed.

(** The lazy run in front of the count stops at the trailing white space
    of the text before it. *)
Lemma shares_tail_leads caps gap d t post :
  Forall (fun c => dot c = true) gap ->
  Forall (fun c => is_comma c = false) gap ->
  match last gap with Some c => is_digit c = false | None => True end ->
  Forall (fun c => is_digit c = true) d -> d <> [] ->
  Forall (fun c => is_comma_digit c = true) t -> t <> [] ->
  match post with [] => True | c :: _ => is_comma_digit c = false end ->
  leads (seqs shares_tail) caps (gap ++ d ++ ","%char :: t ++ post)
        (caps ++ [d ++ ","%char :: t], post).
Proof.
  intros Hdot Hcomma Hlast Hd Hdne Ht Htne Hpost.
  destruct (trailing_spaces gap) as (g0 & ws & -> & Hws & Hg0).
  apply Forall_app in Hdot as [Hdot _]. apply Forall_app in Hcomma as [Hcomma _].
  unfold leads, shares_tail.
  change (seqs (star_lazy dot :: ?l)) with (Seq (star_lazy dot) (seqs l)).
  rewrite run_seq, run_star_lazy, <- !app_assoc, tails_while_app by done.
  set (T := ws ++ d ++ ","%char :: t ++ post).
  destruct (tails_while_head dot T) as [ts ->].
  rewrite fmap_app, fmap_cons, head_bind_skip.
  - apply head_app_first. by apply shares_value_leads.
  - apply Forall_fmap, Forall_fmap, Forall_forall. intros i Hi. simpl.
    apply elem_of_seq in Hi as [_ Hi]. simpl in Hi.
    rewrite drop_app_le by lia.
    destruct Hg0 as [-> | (z & Hz & Hzs)]; [simpl in Hi; lia|].
    apply (shares_value_no_match _ _ _ _ _ _ z); try done.
    + rewrite <- (take_drop i g0), last_app in Hz.
      destruct (last (drop i g0)) eqn:E; [done|].
      apply last_None, (f_equal length) in E. rewrite length_drop in E.
      simpl in E. lia.
    + intros ->. rewrite app_nil_r, Hz in Hlast. done.
    + by apply Forall_drop.
Qed.

Lemma shares_leads ph gap d t post :
  conforms shares_pieces ph ->
  Forall (fun c => dot c = true) gap ->
  Forall (fun c => is_comma c = false) gap ->
  match last gap with Some c => is_digit c = false | None => True end ->
  Forall (fun c => is_digit c = true) d -> d <> [] ->
  Forall (fun c => is_comma_digit c = true) t -> t <> [] ->
  match post with [] => True | c :: _ => is_comma_digit c = false end ->
  leads shares_re [] (ph ++ gap ++ d ++ ","%char :: t ++ post)
        ([d ++ ","%char :: t], post).
Proof.
  intros. rewrite shares_re_pieces. apply conforms_leads; [done|].
  by apply (shares_tail_leads []).
Qed.

(** ** The number a token spells *)

Lemma token_number d t :
  Forall (fun c => is_digit c = true) d -> d <> [] ->
  (length (d ++ t) <= 4300)%nat ->
  int_ (replace (d ++ ","%char :: t) (lit ",") [])
  = Ok (int_digits (d ++ filter (fun x => negb (is_comma x)) t)).
Proof.
  intros Hd Hne Hlen. change (lit ",") with [","%char].
  rewrite replace_char_nil.
  rewrite filter_app, filter_cons_False by (simpl; by intros []).
  assert (filter (fun x => negb (chr_eqb "," x)) d = d) as ->.
  { clear Hne Hlen. induction Hd as [|c d Hc Hd IH]; [done|].
    rewrite filter_cons_True; [by rewrite IH|].
    apply digit_not_comma in Hc. unfold is_comma in Hc. by rewrite Hc. }
  apply int_short; [by destruct d|].
  rewrite length_app in *.
  match goal with
  | |- context [length (filter ?P t)] =>
      pose proof (length_filter P t)
  end.
  lia.
Qed.

(** ** What a match leaves is no longer than the text *)

Lemma run_rest_length r caps s m :
  m ∈ run r caps s -> (length m.2 <= length s)%nat.
Proof.
  revert caps s m.
  induction r as [|p|a IHa b IHb|a IHa b IHb|g lo hi p|a IH];
    intros caps s m H.
  - simpl in H. by apply list_elem_of_singleton in H as ->.
  - apply elem_run_chr in H as (_ & c & -> & _). simpl. lia.
  - apply elem_run_seq in H as (m1 & H1 & H).
    apply IHa in H1. apply IHb in H. lia.
  - simpl in H. apply elem_of_app in H as [H | H];
      [exact (IHa _ _ _ H) | exact (IHb _ _ _ H)].
  - apply elem_run_rep in H as (_ & v & -> & _). rewrite length_app. lia.
  - apply elem_run_grp in H as (m1 & H1 & ->). exact (IH _ _ _ H1).
Qed.

(** ** Every match gives a number *)

Lemma ichars_caps (l : str) caps s m :
  m ∈ run (seqs (ichr <$> l)) caps s -> m.1 = caps.
Proof.
  revert caps s. induction l as [|c l IH]; intros caps s H.
  - simpl in H. by apply list_elem_of_singleton in H as ->.
  - rewrite fmap_cons in H. change (seqs (?a :: ?r)) with (Seq a (seqs r)) in H.
    apply elem_run_seq in H as (m1 & H1 & H).
    apply elem_run_chr in H1 as (E1 & _). apply IH in H. congruence.
Qed.

Lemma piece_caps p caps s m : m ∈ run (piece_re p) caps s -> m.1 = caps.
Proof.
  destruct p as [w|w|n]; cbn [piece_re]; intros H.
  - by apply ichars_caps in H.
  - cbn [run] in H.
    apply elem_of_app in H as [H | H]; [by apply ichars_caps in H|].
    by apply list_elem_of_singleton in H as ->.
  - by apply elem_run_rep in H as [H _].
Qed.

Lemma pieces_run ps tl caps s m :
  m ∈ run (seqs ((piece_re <$> ps) ++ tl)) caps s ->
  exists s', m ∈ run (seqs tl) caps s' /\ (length s' <= length s)%nat.
Proof.
  revert caps s. induction ps as [|p ps IH]; intros caps s H.
  - by exists s.
  - rewrite fmap_cons in H. simpl app in H.
    change (seqs (?a :: ?r)) with (Seq a (seqs r)) in H.
    apply elem_run_seq in H as (m1 & H1 & H).
    pose proof (run_rest_length _ _ _ _ H1) as Hlen.
    apply piece_caps in H1. rewrite H1 in H.
    apply IH in H as (s' & H & Hs'). exists s'. split; [done | lia].
Qed.

Lemma shares_match_shape s m :
  m ∈ run shares_re [] s ->
  exists d t,
    m.1 = [d ++ ","%char :: t]
    /\ Forall (fun c => is_digit c = true) d /\ d <> []
    /\ Forall (fun c => is_comma_digit c = true) t
    /\ (length (d ++ t) <= length s)%nat.
Proof.
  rewrite shares_re_pieces. intros H.
  apply pieces_run in H as (s' & H & Hs'). unfold shares_tail in H.
  change (seqs (?a :: ?r)) with (Seq a (seqs r)) in H.
  apply elem_run_seq in H as (m1 & H1 & H).
  pose proof (run_rest_length _ _ _ _ H1) as Hlen.
  apply elem_run_rep in H1 as [E1 _]. rewrite E1 in H.
  apply shares_value_shape in H
    as (ws & d & t & Hs & Hm & _ & Hd & Hdne & Ht & _).
  exists d, t. repeat split; try done.
  rewrite Hs in Hlen. rewrite !length_app in Hlen. cbn [length] in Hlen.
  rewrite !length_app in Hlen. rewrite length_app. lia.
Qed.

Lemma uncomma_digits t :
  Forall (fun c => is_comma_digit c = true) t ->
  Forall (fun c => is_digit c = true) (filter (fun x => negb (is_comma x)) t).
Proof.
  intros H. apply Forall_forall. intros c [Hc Hin]%list_elem_of_filter.
  rewrite Forall_forall in H. specialize (H c Hin).
  unfold is_comma_digit in H. unfold is_comma in Hc.
  apply orb_true_iff in H as [H | H]; [done|].
  apply chr_eqb_eq in H as ->. done.
Qed.

(** X9.  On a document of at most 4300 characters (no number in it can
    then exceed the digit limit that recent interpreters put on [int]),
    [_parse_shares_acquired] fails in one way only: with [IndexError],
    when the pattern is found nowhere.  Whatever the pattern captures
    begins with a digit, so that [int] accepts it once the commas are
    removed, and the result is the non-negative number its digits
    spell. *)
Theorem shares_parser_never_value_error (get_text : str -> str)
    (document : str) :
  (length (document_flat get_text document) <= 4300)%nat ->
  match _parse_shares_acquired get_text document with
  | Ok n =>
      0 <= n
      /\ exists d t,
           first (findall1 shares_re (document_flat get_text document))
           = Ok (d ++ ","%char :: t)
           /\ Forall (fun c => is_digit c = true) d /\ d <> []
           /\ Forall (fun c => is_comma_digit c = true) t
           /\ n = int_digits (d ++ filter (fun x => negb (is_comma x)) t)
  | Raise e =>
      e = IndexError
      /\ findall shares_re (document_flat get_text document) = []
  end.
Proof.
  intros Hshort. unfold _parse_shares_acquired. rewrite first_findall1.
  destruct (search shares_re _) as [m|] eqn:Hsearch.
  - apply search_Some in Hsearch as (i & _ & Hm & _).
    unfold match_at in Hm. apply head_Some_elem_of in Hm.
    apply shares_match_shape in Hm as (d & t & Hcaps & Hd & Hdne & Ht & Hlen).
    rewrite length_drop in Hlen.
    rewrite Hcaps. cbn [mbind result_bind]. rewrite group0_singleton.
    rewrite token_number by (try done; lia).
    split.
    + apply int_digits_nonneg, Forall_app. split; [done | by apply uncomma_digits].
    + by exists d, t.
  - cbn [mbind result_bind]. split; [done|]. by apply findall_nil_search.
Qed.

Lemma shares_phrase_conforms : conforms shares_pieces shares_phrase.
Proof.
  unfold shares_pieces, shares_phrase.
  apply conforms_word; [reflexivity|].
  apply conforms_gap; [by repeat constructor | simpl; lia | reflexivity |].
  apply conforms_word; [reflexivity|].
  apply conforms_gap; [by repeat constructor | simpl; lia | reflexivity |].
  apply conforms_word; [reflexivity|].
  apply conforms_gap; [by repeat constructor | simpl; lia | reflexivity |].
  apply conforms_word; [reflexivity|].
  apply conforms_gap; [by repeat constructor | simpl; lia | reflexivity |].
  apply conforms_word; [reflexivity|].
  apply conforms_gap; [by repeat constructor | simpl; lia | reflexivity |].
  apply conforms_opt_some; [reflexivity|].
  apply conforms_gap; [by repeat constructor | simpl; lia | reflexivity |].
  apply conforms_opt_some; [reflexivity|].
  apply conforms_gap; [by repeat constructor | simpl; lia | reflexivity |].
  apply conforms_word; [reflexivity|].
  apply conforms_nil.
Qed.

(** X10.  When the flattened document holds the shares phrase (in any
    letter case, with or without EACH and REPORTING), then text without a
    comma or line break that does not end in a digit, then a count
    written with thousands separators (of at most 4300 digits, the limit
    that recent interpreters put on [int]), and the pattern matches
    nowhere before the phrase, [_parse_shares_acquired] returns the
    number the digits of the count spell; the [shares_acquired] property
    returns it, keeps it on the object, and answers later reads from
    there. *)
Theorem shares_acquired_value (get_text : str -> str) (document : str)
    (pre ph gap d t post : str) :
  let flat := document_flat get_text document in
  let n := int_digits (d ++ filter (fun x => negb (is_comma x)) t) in
  flat = pre ++ ph ++ gap ++ d ++ ","%char :: t ++ post ->
  (forall i : nat, (i < length pre)%nat ->
     match_at shares_re (drop i flat) = None) ->
  conforms shares_pieces ph ->
  Forall (fun c => dot c = true) gap ->
  Forall (fun c => is_comma c = false) gap ->
  match last gap with Some c => is_digit c = false | None => True end ->
  Forall (fun c => is_digit c = true) d -> d <> [] ->
  Forall (fun c => is_comma_digit c = true) t -> t <> [] ->
  (length (d ++ t) <= 4300)%nat ->
  match post with [] => True | c :: _ => is_comma_digit c = false end ->
  _parse_shares_acquired get_text document = Ok n
  /\ (forall self,
        _document self = document -> _shares_acquired self = None ->
        (shares_acquired get_text self).1 = Ok n
        /\ _shares_acquired (shares_acquired get_text self).2 = Some n
        /\ forall get_text',
             shares_acquired get_text' (shares_acquired get_text self).2
             = (Ok n, (shares_acquired get_text self).2)).
Proof.
  intros flat n Hflat Hpre Hph Hdot Hcomma Hlast Hd Hdne Ht Htne Hlen Hpost.
  assert (_parse_shares_acquired get_text document = Ok n) as Hparse.
  { unfold _parse_shares_acquired. fold flat. rewrite first_findall1, Hflat.
    rewrite search_skip by (intros i Hi; rewrite <- Hflat; by apply Hpre).
    rewrite (search_leads _ _ _
               (shares_leads ph gap d t post Hph Hdot Hcomma Hlast Hd Hdne
                  Ht Htne Hpost)).
    cbn [mbind result_bind fst]. rewrite group0_singleton.
    by rewrite token_number. }
  split; [done|]. intros self Hdoc Hnone.
  unfold shares_acquired at 1 2 4. rewrite Hnone, Hdoc, Hparse. cbn [fst snd].
  split; [done|]. split; [done|]. intros get_text'.
  unfold shares_acquired. rewrite Hnone, Hdoc, Hparse. done.
Qed.

Lemma shares_acquired_value_witness :
  _parse_shares_acquired (fun x => x) shares_page = Ok 1234567.
Proof.
  apply (shares_acquired_value (fun x => x) shares_page (lit "11 ")
           shares_phrase (lit " (11) ") (lit "1") (lit "234,567")
           (lit " shares")).
  - vm_compute. reflexivity.
  - intros i Hi.
    do 3 (destruct i as [|i]; [vm_compute; reflexivity|]).
    simpl in Hi. lia.
  - apply shares_phrase_conforms.
  - by repeat constructor.
  - by repeat constructor.
  - reflexivity.
  - by repeat constructor.
  - discriminate.
  - by repeat constructor.
  - discriminate.
  - simpl. lia.
  - reflexivity.
Defined.

Lemma shares_parser_never_value_error_witness :
  match _parse_shares_acquired (fun x => x) shares_page with
  | Ok n => 0 <= n
  | Raise e => e = IndexError
  end.
Proof.
  pose proof (shares_parser_never_value_error (fun x => x) shares_page) as H.
  destruct (_parse_shares_acquired (fun x => x) shares_page).
  - apply H, Nat.leb_le. vm_compute. reflexivity.
  - apply H, Nat.leb_le. vm_compute. reflexivity.
Defined.

End SharesFacts.

Module YahooTableFacts.
Import Float64 Yahoo SortSpec YahooSpec YahooSamples YahooRows.
Import SortFacts YahooFacts.

(** ** Rows keep their bar *)

Lemma same_bar_refl r : same_bar r r.
Proof. by repeat split. Qed.

Lemma same_bar_trans a b c : same_bar a b -> same_bar b c -> same_bar a c.
Proof.
  unfold same_bar. intros (?&?&?&?&?&?&?) (?&?&?&?&?&?&?).
  repeat split; congruence.
Qed.

Lemma same_bar_set c v r : same_bar r (set_col c v r).
Proof. destruct c; by repeat split. Qed.

Lemma same_bar_returns v r : same_bar r (set_returns v r).
Proof. by repeat split. Qed.

Lemma same_bar_close a b : same_bar a b -> close a = close b.
Proof. by intros (?&?&?&?&?&?&?). Qed.

Lemma same_bar_label a b : same_bar a b -> label a = label b.
Proof. by intros (?&?&?&?&?&?&?). Qed.

(** A row of a merge with a close price is a row of the table that was
    merged, with the same prices and the same other event column. *)
Lemma merged_inv c frequency df evs r' :
  r' ∈ merged c frequency df evs -> isnan (close r') = false ->
  exists r, r ∈ df /\ same_bar r r'
    /\ forall c', c' <> c -> get_col c' r' = get_col c' r.
Proof.
  intros Hin Hclose.
  assert (forall x, x ∈ sort_index (outer_join (set_col c) df evs) ->
            (x = r' \/ exists w, r' = set_col c w x) ->
            exists r, r ∈ df /\ same_bar r r'
              /\ forall c', c' <> c -> get_col c' r' = get_col c' r) as Hfrom.
  { intros x Hx Hr'. rewrite (sort_index_perm _) in Hx.
    apply outer_join_inv in Hx as [(r & Hr & ->) | (e & _ & _ & ->)].
    - exists r. split; [done|].
      destruct Hr' as [<- | [w ->]].
      + split; [apply same_bar_set|]. intros c' Hc. by apply get_other.
      + split.
        * eapply same_bar_trans; apply same_bar_set.
        * intros c' Hc. by rewrite !get_other.
    - exfalso. destruct Hr' as [<- | [w ->]].
      + by rewrite event_row_close in Hclose.
      + by rewrite close_set, event_row_close in Hclose. }
  unfold merged in Hin. destruct (existsb _ _).
  - apply list_elem_of_filter in Hin as [_ Hin].
    apply carried_inv in Hin as (x & Hx & Hx').
    apply (Hfrom x Hx). destruct Hx' as [-> | Hx']; [by left | by right].
  - apply (Hfrom r' Hin). by left.
Qed.

(** A row of the table that has a close price is in the merge, with its
    prices. *)
Lemma merged_keeps_bar c frequency df evs r :
  r ∈ df -> isnan (close r) = false ->
  exists r', r' ∈ merged c frequency df evs /\ same_bar r r'.
Proof.
  intros Hr Hclose.
  set (r1 := set_col c (event_at evs (label r)) r).
  assert (r1 ∈ sort_index (outer_join (set_col c) df evs)) as H1.
  { rewrite (sort_index_perm _). unfold outer_join. apply elem_of_app. left.
    apply list_elem_of_fmap. by exists r. }
  assert (same_bar r r1) as Hb1 by apply same_bar_set.
  unfold merged. destruct (existsb _ _).
  - destruct (carried_elem c None _ _ H1) as (x' & Hin & Hx').
    assert (same_bar r x') as Hb.
    { destruct Hx' as [-> | [w ->]]; [done|].
      eapply same_bar_trans; [exact Hb1 | apply same_bar_set]. }
    exists x'. split; [|done]. apply list_elem_of_filter. split; [|done].
    by rewrite <- (same_bar_close _ _ Hb), Hclose.
  - by exists r1.
Qed.

Section Numpy.
Variable np_log : float -> float.

Lemma add_returns_inv prev df r' :
  r' ∈ add_returns np_log prev df -> exists r v, r ∈ df /\ r' = set_returns v r.
Proof.
  revert prev. induction df as [|x df IH]; intros prev H.
  - by apply elem_of_nil in H.
  - cbn [add_returns] in H. apply elem_of_cons in H as [-> | H].
    + eexists x, _. split; [by left | done].
    + destruct (IH _ H) as (r & v & Hr & ->). exists r, v. split; [by right | done].
Qed.

Lemma add_returns_bar prev df r :
  r ∈ df -> exists r', r' ∈ add_returns np_log prev df /\ same_bar r r'.
Proof.
  revert prev. induction df as [|x df IH]; intros prev H.
  - by apply elem_of_nil in H.
  - cbn [add_returns]. apply elem_of_cons in H as [-> | H].
    + eexists. split; [by left | apply same_bar_returns].
    + destruct (IH (close x) H) as (r' & Hin & Hb). exists r'. split; [by right | done].
Qed.

(** X11.  At a weekly, monthly or quarterly frequency, with distinct
    index entries and distinct event dates, the returned table is made of
    the bars that have a close price and of nothing else: its index
    increases strictly, every row has a close price and the price columns
    of a bar, and every bar with a close price has its row. *)
Theorem priced_bars_only (frequency : string) (returns : bool)
    (prices df : list row) (df_div df_splits : list (Z * float)) :
  frequency ∈ carry_frequencies ->
  drop_trailing_duplicate prices = Ok df ->
  NoDup (label <$> df) -> NoDup df_div.*1 -> NoDup df_splits.*1 ->
  exists table,
    align np_log frequency returns prices df_div df_splits = Ok table
    /\ StronglySorted Z.lt (label <$> table)
    /\ (forall r', r' ∈ table ->
          isnan (close r') = false /\ exists r, r ∈ df /\ same_bar r r')
    /\ (forall r, r ∈ df -> isnan (close r) = false ->
          exists r', r' ∈ table /\ same_bar r r').
Proof.
  intros Hf Hdrop Hdf Hdiv Hsplits.
  assert (existsb (String.eqb frequency) carry_frequencies = true) as Hcarry.
  { unfold carry_frequencies in *.
    repeat (apply elem_of_cons in Hf as [-> | Hf]; [done|]).
    by apply elem_of_nil in Hf. }
  rewrite (align_Ok np_log _ _ _ df) by done. cbn zeta.
  set (m1 := merged Dividends frequency df df_div).
  set (m2 := merged Splits frequency m1 df_splits).
  assert (StronglySorted lt_label m1) as Hs1 by (by apply merged_strict).
  assert (StronglySorted lt_label m2) as Hs2.
  { apply merged_strict; [by apply strict_NoDup | done]. }
  assert (forall r', r' ∈ m2 -> isnan (close r') = false) as Hclose2.
  { intros r' Hin. unfold m2, merged in Hin. rewrite Hcarry in Hin.
    apply list_elem_of_filter in Hin as [Hc _].
    by destruct (isnan (close r')). }
  eexists. split; [done|]. split; [|split].
  - assert (label <$> (if returns then add_returns np_log nan m2 else m2)
            = label <$> m2) as ->.
    { destruct returns; [apply labels_add_returns | done]. }
    by apply strict_labels.
  - intros r' Hin.
    assert (exists r2, r2 ∈ m2 /\ same_bar r2 r') as (r2 & Hin2 & Hb2).
    { destruct returns; [|exists r'; split; [done | apply same_bar_refl]].
      apply add_returns_inv in Hin as (r2 & v & Hin2 & ->).
      exists r2. split; [done | apply same_bar_returns]. }
    pose proof (Hclose2 r2 Hin2) as Hc2.
    split; [by rewrite <- (same_bar_close _ _ Hb2)|].
    destruct (merged_inv _ _ _ _ _ Hin2 Hc2) as (r1 & Hin1 & Hb1 & _).
    assert (isnan (close r1) = false) as Hc1
      by (by rewrite (same_bar_close _ _ Hb1)).
    destruct (merged_inv _ _ _ _ _ Hin1 Hc1) as (r & Hr & Hb & _).
    exists r. split; [done|].
    eapply same_bar_trans; [exact Hb|]. by eapply same_bar_trans.
  - intros r Hr Hc.
    destruct (merged_keeps_bar Dividends frequency df df_div r Hr Hc)
      as (r1 & Hin1 & Hb1).
    destruct (merged_keeps_bar Splits frequency m1 df_splits r1 Hin1)
      as (r2 & Hin2 & Hb2).
    { by rewrite <- (same_bar_close _ _ Hb1). }
    assert (exists r', r' ∈ (if returns then add_returns np_log nan m2 else m2)
                       /\ same_bar r2 r') as (r' & Hin & Hb).
    { destruct returns; [by apply add_returns_bar|].
      exists r2. split; [done | apply same_bar_refl]. }
    exists r'. split; [done|].
    eapply same_bar_trans; [exact Hb1|]. by eapply same_bar_trans.
Qed.

Lemma not_carry frequency :
  frequency ∉ carry_frequencies ->
  existsb (String.eqb frequency) carry_frequencies = false.
Proof.
  intros Hf. destruct (existsb _ _) eqn:E; [|done]. exfalso. apply Hf.
  apply existsb_exists in E as (x & Hx & ->%String.eqb_eq).
  by apply list_elem_of_In.
Qed.

Lemma add_returns_lookup prev df (i : nat) r :
  df !! i = Some r ->
  add_returns np_log prev df !! i
  = Some (set_returns
            (let p := match i with
                      | O => prev
                      | S j => default nan (close <$> df !! j)
                      end in
             (simple_return p r, np_log (gross_return p r))) r).
Proof.
  revert prev i. induction df as [|x df IH]; intros prev i Hi; [done|].
  destruct i as [|i]; simpl in Hi.
  - by injection Hi as ->.
  - cbn [add_returns]. rewrite lookup_cons. rewrite (IH (close x) i Hi).
    destruct i as [|i]; [done|]. done.
Qed.

Lemma simple_return_nan p r : isnan p = true -> isnan (simple_return p r) = true.
Proof.
  destruct p; try done. intros _. unfold simple_return, gross_return.
  by destruct (SFadd _ _ _ _).
Qed.

(** X12.  At a frequency other than weekly, monthly and quarterly no row
    is dropped: every bar keeps its row, and a dividend or a split whose
    date is no index entry has a row of its own, with the event and
    without prices.  With [returns] the row after such a row has no
    simple return (NaN), as the close before it is missing. *)
Theorem unmatched_event_own_row (frequency : string) (returns : bool)
    (prices df : list row) (df_div df_splits : list (Z * float)) :
  frequency ∉ carry_frequencies ->
  drop_trailing_duplicate prices = Ok df ->
  NoDup (label <$> df) -> NoDup df_div.*1 -> NoDup df_splits.*1 ->
  exists table,
    align np_log frequency returns prices df_div df_splits = Ok table
    /\ (forall r, r ∈ df -> exists r', r' ∈ table /\ same_bar r r')
    /\ (forall t v, (t, v) ∈ df_div -> t ∉ label <$> df ->
          exists r, r ∈ table /\ label r = t /\ dividends r = v
                    /\ isnan (close r) = true)
    /\ (forall t v, (t, v) ∈ df_splits -> t ∉ label <$> df ->
          exists r, r ∈ table /\ label r = t /\ splits r = v
                    /\ isnan (close r) = true)
    /\ (returns = true -> forall (i : nat) p r,
          table !! i = Some p -> table !! S i = Some r ->
          isnan (close p) = true ->
          exists v, returns_ r = Some v /\ isnan v.1 = true).
Proof.
  intros Hf%not_carry Hdrop Hdf Hdiv Hsplits.
  rewrite (align_Ok np_log _ _ _ df) by done. cbn zeta.
  unfold merged. rewrite Hf.
  set (m1 := sort_index (outer_join (set_col Dividends) df df_div)).
  set (m2 := sort_index (outer_join (set_col Splits) m1 df_splits)).
  assert (forall r2, r2 ∈ m2 ->
            exists r', r' ∈ (if returns then add_returns np_log nan m2 else m2)
              /\ label r' = label r2 /\ close r' = close r2
              /\ dividends r' = dividends r2 /\ splits r' = splits r2
              /\ same_bar r2 r') as Hret.
  { intros r2 H2. destruct returns.
    - apply list_elem_of_lookup in H2 as [i Hi].
      eexists. split.
      + eapply list_elem_of_lookup_2. by apply add_returns_lookup.
      + repeat split; done.
    - exists r2. repeat split; done. }
  eexists. split; [done|]. split; [|split; [|split]].
  - intros r Hr.
    pose proof (joined_row Dividends df df_div r Hr) as H1. fold m1 in H1.
    pose proof (joined_row Splits m1 df_splits _ H1) as H2. fold m2 in H2.
    destruct (Hret _ H2) as (r' & Hin & _ & _ & _ & _ & Hb).
    exists r'. split; [done|].
    eapply same_bar_trans; [|exact Hb].
    eapply same_bar_trans; apply same_bar_set.
  - intros t v Hin Ht.
    pose proof (joined_unmatched Dividends df df_div t v Hin Ht) as H1.
    fold m1 in H1.
    pose proof (joined_row Splits m1 df_splits _ H1) as H2. fold m2 in H2.
    destruct (Hret _ H2) as (r' & Hin' & L & C & D & _ & _).
    exists r'. split; [done|]. by rewrite L, C, D.
  - intros t v Hin Ht.
    destruct (has_row m1 t) eqn:Hrow.
    + apply has_row_elem in Hrow.
      apply list_elem_of_fmap in Hrow as (r1 & Hl & H1).
      assert (isnan (close r1) = true) as Hc1.
      { unfold m1 in H1. rewrite (sort_index_perm _) in H1.
        apply outer_join_inv in H1 as [(r & Hr & ->) | (e & _ & _ & ->)].
        - exfalso. apply Ht. rewrite Hl. apply list_elem_of_fmap.
          exists r. split; [by rewrite label_set | done].
        - apply event_row_close. }
      pose proof (joined_row Splits m1 df_splits _ H1) as H2. fold m2 in H2.
      rewrite <- Hl, (event_at_elem _ _ _ Hsplits Hin) in H2.
      destruct (Hret _ H2) as (r' & Hin' & L & C & _ & S & _).
      exists r'. split; [done|]. by rewrite L, C, S.
    + assert (t ∉ label <$> m1) as Ht1.
      { intros H. apply has_row_elem in H. congruence. }
      pose proof (joined_unmatched Splits m1 df_splits t v Hin Ht1) as H2.
      fold m2 in H2.
      destruct (Hret _ H2) as (r' & Hin' & L & C & _ & S & _).
      exists r'. split; [done|]. by rewrite L, C, S.
  - intros -> i p r Hp Hr Hclose.
    assert (length (add_returns np_log nan m2) = length m2) as Hlen.
    { rewrite <- (length_fmap label), labels_add_returns. by rewrite length_fmap. }
    destruct (lookup_lt_is_Some_2 m2 i) as [p0 Hp0].
    { rewrite <- Hlen. by eapply lookup_lt_Some. }
    destruct (lookup_lt_is_Some_2 m2 (S i)) as [r0 Hr0].
    { rewrite <- Hlen. by eapply lookup_lt_Some. }
    rewrite (add_returns_lookup _ _ _ _ Hp0) in Hp. injection Hp as <-.
    rewrite (add_returns_lookup _ _ _ _ Hr0) in Hr. injection Hr as <-.
    rewrite Hp0. eexists. split; [done|]. cbn [fst default fmap option_fmap option_map].
    apply simple_return_nan. exact Hclose.
Qed.

(** X13.  With [returns] the table is the table without returns, row by
    row, with the two return columns filled in: the first row has no
    simple return (NaN), and every other row relates its close, plus its
    dividend when it has one, to the close of the row before it in the
    returned table. *)
Theorem returns_follow_previous_row (frequency : string)
    (prices : list row) (df_div df_splits : list (Z * float))
    (table : list row) :
  align np_log frequency true prices df_div df_splits = Ok table ->
  exists plain,
    align np_log frequency false prices df_div df_splits = Ok plain
    /\ length table = length plain
    /\ (forall (i : nat) r, plain !! i = Some r ->
          exists v, table !! i = Some (set_returns v r))
    /\ (forall r, head plain = Some r ->
          exists v, head table = Some (set_returns v r) /\ isnan v.1 = true)
    /\ (forall (i : nat) p r, plain !! i = Some p -> plain !! S i = Some r ->
          table !! S i
          = Some (set_returns (simple_return (close p) r,
                               np_log (gross_return (close p) r)) r)).
Proof.
  unfold align. intros H.
  apply bind_Ok in H as (df & -> & H). cbn [mbind result_bind] in *.
  apply bind_Ok in H as (m1 & -> & H). cbn [mbind result_bind] in *.
  apply bind_Ok in H as (m2 & -> & H). cbn [mbind result_bind] in *.
  injection H as <-. exists m2. split; [done|]. split; [|split; [|split]].
  - rewrite <- (length_fmap label (add_returns _ _ _)), labels_add_returns.
    by rewrite length_fmap.
  - intros i r Hi. eexists. by apply add_returns_lookup.
  - intros r Hr. destruct m2 as [|x m2]; [done|]. injection Hr as ->.
    eexists. split; [done|]. by apply simple_return_nan.
  - intros i p r Hp Hr. rewrite (add_returns_lookup _ _ _ _ Hr). by rewrite Hp.
Qed.

End Numpy.

(** ** Events that cannot be read *)

Lemma rmap_list_raise {A B} (f : A -> result B) pre x post ok e :
  rmap_list f pre = Ok ok -> f x = Raise e ->
  rmap_list f (pre ++ x :: post) = Raise e.
Proof.
  revert ok. induction pre as [|a pre IH]; intros ok Hpre Hx.
  - simpl. by rewrite Hx.
  - simpl in *. destruct (f a) as [b|]; [|done]. cbn [mbind result_bind] in *.
    destruct (rmap_list f pre) as [bs|] eqn:E; [|done].
    by rewrite (IH bs eq_refl Hx).
Qed.

Section Events.
Variable np_round2 : float -> float.
Variable np_log : float -> float.

(** X14.  An events entry that is present but empty cannot be read: the
    pairs are transposed and the second component of nothing is asked
    for, so [historical_data] raises [IndexError].  A split whose
    denominator is zero makes the division of line 271 raise
    [ZeroDivisionError]. *)
Theorem unreadable_events (frequency : string)
    (returns timestamps rounded : bool) (request_url : string) (c : chart) :
  (events_dividends c = Some [] \/ events_splits c = Some [] ->
   historical_data np_round2 np_log frequency returns timestamps rounded
     request_url c = Raise IndexError)
  /\ (forall pre t n post ok,
        events_dividends c <> Some [] ->
        events_splits c = Some (pre ++ (t, PyVal.VInt n, PyVal.VInt 0) :: post) ->
        rmap_list split_ratio pre = Ok ok ->
        historical_data np_round2 np_log frequency returns timestamps rounded
          request_url c = Raise ZeroDivisionError).
Proof.
  split.
  - intros [H | H]; unfold historical_data, load_frames.
    + by rewrite H.
    + destruct (events_dividends c) as [[|e es]|]; [done | |]; by rewrite H.
  - intros pre t n post ok Hdiv Hsplits Hpre.
    unfold historical_data, load_frames. rewrite Hsplits.
    assert (event_frame (Some (pre ++ (t, PyVal.VInt n, PyVal.VInt 0) :: post))
            = Ok (pre ++ (t, PyVal.VInt n, PyVal.VInt 0) :: post)) as ->
      by (by destruct pre).
    assert (exists d, event_frame (events_dividends c) = Ok d) as [d ->].
    { destruct (events_dividends c) as [[|e es]|]; [done | by eexists | by eexists]. }
    cbn [mbind result_bind].
    by rewrite (rmap_list_raise _ _ _ _ ok ZeroDivisionError Hpre).
Qed.

End Events.

(** ** Instances *)

Lemma priced_bars_only_witness :
  exists table,
    align (fun x => x) "1wk" false [bar 10 1; bar 20 2; bar 30 3]
      [(12, of_Z 5)] [] = Ok table
    /\ StronglySorted Z.lt (label <$> table).
Proof.
  destruct (priced_bars_only (fun x => x) "1wk" false
              [bar 10 1; bar 20 2; bar 30 3] [bar 10 1; bar 20 2; bar 30 3]
              [(12, of_Z 5)] []) as (table & Ht & Hs & _).
  - by left.
  - reflexivity.
  - apply (bool_decide_unpack _). vm_compute. exact I.
  - apply (bool_decide_unpack _). vm_compute. exact I.
  - constructor.
  - by exists table.
Defined.

Lemma unmatched_event_own_row_witness :
  exists table r,
    align (fun x => x) "1d" true [bar 10 1; bar 20 2; bar 30 3]
      [(12, of_Z 5)] [] = Ok table
    /\ r ∈ table /\ label r = 12 /\ dividends r = of_Z 5
    /\ isnan (close r) = true.
Proof.
  destruct (unmatched_event_own_row (fun x => x) "1d" true
              [bar 10 1; bar 20 2; bar 30 3] [bar 10 1; bar 20 2; bar 30 3]
              [(12, of_Z 5)] []) as (table & Ht & _ & Hdiv & _).
  - intros Hin. elem_cases Hin.
  - reflexivity.
  - apply (bool_decide_unpack _). vm_compute. exact I.
  - apply (bool_decide_unpack _). vm_compute. exact I.
  - constructor.
  - destruct (Hdiv 12 (of_Z 5)) as (r & Hr).
    + by left.
    + intros Hin. elem_cases Hin.
    + by exists table, r.
Defined.

Lemma returns_follow_previous_row_witness :
  exists plain,
    align (fun x => x) "1d" false [bar 10 1; bar 20 2; bar 30 3] [] []
    = Ok plain
    /\ length plain = 3%nat.
Proof.
  eassert (align (fun x => x) "1d" true [bar 10 1; bar 20 2; bar 30 3] [] []
           = Ok _) as Htable by (vm_compute; reflexivity).
  destruct (returns_follow_previous_row (fun x => x) "1d" _ _ _ _ Htable)
    as (plain & Hplain & Hlen & _).
  exists plain. split; [done|]. rewrite <- Hlen. reflexivity.
Defined.

End YahooTableFacts.

Module TipranksMoreFacts.
Import Float64 PyVal PySort PyNum Tipranks TipranksMore SortSpec
       TipranksMoreSpec TipranksSamples.
Import SortFacts TipranksFacts.
Local Open Scope string_scope.

(** ** The cached payload *)

Section Reader.
Variable get_json : string -> string -> result value.

Lemma get_ratings_cached (w : world) (d : value) :
  _ratings_data (reader w) = Some d ->
  _get_ratings_data get_json w = (Ok d, w).
Proof. intros H. unfold _get_ratings_data. by rewrite H. Qed.

Lemma get_ratings_world (w : world) :
  let w' := (_get_ratings_data get_json w).2 in
  ticker (reader w') = ticker (reader w)
  /\ (requests w <= requests w' <= S (requests w))%nat
  /\ (forall d, _ratings_data (reader w) = Some d -> w' = w)
  /\ (forall p, (_get_ratings_data get_json w).1 = Ok p ->
        _ratings_data (reader w') = Some p).
Proof.
  unfold _get_ratings_data.
  destruct (_ratings_data (reader w)) as [d|] eqn:E; simpl.
  - repeat split; try done; try lia. by intros p [= <-].
  - destruct (get_json _ _) as [d|e]; simpl;
      repeat split; try done; try lia. by intros p [= <-].
Qed.

Lemma get_ratings_again (w : world) (p : value) :
  (_get_ratings_data get_json w).1 = Ok p ->
  _get_ratings_data get_json (_get_ratings_data get_json w).2
  = (Ok p, (_get_ratings_data get_json w).2).
Proof.
  intros H. apply get_ratings_cached.
  by apply (get_ratings_world w).
Qed.

Lemma with_ratings_reads_cache {A} (f : value -> result A) :
  reads_cache (with_ratings get_json f).
Proof.
  intros w. unfold with_ratings.
  pose proof (get_ratings_world w) as (Ht & Hr & Hc & Hs).
  destruct (_get_ratings_data get_json w) as [payload w'] eqn:E.
  simpl in *. repeat split; try done; try lia.
  intros r Hr'. destruct payload as [p|]; [|done]. exists p. by apply Hs.
Qed.

Lemma checked_reads_cache {A} (vars : list string) (sorted_by : string)
    (f : value -> result A) :
  reads_cache (fun w =>
    match check_sort_variable vars sorted_by with
    | Raise e => (Raise e, w)
    | Ok _ => let (payload, w') := _get_ratings_data get_json w in
              (p ← payload; f p, w')
    end).
Proof.
  intros w. destruct (check_sort_variable vars sorted_by).
  - apply (with_ratings_reads_cache f w).
  - simpl. repeat split; try done; lia.
Qed.

End Reader.

(** X15.  Every accessor that reads the ratings payload
    ([covering_analysts], [insider_trades], [institutional_ownership],
    [isin], [blogger_sentiment], [institutional_ownership_trend], [peers],
    [recommendation_trend]) keeps the ticker, sends at most one request,
    sends none and leaves the reader as it is when the payload is already
    stored, and has stored the payload whenever it returns a result; so
    after one of them has returned, none of them sends a request again.
    [news_sentiment] sends one request at every call and never touches
    the stored payload. *)
Theorem payload_requested_once
    (get_json : string -> string -> result value)
    (isodate date_timestamp : value -> result value)
    (isodate' : value -> result string) (date_timestamp' : value -> result Z)
    (str_ : value -> string) (include_retail timestamps : bool)
    (sorted_by : string) :
  reads_cache (covering_analysts get_json isodate date_timestamp str_
                 include_retail timestamps sorted_by)
  /\ reads_cache (insider_trades get_json isodate date_timestamp str_
                    timestamps sorted_by)
  /\ reads_cache (institutional_ownership get_json str_ sorted_by)
  /\ reads_cache (isin get_json)
  /\ reads_cache (blogger_sentiment get_json)
  /\ reads_cache (institutional_ownership_trend get_json isodate'
                    date_timestamp' timestamps)
  /\ reads_cache (peers get_json)
  /\ reads_cache (recommendation_trend get_json isodate' date_timestamp'
                    timestamps)
  /\ (forall w : world,
        let w' := (news_sentiment get_json isodate' date_timestamp'
                     timestamps w).2 in
        requests w' = S (requests w) /\ reader w' = reader w)
  /\ (forall {A B} (first : world -> result A * world)
             (second : world -> result B * world) (w : world) (r : A),
        reads_cache first -> reads_cache second -> (first w).1 = Ok r ->
        (second (first w).2).2 = (first w).2).
Proof.
  repeat split; try apply with_ratings_reads_cache;
    try apply checked_reads_cache.
  intros A B first second w r H1 H2 Hr.
  destruct (H1 w) as (_ & _ & _ & Hs). destruct (Hs r Hr) as [d Hd].
  destruct (H2 (first w).2) as (_ & _ & Hc & _). by apply (Hc d).
Qed.

(** X16.  [insider_trades] asks for the payload twice (once for the
    insiders, once for the three-month sum); the second read is always
    served from the cache, so that the method behaves as if it read the
    payload once: same result, same number of requests, same stored
    payload. *)
Theorem insider_trades_second_read_cached
    (get_json : string -> string -> result value)
    (isodate date_timestamp : value -> result value) (str_ : value -> string)
    (timestamps : bool) (sorted_by : string) (w : world) :
  insider_trades_reads get_json isodate date_timestamp str_ timestamps
    sorted_by w
  = insider_trades get_json isodate date_timestamp str_ timestamps sorted_by w.
Proof.
  unfold insider_trades_reads, insider_trades.
  destruct (check_sort_variable _ _); [|done].
  pose proof (get_ratings_again get_json w) as Hagain.
  destruct (_get_ratings_data get_json w) as [payload w1] eqn:E.
  simpl in Hagain. destruct payload as [p|e]; [|done].
  rewrite (Hagain p eq_refl). unfold insider_trades_of.
  cbn [mbind result_bind]. by destruct (getitem p "insiders").
Qed.

(** ** Sort keys of one kind *)

Local Open Scope Z_scope.

Lemma str_ltb_irrefl (s : string) : str_ltb s s = false.
Proof.
  induction s as [|c s IH]; simpl; [done|]. by rewrite Ascii.eqb_refl.
Qed.

Lemma str_ltb_asym (s t : string) : str_ltb s t = true -> str_ltb t s = false.
Proof.
  revert t. induction s as [|c s IH]; intros [|d t]; simpl; try done.
  rewrite (Ascii.eqb_sym d c). destruct (Ascii.eqb c d); [by apply IH|].
  rewrite !N.ltb_lt, N.ltb_ge. lia.
Qed.

Lemma str_ltb_total (s t : string) :
  str_ltb s t = false -> str_ltb t s = false -> s = t.
Proof.
  revert t. induction s as [|c s IH]; intros [|d t]; simpl; try done.
  rewrite (Ascii.eqb_sym d c). destruct (Ascii.eqb c d) eqn:E.
  - apply Ascii.eqb_eq in E as ->. intros H1 H2. f_equal. by apply IH.
  - rewrite !N.ltb_ge. intros H1 H2.
    assert (N_of_ascii c = N_of_ascii d) as H by lia.
    apply (f_equal ascii_of_N) in H. rewrite !ascii_N_embedding in H.
    subst. by rewrite Ascii.eqb_refl in E.
Qed.

Lemma str_ltb_trans (s t u : string) :
  str_ltb s t = true -> str_ltb t u = true -> str_ltb s u = true.
Proof.
  revert t u. induction s as [|c s IH]; intros [|d t] [|e u]; simpl; try done.
  destruct (Ascii.eqb c d) eqn:E1.
  - apply Ascii.eqb_eq in E1 as ->. destruct (Ascii.eqb d e); [by apply IH|].
    done.
  - destruct (Ascii.eqb d e) eqn:E2.
    + apply Ascii.eqb_eq in E2 as ->. by rewrite E1.
    + rewrite !N.ltb_lt. intros H1 H2.
      destruct (Ascii.eqb c e) eqn:E3.
      * apply Ascii.eqb_eq in E3 as ->. lia.
      * apply N.ltb_lt. lia.
Qed.

Lemma str_ltb_neg_trans (s t u : string) :
  str_ltb t s = false -> str_ltb u t = false -> str_ltb u s = false.
Proof.
  intros H1 H2. destruct (str_ltb u s) eqn:E; [|done].
  destruct (str_ltb s t) eqn:E1.
  - by rewrite (str_ltb_trans u s t E E1) in H2.
  - rewrite (str_ltb_total s t E1 H1) in E. by rewrite E in H2.
Qed.

Lemma int_compare (x y : Z) : dyadic_compare (x, 0) (y, 0) = (x ?= y).
Proof. unfold dyadic_compare. simpl. by rewrite !Z.mul_1_r. Qed.

Lemma int_tuple_lt (a b : value) :
  int_or_none a = true -> int_or_none b = true ->
  tuple_lt (null_key a) (null_key b) = Ok (int_lt a b).
Proof.
  destruct a, b; try done; intros _ _; unfold tuple_lt, null_key; simpl.
  rewrite int_compare. unfold Z.ltb. by destruct (z ?= z0).
Qed.

Lemma str_tuple_lt (a b : value) :
  str_or_none a = true -> str_or_none b = true ->
  tuple_lt (null_key a) (null_key b) = Ok (str_lt a b).
Proof.
  destruct a, b; try done; intros _ _; unfold tuple_lt, null_key; simpl.
  destruct (String.eqb s s0) eqn:E; [|done].
  apply String.eqb_eq in E as ->. by rewrite str_ltb_irrefl.
Qed.

Lemma int_py_eq (x : Z) (v : value) :
  py_eq (VInt x) v = true ->
  exists d, dyadic v = Some d /\ dyadic_compare (x, 0) d = Eq.
Proof.
  destruct v as [| | |[s|s| |s m e]| | |]; simpl; try done;
    try (by destruct s); intros H; eexists; (split; [reflexivity|]);
    by match type of H with
       | match ?c with _ => _ end = _ => destruct c
       end.
Qed.

Lemma int_py_eq_same (x y : Z) (v : value) :
  py_eq (VInt x) v = true -> py_eq (VInt y) v = true -> x = y.
Proof.
  intros ([m e] & Hd & Hx)%int_py_eq ([m' e'] & Hd' & Hy)%int_py_eq.
  rewrite Hd in Hd'. injection Hd' as <- <-.
  unfold dyadic_compare in Hx, Hy.
  simpl in Hx, Hy. apply Z.compare_eq in Hx, Hy.
  assert (0 < 2 ^ (0 - Z.min 0 e))%Z as Hp by (apply Z.pow_pos_nonneg; lia).
  nia.
Qed.

Lemma int_key_order : key_order int_or_none int_lt.
Proof.
  split.
  - apply int_tuple_lt.
  - intros [] []; try done; simpl; intros _ _; rewrite ?Z.ltb_ge; done.
  - intros [] [] []; try done; simpl; intros _ _ _; rewrite ?Z.ltb_ge; lia.
  - intros [] []; try done; simpl. rewrite Z.ltb_lt, Z.ltb_ge. lia.
  - intros [] [] v; try done; simpl; intros _ _.
    + intros _ Hn Hx. by destruct v.
    + rewrite Z.ltb_lt. intros Hlt Hx Hy.
      pose proof (int_py_eq_same _ _ _ Hx Hy). lia.
Qed.

Lemma str_key_order : key_order str_or_none str_lt.
Proof.
  split.
  - apply str_tuple_lt.
  - intros [] []; try done; simpl; intros _ _; done.
  - intros [] [] []; try done; simpl; intros _ _ _; try done.
    apply str_ltb_neg_trans.
  - intros [] []; try done; simpl. apply str_ltb_asym.
  - intros [] [] v; try done; simpl; intros _ _.
    + intros _ Hn Hx. by destruct v.
    + destruct v; try done; simpl. intros Hlt ->%String.eqb_eq ->%String.eqb_eq.
      by rewrite str_ltb_irrefl in Hlt.
Qed.

(** ** The stable sort on keys of one kind *)

Local Close Scope string_scope.

Section StableSort.
Context {A : Type} (K : value -> bool) (klt : value -> value -> bool).
Hypothesis HK : key_order K klt.
Let lt (a b : bool * value * A) : result bool := tuple_lt a.1 b.1.

Lemma lt_keys (x y : bool * value * A) :
  keyed_by K x -> keyed_by K y -> lt x y = Ok (klt x.1.2 y.1.2).
Proof.
  intros [Hx HxK] [Hy HyK]. unfold lt.
  destruct x as [[fx vx] ax], y as [[fy vy] ay]. simpl in *.
  rewrite Hx, Hy. by apply (key_lt _ _ HK).
Qed.

Lemma insert_sorted_place (x : bool * value * A) l :
  keyed_by K x -> Forall (keyed_by K) l ->
  exists l1 l2,
    l = l1 ++ l2 /\ insert_sorted lt x l = Ok (l1 ++ x :: l2)
    /\ Forall (fun y => klt y.1.2 x.1.2 = true) l1
    /\ match l2 with
       | [] => True
       | z :: _ => klt z.1.2 x.1.2 = false
       end.
Proof.
  intros Hx. induction 1 as [|y l Hy Hl IH].
  - by exists [], [].
  - cbn [insert_sorted]. rewrite (lt_keys y x Hy Hx).
    cbn [mbind result_bind]. destruct (klt y.1.2 x.1.2) eqn:E.
    + destruct IH as (l1 & l2 & -> & -> & H1 & H2).
      exists (y :: l1), l2. repeat split; try done. by constructor.
    + exists [], (y :: l). repeat split; try done.
Qed.

Lemma insert_sorted_order (x : bool * value * A) l l1 l2 :
  keyed_by K x -> Forall (keyed_by K) l -> l = l1 ++ l2 ->
  Forall (fun y => klt y.1.2 x.1.2 = true) l1 ->
  match l2 with
  | [] => True
  | z :: _ => klt z.1.2 x.1.2 = false
  end ->
  StronglySorted (key_le klt) l -> StronglySorted (key_le klt) (l1 ++ x :: l2).
Proof.
  intros [_ HxK] Hl -> H1 H2 Hs.
  apply Forall_app in Hl as [Hl1 Hl2].
  induction l1 as [|y l1 IH]; simpl in *.
  - constructor; [done|]. destruct l2 as [|z l2]; [done|].
    apply StronglySorted_inv in Hs as [Hs Hz].
    apply Forall_cons in Hl2 as [[_ HzK] Hl2].
    constructor; [done|].
    rewrite Forall_forall in Hz, Hl2 |- *. intros u Hu. unfold key_le.
    apply (key_trans _ _ HK _ z.1.2); try done; [by apply Hl2 | by apply Hz].
  - apply StronglySorted_inv in Hs as [Hs Hy].
    apply Forall_cons in H1 as [Hyx H1]. apply Forall_cons in Hl1 as [_ Hl1].
    constructor; [by apply IH|].
    apply Forall_app in Hy as [Hy1 Hy2]. apply Forall_app. split; [done|].
    constructor; [|done]. unfold key_le. by apply (key_asym _ _ HK).
Qed.

Lemma insert_sorted_filter (x : bool * value * A) l1 l2 (v : value) :
  keyed_by K x -> Forall (keyed_by K) l1 ->
  Forall (fun y => klt y.1.2 x.1.2 = true) l1 ->
  filter (fun e => py_eq e.1.2 v = true) (l1 ++ x :: l2)
  = filter (fun e => py_eq e.1.2 v = true) (x :: l1 ++ l2).
Proof.
  intros [_ HxK] Hl1 H1. rewrite filter_app, !filter_cons, filter_app.
  destruct (decide (py_eq x.1.2 v = true)) as [Hv|Hv]; [|done].
  assert (filter (fun e : bool * value * A => py_eq e.1.2 v = true) l1 = [])
    as ->; [|done].
  induction l1 as [|y l1 IH]; [done|].
  apply Forall_cons in Hl1 as [[_ HyK] Hl1]. apply Forall_cons in H1 as [Hy H1].
  rewrite filter_cons. destruct (decide (py_eq y.1.2 v = true)) as [Hyv|Hyv].
  - destruct (key_apart _ _ HK _ _ v HyK HxK Hy Hyv Hv).
  - by apply IH.
Qed.

Lemma sort_stable_keys (l : list (bool * value * A)) :
  Forall (keyed_by K) l ->
  exists s,
    sort_stable lt l = Ok s /\ s ≡ₚ l /\ StronglySorted (key_le klt) s
    /\ forall v, filter (fun e => py_eq e.1.2 v = true) s
                 = filter (fun e => py_eq e.1.2 v = true) l.
Proof.
  induction 1 as [|x l Hx Hl IH].
  - exists []. repeat split; [done | constructor].
  - destruct IH as (s & Hs & Hp & Hord & Hf). simpl. rewrite Hs.
    cbn [mbind result_bind].
    assert (Forall (keyed_by K) s) as Hks by (by rewrite Hp).
    destruct (insert_sorted_place x s Hx Hks) as (l1 & l2 & E & -> & H1 & H2).
    exists (l1 ++ x :: l2). split; [done|]. split; [|split].
    + rewrite <- Hp, E. symmetry. apply Permutation_middle.
    + by apply (insert_sorted_order x s).
    + intros v. rewrite E in Hks. apply Forall_app in Hks as [Hk1 _].
      rewrite (insert_sorted_filter _ _ _ _ Hx Hk1 H1), <- E, !filter_cons.
      by rewrite Hf.
Qed.

Lemma keyed_entries (val : A -> result value) (data : list A) vals :
  rmap_list val data = Ok vals -> Forall (fun v => K v = true) vals ->
  exists keyed,
    rmap_list (fun x => k ← null_key <$> val x; Ok (k, x)) data = Ok keyed
    /\ keyed.*2 = data
    /\ Forall (fun e => keyed_by K e /\ val e.2 = Ok e.1.2) keyed.
Proof.
  revert vals. induction data as [|x data IH]; intros vals; simpl.
  - intros _ _. exists []. by repeat split.
  - destruct (val x) as [v|] eqn:Ev; simpl; [|done].
    destruct (rmap_list val data) as [vs|]; simpl; [|done].
    intros [= <-] [Hv Hvs]%Forall_cons.
    destruct (IH vs eq_refl Hvs) as (keyed & -> & Hk & Hall).
    exists ((null_key v, x) :: keyed). rewrite fmap_cons, Hk.
    repeat split; try done. by constructor.
Qed.

Lemma filter_entries (val : A -> result value) (v : value)
    (t : list (bool * value * A)) :
  Forall (fun e => val e.2 = Ok e.1.2) t ->
  filter (fun x => has_value val v x = true) t.*2
  = (filter (fun e => py_eq e.1.2 v = true) t).*2.
Proof.
  induction 1 as [|e t He Ht IH]; [done|].
  assert (has_value val v e.2 = py_eq e.1.2 v) as Hh
    by (unfold has_value; by rewrite He).
  rewrite fmap_cons, !filter_cons.
  destruct (decide (has_value val v e.2 = true)) as [H1|H1],
           (decide (py_eq e.1.2 v = true)) as [H2|H2];
    try congruence; simpl; by rewrite IH.
Qed.

Lemma sorted_keys (val : A -> result value) (desc : bool)
    (data : list A) (vals : list value) :
  rmap_list val data = Ok vals -> Forall (fun v => K v = true) vals ->
  exists out,
    sorted_ (fun x => null_key <$> val x) desc data = Ok out
    /\ out ≡ₚ data
    /\ (forall (i j : nat) x y vx vy,
          (i < j)%nat -> out !! i = Some x -> out !! j = Some y ->
          val x = Ok vx -> val y = Ok vy ->
          if desc then ordered_before vy vx else ordered_before vx vy)
    /\ (forall v, filter (fun x => has_value val v x = true) out
                  = filter (fun x => has_value val v x = true) data).
Proof.
  intros Hvals HK'. unfold sorted_.
  destruct (keyed_entries val data vals Hvals HK') as (keyed & -> & Hd & Hall).
  cbn [mbind result_bind].
  set (l := if desc then rev keyed else keyed).
  assert (l ≡ₚ keyed) as Hl.
  { unfold l. destruct desc; [|done].
    rewrite rev_alt. apply reverse_Permutation. }
  assert (Forall (keyed_by K) l) as Hkl.
  { rewrite Hl. eapply Forall_impl; [exact Hall|]. by intros e [He _]. }
  destruct (sort_stable_keys l Hkl) as (s & Hs & Hp & Hord & Hf).
  unfold lt in Hs. rewrite Hs. cbn [mbind result_bind].
  set (t := if desc then rev s else s).
  assert (t ≡ₚ keyed) as Ht.
  { unfold t. destruct desc; [|by rewrite Hp, Hl].
    rewrite rev_alt. fold (reverse s).
    by rewrite reverse_Permutation, Hp, Hl. }
  assert (Forall (fun e => keyed_by K e /\ val e.2 = Ok e.1.2) t) as Hkt
    by (by rewrite Ht).
  exists t.*2. split; [done|]. split; [by rewrite Ht, Hd|]. split.
  - intros i j x y vx vy Hij Hi Hj Hx Hy.
    rewrite list_lookup_fmap in Hi, Hj.
    destruct (t !! i) as [a|] eqn:Ea; [|done].
    destruct (t !! j) as [b|] eqn:Eb; [|done].
    injection Hi as <-. injection Hj as <-.
    rewrite Forall_forall in Hkt.
    destruct (Hkt a) as [[_ HaK] Hva]; [by eapply list_elem_of_lookup_2|].
    destruct (Hkt b) as [[_ HbK] Hvb]; [by eapply list_elem_of_lookup_2|].
    rewrite Hva in Hx. injection Hx as <-.
    rewrite Hvb in Hy. injection Hy as <-.
    unfold t in Ea, Eb. destruct desc.
    + rewrite rev_alt in Ea, Eb. fold (reverse s) in Ea, Eb.
      apply reverse_lookup_Some in Ea as [Ea Hia], Eb as [Eb Hjb].
      apply (key_before _ _ HK); [done | done|]. change (key_le klt b a).
      eapply (StronglySorted_lookup _ s); [exact Hord | | exact Eb | exact Ea].
      lia.
    + apply (key_before _ _ HK); [done | done|]. change (key_le klt a b).
      by eapply (StronglySorted_lookup _ s).
  - intros v.
    rewrite (filter_entries val v t)
      by (eapply Forall_impl; [exact Hkt|]; by intros e [_ He]).
    rewrite <- Hd, (filter_entries val v keyed)
      by (eapply Forall_impl; [exact Hall|]; by intros e [_ He]).
    f_equal. unfold t, l in *. destruct desc; [|by apply Hf].
    rewrite rev_alt. fold (reverse s).
    rewrite filter_reverse, Hf, rev_alt. fold (reverse keyed).
    by rewrite filter_reverse, reverse_involutive.
Qed.

End StableSort.

(** X17.  [sorted(data, key=lambda x: (v is None, v), reverse=desc)] on
    entries whose sort values are all integers or null, or all strings or
    null: the sort raises nothing and returns every entry once; the
    values ascend, nulls last, when [desc] is false, and descend, nulls
    first, when it is true; entries of equal sort value keep the order
    they had in the input, in both directions. *)
Theorem sorted_in_order_and_stable {A} (val : A -> result value)
    (reverse : bool) (data : list A) (vals : list value) :
  rmap_list val data = Ok vals ->
  forallb int_or_none vals || forallb str_or_none vals = true ->
  exists out,
    sorted_ (fun x => null_key <$> val x) reverse data = Ok out
    /\ out ≡ₚ data
    /\ (forall (i j : nat) x y vx vy,
          (i < j)%nat -> out !! i = Some x -> out !! j = Some y ->
          val x = Ok vx -> val y = Ok vy ->
          if reverse then ordered_before vy vx else ordered_before vx vy)
    /\ (forall v, filter (fun x => has_value val v x = true) out
                  = filter (fun x => has_value val v x = true) data).
Proof.
  intros Hvals [H|H]%orb_true_iff.
  - apply (sorted_keys _ _ int_key_order val reverse data vals Hvals).
    rewrite forallb_forall in H. apply Forall_forall. intros v Hv.
    by apply H, list_elem_of_In.
  - apply (sorted_keys _ _ str_key_order val reverse data vals Hvals).
    rewrite forallb_forall in H. apply Forall_forall. intros v Hv.
    by apply H, list_elem_of_In.
Qed.

Local Open Scope string_scope.

Lemma sorted_in_order_and_stable_witness :
  exists out,
    sorted_ (fun x => null_key <$> getitem x "rank") true four_ranked = Ok out
    /\ out ≡ₚ four_ranked
    /\ filter (fun x => has_value (fun x => getitem x "rank") (VInt 3) x = true)
         out
       = [ranked "Ada" (VInt 3); ranked "Dee" (VInt 3)].
Proof.
  destruct (sorted_in_order_and_stable (fun x => getitem x "rank") true
              four_ranked [VInt 3; VNone; VInt 7; VInt 3] eq_refl eq_refl)
    as (out & Hout & Hperm & _ & Hstable).
  exists out. split; [done|]. split; [done|]. by rewrite Hstable.
Defined.

Local Close Scope string_scope.

(** ** What the sorting accessors return *)

Section AnySort.
Context {A : Type}.
Variable lt : A -> A -> result bool.

Lemma insert_sorted_perm (x : A) l r :
  insert_sorted lt x l = Ok r -> r ≡ₚ x :: l.
Proof.
  revert r. induction l as [|y l IH]; intros r; simpl.
  - by intros [= <-].
  - destruct (lt y x) as [[]|]; simpl; [| |done].
    + destruct (insert_sorted lt x l) as [r'|]; simpl; [|done].
      intros [= <-]. rewrite (IH r' eq_refl). apply perm_swap.
    + by intros [= <-].
Qed.

Lemma sort_stable_perm l s : sort_stable lt l = Ok s -> s ≡ₚ l.
Proof.
  revert s. induction l as [|x l IH]; intros s; simpl.
  - by intros [= <-].
  - destruct (sort_stable lt l) as [s'|]; simpl; [|done].
    intros H%insert_sorted_perm. by rewrite H, (IH s' eq_refl).
Qed.

End AnySort.

Lemma sorted_perm {A} (key : A -> result (bool * value)) (desc : bool)
    (data out : list A) :
  sorted_ key desc data = Ok out -> out ≡ₚ data.
Proof.
  unfold sorted_.
  destruct (rmap_list _ data) as [keyed|] eqn:Ek; simpl; [|done].
  destruct (sort_stable _ _) as [s|] eqn:Es; simpl; [|done].
  intros [= <-]. apply sort_stable_perm in Es.
  assert (keyed.*2 = data) as <-.
  { clear Es. revert keyed Ek. induction data as [|x data IH]; simpl.
    - by intros keyed [= <-].
    - intros keyed. destruct (key x) as [k|]; simpl; [|done].
      destruct (rmap_list _ data) as [ks|]; simpl; [|done].
      intros [= <-]. simpl. f_equal. by apply IH. }
  apply fmap_Permutation. destruct desc; [|done].
  rewrite rev_alt. fold (reverse s).
  rewrite reverse_Permutation, Es, rev_alt. apply reverse_Permutation.
Qed.

Lemma filter_consensus_kept (data kept_data : list value) :
  filter_consensus data = Ok kept_data ->
  kept_data = filter (fun x => kept x = true) data.
Proof.
  revert kept_data. induction data as [|x data IH]; intros kd; simpl.
  - by intros [= <-].
  - destruct (is_consensus x) as [b|] eqn:E; simpl; [|done].
    destruct (filter_consensus data) as [r|]; simpl; [|done].
    intros [= <-]. rewrite filter_cons, <- (IH r eq_refl).
    assert (kept x = b) as Hk by (unfold kept; by rewrite E).
    destruct (decide (kept x = true)) as [H|H], b; congruence.
Qed.

Local Open Scope string_scope.

(** X18.  The three sorting accessors return every reshaped entry
    exactly once: [institutional_ownership] and the [insiders] list of
    [insider_trades] are rearrangements of the reshaped items, and
    [covering_analysts] is a rearrangement of the reshaped experts, or,
    without [include_retail], of exactly those whose
    [includedInConsensus] is [True]. *)
Theorem sorting_accessors_keep_entries
    (isodate date_timestamp : value -> result value) (str_ : value -> string)
    (include_retail timestamps : bool) (sorted_by : string) (payload : value) :
  (forall out,
     covering_analysts_of isodate date_timestamp str_ include_retail
       timestamps sorted_by payload = Ok out ->
     exists experts items data,
       getitem payload "experts" = Ok experts /\ iter experts = Ok items
       /\ rmap_list (reshape_expert isodate date_timestamp str_ timestamps)
            items = Ok data
       /\ Forall2 (fun item entry =>
                     getitem item "includedInConsensus"
                     = getitem entry "consensus_analyst") items data
       /\ out ≡ₚ (if include_retail then data
                  else filter (fun x => kept x = true) data))
  /\ (forall out,
        insider_trades_of isodate date_timestamp str_ timestamps sorted_by
          payload = Ok out ->
        exists insiders items data sorted,
          getitem payload "insiders" = Ok insiders /\ iter insiders = Ok items
          /\ rmap_list (reshape_insider isodate date_timestamp str_ timestamps)
               items = Ok data
          /\ getitem out "insiders" = Ok (VList sorted) /\ sorted ≡ₚ data)
  /\ (forall out,
        institutional_ownership_of str_ sorted_by payload = Ok out ->
        exists fund holdings items data,
          getitem payload "hedgeFundData" = Ok fund
          /\ getitem fund "institutionalHoldings" = Ok holdings
          /\ iter holdings = Ok items
          /\ rmap_list (reshape_holding str_) items = Ok data
          /\ out ≡ₚ data).
Proof.
  split; [|split]; intros out.
  - unfold covering_analysts_of.
    destruct (getitem payload "experts") as [experts|] eqn:Eexperts; simpl; [|done].
    destruct (iter experts) as [items|] eqn:Eitems; simpl; [|done].
    destruct (rmap_list _ items) as [data|] eqn:Ed; simpl; [|done].
    destruct (if negb include_retail then filter_consensus data else Ok data)
      as [data'|] eqn:Ef; simpl; [|done].
    intros H%sorted_perm. exists experts, items, data.
    repeat split; try done.
    + apply rmap_list_Ok in Ed. eapply Forall2_impl; [exact Ed|].
      intros item entry He. unfold reshape_expert in He.
      repeat match type of He with
             | (?m ≫= _) = Ok _ =>
                 let E := fresh "E" in
                 destruct m eqn:E; cbn [mbind result_bind] in He; [|done]
             end.
      injection He as <-. done.
    + destruct include_retail; simpl in Ef.
      * by injection Ef as <-.
      * by rewrite H, (filter_consensus_kept _ _ Ef).
  - unfold insider_trades_of.
    destruct (getitem payload "insiders") as [insiders|] eqn:Einsiders; simpl; [|done].
    destruct (getitem payload "insiderslast3MonthsSum") eqn:Esum; simpl;
      [|done].
    destruct (iter insiders) as [items|] eqn:Eitems; simpl; [|done].
    destruct (rmap_list _ items) as [data|] eqn:Ed; simpl; [|done].
    destruct (sorted_ _ _ data) as [sorted|] eqn:Es; simpl; [|done].
    intros [= <-]. exists insiders, items, data, sorted.
    repeat split; try done. by apply sorted_perm in Es.
  - unfold institutional_ownership_of.
    destruct (getitem payload "hedgeFundData") as [fund|] eqn:Efund; simpl; [|done].
    destruct (getitem fund "institutionalHoldings") as [holdings|] eqn:Eholdings; simpl;
      [|done].
    destruct (iter holdings) as [items|] eqn:Eitems; simpl; [|done].
    destruct (rmap_list _ items) as [data|] eqn:Ed; simpl; [|done].
    intros H%sorted_perm. by exists fund, holdings, items, data.
Qed.

Lemma sorting_accessors_keep_entries_witness :
  exists out data,
    covering_analysts_of Ok Ok plain_str false false "rank"
      ranked_and_unranked = Ok out
    /\ out ≡ₚ filter (fun x => kept x = true) data.
Proof.
  eexists.
  destruct (proj1 (sorting_accessors_keep_entries Ok Ok plain_str false false
                     "rank" ranked_and_unranked) _ eq_refl)
    as (experts & items & data & _ & _ & _ & _ & Hperm).
  exists data. split; [reflexivity | exact Hperm].
Defined.

(** ** Division by the number of ratings *)

Lemma getitem_zde v k : getitem v k <> Raise ZeroDivisionError.
Proof. unfold getitem. destruct v; try done. by destruct (assoc k d). Qed.

Lemma index_zde v i : index v i <> Raise ZeroDivisionError.
Proof.
  unfold index. destruct v; try done.
  destruct (_ && _); [|done]. by destruct (l !! _).
Qed.

Lemma consensus_entry_zde item k :
  consensus_entry item k <> Raise ZeroDivisionError.
Proof.
  unfold consensus_entry.
  destruct (getitem item "consensusData") as [c|e] eqn:E; simpl;
    [|intros [= ->]; by apply getitem_zde in E].
  destruct (index c 0) as [c0|e] eqn:E0; simpl;
    [|intros [= ->]; by apply index_zde in E0].
  apply getitem_zde.
Qed.

Lemma to_float_zde v : to_float v <> Raise ZeroDivisionError.
Proof. unfold to_float. destruct v; try done. by destruct (is_inf _). Qed.

Lemma add_value_zde a b : add_value a b <> Raise ZeroDivisionError.
Proof.
  unfold add_value. destruct (as_int a), (as_int b); try done;
    (destruct (is_number a && is_number b);
     [destruct (to_float a) as [x|e] eqn:Ex; simpl;
        [|intros [= ->]; by apply to_float_zde in Ex];
      destruct (to_float b) as [y|e] eqn:Ey; simpl;
        [done|intros [= ->]; by apply to_float_zde in Ey]
     |by destruct a, b]).
Qed.

Lemma mul_int_zde v k : mul_int v k <> Raise ZeroDivisionError.
Proof. by destruct v. Qed.

Lemma round_value_zde v n : round_value v n <> Raise ZeroDivisionError.
Proof. by destruct v. Qed.

(** The sum of two values is an integer exactly when both are integers
    or booleans. *)
Lemma add_value_int a b c :
  add_value a b = Ok c -> is_Some (as_int c) ->
  exists x y, as_int a = Some x /\ as_int b = Some y /\ c = VInt (x + y).
Proof.
  unfold add_value. destruct (as_int a) as [x|], (as_int b) as [y|];
    try (intros [= <-] _; by exists x, y);
    (destruct (is_number a && is_number b);
     [destruct (to_float a); simpl; [|done];
      destruct (to_float b); simpl; [|done];
      intros [= <-] [z Hz]; done
     |destruct a, b; try done; intros [= <-] [z Hz]; done]).
Qed.

Lemma add_value_kind a b c :
  add_value a b = Ok c ->
  match c with
  | VInt _ | VFloat _ | VStr _ | VList _ => True
  | _ => False
  end.
Proof.
  unfold add_value. destruct (as_int a) as [x|], (as_int b) as [y|];
    try (by intros [= <-]);
    (destruct (is_number a && is_number b);
     [destruct (to_float a); simpl; [|done];
      destruct (to_float b); simpl; [|done]; by intros [= <-]
     |destruct a, b; try done; by intros [= <-]]).
Qed.

Lemma mul_int_int v k c x :
  mul_int v k = Ok c -> as_int v = Some x -> c = VInt (x * k).
Proof. destruct v; try done; simpl; by intros [= <-] [= <-]. Qed.

Lemma ne_zero_int z : ne_zero (VInt z) = true <-> z <> 0.
Proof.
  unfold ne_zero. simpl. rewrite int_compare.
  destruct (Z.compare_spec z 0); simpl; split; try done; lia.
Qed.

Lemma weighted_average_zde b h s t1 total :
  add_value b h = Ok t1 -> add_value t1 s = Ok total ->
  ne_zero total = true ->
  weighted_average b h s <> Raise ZeroDivisionError.
Proof.
  intros Ht1 Htotal Hnz. unfold weighted_average.
  destruct (mul_int b 5) as [b5|e] eqn:Eb5; simpl;
    [|intros [= ->]; by apply mul_int_zde in Eb5].
  destruct (mul_int h 3) as [h3|e] eqn:Eh3; simpl;
    [|intros [= ->]; by apply mul_int_zde in Eh3].
  destruct (add_value b5 h3) as [n1|e] eqn:En1; simpl;
    [|intros [= ->]; by apply add_value_zde in En1].
  destruct (add_value n1 s) as [num|e] eqn:Enum; simpl;
    [|intros [= ->]; by apply add_value_zde in Enum].
  rewrite Ht1. simpl. rewrite Htotal. simpl.
  destruct (as_int total) as [z|] eqn:Ez.
  - destruct (add_value_int _ _ _ Htotal) as (x & y & Hx & Hy & ->);
      [by rewrite Ez|].
    destruct (add_value_int _ _ _ Ht1) as (xb & xh & Hb & Hh & ->);
      [by rewrite Hx|].
    rewrite (mul_int_int _ _ _ _ Eb5 Hb), (mul_int_int _ _ _ _ Eh3 Hh) in En1.
    injection En1 as <-. unfold add_value in Enum. simpl in Enum.
    rewrite Hy in Enum. injection Enum as <-.
    apply ne_zero_int in Hnz. unfold truediv_value. simpl.
    apply Z.eqb_neq in Hnz. rewrite Hnz. by destruct (is_inf _).
  - pose proof (add_value_kind _ _ _ Htotal) as Hk.
    unfold truediv_value.
    destruct total as [| | |y| | |]; try done;
      cbn [is_number is_float]; rewrite ?andb_false_r; try done.
    destruct (negb (is_number num && true)); [done|].
    rewrite orb_true_r.
    destruct (to_float num) as [x|e] eqn:Ex; simpl;
      [|intros [= ->]; by apply to_float_zde in Ex].
    unfold truediv. destruct y; try done.
Qed.

Lemma reshape_peer_zde item : reshape_peer item <> Raise ZeroDivisionError.
Proof.
  unfold reshape_peer.
  destruct (getitem item "ticker") as [ticker|e] eqn:E1; simpl;
    [|intros [= ->]; by apply getitem_zde in E1].
  destruct (getitem item "name") as [name|e] eqn:E2; simpl;
    [|intros [= ->]; by apply getitem_zde in E2].
  destruct (consensus_entry item "nB") as [b|e] eqn:E3; simpl;
    [|intros [= ->]; by apply consensus_entry_zde in E3].
  destruct (consensus_entry item "nH") as [h|e] eqn:E4; simpl;
    [|intros [= ->]; by apply consensus_entry_zde in E4].
  destruct (consensus_entry item "nS") as [s|e] eqn:E5; simpl;
    [|intros [= ->]; by apply consensus_entry_zde in E5].
  destruct (add_value b h) as [t1|e] eqn:E6; simpl;
    [|intros [= ->]; by apply add_value_zde in E6].
  destruct (add_value t1 s) as [total|e] eqn:E7; simpl;
    [|intros [= ->]; by apply add_value_zde in E7].
  assert ((if ne_zero total
           then q ← weighted_average b h s; round_value q 2
           else Ok VNone) <> Raise ZeroDivisionError) as Havg.
  { destruct (ne_zero total) eqn:Hnz; [|done].
    destruct (weighted_average b h s) as [q|e] eqn:Eq; simpl;
      [apply round_value_zde|].
    intros [= ->]. by apply (weighted_average_zde _ _ _ _ _ E6 E7 Hnz). }
  destruct (if ne_zero total then _ else _) as [average|e]; simpl;
    [|intros [= ->]; done].
  destruct (consensus_entry item "priceTarget") as [target|e] eqn:E8; simpl;
    [done|intros [= ->]; by apply consensus_entry_zde in E8].
Qed.

Lemma rmap_list_raises {A B} (f : A -> result B) (l : list A) (e : exn) :
  rmap_list f l = Raise e -> exists x, x ∈ l /\ f x = Raise e.
Proof.
  induction l as [|x l IH]; simpl; [done|].
  destruct (f x) as [y|e'] eqn:E; simpl.
  - destruct (rmap_list f l) as [ys|e']; simpl; [done|].
    intros [= ->]. destruct (IH eq_refl) as (z & Hz & Hfz).
    exists z. split; [by right | done].
  - intros [= ->]. exists x. split; [by left | done].
Qed.

(** X19.  [peers] never fails with a division by zero: the average is
    computed only when the three counts do not add up to zero.  A peer
    whose integer counts add up to zero is kept with [None] as its
    average; a peer with another total has the rating average
    [(5*buy + 3*hold + sell) / (buy + hold + sell)] rounded to two
    decimals. *)
Theorem peers_guard_zero_total (payload item : value) :
  peers_of payload <> Raise ZeroDivisionError
  /\ reshape_peer item <> Raise ZeroDivisionError
  /\ (forall ticker name target (b h s : Z),
        getitem item "ticker" = Ok ticker -> getitem item "name" = Ok name ->
        consensus_entry item "nB" = Ok (VInt b) ->
        consensus_entry item "nH" = Ok (VInt h) ->
        consensus_entry item "nS" = Ok (VInt s) ->
        consensus_entry item "priceTarget" = Ok target ->
        let average :=
          if (b + h + s =? 0)%Z then Ok VNone
          else let q := of_ratio (b * 5 + h * 3 + s) (b + h + s) in
               if is_inf q then Raise OverflowError
               else Ok (VFloat (round_ q 2)) in
        reshape_peer item
        = (a ← average;
           Ok (VDict [("ticker", ticker); ("name", name); ("buy", VInt b);
                      ("hold", VInt h); ("sell", VInt s); ("average", a);
                      ("average_price_target", target)]))).
Proof.
  split; [|split].
  - unfold peers_of.
    destruct (getitem payload "similarStocks") as [data|e] eqn:E1; simpl;
      [|intros [= ->]; by apply getitem_zde in E1].
    destruct (iter data) as [items|e] eqn:E2; simpl;
      [|intros [= ->]; by destruct data].
    intros (x & _ & Hx)%rmap_list_raises. by apply reshape_peer_zde in Hx.
  - apply reshape_peer_zde.
  - intros ticker name target b h s Ht Hn Hb Hh Hs Hp average.
    unfold reshape_peer. rewrite Ht, Hn, Hb, Hh, Hs, Hp.
    cbn [mbind result_bind]. unfold add_value at 1 2.
    cbn [as_int mbind result_bind].
    unfold average. destruct (Z.eqb_spec (b + h + s) 0) as [Hz|Hz].
    + rewrite Hz. reflexivity.
    + apply ne_zero_int in Hz as Hnz. rewrite Hnz.
      unfold weighted_average, mul_int, add_value.
      cbn [as_int default mbind result_bind]. unfold truediv_value.
      cbn [is_number is_float dyadic andb orb negb].
      apply Z.eqb_neq in Hz. rewrite Hz. by destruct (is_inf _).
Qed.

Lemma peers_guard_zero_total_witness :
  reshape_peer (peer_item "MSFT" 0 0 0)
  = Ok (VDict [("ticker", VStr "MSFT"); ("name", VStr "Peer");
               ("buy", VInt 0); ("hold", VInt 0); ("sell", VInt 0);
               ("average", VNone);
               ("average_price_target", VFloat (Float64.of_Z 10))]).
Proof.
  exact (proj2 (proj2 (peers_guard_zero_total VNone (peer_item "MSFT" 0 0 0)))
           (VStr "MSFT") (VStr "Peer") (VFloat (Float64.of_Z 10)) 0 0 0
           eq_refl eq_refl eq_refl eq_refl eq_refl eq_refl).
Defined.

(** ** The dicts that are filled item by item *)

Local Close Scope string_scope.

Lemma dict_get_set {K V} `{!EqDecision K} (d : list (K * V)) (k k' : K)
    (v : V) :
  dict_get (dict_set d k v) k'
  = if decide (k' = k) then Some v else dict_get d k'.
Proof.
  induction d as [|[k0 v0] d IH]; simpl.
  - destruct (decide (k' = k)); done.
  - destruct (decide (k = k0)) as [->|Hk]; simpl.
    + destruct (decide (k' = k0)); done.
    + destruct (decide (k' = k0)) as [->|Hk'].
      * by destruct (decide (k0 = k)) as [->|].
      * apply IH.
Qed.

Lemma dict_set_keys {K V} `{!EqDecision K} (d : list (K * V)) (k : K)
    (v : V) :
  (dict_set d k v).*1 = if decide (k ∈ d.*1) then d.*1 else d.*1 ++ [k].
Proof.
  induction d as [|[k0 v0] d IH]; cbn [dict_set].
  - rewrite decide_False; [done|]. apply not_elem_of_nil.
  - rewrite !fmap_cons. cbn [fst].
    destruct (decide (k = k0)) as [->|Hk].
    + rewrite decide_True; [done|]. by left.
    + rewrite fmap_cons, IH. cbn [fst].
      destruct (decide (k ∈ d.*1)) as [H|H].
      * rewrite decide_True; [done|]. by right.
      * rewrite decide_False; [done|].
        intros [H'|H']%elem_of_cons; done.
Qed.

Lemma dict_set_values {K V} `{!EqDecision K} (P : V -> Prop)
    (d : list (K * V)) (k : K) (v : V) :
  Forall (fun kv => P kv.2) d -> P v ->
  Forall (fun kv => P kv.2) (dict_set d k v).
Proof.
  intros Hd Hv. induction Hd as [|[k0 v0] d H0 Hd IH]; simpl.
  - by repeat constructor.
  - destruct (decide (k = k0)); constructor; done.
Qed.

Lemma dict_get_elem {K V} `{!EqDecision K} (d : list (K * V)) (k : K) (v : V) :
  dict_get d k = Some v -> (k, v) ∈ d.
Proof.
  induction d as [|[k0 v0] d IH]; simpl; [done|].
  destruct (decide (k = k0)) as [->|].
  - intros [= ->]. by left.
  - intros H. right. by apply IH.
Qed.

Lemma dict_get_app {K V} `{!EqDecision K} (d d' : list (K * V)) (k : K) :
  dict_get (d ++ d') k
  = match dict_get d k with
    | Some v => Some v
    | None => dict_get d' k
    end.
Proof.
  induction d as [|[k0 v0] d IH]; simpl; [done|].
  by destruct (decide (k = k0)).
Qed.

Lemma first_seen_app {K} `{!EqDecision K} (seen : list K) (ks : list K)
    (k : K) :
  first_seen seen (ks ++ [k])
  = first_seen seen ks
    ++ (if decide (k ∈ seen ++ ks) then [] else [k]).
Proof.
  revert seen. induction ks as [|k0 ks IH]; intros seen; cbn [first_seen app].
  - rewrite app_nil_r. by destruct (decide (k ∈ seen)).
  - destruct (decide (k0 ∈ seen)) as [H0|H0].
    + rewrite IH. f_equal. apply decide_ext.
      rewrite !elem_of_app, elem_of_cons. split; [tauto|].
      intros [H|[->|H]]; tauto.
    + rewrite IH. cbn [app]. f_equal. f_equal. apply decide_ext.
      rewrite !elem_of_cons, !elem_of_app, !elem_of_cons. tauto.
Qed.

Lemma first_seen_elem {K} `{!EqDecision K} (seen ks : list K) (k : K) :
  k ∈ first_seen seen ks <-> k ∈ ks /\ k ∉ seen.
Proof.
  revert seen. induction ks as [|k0 ks IH]; intros seen; simpl.
  - rewrite elem_of_nil. tauto.
  - destruct (decide (k0 ∈ seen)) as [H0|H0].
    + rewrite IH, elem_of_cons. split; [tauto|].
      intros [[->|H] Hs]; [done | tauto].
    + rewrite !elem_of_cons, IH, elem_of_cons.
      destruct (decide (k = k0)) as [->|]; tauto.
Qed.

Lemma first_seen_NoDup {K} `{!EqDecision K} (seen ks : list K) :
  NoDup (first_seen seen ks).
Proof.
  revert seen. induction ks as [|k0 ks IH]; intros seen; simpl.
  - constructor.
  - destruct (decide (k0 ∈ seen)); [apply IH|].
    constructor; [|apply IH]. rewrite first_seen_elem, elem_of_cons. tauto.
Qed.

Section Folds.
Context {S : Type}.

Lemma fold_result_app (step : S -> value -> result S) (s : S)
    (l l' : list value) :
  fold_result step s (l ++ l')
  = (s' ← fold_result step s l; fold_result step s' l').
Proof.
  revert s. induction l as [|x l IH]; intros s; simpl; [done|].
  destruct (step s x); simpl; [apply IH | done].
Qed.

Lemma fold_result_invariant (step : S -> value -> result S) (P : S -> Prop)
    (s s' : S) (l : list value) :
  (forall s x s', P s -> step s x = Ok s' -> P s') ->
  P s -> fold_result step s l = Ok s' -> P s'.
Proof.
  intros Hstep. revert s. induction l as [|x l IH]; intros s Hs; simpl.
  - by intros [= <-].
  - destruct (step s x) as [s1|] eqn:E; simpl; [|done].
    apply IH. by apply (Hstep s x).
Qed.

End Folds.

Lemma foldl_dict_get {K V} `{!EqDecision K} (acc pairs : list (K * V))
    (k : K) :
  dict_get (foldl (fun d kv => dict_set d kv.1 kv.2) acc pairs) k
  = match dict_get (reverse pairs) k with
    | Some v => Some v
    | None => dict_get acc k
    end.
Proof.
  induction pairs as [|[k0 v0] pairs IH] using rev_ind; [done|].
  rewrite foldl_app, reverse_app. cbn [foldl reverse app fst snd].
  rewrite dict_get_set, reverse_singleton. cbn [app dict_get].
  destruct (decide (k = k0)); [done | apply IH].
Qed.

Lemma foldl_dict_keys {K V} `{!EqDecision K} (acc pairs : list (K * V)) :
  (foldl (fun d kv => dict_set d kv.1 kv.2) acc pairs).*1
  = acc.*1 ++ first_seen acc.*1 pairs.*1.
Proof.
  induction pairs as [|[k0 v0] pairs IH] using rev_ind.
  - by rewrite app_nil_r.
  - rewrite foldl_app. cbn [foldl fst snd].
    rewrite dict_set_keys, IH, fmap_app.
    change ([(k0, v0)].*1) with [k0]. rewrite first_seen_app.
    assert (k0 ∈ acc.*1 ++ first_seen acc.*1 pairs.*1
            <-> k0 ∈ acc.*1 ++ pairs.*1) as Hiff.
    { rewrite !elem_of_app, first_seen_elem.
      destruct (decide (k0 ∈ acc.*1)); tauto. }
    destruct (decide (k0 ∈ acc.*1 ++ first_seen acc.*1 pairs.*1)) as [H|H].
    + rewrite decide_True by (by apply Hiff). by rewrite app_nil_r.
    + rewrite decide_False by (by rewrite <- Hiff). by rewrite app_assoc.
Qed.

Local Open Scope string_scope.

Section Trends.
Variable isodate : value -> result string.
Variable date_timestamp : value -> result Z.

Lemma ownership_step_entry (timestamps : bool)
    (acc : list (date_key * value)) (item : value) :
  ownership_trend_step isodate date_timestamp timestamps acc item
  = (kv ← ownership_entry isodate date_timestamp timestamps item;
     Ok (dict_set acc kv.1 kv.2)).
Proof.
  unfold ownership_trend_step, ownership_entry.
  destruct (getitem item "date") as [d|]; simpl; [|done].
  destruct (date_of _ _ _ d) as [date|]; simpl; [|done].
  by destruct (getitem item "holdingAmount") as [amount|].
Qed.

Lemma ownership_fold (timestamps : bool) (items : list value)
    (pairs acc : list (date_key * value)) :
  rmap_list (ownership_entry isodate date_timestamp timestamps) items
  = Ok pairs ->
  fold_result (ownership_trend_step isodate date_timestamp timestamps)
    acc items
  = Ok (foldl (fun d kv => dict_set d kv.1 kv.2) acc pairs).
Proof.
  revert pairs acc. induction items as [|item items IH]; intros pairs acc.
  - by intros [= <-].
  - cbn [rmap_list fold_result]. rewrite ownership_step_entry.
    destruct (ownership_entry _ _ _ item) as [kv|]; cbn [mbind result_bind];
      [|done].
    destruct (rmap_list _ items) as [ps|] eqn:E; cbn [mbind result_bind];
      [|done].
    intros [= <-]. cbn [foldl]. by apply IH.
Qed.

(** X20.  [institutional_ownership_trend] on items whose dates and
    amounts can all be read: the result has one entry for each date, in
    the order in which the dates first occur; when several items fall on
    one date, the amount of the last of them is the one that is kept. *)
Theorem ownership_trend_last_wins (timestamps : bool)
    (payload fund raw : value) (items : list value)
    (pairs : list (date_key * value)) :
  getitem payload "hedgeFundData" = Ok fund ->
  getitem fund "holdingsByTime" = Ok raw -> iter raw = Ok items ->
  rmap_list (ownership_entry isodate date_timestamp timestamps) items
  = Ok pairs ->
  exists data,
    institutional_ownership_trend_of isodate date_timestamp timestamps payload
    = Ok data
    /\ data.*1 = first_seen [] pairs.*1 /\ NoDup data.*1
    /\ (forall date, dict_get data date = dict_get (reverse pairs) date)
    /\ (forall date, date ∈ data.*1 <-> date ∈ pairs.*1).
Proof.
  intros Hfund Hraw Hitems Hpairs. eexists.
  unfold institutional_ownership_trend_of. rewrite Hfund. simpl.
  rewrite Hraw. simpl. rewrite Hitems. simpl.
  rewrite (ownership_fold _ _ _ _ Hpairs). split; [done|].
  assert ((foldl (fun (d : list (date_key * value)) kv =>
                    dict_set d kv.1 kv.2) [] pairs).*1
          = first_seen [] pairs.*1) as Hkeys
    by apply (foldl_dict_keys [] pairs).
  split; [done|]. split; [rewrite Hkeys; apply first_seen_NoDup|]. split.
  - intros date. rewrite foldl_dict_get. by destruct (dict_get _ _).
  - intros date. rewrite Hkeys, first_seen_elem, elem_of_nil. tauto.
Qed.

Lemma trend_step_dicts (timestamps : bool) (data data' : list (date_key * value))
    (item : value) :
  trend_step isodate date_timestamp timestamps data item = Ok data' ->
  Forall (fun kv => exists d, kv.2 = VDict d) data ->
  Forall (fun kv => exists d, kv.2 = VDict d) data'.
Proof.
  unfold trend_step. intros H Hd.
  repeat match type of H with
         | (?m ≫= _) = Ok _ =>
             let E := fresh "E" in
             destruct m eqn:E; cbn [mbind result_bind] in H; [|done]
         end.
  injection H as <-.
  apply (dict_set_values (fun v => exists d, v = VDict d)); [done|].
  match goal with
  | E : setitem _ "average_price_target" _ = Ok ?a |- exists d, ?a = _ =>
      unfold setitem in E;
      match type of E with
      | match ?x with _ => _ end = _ => destruct x; try done
      end;
      injection E as <-; by eexists
  end.
Qed.

(** X21.  [recommendation_trend] divides by the number of ratings without
    a check: when an item of [consensusOverTime] has integer counts that
    add up to zero, and the items before it were read, the method fails
    with [ZeroDivisionError] and returns nothing for any date. *)
Theorem trend_zero_total_raises (timestamps : bool) (data_raw all_raw : value)
    (pre post : list value) (item d consensus : value) (date : date_key)
    (acc : list (date_key * value)) (b h s : Z) :
  getitem data_raw "consensusOverTime" = Ok all_raw ->
  iter all_raw = Ok (pre ++ item :: post)%list ->
  fold_result (trend_step isodate date_timestamp timestamps) [] pre = Ok acc ->
  getitem item "date" = Ok d ->
  date_of isodate date_timestamp timestamps d = Ok date ->
  getitem item "consensus" = Ok consensus ->
  getitem item "buy" = Ok (VInt b) -> getitem item "hold" = Ok (VInt h) ->
  getitem item "sell" = Ok (VInt s) -> (b + h + s = 0)%Z ->
  weighted_average (VInt b) (VInt h) (VInt s) = Raise ZeroDivisionError
  /\ recommendation_trend_of isodate date_timestamp timestamps data_raw
     = Raise ZeroDivisionError.
Proof.
  intros Hall Hiter Hpre Hd Hdate Hc Hb Hh Hs Hzero.
  assert (weighted_average (VInt b) (VInt h) (VInt s)
          = Raise ZeroDivisionError) as Havg.
  { unfold weighted_average, mul_int, add_value.
    cbn [as_int default mbind result_bind]. unfold truediv_value.
    cbn [is_number is_float dyadic andb orb negb]. by rewrite Hzero. }
  split; [done|].
  unfold recommendation_trend_of. rewrite Hall. simpl. rewrite Hiter. simpl.
  rewrite fold_result_app, Hpre. cbn [mbind result_bind fold_result].
  assert (trend_step isodate date_timestamp timestamps acc item
          = Raise ZeroDivisionError) as ->; [|done].
  assert (Forall (fun kv : date_key * value => exists d, kv.2 = VDict d) acc)
    as Hdicts.
  { apply (fold_result_invariant
             (trend_step isodate date_timestamp timestamps) _ [] acc pre);
      [|constructor | done].
    intros s0 x s' Hs0 Hstep. by apply (trend_step_dicts _ _ _ _ Hstep). }
  unfold trend_step. rewrite Hd. simpl. rewrite Hdate. simpl.
  assert (exists e, default (VDict []) (dict_get acc date) = VDict e)
    as [e ->].
  { destruct (dict_get acc date) as [v|] eqn:Eg; simpl; [|by eexists].
    apply dict_get_elem in Eg. rewrite Forall_forall in Hdicts.
    by apply (Hdicts _ Eg). }
  rewrite Hc. simpl. rewrite Hb. simpl. rewrite Hh. simpl. rewrite Hs. simpl.
  by rewrite Havg.
Qed.

End Trends.

Lemma ownership_trend_last_wins_witness :
  exists data,
    institutional_ownership_trend_of plain_iso plain_timestamp false
      ownership_payload = Ok data
    /\ data.*1 = [DateStr "2020-01-01"; DateStr "2020-02-01"]
    /\ dict_get data (DateStr "2020-01-01") = Some (VInt 6).
Proof.
  destruct (ownership_trend_last_wins plain_iso plain_timestamp false
              ownership_payload _ _ _ _ eq_refl eq_refl eq_refl eq_refl)
    as (data & Hdata & Hkeys & _ & Hget & _).
  exists data. split; [done|]. split; [by rewrite Hkeys|]. by rewrite Hget.
Defined.

Lemma trend_zero_total_raises_witness :
  recommendation_trend_of plain_iso plain_timestamp false trend_payload
  = Raise ZeroDivisionError.
Proof.
  exact (proj2 (trend_zero_total_raises plain_iso plain_timestamp false
                  trend_payload _ [trend_item "2020-01-01" 1 1 1] []
                  (trend_item "2020-02-01" 0 0 0) _ _ _ _ 0 0 0
                  eq_refl eq_refl eq_refl eq_refl eq_refl eq_refl eq_refl
                  eq_refl eq_refl eq_refl)).
Defined.

End TipranksMoreFacts.

Module YahooStoreFacts.
Import PyVal TipranksMore YahooStore.
Local Open Scope string_scope.

(** ** The constructor *)

Section Net.
Variable get_text : string -> outcome string.
Variable get_json : string -> outcome value.
Variable findall_ticker : string -> string -> outcome (list string).
Variable upper : string -> string.

Lemma truthy_Some (s : option string) :
  truthy s = true -> exists t, s = Some t /\ t <> EmptyString.
Proof. destruct s as [[|a t]|]; try done. intros _. by eexists. Qed.

(** After a request the call returns what it has stored. *)
Lemma get_stored_data_fresh t r :
  _get_stored_data get_json t None = Done r -> r.2 = Some r.1.
Proof.
  unfold _get_stored_data.
  destruct (get_json _) as [data|]; cbn [mbind outcome_bind]; [|done].
  destruct (getitem data "quoteSummary") as [summary|];
    cbn [lift mbind outcome_bind]; [|done].
  destruct (getitem summary "error") as [err|];
    cbn [lift mbind outcome_bind]; [|done].
  destruct (negb (is_none err)); [done|].
  destruct (getitem summary "result") as [results|];
    cbn [lift mbind outcome_bind]; [|done].
  destruct (index results 0) as [first|];
    cbn [lift mbind outcome_bind]; [|done].
  by intros [= <-].
Qed.

(** X22.  [YahooReader.__init__]: without a ticker and an isin it raises
    [ValueError]; a ticker is upper-cased and no search is made; with an
    isin alone, a search that finds no ticker raises [ValueError].  When
    the quote summary of the ticker has an error that is not [None] the
    call raises [TickerError]; when it has none, the object is built with
    the first result of the summary as its stored data and with the
    [quoteType] and [shortName] entries of its [quoteType] as security
    type and name.  Every object the constructor returns is of this kind,
    and [_get_stored_data] on it returns the stored data without a
    request. *)
Theorem constructor_outcomes (ticker isin : option string) :
  let init := YahooReader_init get_text get_json findall_ticker upper in
  (truthy ticker = false -> truthy isin = false ->
   init ticker isin
   = Fail (Builtin (ValueError "Either ticker or isin has to be specified")))
  /\ (forall t, ticker = Some t -> t <> EmptyString ->
      init_ticker get_text findall_ticker upper ticker isin = Done (upper t))
  /\ (forall i response,
        truthy ticker = false -> isin = Some i -> i <> EmptyString ->
        get_text (isin_url i) = Done response ->
        findall_ticker i response = Done [] ->
        init ticker isin
        = Fail (Builtin (ValueError
                  "Cannot find a ticker that belongs to the given isin")))
  /\ (forall t data summary err,
        init_ticker get_text findall_ticker upper ticker isin = Done t ->
        get_json (_main_url +:+ t) = Done data ->
        getitem data "quoteSummary" = Ok summary ->
        getitem summary "error" = Ok err -> is_none err = false ->
        init ticker isin
        = Fail (TickerError ("no data found for ticker " +:+ t)))
  /\ (forall t data summary results stored quote security name,
        init_ticker get_text findall_ticker upper ticker isin = Done t ->
        get_json (_main_url +:+ t) = Done data ->
        getitem data "quoteSummary" = Ok summary ->
        getitem summary "error" = Ok VNone ->
        getitem summary "result" = Ok results ->
        index results 0 = Ok stored ->
        getitem stored "quoteType" = Ok quote ->
        getitem quote "quoteType" = Ok security ->
        getitem quote "shortName" = Ok name ->
        _get_stored_data get_json t None = Done (stored, Some stored)
        /\ init ticker isin
           = Done {| _ticker := t; _stored_data := stored;
                     _security_type := security; _name := name |})
  /\ (forall obj,
        init ticker isin = Done obj ->
        init_ticker get_text findall_ticker upper ticker isin
        = Done (_ticker obj)
        /\ _get_stored_data get_json (_ticker obj) None
           = Done (_stored_data obj, Some (_stored_data obj))
        /\ _get_stored_data get_json (_ticker obj) (Some (_stored_data obj))
           = Done (_stored_data obj, Some (_stored_data obj))
        /\ exists quote,
             getitem (_stored_data obj) "quoteType" = Ok quote
             /\ getitem quote "quoteType" = Ok (_security_type obj)
             /\ getitem quote "shortName" = Ok (_name obj)).
Proof.
  intros init. unfold init.
  assert (forall obj,
            YahooReader_init get_text get_json findall_ticker upper ticker isin
            = Done obj ->
            exists r quote,
              init_ticker get_text findall_ticker upper ticker isin
              = Done (_ticker obj)
              /\ _get_stored_data get_json (_ticker obj) None = Done r
              /\ r.1 = _stored_data obj
              /\ getitem (_stored_data obj) "quoteType" = Ok quote
              /\ getitem quote "quoteType" = Ok (_security_type obj)
              /\ getitem quote "shortName" = Ok (_name obj)) as Hbuilt.
  { intros obj. unfold YahooReader_init.
    destruct (init_ticker _ _ _ _ _) as [t|]; cbn [mbind outcome_bind]; [|done].
    destruct (_get_stored_data get_json t None) as [r|] eqn:E;
      cbn [mbind outcome_bind]; [|done].
    destruct (getitem r.1 "quoteType") as [quote|] eqn:Eq;
      cbn [lift mbind outcome_bind]; [|done].
    destruct (getitem quote "quoteType") as [security|] eqn:Es;
      cbn [lift mbind outcome_bind]; [|done].
    destruct (getitem quote "shortName") as [name|] eqn:En;
      cbn [lift mbind outcome_bind]; [|done].
    intros [= <-]. by exists r, quote. }
  split; [|split; [|split; [|split; [|split]]]].
  - intros Ht Hi. unfold YahooReader_init, init_ticker. by rewrite Ht, Hi.
  - intros t -> Hne. unfold init_ticker. by destruct t.
  - intros i response Ht -> Hne Htext Hfound.
    unfold YahooReader_init, init_ticker. rewrite Ht.
    assert (truthy (Some i) = true) as -> by by destruct i.
    change (default EmptyString (Some i)) with i.
    rewrite Htext. cbn [mbind outcome_bind]. by rewrite Hfound.
  - intros t data summary err Ht Hdata Hsummary Herr Hnone.
    unfold YahooReader_init. rewrite Ht. cbn [mbind outcome_bind].
    unfold _get_stored_data. rewrite Hdata. cbn [mbind outcome_bind].
    rewrite Hsummary. cbn [lift mbind outcome_bind].
    rewrite Herr. cbn [lift mbind outcome_bind]. by rewrite Hnone.
  - intros t data summary results stored quote security name
      Ht Hdata Hsummary Herr Hres Hfirst Hquote Hsec Hname.
    assert (_get_stored_data get_json t None = Done (stored, Some stored))
      as Hstored.
    { unfold _get_stored_data. rewrite Hdata. cbn [mbind outcome_bind].
      rewrite Hsummary. cbn [lift mbind outcome_bind].
      rewrite Herr. cbn [lift mbind outcome_bind is_none negb].
      rewrite Hres. cbn [lift mbind outcome_bind]. by rewrite Hfirst. }
    split; [done|]. unfold YahooReader_init. rewrite Ht.
    cbn [mbind outcome_bind]. rewrite Hstored.
    cbn [mbind outcome_bind fst]. rewrite Hquote.
    cbn [lift mbind outcome_bind]. by rewrite Hsec, Hname.
  - intros obj Hobj.
    destruct (Hbuilt obj Hobj) as (r & quote & Ht & Hr & E1 & Hq & Hs & Hn).
    pose proof (get_stored_data_fresh _ _ Hr) as E2.
    destruct r as [r1 r2]. simpl in E1, E2. subst r1 r2.
    split; [done|]. split; [done|]. split; [done|]. by exists quote.
Qed.

End Net.

Lemma constructor_outcomes_witness :
  YahooReader_init no_text (online (summary_of stored_sample)) no_match
    upper_of (Some "aapl") None
  = Done {| _ticker := "AAPL"; _stored_data := stored_sample;
            _security_type := VStr "EQUITY"; _name := VStr "Apple Inc." |}.
Proof.
  exact (proj2 (proj1 (proj2 (proj2 (proj2 (proj2
           (constructor_outcomes no_text (online (summary_of stored_sample))
              no_match upper_of (Some "aapl") None)))))
           "AAPL" _ _ _ _ _ _ _
           eq_refl eq_refl eq_refl eq_refl eq_refl eq_refl eq_refl eq_refl
           eq_refl)).
Defined.

(** ** The stored dicts *)

Lemma assoc_remove_key (k k' : string) (d : list (string * value)) :
  assoc k (remove_key k' d)
  = if String.eqb k k' then None else assoc k d.
Proof.
  induction d as [|[k0 v0] d IH]; simpl; [by destruct (String.eqb k k')|].
  destruct (String.eqb k' k0) eqn:E0.
  - apply String.eqb_eq in E0 as <-. rewrite IH.
    by destruct (String.eqb k k').
  - simpl. destruct (String.eqb k k0) eqn:E1; [|done].
    apply String.eqb_eq in E1 as <-. by rewrite String.eqb_sym, E0.
Qed.

Lemma assoc_dict_set (k k' : string) (v : value) (d : list (string * value)) :
  assoc k (dict_set d k' v) = if String.eqb k k' then Some v else assoc k d.
Proof.
  induction d as [|[k0 v0] d IH]; simpl.
  - done.
  - destruct (decide (k' = k0)) as [->|Hne]; simpl.
    + by destruct (String.eqb k k0).
    + destruct (String.eqb k k0) eqn:E1; [|done].
      apply String.eqb_eq in E1 as ->.
      apply String.eqb_neq in Hne. by rewrite String.eqb_sym, Hne.
Qed.

Lemma dict_set_again (k : string) (v : value) (d : list (string * value)) :
  dict_set (dict_set d k v) k v = dict_set d k v.
Proof.
  induction d as [|[k0 v0] d IH]; simpl.
  - by rewrite decide_True.
  - destruct (decide (k = k0)) as [->|Hne]; simpl.
    + by rewrite decide_True.
    + by rewrite decide_False, IH.
Qed.

Lemma rename_found (new old : string) (d : list (string * value)) (v : value) :
  assoc old d = Some v ->
  rename new old (VDict d)
  = (Done (), VDict (dict_set (remove_key old d) new v)).
Proof. intros H. unfold rename, pop. by rewrite H. Qed.

(** X23.  [ownership_breakdown] renames the keys in the dict that the
    object stores, not in a copy.  On stored data whose breakdown has the
    five keys the method reads, the first call returns the breakdown
    under the new names, without the old ones and without [maxAge], and
    leaves that same dict in the stored data; a second call on the object
    then fails with [KeyError] for [insidersPercentHeld] and changes
    nothing. *)
Theorem ownership_breakdown_not_repeatable (ticker : string)
    (s d : list (string * value)) (v1 v2 v3 v4 age : value) :
  assoc "majorHoldersBreakdown" s = Some (VDict d) ->
  assoc "insidersPercentHeld" d = Some v1 ->
  assoc "institutionsPercentHeld" d = Some v2 ->
  assoc "institutionsFloatPercentHeld" d = Some v3 ->
  assoc "institutionsCount" d = Some v4 ->
  assoc "maxAge" d = Some age ->
  exists d',
    let stored' := VDict (dict_set s "majorHoldersBreakdown" (VDict d')) in
    ownership_breakdown ticker (VDict s) = (Done (VDict d'), stored')
    /\ assoc "insider_ownership" d' = Some v1
    /\ assoc "institutions_ownership" d' = Some v2
    /\ assoc "institutions_ownership_float" d' = Some v3
    /\ assoc "count_institutions" d' = Some v4
    /\ Forall (fun k => assoc k d' = None)
         ["insidersPercentHeld"; "institutionsPercentHeld";
          "institutionsFloatPercentHeld"; "institutionsCount"; "maxAge"]
    /\ (forall k,
          k ∉ ["insidersPercentHeld"; "institutionsPercentHeld";
               "institutionsFloatPercentHeld"; "institutionsCount"; "maxAge";
               "insider_ownership"; "institutions_ownership";
               "institutions_ownership_float"; "count_institutions"] ->
          assoc k d' = assoc k d)
    /\ getitem stored' "majorHoldersBreakdown" = Ok (VDict d')
    /\ ownership_breakdown ticker stored'
       = (Fail (Builtin (KeyError "insidersPercentHeld")), stored').
Proof.
  intros Hs H1 H2 H3 H4 H5.
  set (d1 := dict_set (remove_key "insidersPercentHeld" d)
               "insider_ownership" v1).
  set (d2 := dict_set (remove_key "institutionsPercentHeld" d1)
               "institutions_ownership" v2).
  set (d3 := dict_set (remove_key "institutionsFloatPercentHeld" d2)
               "institutions_ownership_float" v3).
  set (d4 := dict_set (remove_key "institutionsCount" d3)
               "count_institutions" v4).
  set (d' := remove_key "maxAge" d4).
  assert (forall k, assoc k d' =
            if String.eqb k "maxAge" then None
            else if String.eqb k "count_institutions" then Some v4
            else if String.eqb k "institutionsCount" then None
            else if String.eqb k "institutions_ownership_float" then Some v3
            else if String.eqb k "institutionsFloatPercentHeld" then None
            else if String.eqb k "institutions_ownership" then Some v2
            else if String.eqb k "institutionsPercentHeld" then None
            else if String.eqb k "insider_ownership" then Some v1
            else if String.eqb k "insidersPercentHeld" then None
            else assoc k d) as Hd'.
  { intros k. unfold d', d4, d3, d2, d1.
    by rewrite !assoc_remove_key, !assoc_dict_set, !assoc_remove_key,
         !assoc_dict_set, !assoc_remove_key, !assoc_dict_set,
         !assoc_remove_key, !assoc_dict_set, !assoc_remove_key. }
  assert (getitem (VDict (dict_set s "majorHoldersBreakdown" (VDict d')))
            "majorHoldersBreakdown" = Ok (VDict d')) as Hget.
  { unfold getitem. by rewrite assoc_dict_set. }
  exists d'. cbn zeta. split; [|repeat split].
  - unfold ownership_breakdown, getitem. rewrite Hs. unfold and_then.
    rewrite (rename_found _ _ d v1 H1). fold d1.
    rewrite (rename_found _ _ d1 v2)
      by (unfold d1; by rewrite assoc_dict_set, assoc_remove_key).
    fold d2.
    rewrite (rename_found _ _ d2 v3)
      by (unfold d2, d1;
          by rewrite !assoc_dict_set, !assoc_remove_key, !assoc_dict_set,
               !assoc_remove_key).
    fold d3.
    rewrite (rename_found _ _ d3 v4)
      by (unfold d3, d2, d1;
          by rewrite !assoc_dict_set, !assoc_remove_key, !assoc_dict_set,
               !assoc_remove_key, !assoc_dict_set, !assoc_remove_key).
    fold d4. unfold pop.
    assert (assoc "maxAge" d4 = Some age) as ->; [|done].
    unfold d4, d3, d2, d1.
    by rewrite !assoc_dict_set, !assoc_remove_key, !assoc_dict_set,
         !assoc_remove_key, !assoc_dict_set, !assoc_remove_key,
         !assoc_dict_set, !assoc_remove_key.
  - by rewrite Hd'.
  - by rewrite Hd'.
  - by rewrite Hd'.
  - by rewrite Hd'.
  - repeat constructor; by rewrite Hd'.
  - intros k Hk. rewrite Hd'.
    repeat match goal with
           | |- context [String.eqb k ?lit] =>
               destruct (String.eqb_spec k lit) as [->|_];
               [exfalso; apply Hk; set_solver|]
           end.
    done.
  - exact Hget.
  - unfold ownership_breakdown. rewrite Hget. unfold and_then at 1.
    unfold rename at 1, pop. rewrite Hd'. cbn [String.eqb Ascii.eqb Bool.eqb].
    unfold store_back. by rewrite dict_set_again.
Qed.

Lemma ownership_breakdown_not_repeatable_witness :
  exists first stored',
    ownership_breakdown "AAPL" stored_sample = (Done first, stored')
    /\ getitem first "insider_ownership" = Ok (VInt 1)
    /\ ownership_breakdown "AAPL" stored'
       = (Fail (Builtin (KeyError "insidersPercentHeld")), stored').
Proof.
  destruct (ownership_breakdown_not_repeatable "AAPL" stored_entries breakdown
              (VInt 1) (VInt 2) (VInt 3) (VInt 4) (VInt 1)
              eq_refl eq_refl eq_refl eq_refl eq_refl eq_refl)
    as (d' & Hfirst & Hv1 & _ & _ & _ & _ & _ & _ & Hsecond).
  eexists _, _. split; [exact Hfirst|]. split; [|exact Hsecond].
  unfold getitem. by rewrite Hv1.
Defined.

End YahooStoreFacts.
